(** * RIR: bytecode interpreter (interp.c) and AST compiler (Compiler.cpp)

    A shallow embedding of the interpreter loop, its instructions, the call
    and dispatch protocol and the special-form lowering of the compiler,
    over an explicit model of the R heap.

    Conventions.
    - A [SEXP] is a pointer: an address into [heap].  Address 0 is C's NULL.
      Pointer comparison in the C code is comparison of addresses here.
    - Functions of the C code that read or write memory become functions in
      the monad [M], which threads the machine [State] and has the outcomes
      the C code has: normal return, an R error, a longjmp in flight, a
      failed assertion, and C undefined behaviour.
    - What GNU R provides (lookup, builtins, method dispatch, coercions) is the
      record [Host]; every definition below is parametric in it. *)

From Stdlib Require Import ZArith String List Bool Lia PrimFloat DecimalString.
From stdpp Require Import base list.

Local Open Scope Z_scope.

(** ** Pointers and R's type tags *)

Definition SEXP := nat.
Definition NULL : SEXP := 0%nat.

Definition SEXPTYPE := Z.
Definition NILSXP : SEXPTYPE := 0.
Definition SYMSXP : SEXPTYPE := 1.
Definition LISTSXP : SEXPTYPE := 2.
Definition CLOSXP : SEXPTYPE := 3.
Definition ENVSXP : SEXPTYPE := 4.
Definition PROMSXP : SEXPTYPE := 5.
Definition LANGSXP : SEXPTYPE := 6.
Definition SPECIALSXP : SEXPTYPE := 7.
Definition BUILTINSXP : SEXPTYPE := 8.
Definition CHARSXP : SEXPTYPE := 9.
Definition LGLSXP : SEXPTYPE := 10.
Definition INTSXP : SEXPTYPE := 13.
Definition REALSXP : SEXPTYPE := 14.
Definition CPLXSXP : SEXPTYPE := 15.
Definition STRSXP : SEXPTYPE := 16.
Definition DOTSXP : SEXPTYPE := 17.
Definition ANYSXP : SEXPTYPE := 18.
Definition VECSXP : SEXPTYPE := 19.
Definition EXPRSXP : SEXPTYPE := 20.
Definition BCODESXP : SEXPTYPE := 21.
Definition EXTPTRSXP : SEXPTYPE := 22.
Definition WEAKREFSXP : SEXPTYPE := 23.
Definition RAWSXP : SEXPTYPE := 24.
Definition S4SXP : SEXPTYPE := 25.

(** [NA_LOGICAL] and [NA_INTEGER] are both [INT_MIN]. *)
Definition NA_LOGICAL : Z := - 2147483648.
Definition NA_INTEGER : Z := - 2147483648.

(** The distinguished objects of the runtime.  In C they are extern
    pointers set up by the host; here they are fixed, pairwise distinct
    addresses. *)
Definition R_NilValue : SEXP := 1%nat.
Definition R_UnboundValue : SEXP := 2%nat.
Definition R_MissingArg : SEXP := 3%nat.
Definition R_TrueValue : SEXP := 4%nat.
Definition R_FalseValue : SEXP := 5%nat.
Definition R_LogicalNAValue : SEXP := 6%nat.
Definition R_DotsSymbol : SEXP := 7%nat.
Definition R_BaseEnv : SEXP := 8%nat.
Definition R_RestartToken : SEXP := 9%nat.
Definition getterPlaceholderSym : SEXP := 10%nat.
Definition setterPlaceholderSym : SEXP := 11%nat.
Definition quoteSym : SEXP := 12%nat.
Definition R_valueSym : SEXP := 13%nat.
Definition R_SubsetSym : SEXP := 14%nat.
Definition R_Subset2Sym : SEXP := 15%nat.
Definition R_NamesSymbol : SEXP := 16%nat.

(** ** Code objects

    [Code] is the header of a code object together with its instruction
    bytes and its source index table; [cfun] is the function object it
    belongs to ([function(c)] in C). *)
Definition OpcodeT := Z.

Record Code := mkCode {
  csrc : nat;               (* c->src: source pool key of the whole code *)
  stackLength : nat;        (* c->stackLength *)
  ccode : list OpcodeT;     (* code(c): the instruction bytes, c->codeSize of them *)
  csrcs : list nat;         (* src(c): one source pool key per instruction *)
  cfun : SEXP               (* function(c): the store of the owning function *)
}.

Definition codeSize (c : Code) : Z := Z.of_nat (length (ccode c)).

(** ** Heap objects

    [sxpinfo] keeps the header bits interp.c reads.  The payload follows the
    union of [sexprec_rjit]: three pointers ([cons_rjit]) or an int, and the
    data of a vector.  As in GNU R, closures, promises, environments and
    symbols use the same three pointer slots as a cons cell. *)
Record sxpinfo_struct := mkInfo {
  sx_type : SEXPTYPE;
  sx_obj : bool;
  sx_named : Z;
  sx_gp : Z
}.

(** The bytes of a RAWSXP that holds an [RCNTXT] followed by either a
    [RirContext] (closure call) or the saved pc (loop). *)
Record RirContext := mkRirContext {
  stackPointer : nat;
  saved_pc : option Z
}.

Inductive udata :=
| u_cons (car cdr tag : SEXP)
| u_int (i : Z)
| u_ints (d : list Z)
| u_reals (d : list float)
| u_ptrs (d : list SEXP)
| u_chars (s : string)
| u_cntxt (k : RirContext)
| u_code (c : Code)
| u_function (codes : list SEXP).

Record sexprec := mkSexp {
  sxpinfo : sxpinfo_struct;
  attrib : SEXP;
  u : udata
}.

(** ** Evaluation contexts

    The fields of [RCNTXT] that the interpreter touches.  [cstore] is the
    address of the RAWSXP the context lives in (NULL for a context on the
    C stack); it identifies the context and its [cjmpbuf]. *)
Definition CTXT_TOPLEVEL : Z := 0.
Definition CTXT_NEXT : Z := 1.
Definition CTXT_BREAK : Z := 2.
Definition CTXT_LOOP : Z := 3.
Definition CTXT_FUNCTION : Z := 4.
Definition CTXT_RETURN : Z := 12.
Definition CTXT_GENERIC : Z := 20.

Record RCNTXT := mkRCNTXT {
  cstore : SEXP;
  callflag : Z;
  promargs : SEXP;
  callfun : SEXP;
  sysparent : SEXP;
  call : SEXP;
  cloenv : SEXP;
  cenddata : nat
}.

(** Entry points of the host that the interpreter calls; [hostLog] records
    them in the order they are invoked (most recent first). *)
Inductive HostCall :=
| HC_findVar (sym env : SEXP)
| HC_ddfindVar (sym env : SEXP)
| HC_findFun (sym env : SEXP)
| HC_defineVar (sym val env : SEXP)
| HC_forcePromise (p : SEXP)
| HC_compiler (body : SEXP)
| HC_cfun (op : SEXP)
| HC_applyClosure (op : SEXP)
| HC_closureArgumentAdaptor (op : SEXP)
| HC_possible_dispatch (selector : SEXP)
| HC_usemethod (selector obj : SEXP)
| HC_subset (op : SEXP)
| HC_shallow_duplicate (x : SEXP).

(** ** Machine state *)
Record State := mkState {
  heap : list sexprec;
  ostack : list SEXP;                  (* ctx->ostack, top of stack first *)
  cp_pool : list SEXP;                 (* ctx->cp: constant pool *)
  src_pool : list SEXP;                (* ctx->src: source pool *)
  R_Visible : bool;
  R_GlobalContext : list RCNTXT;       (* current context first, then nextcontext *)
  R_ReturnedValue : SEXP;
  R_Warnings : list (SEXP * string);   (* warningcall(call, msg), latest first *)
  evalcount : Z;                       (* static int evalcount of rirEval *)
  hostLog : list HostCall
}.

Definition set_heap (h : list sexprec) (s : State) : State :=
  mkState h (ostack s) (cp_pool s) (src_pool s) (R_Visible s)
          (R_GlobalContext s) (R_ReturnedValue s) (R_Warnings s) (evalcount s) (hostLog s).
Definition set_ostack (o : list SEXP) (s : State) : State :=
  mkState (heap s) o (cp_pool s) (src_pool s) (R_Visible s)
          (R_GlobalContext s) (R_ReturnedValue s) (R_Warnings s) (evalcount s) (hostLog s).
Definition set_R_Visible (b : bool) (s : State) : State :=
  mkState (heap s) (ostack s) (cp_pool s) (src_pool s) b
          (R_GlobalContext s) (R_ReturnedValue s) (R_Warnings s) (evalcount s) (hostLog s).
Definition set_R_GlobalContext (c : list RCNTXT) (s : State) : State :=
  mkState (heap s) (ostack s) (cp_pool s) (src_pool s) (R_Visible s)
          c (R_ReturnedValue s) (R_Warnings s) (evalcount s) (hostLog s).
Definition set_R_ReturnedValue (v : SEXP) (s : State) : State :=
  mkState (heap s) (ostack s) (cp_pool s) (src_pool s) (R_Visible s)
          (R_GlobalContext s) v (R_Warnings s) (evalcount s) (hostLog s).
Definition set_R_Warnings (w : list (SEXP * string)) (s : State) : State :=
  mkState (heap s) (ostack s) (cp_pool s) (src_pool s) (R_Visible s)
          (R_GlobalContext s) (R_ReturnedValue s) w (evalcount s) (hostLog s).
Definition set_evalcount (n : Z) (s : State) : State :=
  mkState (heap s) (ostack s) (cp_pool s) (src_pool s) (R_Visible s)
          (R_GlobalContext s) (R_ReturnedValue s) (R_Warnings s) n (hostLog s).
Definition set_hostLog (l : list HostCall) (s : State) : State :=
  mkState (heap s) (ostack s) (cp_pool s) (src_pool s) (R_Visible s)
          (R_GlobalContext s) (R_ReturnedValue s) (R_Warnings s) (evalcount s) l.

(** ** Outcomes and the interpreter monad *)
Inductive outcome (A : Type) :=
| Ok (a : A) (s : State)                        (* returned normally *)
| RError (msg : string) (s : State)             (* Rf_error / errorcall *)
| LongJmp (target : SEXP) (mask : Z) (s : State) (* LONGJMP(cjmpbuf of target, mask) *)
| AssertFail (msg : string)                     (* assert(...) failed: abort *)
| Undef (msg : string)                          (* undefined behaviour of the C code *)
| OutOfFuel.
Arguments Ok {A} a s.
Arguments RError {A} msg s.
Arguments LongJmp {A} target mask s.
Arguments AssertFail {A} msg.
Arguments Undef {A} msg.
Arguments OutOfFuel {A}.

Definition M (A : Type) := State -> outcome A.

Definition ret {A} (a : A) : M A := fun s => Ok a s.
Definition bind {A B} (m : M A) (k : A -> M B) : M B :=
  fun s => match m s with
           | Ok a s' => k a s'
           | RError msg s' => RError msg s'
           | LongJmp t v s' => LongJmp t v s'
           | AssertFail msg => AssertFail msg
           | Undef msg => Undef msg
           | OutOfFuel => OutOfFuel
           end.

Declare Scope rir_scope.
Delimit Scope rir_scope with rir.
Notation "x <- c1 ;; c2" := (bind c1 (fun x => c2))
  (at level 100, c1 at next level, right associativity) : rir_scope.
Notation "c1 ;; c2" := (bind c1 (fun _ => c2))
  (at level 100, right associativity) : rir_scope.
Local Open Scope rir_scope.

Definition get_state : M State := fun s => Ok s s.
Definition gets {A} (f : State -> A) : M A := fun s => Ok (f s) s.
Definition modify (f : State -> State) : M unit := fun s => Ok tt (f s).
Definition error {A} (msg : string) : M A := fun s => RError msg s.
Definition undefined {A} (msg : string) : M A := fun _ => Undef msg.
Definition longjmp {A} (target : SEXP) (mask : Z) : M A := fun s => LongJmp target mask s.

(** Conditionals in the shape of the C code; [andM] and [orM] evaluate their
    second operand as [&&] and [||] do. *)
Definition when (b : bool) (m : M unit) : M unit := if b then m else ret tt.
Definition andM (a b : M bool) : M bool :=
  bind a (fun x => if (x : bool) then b else ret false).
Definition orM (a b : M bool) : M bool :=
  bind a (fun x => if (x : bool) then ret true else b).

(** ** The host and the build *)

(** What the interpreter takes from GNU R and from the build.  The pure
    queries read the state; the others may run arbitrary R code. *)
Class Host := mkHost {
  (* build flags *)
  NDEBUG : bool;                 (* true: assert() compiles to nothing *)
  ENABLE_SLOWASSERT : bool;      (* true: SLOWASSERT is assert *)
  COMPILE_ON_DEMAND : bool;
  double_to_int : float -> Z;    (* the conversion (int)d of the platform *)
  DOTS_ARG_IDX : Z;              (* BC_inc.h *)
  MISSING_ARG_IDX : Z;
  MAX_NUM_ARGS : Z;
  (* coercions and queries *)
  Rf_length : State -> SEXP -> Z;
  asLogical : State -> SEXP -> Z;
  asInteger : State -> SEXP -> Z;
  getAttrib : State -> SEXP -> SEXP -> SEXP;
  R_has_methods : State -> SEXP -> bool;
  R_FunTab_eval : Z -> Z;
  type2char : SEXPTYPE -> string;
  (* environments *)
  findVar : SEXP -> SEXP -> M SEXP;
  Rf_ddfindVar : SEXP -> SEXP -> M SEXP;
  findFun : SEXP -> SEXP -> M SEXP;
  defineVar : SEXP -> SEXP -> SEXP -> M unit;
  (* evaluation *)
  forcePromise : SEXP -> M SEXP;
  compiler : SEXP -> M SEXP;     (* ctx->compiler *)
  R_FunTab_cfun : Z -> SEXP -> SEXP -> SEXP -> SEXP -> M SEXP;
  applyClosure : SEXP -> SEXP -> SEXP -> SEXP -> SEXP -> M SEXP;
  closureArgumentAdaptor : SEXP -> SEXP -> SEXP -> SEXP -> SEXP -> M SEXP;
  closureDebug : SEXP -> SEXP -> SEXP -> SEXP -> M unit;
  endClosureDebug : SEXP -> SEXP -> SEXP -> M unit;
  (* method dispatch *)
  R_possible_dispatch : SEXP -> SEXP -> SEXP -> SEXP -> bool -> M SEXP;
  Rf_usemethod : string -> SEXP -> SEXP -> SEXP -> SEXP -> SEXP -> SEXP -> M (bool * SEXP);
  (* subsetting and copying *)
  do_subset_dflt : SEXP -> SEXP -> SEXP -> SEXP -> M SEXP;
  do_subset2_dflt : SEXP -> SEXP -> SEXP -> SEXP -> M SEXP;
  Rf_shallow_duplicate : SEXP -> M SEXP;
  Rf_install : string -> M SEXP;
  (* checks *)
  R_CheckStack : M unit;
  R_CheckUserInterrupt : M unit
}.

(** A call into the host is logged; the log is the interpreter's, so what the
    host returns keeps the interpreter's log with the call added. *)
Definition with_log {A} (l : list HostCall) (o : outcome A) : outcome A :=
  match o with
  | Ok a s => Ok a (set_hostLog l s)
  | RError msg s => RError msg (set_hostLog l s)
  | LongJmp t v s => LongJmp t v (set_hostLog l s)
  | AssertFail msg => AssertFail msg
  | Undef msg => Undef msg
  | OutOfFuel => OutOfFuel
  end.

Definition hostcall {A} (ev : HostCall) (m : M A) : M A :=
  fun s => with_log (ev :: hostLog s) (m s).

Section Runtime.
Context {H : Host}.

(** [assert(e)] and [SLOWASSERT(e)]. *)
Definition assert (b : bool) (msg : string) : M unit :=
  if NDEBUG then ret tt else if b then ret tt else (fun _ => AssertFail msg).

Definition SLOWASSERT (b : bool) (msg : string) : M unit :=
  if ENABLE_SLOWASSERT then assert b msg else ret tt.

(** ** Memory access *)

Definition deref (x : SEXP) : M sexprec :=
  fun s => if Nat.eqb x NULL then Undef "NULL pointer dereferenced"
           else match heap s !! x with
                | Some r => Ok r s
                | None => Undef "dangling pointer dereferenced"
                end.

Definition store (x : SEXP) (r : sexprec) : M unit :=
  fun s => if Nat.eqb x NULL then Undef "NULL pointer written"
           else match heap s !! x with
                | Some _ => Ok tt (set_heap (<[x := r]> (heap s)) s)
                | None => Undef "dangling pointer written"
                end.

(** Allocation returns the next free address; there is no collection. *)
Definition alloc (r : sexprec) : M SEXP :=
  fun s => Ok (length (heap s)) (set_heap (heap s ++ [r]) s).

Definition TYPEOF (x : SEXP) : M SEXPTYPE :=
  r <- deref x ;; ret (sx_type (sxpinfo r)).
Definition OBJECT (x : SEXP) : M bool :=
  r <- deref x ;; ret (sx_obj (sxpinfo r)).
Definition NAMED (x : SEXP) : M Z :=
  r <- deref x ;; ret (sx_named (sxpinfo r)).
Definition ATTRIB (x : SEXP) : M SEXP :=
  r <- deref x ;; ret (attrib r).

Definition with_named (n : Z) (r : sexprec) : sexprec :=
  mkSexp (mkInfo (sx_type (sxpinfo r)) (sx_obj (sxpinfo r)) n (sx_gp (sxpinfo r)))
         (attrib r) (u r).
Definition with_attrib (a : SEXP) (r : sexprec) : sexprec :=
  mkSexp (sxpinfo r) a (u r).
Definition with_u (d : udata) (r : sexprec) : sexprec :=
  mkSexp (sxpinfo r) (attrib r) d.

(** [named] is a two-bit field; it saturates at [NAMEDMAX]. *)
Definition NAMEDMAX : Z := 2.
Definition SET_NAMED (x : SEXP) (n : Z) : M unit :=
  r <- deref x ;; store x (with_named (n mod 4) r).
Definition INCREMENT_NAMED (x : SEXP) : M unit :=
  n <- NAMED x ;; when (negb (n =? NAMEDMAX)) (SET_NAMED x (n + 1)).
Definition MAYBE_SHARED (x : SEXP) : M bool :=
  n <- NAMED x ;; ret (1 <? n).
Definition SET_ATTRIB (x a : SEXP) : M unit :=
  r <- deref x ;; store x (with_attrib a r).

Definition isObject (x : SEXP) : M bool := OBJECT x.
Definition isLogical (x : SEXP) : M bool :=
  t <- TYPEOF x ;; ret (t =? LGLSXP).
Definition isEnvironment (x : SEXP) : M bool :=
  t <- TYPEOF x ;; ret (t =? ENVSXP).

Definition S4_OBJECT_MASK : Z := 16.
Definition DDVAL_MASK : Z := 1.
Definition IS_S4_OBJECT (x : SEXP) : M bool :=
  r <- deref x ;; ret (negb (Z.land (sx_gp (sxpinfo r)) S4_OBJECT_MASK =? 0)).
Definition DDVAL (x : SEXP) : M bool :=
  r <- deref x ;; ret (negb (Z.land (sx_gp (sxpinfo r)) DDVAL_MASK =? 0)).

(** The three pointer slots, under their names for lists, promises and
    closures. *)
Definition slots (x : SEXP) : M (SEXP * SEXP * SEXP) :=
  r <- deref x ;;
  match u r with
  | u_cons a d t => ret (a, d, t)
  | _ => undefined "object has no pointer slots"
  end.
Definition CAR (x : SEXP) : M SEXP := p <- slots x ;; ret (fst (fst p)).
Definition CDR (x : SEXP) : M SEXP := p <- slots x ;; ret (snd (fst p)).
Definition TAG (x : SEXP) : M SEXP := p <- slots x ;; ret (snd p).
Definition CADR (x : SEXP) : M SEXP := d <- CDR x ;; CAR d.
Definition SETCAR (x v : SEXP) : M unit :=
  r <- deref x ;; p <- slots x ;; store x (with_u (u_cons v (snd (fst p)) (snd p)) r).
Definition SETCDR (x v : SEXP) : M unit :=
  r <- deref x ;; p <- slots x ;; store x (with_u (u_cons (fst (fst p)) v (snd p)) r).
Definition SET_TAG (x v : SEXP) : M unit :=
  r <- deref x ;; p <- slots x ;; store x (with_u (u_cons (fst (fst p)) (snd (fst p)) v) r).

Definition PRINTNAME := CAR.
Definition CHAR (x : SEXP) : M string :=
  r <- deref x ;;
  match u r with
  | u_chars n => ret n
  | _ => undefined "CHAR of an object that is not a CHARSXP"
  end.
Definition PRVALUE := CAR.
Definition PRCODE := CDR.
Definition PRENV := TAG.
Definition SET_PRVALUE := SETCAR.
Definition FORMALS := CAR.
Definition BODY := CDR.
Definition CLOENV := TAG.
Definition SET_FORMALS := SETCAR.
Definition SET_BODY := SETCDR.
Definition SET_CLOENV := SET_TAG.

(** Vector data.  [LOGICAL(x)[0]] on an empty or non-integer vector reads
    memory that is not there. *)
Definition INTEGER0 (x : SEXP) : M Z :=
  r <- deref x ;;
  match u r with
  | u_ints (i :: _) => ret i
  | _ => undefined "INTEGER(x)[0] of an object without integer data"
  end.
Definition LOGICAL0 := INTEGER0.
Definition REAL0 (x : SEXP) : M float :=
  r <- deref x ;;
  match u r with
  | u_reals (d :: _) => ret d
  | _ => undefined "REAL(x)[0] of an object without real data"
  end.
Definition INTEGER (x : SEXP) : M (list Z) :=
  r <- deref x ;;
  match u r with
  | u_ints d => ret d
  | _ => undefined "INTEGER(x) of an object without integer data"
  end.
Definition VECTOR_ELT (x : SEXP) (i : nat) : M SEXP :=
  r <- deref x ;;
  match u r with
  | u_ptrs d => match d !! i with
                | Some e => ret e
                | None => undefined "VECTOR_ELT out of bounds"
                end
  | _ => undefined "VECTOR_ELT of an object without elements"
  end.

(** Constructors of the host that only allocate. *)
Definition new_sexp (t : SEXPTYPE) (d : udata) : sexprec :=
  mkSexp (mkInfo t false 0 0) R_NilValue d.
Definition CONS_NR (a d : SEXP) : M SEXP :=
  alloc (new_sexp LISTSXP (u_cons a d R_NilValue)).
Definition LCONS (a d : SEXP) : M SEXP :=
  alloc (new_sexp LANGSXP (u_cons a d R_NilValue)).
Definition mkPROMISE (expr rho : SEXP) : M SEXP :=
  alloc (new_sexp PROMSXP (u_cons R_UnboundValue expr rho)).
Definition Rf_NewEnvironment (names vals enclos : SEXP) : M SEXP :=
  alloc (new_sexp ENVSXP (u_cons vals enclos R_NilValue)).
Definition allocSExp (t : SEXPTYPE) : M SEXP :=
  alloc (new_sexp t (u_cons R_NilValue R_NilValue R_NilValue)).
Definition allocReal1 : M SEXP := alloc (new_sexp REALSXP (u_reals [0%float])).
Definition allocInt1 (t : SEXPTYPE) : M SEXP := alloc (new_sexp t (u_ints [0])).
Definition SET_REAL0 (x : SEXP) (v : float) : M unit :=
  r <- deref x ;;
  match u r with
  | u_reals (_ :: d) => store x (with_u (u_reals (v :: d)) r)
  | _ => undefined "REAL(x)[0] of an object without real data"
  end.
Definition SET_INTEGER0 (x : SEXP) (v : Z) : M unit :=
  r <- deref x ;;
  match u r with
  | u_ints (_ :: d) => store x (with_u (u_ints (v :: d)) r)
  | _ => undefined "INTEGER(x)[0] of an object without integer data"
  end.
(** [ScalarLogical] of GNU R returns the shared logical constants. *)
Definition ScalarLogical (x : Z) : SEXP :=
  if x =? NA_LOGICAL then R_LogicalNAValue
  else if x =? 0 then R_FalseValue else R_TrueValue.

End Runtime.

(** ** Value stack and pools (interp_context.h)

    Modelled from the spec: the value stack is a growable sequence of values
    with O(1) access by offset from the top; constant and source pool are
    append-only tables addressed by small integer keys.  A slot pointer
    [ostack_at(ctx, i)] is the depth [i]; [pos - 1] in C is one slot deeper,
    depth [i + 1]. *)
Section Stack.
Context {H : Host}.

Definition ostack_length : M nat := gets (fun s => length (ostack s)).
Definition ostack_push (v : SEXP) : M unit :=
  modify (fun s => set_ostack (v :: ostack s) s).
Definition ostack_top : M SEXP :=
  fun s => match ostack s with
           | v :: _ => Ok v s
           | [] => Undef "ostack_top of an empty stack"
           end.
Definition ostack_pop : M SEXP :=
  fun s => match ostack s with
           | v :: o => Ok v (set_ostack o s)
           | [] => Undef "ostack_pop of an empty stack"
           end.
Definition ostack_at (i : nat) : M SEXP :=
  fun s => match ostack s !! i with
           | Some v => Ok v s
           | None => Undef "ostack_at below the stack"
           end.
Definition ostack_set (i : nat) (v : SEXP) : M unit :=
  fun s => if decide (i < length (ostack s))%nat
           then Ok tt (set_ostack (<[i := v]> (ostack s)) s)
           else Undef "write below the stack".
(** [ostack_ensureSize] only reserves capacity. *)
Definition ostack_ensureSize (n : nat) : M unit := ret tt.
(** [rl_setLength(&ctx->ostack, n)]: keep the [n] oldest slots. *)
Definition rl_setLength (n : nat) : M unit :=
  fun s => if decide (n <= length (ostack s))%nat
           then Ok tt (set_ostack (drop (length (ostack s) - n) (ostack s)) s)
           else Undef "rl_setLength beyond the stack".

Definition cp_pool_at (i : Z) : M SEXP :=
  fun s => match cp_pool s !! Z.to_nat i with
           | Some v => Ok v s
           | None => Undef "cp_pool_at out of range"
           end.
Definition src_pool_at (i : nat) : M SEXP :=
  fun s => match src_pool s !! i with
           | Some v => Ok v s
           | None => Undef "src_pool_at out of range"
           end.

(** [restoreCont]. *)
Definition restoreCont (k : RirContext) : M unit :=
  n <- ostack_length ;;
  SLOWASSERT (stackPointer k <=? n)%nat "ostack_length(ctx) >= (continuation)->stackPointer" ;;
  rl_setLength (stackPointer k).

(** Code and function objects (runtime.h).  Modelled from the spec: a
    function object is an ordered collection of code objects with a
    header naming the entry; [promise_] and [push_code_] carry an index into
    the collection. *)
Definition getCode (p : SEXP) : M Code :=
  r <- deref p ;;
  match u r with
  | u_code c => ret c
  | _ => undefined "not a code object"
  end.
Definition isValidCodeObject (p : SEXP) : M bool :=
  fun s => match heap s !! p with
           | Some r => Ok (match u r with u_code _ => true | _ => false end) s
           | None => Ok false s
           end.
Definition isValidFunctionSEXP (p : SEXP) : M bool :=
  fun s => match heap s !! p with
           | Some r => Ok (match u r with u_function _ => true | _ => false end) s
           | None => Ok false s
           end.
Definition isValidFunctionObject := isValidFunctionSEXP.
Definition codeAt (fn : SEXP) (idx : Z) : M SEXP :=
  r <- deref fn ;;
  match u r with
  | u_function codes =>
      match codes !! Z.to_nat idx with
      | Some p => ret p
      | None => undefined "codeAt out of range"
      end
  | _ => undefined "not a function object"
  end.
Definition functionCode (fn : SEXP) : M SEXP := codeAt fn 0.
Definition functionStore (fn : SEXP) : SEXP := fn.

End Stack.

(** ** Instruction stream *)

(** The opcodes of the dispatch switch of [evalRirCode]. *)
Inductive Opcode :=
| push_ | ldfun_ | ldvar_ | ldddvar_ | call_ | call_stack_ | promise_
| push_code_ | close_ | force_ | pop_ | asast_ | stvar_ | asbool_ | brobj_
| endcontext_ | brtrue_ | brfalse_ | br_ | dup_ | add_ | sub_ | lt_ | swap_
| put_ | pick_ | is_ | isspecial_ | isfun_ | inc_ | dup2_ | test_bounds_
| invisible_ | extract1_ | subset1_ | dispatch_ | uniq_ | aslogical_
| lgl_and_ | lgl_or_ | beginloop_ | ret_.

Definition all_opcodes : list Opcode :=
  [ push_; ldfun_; ldvar_; ldddvar_; call_; call_stack_; promise_;
    push_code_; close_; force_; pop_; asast_; stvar_; asbool_; brobj_;
    endcontext_; brtrue_; brfalse_; br_; dup_; add_; sub_; lt_; swap_;
    put_; pick_; is_; isspecial_; isfun_; inc_; dup2_; test_bounds_;
    invisible_; extract1_; subset1_; dispatch_; uniq_; aslogical_;
    lgl_and_; lgl_or_; beginloop_; ret_ ].

(** insns.h is generated into the enum [Opcode]; it numbers the
    instructions from 1 (0 is [invalid_]).  The numbers are those of the
    order above, and nothing below depends on which they are. *)
Definition decodeOpcode (b : OpcodeT) : option Opcode :=
  if b <=? 0 then None else all_opcodes !! (Z.to_nat (b - 1)).

Definition encodeOpcode (o : Opcode) : OpcodeT :=
  match o with
  | push_ => 1 | ldfun_ => 2 | ldvar_ => 3 | ldddvar_ => 4 | call_ => 5
  | call_stack_ => 6 | promise_ => 7 | push_code_ => 8 | close_ => 9 | force_ => 10
  | pop_ => 11 | asast_ => 12 | stvar_ => 13 | asbool_ => 14 | brobj_ => 15
  | endcontext_ => 16 | brtrue_ => 17 | brfalse_ => 18 | br_ => 19 | dup_ => 20
  | add_ => 21 | sub_ => 22 | lt_ => 23 | swap_ => 24 | put_ => 25
  | pick_ => 26 | is_ => 27 | isspecial_ => 28 | isfun_ => 29 | inc_ => 30
  | dup2_ => 31 | test_bounds_ => 32 | invisible_ => 33 | extract1_ => 34 | subset1_ => 35
  | dispatch_ => 36 | uniq_ => 37 | aslogical_ => 38 | lgl_and_ => 39 | lgl_or_ => 40
  | beginloop_ => 41 | ret_ => 42
  end.

(** The number of immediates of each instruction ([DEF_INSTR(name, imm, ...)]):
    as many as the instruction reads. *)
Definition immediates (o : Opcode) : Z :=
  match o with
  | push_ | ldfun_ | ldvar_ | ldddvar_ | promise_ | push_code_ | stvar_
  | brobj_ | brtrue_ | brfalse_ | br_ | put_ | pick_ | is_ | isspecial_
  | beginloop_ => 1
  | call_ | call_stack_ => 2
  | dispatch_ => 3
  | _ => 0
  end.

(** Sizes of the encoded fields: a one-byte opcode and four-byte arguments. *)
Definition sizeof_OpcodeT : Z := 1.
Definition sizeof_ArgT : Z := 4.

Section Bytecode.
Context {H : Host}.

Definition byte_at (c : Code) (pc : Z) : M Z :=
  if pc <? 0 then undefined "pc before the code"
  else match ccode c !! Z.to_nat pc with
       | Some b => ret b
       | None => undefined "pc past the code"
       end.

Definition advancePc (c : Code) (pc : Z) : M Z :=
  b <- byte_at c pc ;;
  match decodeOpcode b with
  | Some o => ret (pc + 1 + sizeof_ArgT * immediates o)
  | None => assert false "Unknown instruction" ;; ret (pc + 1)
  end.

Definition PC_BOUNDSCHECK (c : Code) (pc : Z) : M unit :=
  SLOWASSERT ((0 <=? pc) && (pc <? codeSize c)) "pc out of bounds".

Definition readOpcode (c : Code) (pc : Z) : M (OpcodeT * Z) :=
  b <- byte_at c pc ;; ret (b, pc + sizeof_OpcodeT).

(** Four bytes, least significant first. *)
Definition read_u32 (c : Code) (pc : Z) : M Z :=
  b0 <- byte_at c pc ;; b1 <- byte_at c (pc + 1) ;;
  b2 <- byte_at c (pc + 2) ;; b3 <- byte_at c (pc + 3) ;;
  ret (b0 + 256 * b1 + 65536 * b2 + 16777216 * b3).
Definition to_int32 (v : Z) : Z :=
  if v <? 2147483648 then v else v - 4294967296.

Definition readImmediate (c : Code) (pc : Z) : M (Z * Z) :=
  v <- read_u32 c pc ;; ret (v, pc + 4).
Definition readSignedImmediate (c : Code) (pc : Z) : M (Z * Z) :=
  v <- read_u32 c pc ;; ret (to_int32 v, pc + 4).
Definition readConst (c : Code) (pc : Z) : M (SEXP * Z) :=
  i <- readImmediate c pc ;; v <- cp_pool_at (fst i) ;; ret (v, snd i).
Definition readJumpOffset (c : Code) (pc : Z) : M (Z * Z) :=
  v <- read_u32 c pc ;; ret (to_int32 v, pc + 4).

(** [while ((x = advancePc(x)) != pc) ++insIdx;] the walk ends because every
    step moves [x] forward; past the code it reads out of bounds. *)
Fixpoint insIdx_loop (fuel : nat) (c : Code) (x pc : Z) (insIdx : nat) : M nat :=
  match fuel with
  | O => undefined "instruction walk ran past the code"
  | S fuel' =>
      x' <- advancePc c x ;;
      if x' =? pc then ret insIdx else insIdx_loop fuel' c x' pc (S insIdx)
  end.
Definition current_insIdx (c : Code) (pc : Z) : M nat :=
  insIdx_loop (S (length (ccode c))) c 0 pc 0.

Definition src_at (c : Code) (insIdx : nat) : M nat :=
  match csrcs c !! insIdx with
  | Some k => ret k
  | None => undefined "src(c) out of range"
  end.

Definition getSrcAt (c : Code) (pc : Z) : M SEXP :=
  insIdx <- current_insIdx c pc ;;
  sidx <- src_at c insIdx ;;
  src_pool_at (if Nat.eqb sidx 0 then csrc c else sidx).

Definition getSrcForCall (c : Code) (pc : Z) : M SEXP :=
  insIdx <- current_insIdx c pc ;;
  sidx <- src_at c insIdx ;;
  assert (negb (Nat.eqb sidx 0)) "sidx" ;;
  src_pool_at sidx.

End Bytecode.

(** ** Contexts, promises, escaping *)
Section Helpers.
Context {H : Host}.

(** [assert(e)] where [e] reads memory: compiled out, [e] is not evaluated. *)
Definition assertM (mb : M bool) (msg : string) : M unit :=
  if NDEBUG then ret tt else (b <- mb ;; assert b msg).

(** Modelled from the spec: warnings are reported through the host and do
    not interrupt execution; [errorcall] and [Rf_error] transfer control to
    the host's handler. *)
Definition warningcall (call_ast : SEXP) (msg : string) : M unit :=
  modify (fun s => set_R_Warnings ((call_ast, msg) :: R_Warnings s) s).
Definition errorcall {A} (call_ast : SEXP) (msg : string) : M A := error msg.

(** Modelled from the spec: the frame primitives install a frame at the head
    of the chain and pop it again. *)
Definition Rf_begincontext (store_ : SEXP) (flags : Z)
    (syscall env sysp pargs fn : SEXP) : M unit :=
  modify (fun s => set_R_GlobalContext
     (mkRCNTXT store_ flags pargs fn sysp syscall env 0 :: R_GlobalContext s) s).

Fixpoint chain_after (store_ : SEXP) (l : list RCNTXT) : option (list RCNTXT) :=
  match l with
  | [] => None
  | k :: l' => if Nat.eqb (cstore k) store_ then Some l' else chain_after store_ l'
  end.
Definition Rf_endcontext (store_ : SEXP) : M unit :=
  fun s => match chain_after store_ (R_GlobalContext s) with
           | Some l => Ok tt (set_R_GlobalContext l s)
           | None => Undef "endcontext of a context that is not installed"
           end.
Definition endClosureContext (store_ : SEXP) (value : SEXP) : M unit :=
  Rf_endcontext store_.
Definition initClosureContext (syscall rho sysp pargs fn : SEXP) : M unit :=
  Rf_begincontext NULL CTXT_RETURN syscall rho sysp pargs fn.

Definition current_context : M RCNTXT :=
  fun s => match R_GlobalContext s with
           | k :: _ => Ok k s
           | [] => Undef "R_GlobalContext is NULL"
           end.
Definition set_current_context (k : RCNTXT) : M unit :=
  fun s => match R_GlobalContext s with
           | _ :: l => Ok tt (set_R_GlobalContext (k :: l) s)
           | [] => Undef "R_GlobalContext is NULL"
           end.
Definition with_cenddata (n : nat) (k : RCNTXT) : RCNTXT :=
  mkRCNTXT (cstore k) (callflag k) (promargs k) (callfun k) (sysparent k)
           (call k) (cloenv k) n.
Definition with_callflag (f : Z) (k : RCNTXT) : RCNTXT :=
  mkRCNTXT (cstore k) f (promargs k) (callfun k) (sysparent k)
           (call k) (cloenv k) (cenddata k).

(** The RAWSXP that holds an [RCNTXT] and the words after it. *)
Definition alloc_cntxt_store : M SEXP :=
  alloc (new_sexp RAWSXP (u_cntxt (mkRirContext 0 None))).
Definition get_continuation (store_ : SEXP) : M RirContext :=
  r <- deref store_ ;;
  match u r with
  | u_cntxt k => ret k
  | _ => undefined "RAW(cntxt_store) does not hold a context"
  end.
Definition set_continuation (store_ : SEXP) (k : RirContext) : M unit :=
  r <- deref store_ ;; store store_ (with_u (u_cntxt k) r).

(** [createRirClosureContext]: returns the store, which is both [cntxt] and
    [continuation]. *)
Definition createRirClosureContext (call_ast env parent args op : SEXP) : M SEXP :=
  cntxt_store <- alloc_cntxt_store ;;
  ostack_push cntxt_store ;;
  g <- current_context ;;
  (if callflag g =? CTXT_GENERIC
   then Rf_begincontext cntxt_store CTXT_RETURN call_ast env (sysparent g) args op
   else Rf_begincontext cntxt_store CTXT_RETURN call_ast env parent args op) ;;
  n <- ostack_length ;;
  set_continuation cntxt_store (mkRirContext n None) ;;
  ret cntxt_store.

Definition endRirContext (value : SEXP) : M unit :=
  cntxt_store <- ostack_top ;;
  assertM (t <- TYPEOF cntxt_store ;; ret (t =? RAWSXP)) "TYPEOF(cntxt_store) == RAWSXP" ;;
  (if negb (Nat.eqb value NULL)
   then endClosureContext cntxt_store value
   else Rf_endcontext cntxt_store) ;;
  ostack_pop ;; ret tt.

(** [createPromise], the branch for [RIR_AS_PACKAGE == 0]. *)
Definition createPromise (code : SEXP) (env : SEXP) : M SEXP :=
  p <- mkPROMISE code env ;;
  c <- getCode code ;;
  a <- CONS_NR (functionStore (cfun c)) R_NilValue ;;
  SET_ATTRIB p a ;;
  ret p.

Definition promiseValue (promise : SEXP) : M SEXP :=
  v <- PRVALUE promise ;;
  if negb (Nat.eqb v NULL) && negb (Nat.eqb v R_UnboundValue)
  then
    assertM (t <- TYPEOF v ;; ret (negb (t =? PROMSXP))) "TYPEOF(promise) != PROMSXP" ;;
    SET_NAMED v 2 ;;
    ret v
  else hostcall (HC_forcePromise promise) (forcePromise promise).

Definition rirExpr (f : SEXP) : M SEXP :=
  isc <- isValidCodeObject f ;;
  if (isc : bool) then (c <- getCode f ;; src_pool_at (csrc c))
  else
    assertM (t <- TYPEOF f ;; ret (negb (t =? 31))) "TYPEOF(f) != 31" ;;
    isf <- isValidFunctionObject f ;;
    if (isf : bool)
    then (e <- functionCode f ;; c <- getCode e ;; src_pool_at (csrc c))
    else ret f.

(** [assert(!TYPEOF(val) != 31)] parses as [(!TYPEOF(val)) != 31]. *)
Definition escape (val : SEXP) : M SEXP :=
  isc <- isValidCodeObject val ;;
  val' <- (if (isc : bool) then rirExpr val else ret val) ;;
  assertM (t <- TYPEOF val' ;; ret (negb ((if t =? 0 then 1 else 0) =? 31)))
          "!TYPEOF(val) != 31" ;;
  ret val'.

Definition jit (cls : SEXP) : M unit :=
  assertM (t <- TYPEOF cls ;; ret (t =? CLOSXP)) "TYPEOF(cls) == CLOSXP" ;;
  body <- BODY cls ;;
  tb <- TYPEOF body ;;
  if tb =? INTSXP then ret tt
  else
    body' <- (if tb =? BCODESXP then (d <- CDR body ;; VECTOR_ELT d 0) else ret body) ;;
    compiled <- hostcall (HC_compiler body') (compiler body') ;;
    SET_BODY cls compiled.

End Helpers.

(** ** The instructions

    [INSTRUCTION(name)] declares
    [ins_name(Code* c, SEXP env, OpcodeT** pc, Context* ctx, unsigned numArgs)];
    here [pc] goes in and the advanced [pc] comes out. *)
Section Instructions.
Context {H : Host}.

Definition ins_push_ (c : Code) (env : SEXP) (pc : Z) (numArgs : Z) : M Z :=
  x <- readConst c pc ;;
  modify (set_R_Visible true) ;;
  ostack_push (fst x) ;;
  ret (snd x).

Definition ins_ldfun_ (c : Code) (env : SEXP) (pc : Z) (numArgs : Z) : M Z :=
  sym <- readConst c pc ;;
  val <- hostcall (HC_findFun (fst sym) env) (findFun (fst sym) env) ;;
  (if Nat.eqb val R_UnboundValue then assert false "Unbound var"
   else if Nat.eqb val R_MissingArg then assert false "Missing argument"
   else ret tt) ;;
  t <- TYPEOF val ;;
  (if t =? CLOSXP then when COMPILE_ON_DEMAND (jit val)
   else if (t =? SPECIALSXP) || (t =? BUILTINSXP) then ret tt
   else error "attempt to apply non-function") ;;
  ostack_push val ;;
  ret (snd sym).

Definition ins_ldddvar_ (c : Code) (env : SEXP) (pc : Z) (numArgs : Z) : M Z :=
  sym <- readConst c pc ;;
  val <- hostcall (HC_ddfindVar (fst sym) env) (Rf_ddfindVar (fst sym) env) ;;
  modify (set_R_Visible true) ;;
  (if Nat.eqb val R_UnboundValue then error "object not found"
   else if Nat.eqb val R_MissingArg then error "argument is missing, with no default"
   else ret tt) ;;
  t <- TYPEOF val ;;
  val <- (if t =? PROMSXP then promiseValue val else ret val) ;;
  n <- NAMED val ;;
  when ((n =? 0) && negb (Nat.eqb val R_NilValue)) (SET_NAMED val 1) ;;
  ostack_push val ;;
  ret (snd sym).

(** [Rf_error("argument \"%s\" is missing, with no default", CHAR(PRINTNAME(sym)))] *)
Definition dquote : string := String (Ascii.ascii_of_nat 34) EmptyString.
Definition missing_arg_msg (name : string) : string :=
  ("argument " ++ dquote ++ name ++ dquote ++ " is missing, with no default")%string.

Definition ins_ldvar_ (c : Code) (env : SEXP) (pc : Z) (numArgs : Z) : M Z :=
  sym <- readConst c pc ;;
  val <- hostcall (HC_findVar (fst sym) env) (findVar (fst sym) env) ;;
  modify (set_R_Visible true) ;;
  (if Nat.eqb val R_UnboundValue then error "object not found"
   else if Nat.eqb val R_MissingArg
   then (pn <- PRINTNAME (fst sym) ;; name <- CHAR pn ;; error (missing_arg_msg name))
   else ret tt) ;;
  t <- TYPEOF val ;;
  val <- (if t =? PROMSXP then promiseValue val else ret val) ;;
  n <- NAMED val ;;
  when ((n =? 0) && negb (Nat.eqb val R_NilValue)) (SET_NAMED val 1) ;;
  ostack_push val ;;
  ret (snd sym).

Definition ins_promise_ (c : Code) (env : SEXP) (pc : Z) (numArgs : Z) : M Z :=
  codeOffset <- readImmediate c pc ;;
  promiseCode <- codeAt (cfun c) (fst codeOffset) ;;
  p <- createPromise promiseCode env ;;
  ostack_push p ;;
  ret (snd codeOffset).

Definition ins_push_code_ (c : Code) (env : SEXP) (pc : Z) (numArgs : Z) : M Z :=
  codeOffset <- readImmediate c pc ;;
  promiseCode <- codeAt (cfun c) (fst codeOffset) ;;
  ostack_push promiseCode ;;
  ret (snd codeOffset).

Definition ins_close_ (c : Code) (env : SEXP) (pc : Z) (numArgs : Z) : M Z :=
  body <- ostack_pop ;;
  formals <- ostack_pop ;;
  result <- allocSExp CLOSXP ;;
  SET_FORMALS result formals ;;
  SET_BODY result body ;;
  SET_CLOENV result env ;;
  ostack_push result ;;
  ret pc.

Definition ins_force_ (c : Code) (env : SEXP) (pc : Z) (numArgs : Z) : M Z :=
  p <- ostack_pop ;;
  assertM (t <- TYPEOF p ;; ret (t =? PROMSXP)) "TYPEOF(p) == PROMSXP" ;;
  v <- promiseValue p ;;
  ostack_push v ;;
  ret pc.

Definition ins_pop_ (c : Code) (env : SEXP) (pc : Z) (numArgs : Z) : M Z :=
  ostack_pop ;; ret pc.

Definition ins_asast_ (c : Code) (env : SEXP) (pc : Z) (numArgs : Z) : M Z :=
  p <- ostack_pop ;;
  assertM (t <- TYPEOF p ;; ret (t =? PROMSXP)) "TYPEOF(p) == PROMSXP" ;;
  ast <- PRCODE p ;;
  t <- TYPEOF ast ;;
  ast <- (if t =? NILSXP then (k <- getCode ast ;; cp_pool_at (Z.of_nat (csrc k)))
          else ret ast) ;;
  assertM (t <- TYPEOF ast ;; ret (negb (t =? BCODESXP))) "TYPEOF(ast) != BCODESXP" ;;
  ostack_push ast ;;
  ret pc.

Definition ins_swap_ (c : Code) (env : SEXP) (pc : Z) (numArgs : Z) : M Z :=
  a <- ostack_pop ;;
  b <- ostack_pop ;;
  ostack_push a ;;
  ostack_push b ;;
  ret pc.

(** [while (i--) { *pos = *(pos - 1); pos--; }] *)
Fixpoint put_loop (i : nat) (pos : nat) : M nat :=
  match i with
  | O => ret pos
  | S i' => v <- ostack_at (S pos) ;; ostack_set pos v ;; put_loop i' (S pos)
  end.
Definition ins_put_ (c : Code) (env : SEXP) (pc : Z) (numArgs : Z) : M Z :=
  i <- readImmediate c pc ;;
  val <- ostack_at 0 ;;
  pos <- put_loop (Z.to_nat (fst i)) 0 ;;
  ostack_set pos val ;;
  ret (snd i).

(** [while (i--) { *pos = *(pos + 1); pos++; }] *)
Fixpoint pick_loop (i : nat) (pos : nat) : M nat :=
  match i with
  | O => ret pos
  | S i' => v <- ostack_at (pos - 1) ;; ostack_set pos v ;; pick_loop i' (pos - 1)%nat
  end.
Definition ins_pick_ (c : Code) (env : SEXP) (pc : Z) (numArgs : Z) : M Z :=
  i <- readImmediate c pc ;;
  val <- ostack_at (Z.to_nat (fst i)) ;;
  pos <- pick_loop (Z.to_nat (fst i)) (Z.to_nat (fst i)) ;;
  ostack_set pos val ;;
  ret (snd i).

Definition ins_is_ (c : Code) (env : SEXP) (pc : Z) (numArgs : Z) : M Z :=
  test <- ostack_pop ;;
  i <- readImmediate c pc ;;
  res <- (if (fst i =? NILSXP) || (fst i =? LGLSXP) || (fst i =? REALSXP)
          then (t <- TYPEOF test ;; ret (t =? fst i))
          else if fst i =? VECSXP
          then (t <- TYPEOF test ;; ret ((t =? VECSXP) || (t =? LISTSXP)))
          else if fst i =? LISTSXP
          then (t <- TYPEOF test ;; ret ((t =? LISTSXP) || (t =? NILSXP)))
          else (assert false "false" ;; undefined "res is read uninitialised")) ;;
  ostack_push (if (res : bool) then R_TrueValue else R_FalseValue) ;;
  ret (snd i).

Definition ins_stvar_ (c : Code) (env : SEXP) (pc : Z) (numArgs : Z) : M Z :=
  sym <- readConst c pc ;;
  assertM (t <- TYPEOF (fst sym) ;; ret (t =? SYMSXP)) "TYPEOF(sym) == SYMSXP" ;;
  v <- ostack_pop ;;
  val <- escape v ;;
  INCREMENT_NAMED val ;;
  hostcall (HC_defineVar (fst sym) val env) (defineVar (fst sym) val env) ;;
  ret (snd sym).

Definition ins_aslogical_ (c : Code) (env : SEXP) (pc : Z) (numArgs : Z) : M Z :=
  t <- ostack_top ;;
  r <- gets (fun s => asLogical s t) ;;
  ostack_pop ;;
  ostack_push (ScalarLogical r) ;;
  ret pc.

Definition is_lgl (x : Z) : bool := (x =? 1) || (x =? 0) || (x =? NA_LOGICAL).

Definition ins_lgl_or_ (c : Code) (env : SEXP) (pc : Z) (numArgs : Z) : M Z :=
  a2 <- ostack_pop ;; x2 <- LOGICAL0 a2 ;;
  a1 <- ostack_pop ;; x1 <- LOGICAL0 a1 ;;
  assert (is_lgl x1) "x1 == 1 || x1 == 0 || x1 == NA_LOGICAL" ;;
  assert (is_lgl x2) "x2 == 1 || x2 == 0 || x2 == NA_LOGICAL" ;;
  (if (x1 =? 1) || (x2 =? 1) then ostack_push R_TrueValue
   else if (x1 =? 0) && (x2 =? 0) then ostack_push R_FalseValue
   else ostack_push R_LogicalNAValue) ;;
  ret pc.

Definition ins_lgl_and_ (c : Code) (env : SEXP) (pc : Z) (numArgs : Z) : M Z :=
  a2 <- ostack_pop ;; x2 <- LOGICAL0 a2 ;;
  a1 <- ostack_pop ;; x1 <- LOGICAL0 a1 ;;
  assert (is_lgl x1) "x1 == 1 || x1 == 0 || x1 == NA_LOGICAL" ;;
  assert (is_lgl x2) "x2 == 1 || x2 == 0 || x2 == NA_LOGICAL" ;;
  (if (x1 =? 1) && (x2 =? 1) then ostack_push R_TrueValue
   else if (x1 =? 0) || (x2 =? 0) then ostack_push R_FalseValue
   else ostack_push R_LogicalNAValue) ;;
  ret pc.

Definition ins_asbool_ (c : Code) (env : SEXP) (pc : Z) (numArgs : Z) : M Z :=
  t <- ostack_top ;;
  len <- gets (fun s => Rf_length s t) ;;
  when (1 <? len)
       (ast <- getSrcAt c pc ;;
        warningcall ast
          "the condition has length > 1 and only the first element will be used") ;;
  cond <- (if 0 <? len
           then
             ty <- TYPEOF t ;;
             if ty =? LGLSXP then LOGICAL0 t
             else if ty =? INTSXP
             then (INTEGER0 t ;; gets (fun s => asLogical s t))
             else gets (fun s => asLogical s t)
           else ret NA_LOGICAL) ;;
  when (cond =? NA_LOGICAL)
       (msg <- (if negb (len =? 0)
                then (l <- isLogical t ;;
                      ret (if (l : bool) then "missing value where TRUE/FALSE needed"
                           else "argument is not interpretable as logical")%string)
                else ret "argument is of length zero"%string) ;;
        ast <- getSrcAt c pc ;;
        errorcall ast msg) ;;
  ostack_pop ;;
  ostack_push (if negb (cond =? 0) then R_TrueValue else R_FalseValue) ;;
  ret pc.

Definition ins_brobj_ (c : Code) (env : SEXP) (pc : Z) (numArgs : Z) : M Z :=
  offset <- readJumpOffset c pc ;;
  t <- ostack_top ;;
  o <- isObject t ;;
  let pc' := if (o : bool) then snd offset + fst offset else snd offset in
  PC_BOUNDSCHECK c pc' ;;
  ret pc'.

Definition ins_endcontext_ (c : Code) (env : SEXP) (pc : Z) (numArgs : Z) : M Z :=
  cntxt_store <- ostack_top ;;
  assertM (t <- TYPEOF cntxt_store ;; ret (t =? RAWSXP)) "TYPEOF(cntxt_store) == RAWSXP" ;;
  Rf_endcontext cntxt_store ;;
  ostack_pop ;;
  ret pc.

Definition ins_brtrue_ (c : Code) (env : SEXP) (pc : Z) (numArgs : Z) : M Z :=
  offset <- readJumpOffset c pc ;;
  v <- ostack_pop ;;
  let pc' := if Nat.eqb v R_TrueValue then snd offset + fst offset else snd offset in
  PC_BOUNDSCHECK c pc' ;;
  ret pc'.

Definition ins_brfalse_ (c : Code) (env : SEXP) (pc : Z) (numArgs : Z) : M Z :=
  offset <- readJumpOffset c pc ;;
  v <- ostack_pop ;;
  let pc' := if Nat.eqb v R_FalseValue then snd offset + fst offset else snd offset in
  PC_BOUNDSCHECK c pc' ;;
  ret pc'.

Definition ins_br_ (c : Code) (env : SEXP) (pc : Z) (numArgs : Z) : M Z :=
  offset <- readJumpOffset c pc ;;
  let pc' := snd offset + fst offset in
  PC_BOUNDSCHECK c pc' ;;
  ret pc'.

Definition ins_dup_ (c : Code) (env : SEXP) (pc : Z) (numArgs : Z) : M Z :=
  v <- ostack_top ;; ostack_push v ;; ret pc.

End Instructions.

Section Instructions2.
Context {H : Host}.

Definition ins_subset1_ (c : Code) (env : SEXP) (pc : Z) (numArgs : Z) : M Z :=
  idx <- ostack_pop ;;
  val <- ostack_pop ;;
  args <- CONS_NR idx R_NilValue ;;
  args <- CONS_NR val args ;;
  ast <- getSrcForCall c pc ;;
  res <- hostcall (HC_subset R_SubsetSym) (do_subset_dflt ast R_SubsetSym args env) ;;
  modify (set_R_Visible true) ;;
  ostack_push res ;;
  ret pc.

(** [IS_SIMPLE_SCALAR(x, type)] *)
Definition IS_SIMPLE_SCALAR (x : SEXP) (ty : SEXPTYPE) : M bool :=
  t <- TYPEOF x ;;
  r <- deref x ;;
  let len := match u r with
             | u_ints d => Z.of_nat (length d)
             | u_reals d => Z.of_nat (length d)
             | u_ptrs d => Z.of_nat (length d)
             | _ => 0
             end in
  ret ((t =? ty) && (len =? 1) && Nat.eqb (attrib r) R_NilValue).

(** A vector element as the bits the C code copies: an int or a double. *)
Inductive elt := elt_int (i : Z) | elt_real (d : float).
Definition vec_get (x : SEXP) (i : Z) : M elt :=
  r <- deref x ;;
  if i <? 0 then undefined "vector read before its data"
  else match u r with
       | u_ints d => match d !! Z.to_nat i with
                     | Some v => ret (elt_int v)
                     | None => undefined "vector read past its data"
                     end
       | u_reals d => match d !! Z.to_nat i with
                      | Some v => ret (elt_real v)
                      | None => undefined "vector read past its data"
                      end
       | _ => undefined "vector access of an object without data"
       end.
Definition vec_set0 (x : SEXP) (e : elt) : M unit :=
  match e with
  | elt_int v => SET_INTEGER0 x v
  | elt_real v => SET_REAL0 x v
  end.
Definition allocVector1 (ty : SEXPTYPE) : M SEXP :=
  if ty =? REALSXP then allocReal1 else allocInt1 ty.
Definition elt_to_int (e : elt) : Z :=
  match e with
  | elt_int v => v
  | elt_real d => double_to_int d
  end.

(** [unsigned type = TYPEOF(val) << 5 + TYPEOF(idx);] the sum binds tighter
    than the shift, in the case labels as well. *)
Definition shift_tag (tv ti : Z) : Z := Z.shiftl tv (5 + ti) mod 4294967296.

(** The body of [SIMPLECASE]: [None] is [goto fallback].  The index
    [int i = (int)idxaccess(idx)[0] - 1] is an [int]: the difference wraps
    around, as the sum of [inc_] does. *)
Definition SIMPLECASE (vectype idxtype : SEXPTYPE) (val idx : SEXP) : M (option SEXP) :=
  names <- gets (fun s => getAttrib s val R_NamesSymbol) ;;
  ss <- IS_SIMPLE_SCALAR idx idxtype ;;
  if negb (Nat.eqb names R_NilValue) || negb ss then ret None
  else
    sv <- IS_SIMPLE_SCALAR val vectype ;;
    sh <- MAYBE_SHARED val ;;
    res <- (if sv && negb sh then ret val else allocVector1 vectype) ;;
    e <- vec_get idx 0 ;;
    let i := to_int32 ((elt_to_int e - 1) mod 4294967296) in
    len <- gets (fun s => Rf_length s val) ;;
    if len <=? i then ret None
    else (v <- vec_get val i ;; vec_set0 res v ;; ret (Some res)).

Definition simple_cases : list (SEXPTYPE * SEXPTYPE) :=
  [ (REALSXP, REALSXP); (REALSXP, INTSXP); (REALSXP, LGLSXP);
    (INTSXP, REALSXP); (INTSXP, INTSXP); (INTSXP, LGLSXP);
    (LGLSXP, REALSXP); (LGLSXP, INTSXP); (LGLSXP, LGLSXP) ].

Definition ins_extract1_ (c : Code) (env : SEXP) (pc : Z) (numArgs : Z) : M Z :=
  idx <- ostack_pop ;;
  val <- ostack_pop ;;
  tv <- TYPEOF val ;;
  ti <- TYPEOF idx ;;
  let type := shift_tag tv ti in
  fast <- match find (fun p => shift_tag (fst p) (snd p) =? type) simple_cases with
          | Some p => SIMPLECASE (fst p) (snd p) val idx
          | None => ret None
          end ;;
  res <- match fast with
         | Some r => ret r
         | None =>
             args <- CONS_NR idx R_NilValue ;;
             args <- CONS_NR val args ;;
             ast <- getSrcForCall c pc ;;
             hostcall (HC_subset R_Subset2Sym) (do_subset2_dflt ast R_Subset2Sym args env)
         end ;;
  modify (set_R_Visible true) ;;
  ostack_push res ;;
  ret pc.

Definition NOT_IMPLEMENTED : M unit := assert false "false".

(** The bodies of [add_] and [sub_] behind their leading [assert(false)]. *)
Definition both_scalar_real (lhs rhs : SEXP) : M bool :=
  andM (t <- TYPEOF lhs ;; ret (t =? REALSXP))
 (andM (t <- TYPEOF rhs ;; ret (t =? REALSXP))
 (andM (gets (fun s => Rf_length s lhs =? 1))
       (gets (fun s => Rf_length s rhs =? 1)))).

Definition real_binop (op : float -> float -> float) : M unit :=
  rhs <- ostack_pop ;;
  lhs <- ostack_pop ;;
  fast <- both_scalar_real lhs rhs ;;
  if (fast : bool)
  then
    res <- allocReal1 ;;
    SET_NAMED res 1 ;;
    a <- REAL0 lhs ;; b <- REAL0 rhs ;;
    SET_REAL0 res (op a b) ;;
    ostack_push res
  else NOT_IMPLEMENTED.

Definition ins_add_ (c : Code) (env : SEXP) (pc : Z) (numArgs : Z) : M Z :=
  assert false "false" ;;
  real_binop PrimFloat.add ;;
  ret pc.

Definition ins_sub_ (c : Code) (env : SEXP) (pc : Z) (numArgs : Z) : M Z :=
  assert false "false" ;;
  real_binop PrimFloat.sub ;;
  ret pc.

Definition ins_lt_ (c : Code) (env : SEXP) (pc : Z) (numArgs : Z) : M Z :=
  rhs <- ostack_pop ;;
  lhs <- ostack_pop ;;
  fast <- both_scalar_real lhs rhs ;;
  (if (fast : bool)
   then
     res <- allocReal1 ;;
     SET_NAMED res 1 ;;
     a <- REAL0 lhs ;; b <- REAL0 rhs ;;
     ostack_push (if PrimFloat.ltb a b then R_TrueValue else R_FalseValue)
   else NOT_IMPLEMENTED) ;;
  ret pc.

Definition ins_isspecial_ (c : Code) (env : SEXP) (pc : Z) (numArgs : Z) : M Z :=
  sym <- readConst c pc ;;
  val <- hostcall (HC_findVar (fst sym) env) (findVar (fst sym) env) ;;
  assertM (t <- TYPEOF val ;; ret ((t =? SPECIALSXP) || (t =? BUILTINSXP)))
          "TYPEOF(val) == SPECIALSXP || TYPEOF(val) == BUILTINSXP" ;;
  ret (snd sym).

Definition ins_isfun_ (c : Code) (env : SEXP) (pc : Z) (numArgs : Z) : M Z :=
  val <- ostack_top ;;
  t <- TYPEOF val ;;
  (if t =? CLOSXP then jit val
   else if (t =? SPECIALSXP) || (t =? BUILTINSXP) then ret tt
   else error "attempt to apply non-function") ;;
  ret pc.

Definition ins_inc_ (c : Code) (env : SEXP) (pc : Z) (numArgs : Z) : M Z :=
  n <- ostack_top ;;
  assertM (t <- TYPEOF n ;; ret (t =? INTSXP)) "TYPEOF(n) == INTSXP" ;;
  i <- INTEGER0 n ;;
  sh <- MAYBE_SHARED n ;;
  (if (sh : bool)
   then
     ostack_pop ;;
     nn <- allocInt1 INTSXP ;;
     SET_INTEGER0 nn (to_int32 ((i + 1) mod 4294967296)) ;;
     ostack_push nn
   else SET_INTEGER0 n (to_int32 ((i + 1) mod 4294967296))) ;;
  ret pc.

Definition ins_test_bounds_ (c : Code) (env : SEXP) (pc : Z) (numArgs : Z) : M Z :=
  vec <- ostack_at 1 ;;
  idx <- ostack_at 0 ;;
  len <- gets (fun s => Rf_length s vec) ;;
  i <- gets (fun s => asInteger s idx) ;;
  ostack_push (if (0 <? i) && (i <=? len) then R_TrueValue else R_FalseValue) ;;
  ret pc.

Definition ins_dup2_ (c : Code) (env : SEXP) (pc : Z) (numArgs : Z) : M Z :=
  a <- ostack_at 1 ;;
  b <- ostack_at 0 ;;
  ostack_push a ;;
  ostack_push b ;;
  ret pc.

Definition ins_invisible_ (c : Code) (env : SEXP) (pc : Z) (numArgs : Z) : M Z :=
  modify (set_R_Visible false) ;; ret pc.

Definition ins_uniq_ (c : Code) (env : SEXP) (pc : Z) (numArgs : Z) : M Z :=
  v <- ostack_top ;;
  sh <- MAYBE_SHARED v ;;
  when sh (v' <- hostcall (HC_shallow_duplicate v) (Rf_shallow_duplicate v) ;;
           ostack_set 0 v') ;;
  t <- ostack_top ;;
  n <- NAMED t ;;
  SET_NAMED t (n + 1) ;;
  ret pc.

End Instructions2.

(** ** Calls and dispatch

    [evalRirCode] is recursive through calls, promises and argument lists.
    The definitions of this section take the recursive call as the variable
    [evalRirCode_rec]; [fuel] bounds the loops that walk lists in the heap.
    [evalRirCode] below ties the knot. *)
Section Calls.
Context {H : Host}.
Variable fuel : nat.
Variable evalRirCode_rec : SEXP -> SEXP -> Z -> M SEXP.

Definition out_of_fuel {A} : M A := fun _ => OutOfFuel.

(** [rirEval_f] is not called from interp.c; [rirEval] is. *)
Definition self_evaluating : list SEXPTYPE :=
  [ NILSXP; LISTSXP; LGLSXP; REALSXP; STRSXP; CPLXSXP; RAWSXP; S4SXP;
    SPECIALSXP; BUILTINSXP; ENVSXP; CLOSXP; VECSXP; EXTPTRSXP; WEAKREFSXP;
    EXPRSXP ].
Definition NATIVESXP : SEXPTYPE := 26.

Definition rirEval (e env : SEXP) : M SEXP :=
  n <- gets evalcount ;;
  (if 1000 <? n + 1
   then (R_CheckUserInterrupt ;; modify (set_evalcount 0))
   else modify (set_evalcount (n + 1))) ;;
  modify (set_R_Visible true) ;;
  t <- TYPEOF e ;;
  isf <- (if t =? INTSXP then isValidFunctionSEXP e else ret false) ;;
  if (isf : bool)
  then (entry <- functionCode e ;; r <- evalRirCode_rec entry env 0 ;; escape r)
  else if (t =? INTSXP) || existsb (Z.eqb t) self_evaluating
  then (nm <- NAMED e ;; when (nm <=? 1) (SET_NAMED e 2) ;; ret e)
  else if t =? 31
  then
    assertM (isValidCodeObject e) "isValidCodeObject(e)" ;;
    r <- evalRirCode_rec e env 0 ;; escape r
  else if t =? NATIVESXP
  then (assert false "false" ;; assert false "false" ;; ret R_NilValue)
  else if t =? BCODESXP
  then
    d <- CDR e ;; expr <- VECTOR_ELT d 0 ;;
    code <- hostcall (HC_compiler expr) (compiler expr) ;;
    entry <- functionCode code ;;
    res <- evalRirCode_rec entry env 0 ;;
    escape res
  else if t =? SYMSXP
  then
    when (Nat.eqb e R_DotsSymbol) (error "'...' used in an incorrect context") ;;
    dd <- DDVAL e ;;
    val <- (if (dd : bool) then hostcall (HC_ddfindVar e env) (Rf_ddfindVar e env)
            else hostcall (HC_findVar e env) (findVar e env)) ;;
    (if Nat.eqb val R_UnboundValue then error "object not found"
     else if Nat.eqb val R_MissingArg
     then (pn <- PRINTNAME e ;; name <- CHAR pn ;; error (missing_arg_msg name))
     else ret tt) ;;
    tv <- TYPEOF val ;;
    val <- (if tv =? PROMSXP then promiseValue val else ret val) ;;
    nm <- NAMED val ;;
    when ((nm =? 0) && negb (Nat.eqb val R_NilValue)) (SET_NAMED val 1) ;;
    ret val
  else if t =? PROMSXP then promiseValue e
  else if t =? LANGSXP
  then
    code <- hostcall (HC_compiler e) (compiler e) ;;
    entry <- functionCode code ;;
    res <- evalRirCode_rec entry env 0 ;;
    escape res
  else if t =? DOTSXP then error "'...' used in an incorrect context"
  else (assert false "UNIMPLEMENTED_TYPE" ;; assert false "false" ;; ret R_NilValue).

(** [__listAppend]: [front] and [last] go in and come out; the count of
    protected objects is dropped. *)
Definition is_list_type (x : SEXP) : M bool :=
  t <- TYPEOF x ;; ret ((t =? LISTSXP) || (t =? NILSXP)).
Definition __listAppend (front last value name : SEXP) : M (SEXP * SEXP) :=
  assertM (is_list_type front) "TYPEOF(*front) == LISTSXP || TYPEOF(*front) == NILSXP" ;;
  assertM (is_list_type last) "TYPEOF(*last) == LISTSXP || TYPEOF(*last) == NILSXP" ;;
  app <- CONS_NR value R_NilValue ;;
  SET_TAG app name ;;
  let front' := if Nat.eqb front R_NilValue then app else front in
  when (negb (Nat.eqb last R_NilValue)) (SETCDR last app) ;;
  ret (front', app).

(** The expansion of [...] shared by both argument list builders. *)
Fixpoint append_ellipsis (n : nat) (ellipsis env : SEXP) (eager : bool)
    (fl : SEXP * SEXP) : M (SEXP * SEXP) :=
  if Nat.eqb ellipsis R_NilValue then ret fl
  else match n with
       | O => out_of_fuel
       | S n' =>
           name <- TAG ellipsis ;;
           a <- CAR ellipsis ;;
           fl' <- (if eager
                   then
                     arg <- rirEval a env ;;
                     assertM (t <- TYPEOF arg ;; ret (negb (t =? PROMSXP)))
                             "TYPEOF(arg) != PROMSXP" ;;
                     __listAppend (fst fl) (snd fl) arg name
                   else
                     promise <- mkPROMISE a env ;;
                     __listAppend (fst fl) (snd fl) promise name) ;;
           rest <- CDR ellipsis ;;
           append_ellipsis n' rest env eager fl'
       end.

Definition expand_dots (env : SEXP) (eager : bool) (fl : SEXP * SEXP) : M (SEXP * SEXP) :=
  ellipsis <- hostcall (HC_findVar R_DotsSymbol env) (findVar R_DotsSymbol env) ;;
  t <- TYPEOF ellipsis ;;
  if t =? DOTSXP then append_ellipsis fuel ellipsis env eager fl else ret fl.

Definition string_of_nat (n : nat) : string :=
  DecimalString.NilEmpty.string_of_uint (Nat.to_uint n).
Definition empty_arg_msg (i : nat) : string :=
  ("argument " ++ string_of_nat (i + 1) ++ " is empty")%string.

Definition name_at (names : SEXP) (i : nat) : M SEXP :=
  if negb (Nat.eqb names R_NilValue) then VECTOR_ELT names i else ret R_NilValue.

(** [createArgsListStack]: the loop [for (i = 0; i < nargs; ++i)], with
    [argbase[i]] the slot at depth [nargs - 1 - i]. *)
Fixpoint createArgsListStack_loop (todo : nat) (i nargs : nat) (names env call_ast : SEXP)
    (eager : bool) (fl : SEXP * SEXP) : M (SEXP * SEXP) :=
  match todo with
  | O => ret fl
  | S todo' =>
      name <- name_at names i ;;
      arg <- ostack_at (nargs - 1 - i) ;;
      fl' <- (if Nat.eqb arg R_DotsSymbol then expand_dots env eager fl
              else if Nat.eqb arg R_MissingArg
              then
                when eager (errorcall call_ast (empty_arg_msg i)) ;;
                __listAppend (fst fl) (snd fl) R_MissingArg R_NilValue
              else
                arg <- (if eager
                        then (t <- TYPEOF arg ;;
                              if t =? PROMSXP then rirEval arg env else ret arg)
                        else ret arg) ;;
                arg <- escape arg ;;
                __listAppend (fst fl) (snd fl) arg name) ;;
      createArgsListStack_loop todo' (S i) nargs names env call_ast eager fl'
  end.

Definition createArgsListStack (c : Code) (nargs : nat) (names env call_ast : SEXP)
    (eager : bool) : M SEXP :=
  fl <- createArgsListStack_loop nargs 0 nargs names env call_ast eager
          (R_NilValue, R_NilValue) ;;
  ret (fst fl).

(** [createArgsList]: [args] are the code indices of the argument promises. *)
Fixpoint createArgsList_loop (c : Code) (args : list Z) (i : nat) (names env call_ast : SEXP)
    (eager : bool) (fl : SEXP * SEXP) : M (SEXP * SEXP) :=
  match args with
  | [] => ret fl
  | offset :: args' =>
      name <- name_at names i ;;
      fl' <- (if offset =? DOTS_ARG_IDX then expand_dots env eager fl
              else if offset =? MISSING_ARG_IDX
              then
                when eager (errorcall call_ast (empty_arg_msg i)) ;;
                __listAppend (fst fl) (snd fl) R_MissingArg R_NilValue
              else if eager
              then
                code <- codeAt (cfun c) offset ;;
                arg <- evalRirCode_rec code env 0 ;;
                arg <- escape arg ;;
                assertM (t <- TYPEOF arg ;; ret (negb (t =? PROMSXP)))
                        "TYPEOF(arg) != PROMSXP" ;;
                __listAppend (fst fl) (snd fl) arg name
              else
                code <- codeAt (cfun c) offset ;;
                promise <- createPromise code env ;;
                __listAppend (fst fl) (snd fl) promise name) ;;
      createArgsList_loop c args' (S i) names env call_ast eager fl'
  end.

Definition createArgsList (c : Code) (args : list Z) (call_ast : SEXP) (nargs : nat)
    (names env : SEXP) (eager : bool) : M SEXP :=
  fl <- createArgsList_loop c (take nargs args) 0 names env call_ast eager
          (R_NilValue, R_NilValue) ;;
  ret (fst fl).

(** [getBuiltin] and [getFlag] index [R_FunTab] by [f->u.i]. *)
Definition prim_offset (f : SEXP) : M Z :=
  r <- deref f ;;
  match u r with
  | u_int i => ret i
  | _ => undefined "u.i of an object that is not a primitive"
  end.
Definition getBuiltin (f : SEXP) : M (SEXP -> SEXP -> SEXP -> SEXP -> M SEXP) :=
  i <- prim_offset f ;; ret (R_FunTab_cfun i).
Definition getFlag (f : SEXP) : M Z :=
  i <- prim_offset f ;; ret ((R_FunTab_eval i / 100) mod 10).

Definition set_visible_from (flag : Z) : M unit :=
  modify (set_R_Visible (negb (flag =? 1))).

(** [setjmp]: run [m]; a longjmp to [store_] lands in [handler] with the
    mask it carries. *)
Definition catch {A} (store_ : SEXP) (m : M A) (handler : Z -> M A) : M A :=
  fun s => match m s with
           | LongJmp t v s' => if Nat.eqb t store_ then handler v s' else LongJmp t v s'
           | o => o
           end.

(** [rirCallTrampoline]: the jump buffer stays armed while the code is
    run again after a restart. *)
Fixpoint rirCallTrampoline_loop (n : nat) (cntxt : SEXP) (code env : SEXP) (nargs : Z) : M SEXP :=
  match n with
  | O => out_of_fuel
  | S n' =>
      catch cntxt (evalRirCode_rec code env nargs)
        (fun _ =>
           k <- get_continuation cntxt ;;
           restoreCont k ;;
           rv <- gets R_ReturnedValue ;;
           if Nat.eqb rv R_RestartToken
           then
             g <- gets R_GlobalContext ;;
             modify (fun s => set_R_GlobalContext
                        (map (fun k => if Nat.eqb (cstore k) cntxt
                                       then with_callflag CTXT_RETURN k else k) g) s) ;;
             modify (set_R_ReturnedValue R_NilValue) ;;
             rirCallTrampoline_loop n' cntxt code env nargs
           else ret rv)
  end.
Definition rirCallTrampoline (cntxt code env : SEXP) (nargs : Z) : M SEXP :=
  rirCallTrampoline_loop (S fuel) cntxt code env nargs.

Definition rirCallClosure (call_ast env callee actuals : SEXP) (nargs : Z) : M SEXP :=
  newEnv <- hostcall (HC_closureArgumentAdaptor callee)
              (closureArgumentAdaptor call_ast callee actuals env R_NilValue) ;;
  ostack_push newEnv ;;
  cntxt <- createRirClosureContext call_ast newEnv env actuals callee ;;
  closureDebug call_ast callee env newEnv ;;
  body <- BODY callee ;;
  code <- functionCode body ;;
  stackguard_size_before <- ostack_length ;;
  stackguard_before <- ostack_top ;;
  result <- rirCallTrampoline cntxt code newEnv nargs ;;
  stackguard_size_after <- ostack_length ;;
  stackguard_after <- ostack_top ;;
  assert (Nat.eqb stackguard_before stackguard_after &&
          Nat.eqb stackguard_size_before stackguard_size_after)
         "stackguard_before == stackguard_after && stackguard_size_before == stackguard_size_after" ;;
  endClosureDebug callee call_ast env ;;
  endRirContext result ;;
  ostack_pop ;;
  ret result.

Definition current_cont : M RirContext :=
  n <- ostack_length ;; ret (mkRirContext n None).

(** The three kinds of callee, shared by [doCall] and [doCallStack] once the
    argument list is there. *)
Definition call_special (call_ast callee env : SEXP) : M SEXP :=
  f <- getBuiltin callee ;;
  flag <- getFlag callee ;;
  set_visible_from flag ;;
  k <- current_cont ;;
  a <- CDR call_ast ;;
  result <- hostcall (HC_cfun callee) (f call_ast callee a env) ;;
  restoreCont k ;;
  when (flag <? 2) (set_visible_from flag) ;;
  ret result.

Definition call_builtin (call_ast callee argslist env : SEXP) : M SEXP :=
  f <- getBuiltin callee ;;
  flag <- getFlag callee ;;
  when (flag <? 2) (set_visible_from flag) ;;
  k <- current_cont ;;
  result <- hostcall (HC_cfun callee) (f call_ast callee argslist env) ;;
  restoreCont k ;;
  when (flag <? 2) (set_visible_from flag) ;;
  ret result.

Definition call_closure (call_ast callee actuals env : SEXP) (nargs : Z) : M SEXP :=
  body <- BODY callee ;;
  tb <- TYPEOF body ;;
  assert ((tb =? INTSXP) || negb COMPILE_ON_DEMAND) "TYPEOF(body) == INTSXP || !COMPILE_ON_DEMAND" ;;
  if tb =? INTSXP
  then
    assertM (isValidFunctionSEXP body) "isValidFunctionSEXP(body)" ;;
    rirCallClosure call_ast env callee actuals nargs
  else
    k <- current_cont ;;
    result <- hostcall (HC_applyClosure callee)
                (applyClosure call_ast callee actuals env R_NilValue) ;;
    restoreCont k ;;
    ret result.

Definition doCall (caller : Code) (call_ast callee : SEXP) (args : list Z) (nargs : nat)
    (names env : SEXP) : M SEXP :=
  t <- TYPEOF callee ;;
  if t =? SPECIALSXP then call_special call_ast callee env
  else if t =? BUILTINSXP
  then
    getBuiltin callee ;; getFlag callee ;;
    argslist <- createArgsList caller args call_ast nargs names env true ;;
    call_builtin call_ast callee argslist env
  else if t =? CLOSXP
  then
    actuals <- createArgsList caller args call_ast nargs names env false ;;
    call_closure call_ast callee actuals env (Z.of_nat nargs)
  else (assert false "Don't know how to run other stuff" ;; ret R_NilValue).

(** The rewrite of the call AST at the head of [doCallStack]: the complex
    assignment placeholders are filled in from the stack. *)
Definition is_placeholder_call (callee call_ast : SEXP) : M bool :=
  andM (t <- TYPEOF callee ;; ret ((t =? SPECIALSXP) || (t =? CLOSXP)))
       (a1 <- CADR call_ast ;;
        ret (Nat.eqb a1 getterPlaceholderSym || Nat.eqb a1 setterPlaceholderSym)).

(** [LCONS(quoteSym, CONS_NR(x, R_NilValue))] when [x] is an AST. *)
Definition quote_if_ast (x : SEXP) : M SEXP :=
  t <- TYPEOF x ;;
  if (t =? LANGSXP) || (t =? SYMSXP)
  then (d <- CONS_NR x R_NilValue ;; LCONS quoteSym d)
  else ret x.

(** [while (CDR(a) != R_NilValue) { prev = a; a = CDR(a); }] *)
Fixpoint last_cell (n : nat) (prev a : SEXP) : M (SEXP * SEXP) :=
  d <- CDR a ;;
  if Nat.eqb d R_NilValue then ret (prev, a)
  else match n with
       | O => out_of_fuel
       | S n' => last_cell n' a d
       end.

Definition ostack_at_pred (nargs : nat) : M SEXP :=
  match nargs with
  | O => undefined "ostack_at(ctx, nargs - 1) with nargs == 0"
  | S n => ostack_at n
  end.

Definition fill_placeholders (call_ast callee : SEXP) (nargs : nat) : M SEXP :=
  ph <- is_placeholder_call callee call_ast ;;
  if (ph : bool)
  then
    a1 <- CADR call_ast ;;
    let setter := Nat.eqb a1 setterPlaceholderSym in
    call_ast <- hostcall (HC_shallow_duplicate call_ast) (Rf_shallow_duplicate call_ast) ;;
    a <- CDR call_ast ;;
    target <- ostack_at_pred nargs ;;
    target <- escape target ;;
    target <- quote_if_ast target ;;
    SETCAR a target ;;
    when setter
      (pa <- last_cell fuel call_ast a ;;
       assertM (x <- CAR (snd pa) ;; ret (Nat.eqb x setterPlaceholderSym))
               "CAR(a) == setterPlaceholderSym" ;;
       val <- ostack_top ;;
       val <- escape val ;;
       val <- quote_if_ast val ;;
       INCREMENT_NAMED val ;;
       v <- CONS_NR val R_NilValue ;;
       SET_TAG v R_valueSym ;;
       SETCDR (fst pa) v) ;;
    ret call_ast
  else ret call_ast.

Fixpoint ostack_popn (n : nat) : M unit :=
  match n with
  | O => ret tt
  | S n' => ostack_pop ;; ostack_popn n'
  end.

Definition doCallStack (caller : Code) (call_ast : SEXP) (nargs : nat) (names env : SEXP) : M SEXP :=
  callee <- ostack_at nargs ;;
  call_ast <- fill_placeholders call_ast callee nargs ;;
  t <- TYPEOF callee ;;
  if t =? SPECIALSXP
  then
    assert (negb (Nat.eqb call_ast R_NilValue)) "call != R_NilValue" ;;
    ostack_popn nargs ;;
    ostack_pop ;;
    call_special call_ast callee env
  else if t =? BUILTINSXP
  then
    argslist <- createArgsListStack caller nargs names env call_ast true ;;
    ostack_popn nargs ;;
    ostack_pop ;;
    call_builtin call_ast callee argslist env
  else if t =? CLOSXP
  then
    argslist <- createArgsListStack caller nargs names env call_ast false ;;
    ostack_popn nargs ;;
    ostack_pop ;;
    call_closure call_ast callee argslist env (Z.of_nat nargs)
  else (assert false "Don't know how to run other stuff" ;; ret R_NilValue).

(** [for (SEXP a = actuals; a != R_NilValue; a = CDR(a)) SETCAR(a, rirEval(CAR(a), env));] *)
Fixpoint force_all (n : nat) (a env : SEXP) : M unit :=
  if Nat.eqb a R_NilValue then ret tt
  else match n with
       | O => out_of_fuel
       | S n' =>
           x <- CAR a ;; v <- rirEval x env ;; SETCAR a v ;;
           d <- CDR a ;; force_all n' d env
       end.

(** The last resort of [doDispatch]: the selector is looked up as a function
    ([dispatch_normal_call]) and called ([dispatch_invoke]).  [res0] is what
    [res] holds when the switch is entered. *)
Definition dispatch_invoke (call_ast selector actuals env : SEXP) (nargs : nat)
    (k : RirContext) (res0 : SEXP) (callee : SEXP) : M SEXP :=
  (if Nat.eqb callee R_UnboundValue then assert false "Unbound var"
   else if Nat.eqb callee R_MissingArg then assert false "Missing argument"
   else ret tt) ;;
  t <- TYPEOF callee ;;
  if t =? SPECIALSXP
  then
    f <- getBuiltin callee ;;
    flag <- getFlag callee ;;
    set_visible_from flag ;;
    a <- CDR call_ast ;;
    res <- hostcall (HC_cfun callee) (f call_ast callee a env) ;;
    restoreCont k ;;
    when (flag <? 2) (set_visible_from flag) ;;
    ret res
  else if t =? BUILTINSXP
  then
    getBuiltin callee ;; getFlag callee ;;
    force_all fuel actuals env ;;
    call_builtin call_ast callee actuals env
  else if t =? CLOSXP
  then call_closure call_ast callee actuals env (Z.of_nat nargs)
  else (assert false "Don't know how to run other stuff" ;; ret res0).

Definition dispatch_normal_call (call_ast selector actuals env : SEXP) (nargs : nat)
    (k : RirContext) (res0 : SEXP) : M SEXP :=
  callee <- hostcall (HC_findFun selector env) (findFun selector env) ;;
  dispatch_invoke call_ast selector actuals env nargs k res0 callee.

(** The S3 attempt of [doDispatch]: [(success, res)]. *)
Definition dispatch_S3 (call_ast selector obj actuals env : SEXP) (res0 : SEXP) : M (bool * SEXP) :=
  pn <- PRINTNAME selector ;;
  generic <- CHAR pn ;;
  rho1 <- Rf_NewEnvironment R_NilValue R_NilValue env ;;
  initClosureContext call_ast rho1 env actuals selector ;;
  sr <- hostcall (HC_usemethod selector obj)
          (Rf_usemethod generic obj call_ast actuals rho1 env R_BaseEnv) ;;
  let success := fst sr in
  let res := if success then snd sr else res0 in
  endClosureContext NULL (if success then res else R_NilValue) ;;
  ret (success, res).

(** The S4 attempt: [None] when it is not made. *)
Definition dispatch_S4 (call_ast selector obj actuals env : SEXP) : M (option SEXP) :=
  s4 <- andM (IS_S4_OBJECT obj) (gets (fun s => R_has_methods s selector)) ;;
  if (s4 : bool)
  then (res <- hostcall (HC_possible_dispatch selector)
                 (R_possible_dispatch call_ast selector actuals env true) ;;
        ret (Some res))
  else ret None.

(** The head of [doDispatch]: the promise list, with the object patched in
    as the value of the first promise. *)
Definition dispatch_actuals (caller : Code) (call_ast obj : SEXP) (args : list Z)
    (nargs : nat) (names env : SEXP) : M SEXP :=
  assertM (isObject obj) "isObject(obj)" ;;
  actuals <- createArgsList caller args call_ast nargs names env false ;;
  first <- CAR actuals ;;
  SET_PRVALUE first obj ;;
  ret actuals.

Definition doDispatch (caller : Code) (call_ast selector obj : SEXP) (args : list Z)
    (nargs : nat) (names env : SEXP) : M SEXP :=
  actuals <- dispatch_actuals caller call_ast obj args nargs names env ;;
  k <- current_cont ;;
  r4 <- dispatch_S4 call_ast selector obj actuals env ;;
  res <- match r4 with
         | Some res =>
             if negb (Nat.eqb res NULL) then (restoreCont k ;; ret res)
             else
               r3 <- dispatch_S3 call_ast selector obj actuals env res ;;
               if fst r3 then (restoreCont k ;; ret (snd r3))
               else dispatch_normal_call call_ast selector actuals env nargs k (snd r3)
         | None =>
             r3 <- dispatch_S3 call_ast selector obj actuals env NULL ;;
             if fst r3 then (restoreCont k ;; ret (snd r3))
             else dispatch_normal_call call_ast selector actuals env nargs k (snd r3)
         end ;;
  assert (negb (Nat.eqb res NULL)) "res" ;;
  ret res.

(** [Rf_length(args_) / sizeof(unsigned)] arguments, the first so many
    entries of [INTEGER(args_)]. *)
Definition read_call_args (c : Code) (pc : Z) : M (list Z * nat * Z) :=
  args_ <- readConst c pc ;;
  assertM (t <- TYPEOF (fst args_) ;; ret (t =? INTSXP))
          "TODO change to INTSXP, not RAWSXP it used to be" ;;
  len <- gets (fun s => Rf_length s (fst args_)) ;;
  let nargs := Z.to_nat (len / 4) in
  args <- INTEGER (fst args_) ;;
  ret (args, nargs, snd args_).

Definition ins_call_stack_ (c : Code) (env : SEXP) (pc : Z) (numArgs : Z) : M Z :=
  nargs <- readImmediate c pc ;;
  names <- readConst c (snd nargs) ;;
  call_ast <- getSrcForCall c (snd names) ;;
  r <- doCallStack c call_ast (Z.to_nat (fst nargs)) (fst names) env ;;
  ostack_push r ;;
  ret (snd names).

Definition ins_call_ (c : Code) (env : SEXP) (pc : Z) (numArgs : Z) : M Z :=
  a <- read_call_args c pc ;;
  let '(args, nargs, pc1) := a in
  names <- readConst c pc1 ;;
  cls <- ostack_pop ;;
  call_ast <- getSrcForCall c (snd names) ;;
  r <- doCall c call_ast cls args nargs (fst names) env ;;
  ostack_push r ;;
  ret (snd names).

Definition ins_dispatch_ (c : Code) (env : SEXP) (pc : Z) (numArgs : Z) : M Z :=
  a <- read_call_args c pc ;;
  let '(args, nargs, pc1) := a in
  names <- readConst c pc1 ;;
  selector <- readConst c (snd names) ;;
  obj <- ostack_pop ;;
  call_ast <- getSrcForCall c (snd selector) ;;
  r <- doDispatch c call_ast (fst selector) obj args nargs (fst names) env ;;
  ostack_push r ;;
  ret (snd selector).

(** ** The main loop

    [beginloop_] and [ret_] are inlined in the switch of [evalRirCode]. *)
Definition ins_beginloop_ (c : Code) (env : SEXP) (pc : Z) : M (Z * SEXP) :=
  cntxt_store <- alloc_cntxt_store ;;
  ostack_push cntxt_store ;;
  set_continuation cntxt_store (mkRirContext 0 (Some pc)) ;;
  Rf_begincontext cntxt_store CTXT_LOOP R_NilValue env R_BaseEnv R_NilValue R_NilValue ;;
  n <- ostack_length ;;
  g <- current_context ;;
  set_current_context (with_cenddata n g) ;;
  offset <- readJumpOffset c pc ;;
  ret (snd offset, cntxt_store).

(** The branch of [if ((s = SETJMP(cntxt->cjmpbuf)))] taken when a break or
    next arrives: the new pc. *)
Definition loop_landing (c : Code) (s : Z) : M Z :=
  g <- current_context ;;
  rl_setLength (cenddata g) ;;
  cntxt_store <- ostack_top ;;
  assertM (t <- TYPEOF cntxt_store ;; ret (t =? RAWSXP)) "stack botched" ;;
  assert (Nat.eqb cntxt_store (cstore g)) "stack botched" ;;
  k <- get_continuation cntxt_store ;;
  match saved_pc k with
  | None => undefined "no pc was saved in the context"
  | Some pc =>
      offset <- readJumpOffset c pc ;;
      let pc' := if s =? CTXT_BREAK then snd offset + fst offset else snd offset in
      PC_BOUNDSCHECK c pc' ;;
      ret pc'
  end.

Definition ins_of (o : Opcode) : option (Code -> SEXP -> Z -> Z -> M Z) :=
  match o with
  | push_ => Some ins_push_ | ldfun_ => Some ins_ldfun_ | ldvar_ => Some ins_ldvar_
  | ldddvar_ => Some ins_ldddvar_ | call_ => Some ins_call_
  | call_stack_ => Some ins_call_stack_ | promise_ => Some ins_promise_
  | push_code_ => Some ins_push_code_ | close_ => Some ins_close_
  | force_ => Some ins_force_ | pop_ => Some ins_pop_ | asast_ => Some ins_asast_
  | stvar_ => Some ins_stvar_ | asbool_ => Some ins_asbool_ | brobj_ => Some ins_brobj_
  | endcontext_ => Some ins_endcontext_ | brtrue_ => Some ins_brtrue_
  | brfalse_ => Some ins_brfalse_ | br_ => Some ins_br_ | dup_ => Some ins_dup_
  | add_ => Some ins_add_ | sub_ => Some ins_sub_ | lt_ => Some ins_lt_
  | swap_ => Some ins_swap_ | put_ => Some ins_put_ | pick_ => Some ins_pick_
  | is_ => Some ins_is_ | isspecial_ => Some ins_isspecial_ | isfun_ => Some ins_isfun_
  | inc_ => Some ins_inc_ | dup2_ => Some ins_dup2_ | test_bounds_ => Some ins_test_bounds_
  | invisible_ => Some ins_invisible_ | extract1_ => Some ins_extract1_
  | subset1_ => Some ins_subset1_ | dispatch_ => Some ins_dispatch_
  | uniq_ => Some ins_uniq_ | aslogical_ => Some ins_aslogical_
  | lgl_and_ => Some ins_lgl_and_ | lgl_or_ => Some ins_lgl_or_
  | beginloop_ => None | ret_ => None
  end.

(** One turn of [while (true) switch (readOpcode(&pc))]: [None] is
    [goto __eval_done]; otherwise the next pc and the context armed by a
    [beginloop_], if any. *)
Definition step (c : Code) (env : SEXP) (numArgs : Z) (pc : Z) : M (option (Z * list SEXP)) :=
  o <- readOpcode c pc ;;
  match decodeOpcode (fst o) with
  | Some ret_ => ret None
  | Some beginloop_ =>
      r <- ins_beginloop_ c env (snd o) ;; ret (Some (fst r, [snd r]))
  | Some op =>
      match ins_of op with
      | Some ins => pc' <- ins c env (snd o) numArgs ;; ret (Some (pc', []))
      | None => ret None
      end
  | None => assert false "wrong or unimplemented opcode" ;; ret (Some (snd o, []))
  end.

(** The loop.  [armed] are the loop contexts whose jump buffer was set in
    this activation: a longjmp to one of them lands in [loop_landing] and
    the loop goes on; any other leaves the activation. *)
Fixpoint eval_loop (n : nat) (c : Code) (env : SEXP) (numArgs : Z)
    (armed : list SEXP) (pc : Z) : M unit :=
  match n with
  | O => out_of_fuel
  | S n' =>
      fun s =>
        match step c env numArgs pc s with
        | Ok None s' => Ok tt s'
        | Ok (Some (pc', arm)) s' => eval_loop n' c env numArgs (arm ++ armed) pc' s'
        | LongJmp t v s' =>
            if existsb (Nat.eqb t) armed
            then (pc' <- loop_landing c v ;; eval_loop n' c env numArgs armed pc') s'
            else LongJmp t v s'
        | RError msg s' => RError msg s'
        | AssertFail msg => AssertFail msg
        | Undef msg => Undef msg
        | OutOfFuel => OutOfFuel
        end
  end.

Definition rho_not_env_msg (ty : SEXPTYPE) : string :=
  ("'rho' must be an environment not " ++ type2char ty ++ ": detected in C-level eval")%string.

Definition evalRirCode_body (cp : SEXP) (env : SEXP) (numArgs : Z) : M SEXP :=
  when (Nat.eqb env NULL) (error "'rho' cannot be C NULL: detected in C-level eval") ;;
  ise <- isEnvironment env ;;
  when (negb ise) (t <- TYPEOF env ;; error (rho_not_env_msg t)) ;;
  R_CheckStack ;;
  c <- getCode cp ;;
  ostack_ensureSize (stackLength c + 5) ;;
  modify (set_R_Visible true) ;;
  eval_loop (S fuel) c env numArgs [] 0 ;;
  ostack_pop.

End Calls.

(** [evalRirCode(c, ctx, env, numArgs)]: [fuel] bounds the depth of nested
    activations and the number of instructions of each. *)
Fixpoint evalRirCode {H : Host} (fuel : nat) (c : SEXP) (env : SEXP) (numArgs : Z) : M SEXP :=
  match fuel with
  | O => fun _ => OutOfFuel
  | S fuel' => evalRirCode_body fuel' (evalRirCode fuel') c env numArgs
  end.

(** * A reference host

    A small host to run the definitions on concrete inputs.  Environments
    are heap objects whose frame is a list of bindings (tag: symbol, car:
    value) and whose second slot is the enclosing environment; lookup walks
    the chain.  Promises of constants are forced by storing their
    expression as their value.  The entry points that would run R code
    raise an R error. *)
Section RefHost.

Definition ref_length (s : State) (x : SEXP) : Z :=
  match heap s !! x with
  | Some r =>
      match u r with
      | u_ints d => Z.of_nat (length d)
      | u_reals d => Z.of_nat (length d)
      | u_ptrs d => Z.of_nat (length d)
      | _ => if sx_type (sxpinfo r) =? NILSXP then 0 else 1
      end
  | None => 0
  end.

Definition ref_asLogical (s : State) (x : SEXP) : Z :=
  match heap s !! x with
  | Some r =>
      match u r with
      | u_ints (i :: _) => if i =? NA_INTEGER then NA_LOGICAL else if i =? 0 then 0 else 1
      | u_reals (d :: _) =>
          if PrimFloat.eqb d d then (if PrimFloat.eqb d 0%float then 0 else 1)
          else NA_LOGICAL
      | _ => NA_LOGICAL
      end
  | None => NA_LOGICAL
  end.

Definition ref_asInteger (s : State) (x : SEXP) : Z :=
  match heap s !! x with
  | Some r => match u r with u_ints (i :: _) => i | _ => NA_INTEGER end
  | None => NA_INTEGER
  end.

Definition cell_of (s : State) (x : SEXP) : option (SEXP * SEXP * SEXP) :=
  match heap s !! x with
  | Some r => match u r with u_cons a d t => Some (a, d, t) | _ => None end
  | None => None
  end.

Fixpoint ref_frame_lookup (n : nat) (s : State) (sym frame : SEXP) : option SEXP :=
  match n with
  | O => None
  | S n' =>
      if Nat.eqb frame R_NilValue then None
      else match cell_of s frame with
           | Some (a, d, t) => if Nat.eqb t sym then Some a else ref_frame_lookup n' s sym d
           | None => None
           end
  end.

Fixpoint ref_findVar_loop (n : nat) (s : State) (sym rho : SEXP) : SEXP :=
  match n with
  | O => R_UnboundValue
  | S n' =>
      match cell_of s rho with
      | Some (frame, enclos, _) =>
          match ref_frame_lookup (length (heap s)) s sym frame with
          | Some v => v
          | None => ref_findVar_loop n' s sym enclos
          end
      | None => R_UnboundValue
      end
  end.

Definition ref_findVar (sym rho : SEXP) : M SEXP :=
  fun s => Ok (ref_findVar_loop (length (heap s)) s sym rho) s.

Definition is_function_type (s : State) (v : SEXP) : bool :=
  match heap s !! v with
  | Some r => let t := sx_type (sxpinfo r) in
              (t =? CLOSXP) || (t =? SPECIALSXP) || (t =? BUILTINSXP)
  | None => false
  end.

Fixpoint ref_findFun_loop (n : nat) (s : State) (sym rho : SEXP) : SEXP :=
  match n with
  | O => R_UnboundValue
  | S n' =>
      match cell_of s rho with
      | Some (frame, enclos, _) =>
          match ref_frame_lookup (length (heap s)) s sym frame with
          | Some v => if is_function_type s v then v else ref_findFun_loop n' s sym enclos
          | None => ref_findFun_loop n' s sym enclos
          end
      | None => R_UnboundValue
      end
  end.

Definition ref_findFun (sym rho : SEXP) : M SEXP :=
  fun s => Ok (ref_findFun_loop (length (heap s)) s sym rho) s.

Definition ref_defineVar (sym val rho : SEXP) : M unit :=
  fun s => match heap s !! rho with
           | Some r =>
               match u r with
               | u_cons frame enclos t =>
                   let cell := mkSexp (mkInfo LISTSXP false 0 0) R_NilValue (u_cons val frame sym) in
                   let a := length (heap s) in
                   Ok tt (set_heap (<[rho := mkSexp (sxpinfo r) (attrib r) (u_cons a enclos t)]>
                                      (heap s ++ [cell])) s)
               | _ => RError "defineVar: not an environment" s
               end
           | None => RError "defineVar: not an environment" s
           end.

Definition ref_forcePromise (p : SEXP) : M SEXP :=
  fun s => match heap s !! p with
           | Some r =>
               match u r with
               | u_cons v e rho =>
                   Ok e (set_heap (<[p := mkSexp (sxpinfo r) (attrib r) (u_cons e e rho)]> (heap s)) s)
               | _ => RError "forcePromise: not a promise" s
               end
           | None => RError "forcePromise: not a promise" s
           end.

(** A copy of the cells of a list; the elements are shared. *)
Fixpoint ref_copy_cells (n : nat) (s : State) (x : SEXP) (base : nat) : list sexprec :=
  match n with
  | O => []
  | S n' =>
      match heap s !! x with
      | Some r =>
          match u r with
          | u_cons a d t =>
              if Nat.eqb d R_NilValue then [mkSexp (sxpinfo r) (attrib r) (u_cons a d t)]
              else mkSexp (sxpinfo r) (attrib r) (u_cons a (S base) t)
                   :: ref_copy_cells n' s d (S base)
          | _ => [r]
          end
      | None => []
      end
  end.

(** The symbol of that name: the one in the heap, or a new one. *)
Fixpoint ref_find_symbol (name : string) (all h : list sexprec) (i : nat) : option SEXP :=
  match h with
  | [] => None
  | r :: h' =>
      let named :=
        match u r with
        | u_cons pn _ _ =>
            match all !! pn with
            | Some c => match u c with u_chars n => String.eqb n name | _ => false end
            | None => false
            end
        | _ => false
        end in
      if (sx_type (sxpinfo r) =? SYMSXP) && named then Some i
      else ref_find_symbol name all h' (S i)
  end.

Definition ref_install (name : string) : M SEXP := fun s =>
  match ref_find_symbol name (heap s) (heap s) 0 with
  | Some x => Ok x s
  | None =>
      let c := length (heap s) in
      Ok (S c)
         (set_heap (heap s ++ [mkSexp (mkInfo CHARSXP false 2 0) R_NilValue (u_chars name);
                               mkSexp (mkInfo SYMSXP false 2 0) R_NilValue
                                      (u_cons c R_UnboundValue R_NilValue)]) s)
  end.

Definition ref_shallow_duplicate (x : SEXP) : M SEXP :=
  fun s => if Nat.eqb x R_NilValue then Ok x s
           else Ok (length (heap s))
                   (set_heap (heap s ++ ref_copy_cells (length (heap s)) s x (length (heap s))) s).

Definition unsupported {A} (what : string) : M A := fun s => RError what s.

(** The reference host with method dispatch set by hand: whether the
    selector has S4 methods, what the S4 dispatch returns, and what
    [usemethod] returns. *)
Definition host_dispatching (has_methods : bool) (s4 : SEXP) (s3 : bool * SEXP) : Host := {|
  NDEBUG := false;
  ENABLE_SLOWASSERT := false;
  COMPILE_ON_DEMAND := false;
  double_to_int := fun _ => 0;
  DOTS_ARG_IDX := 4294967294;
  MISSING_ARG_IDX := 4294967295;
  MAX_NUM_ARGS := 65536;
  Rf_length := ref_length;
  asLogical := ref_asLogical;
  asInteger := ref_asInteger;
  getAttrib := fun _ _ _ => R_NilValue;
  R_has_methods := fun _ _ => has_methods;
  R_FunTab_eval := fun _ => 0;
  type2char := fun _ => "object"%string;
  findVar := ref_findVar;
  Rf_ddfindVar := ref_findVar;
  findFun := ref_findFun;
  defineVar := ref_defineVar;
  forcePromise := ref_forcePromise;
  compiler := fun _ => unsupported "compiler";
  R_FunTab_cfun := fun _ _ _ _ _ => unsupported "builtin";
  applyClosure := fun _ _ _ _ _ => unsupported "applyClosure";
  closureArgumentAdaptor := fun _ _ _ rho _ => Rf_NewEnvironment R_NilValue R_NilValue rho;
  closureDebug := fun _ _ _ _ => ret tt;
  endClosureDebug := fun _ _ _ => ret tt;
  R_possible_dispatch := fun _ _ _ _ _ => ret s4;
  Rf_usemethod := fun _ _ _ _ _ _ _ => ret s3;
  do_subset_dflt := fun _ _ _ _ => unsupported "do_subset_dflt";
  do_subset2_dflt := fun _ _ _ _ => unsupported "do_subset2_dflt";
  Rf_shallow_duplicate := ref_shallow_duplicate;
  Rf_install := ref_install;
  R_CheckStack := ret tt;
  R_CheckUserInterrupt := ret tt
|}.

Definition refHost : Host := host_dispatching false NULL (false, NULL).

(** The same host in a build with [-DNDEBUG]: [assert] compiles to nothing. *)
Definition host_release (h : Host) : Host := {|
  NDEBUG := true;
  ENABLE_SLOWASSERT := @ENABLE_SLOWASSERT h;
  COMPILE_ON_DEMAND := @COMPILE_ON_DEMAND h;
  double_to_int := @double_to_int h;
  DOTS_ARG_IDX := @DOTS_ARG_IDX h;
  MISSING_ARG_IDX := @MISSING_ARG_IDX h;
  MAX_NUM_ARGS := @MAX_NUM_ARGS h;
  Rf_length := @Rf_length h;
  asLogical := @asLogical h;
  asInteger := @asInteger h;
  getAttrib := @getAttrib h;
  R_has_methods := @R_has_methods h;
  R_FunTab_eval := @R_FunTab_eval h;
  type2char := @type2char h;
  findVar := @findVar h;
  Rf_ddfindVar := @Rf_ddfindVar h;
  findFun := @findFun h;
  defineVar := @defineVar h;
  forcePromise := @forcePromise h;
  compiler := @compiler h;
  R_FunTab_cfun := @R_FunTab_cfun h;
  applyClosure := @applyClosure h;
  closureArgumentAdaptor := @closureArgumentAdaptor h;
  closureDebug := @closureDebug h;
  endClosureDebug := @endClosureDebug h;
  R_possible_dispatch := @R_possible_dispatch h;
  Rf_usemethod := @Rf_usemethod h;
  do_subset_dflt := @do_subset_dflt h;
  do_subset2_dflt := @do_subset2_dflt h;
  Rf_shallow_duplicate := @Rf_shallow_duplicate h;
  Rf_install := @Rf_install h;
  R_CheckStack := @R_CheckStack h;
  R_CheckUserInterrupt := @R_CheckUserInterrupt h
|}.

End RefHost.

(** ** The symbols of the compiler (R/Symbols.h)

    Interned symbols; like the distinguished objects above they are fixed,
    pairwise distinct addresses. *)
Module symbol.
Definition And : SEXP := 17%nat.
Definition Or : SEXP := 18%nat.
Definition quote : SEXP := quoteSym.
Definition Assign : SEXP := 19%nat.
Definition Internal : SEXP := 20%nat.
Definition isnull : SEXP := 21%nat.
Definition islist : SEXP := 22%nat.
Definition ispairlist : SEXP := 23%nat.
Definition DoubleBracket : SEXP := R_Subset2Sym.
Definition Bracket : SEXP := R_SubsetSym.
Definition While : SEXP := 24%nat.
Definition Repeat : SEXP := 25%nat.
Definition For : SEXP := 26%nat.
Definition Next : SEXP := 27%nat.
Definition Break : SEXP := 28%nat.
Definition getterPlaceholder : SEXP := getterPlaceholderSym.
Definition setterPlaceholder : SEXP := setterPlaceholderSym.
Definition value : SEXP := R_valueSym.
End symbol.

(** * The compiler (ir/Compiler.cpp) *)

Definition Label := nat.
Definition fun_idx_t := Z.

(** Modelled from the spec: the class [BC], declared in ir/BC.h, of which
    the compiler shows only the uses: an instruction with the operands the
    compiler hands to its factory function, as the spec lists them per
    instruction: a constant of the pool, the index of a code object, a
    label, an integer, or the arguments and names of a call. *)
Module BC.
Inductive t : Type :=
| nullary (op : Opcode)
| pool (op : Opcode) (c : SEXP)
| code_idx (op : Opcode) (i : fun_idx_t)
| jump (op : Opcode) (l : Label)
| imm (op : Opcode) (i : Z)
| call_args (args : list fun_idx_t) (names : list SEXP)
| call_stack_args (nargs : nat) (names : list SEXP)
| dispatch_args (selector : SEXP) (args : list fun_idx_t) (names : list SEXP).

Definition push (c : SEXP) : t := pool push_ c.
Definition ldfun (c : SEXP) : t := pool ldfun_ c.
Definition ldvar (c : SEXP) : t := pool ldvar_ c.
Definition ldddvar (c : SEXP) : t := pool ldddvar_ c.
Definition isspecial (c : SEXP) : t := pool isspecial_ c.
Definition stvar (c : SEXP) : t := pool stvar_ c.
Definition promise (i : fun_idx_t) : t := code_idx promise_ i.
Definition push_code (i : fun_idx_t) : t := code_idx push_code_ i.
Definition br (l : Label) : t := jump br_ l.
Definition brtrue (l : Label) : t := jump brtrue_ l.
Definition brfalse (l : Label) : t := jump brfalse_ l.
Definition brobj (l : Label) : t := jump brobj_ l.
Definition beginloop (l : Label) : t := jump beginloop_ l.
Definition pick (i : Z) : t := imm pick_ i.
Definition put (i : Z) : t := imm put_ i.
Definition call : list fun_idx_t -> list SEXP -> t := call_args.
Definition call_stack : nat -> list SEXP -> t := call_stack_args.
Definition dispatch : SEXP -> list fun_idx_t -> list SEXP -> t := dispatch_args.
Definition asLogical : t := nullary aslogical_.
Definition lglAnd : t := nullary lgl_and_.
Definition lglOr : t := nullary lgl_or_.
Definition dup : t := nullary dup_.
Definition swap : t := nullary swap_.
Definition invisible : t := nullary invisible_.
Definition uniq : t := nullary uniq_.
Definition extract1 : t := nullary extract1_.
Definition subset1 : t := nullary subset1_.
Definition asbool : t := nullary asbool_.
Definition pop : t := nullary pop_.
Definition endcontext : t := nullary endcontext_.
Definition isfun : t := nullary isfun_.
Definition ret : t := nullary ret_.
Definition is_ (i : Z) : t := imm is_ i.
End BC.

(** Modelled from the spec: the class [CodeStream], declared in
    ir/CodeStream.h, of which the compiler shows only the uses: the spec's
    streaming builder that interleaves instructions and their source
    references and supports forward labels.
    The stream keeps what was streamed into it, in that order; a label is
    a number that [mkLabel] hands out and [cs << label] binds at the
    current position, and [addAst] attaches a source AST to the instruction
    before it. *)
Module CodeStream.
Inductive item : Type :=
| ins (bc : BC.t)
| label (l : Label)
| ast (a : SEXP).

Record t := mk { source : SEXP; items : list item; nextLabel : Label }.

Definition create (a : SEXP) : t := mk a [] 0%nat.
Definition insert (x : item) (cs : t) : t := mk (source cs) (items cs ++ [x]) (nextLabel cs).
Definition mkLabel (cs : t) : Label * t :=
  (nextLabel cs, mk (source cs) (items cs) (S (nextLabel cs))).
End CodeStream.

(** [FunctionHandle]: the code objects finalized so far; [finalize] appends
    one and returns its index. *)
Definition FunctionHandle := list CodeStream.t.

Record LoopContext := mkLoopContext { next_ : Label; break_ : Label }.
Record CodeContext := mkCodeContext { cs : CodeStream.t; loops : list LoopContext }.
Record Context := mkContext {
  code : list CodeContext;    (* std::stack, the top first *)
  function : FunctionHandle;
  preserve : list SEXP
}.

Definition set_code (c : list CodeContext) (ctx : Context) : Context :=
  mkContext c (function ctx) (preserve ctx).

(** [code.top()]; on an empty stack it is undefined. *)
Definition code_top (ctx : Context) : M CodeContext :=
  match code ctx with
  | c :: _ => ret c
  | [] => undefined "code.top() of an empty stack"
  end.

Definition update_top (f : CodeContext -> CodeContext) (ctx : Context) : M Context :=
  match code ctx with
  | c :: rest => ret (set_code (f c :: rest) ctx)
  | [] => undefined "code.top() of an empty stack"
  end.

(** [ctx.cs() << x] *)
Definition stream (ctx : Context) (x : CodeStream.item) : M Context :=
  update_top (fun c => mkCodeContext (CodeStream.insert x (cs c)) (loops c)) ctx.
Definition emit (ctx : Context) (bc : BC.t) : M Context := stream ctx (CodeStream.ins bc).
Definition bind_label (ctx : Context) (l : Label) : M Context := stream ctx (CodeStream.label l).
Definition addAst (ctx : Context) (a : SEXP) : M Context := stream ctx (CodeStream.ast a).

Definition mkLabel (ctx : Context) : M (Label * Context) :=
  c <- code_top ctx ;;
  let (l, cs') := CodeStream.mkLabel (cs c) in
  ctx' <- update_top (fun c => mkCodeContext cs' (loops c)) ctx ;;
  ret (l, ctx').

Definition inLoop (ctx : Context) : M bool :=
  c <- code_top ctx ;; ret (match loops c with [] => false | _ => true end).

Definition loop (ctx : Context) : M LoopContext :=
  c <- code_top ctx ;;
  match loops c with
  | l :: _ => ret l
  | [] => undefined "loops.top() of an empty stack"
  end.

Definition pushLoop (ctx : Context) (next break : Label) : M Context :=
  update_top (fun c => mkCodeContext (cs c) (mkLoopContext next break :: loops c)) ctx.

Definition popLoop (ctx : Context) : M Context :=
  c <- code_top ctx ;;
  match loops c with
  | _ :: rest => update_top (fun c => mkCodeContext (cs c) rest) ctx
  | [] => undefined "loops.pop() of an empty stack"
  end.

Definition ctx_push (ctx : Context) (a : SEXP) : Context :=
  set_code (mkCodeContext (CodeStream.create a) [] :: code ctx) ctx.

Definition ctx_pop (ctx : Context) : M (fun_idx_t * Context) :=
  match code ctx with
  | c :: rest =>
      ret (Z.of_nat (length (function ctx)),
           mkContext rest (function ctx ++ [cs c]) (preserve ctx))
  | [] => undefined "code.top() of an empty stack"
  end.

Definition ctx_preserve (ctx : Context) (x : SEXP) : Context :=
  mkContext (code ctx) (function ctx) (x :: preserve ctx).

Section Compiler.
Context {H : Host}.
Variable fuel : nat.
Variable compileExpr_rec : Context -> SEXP -> M Context.

(** Modelled from the spec: [RList], declared in R/RList.h, is the argument
    list of a call, a pairlist of the host; an iterator is a cell, [*it]
    its [CAR], [it.tag()] its [TAG], [++it] its [CDR], and [end()] is
    [R_NilValue]. *)
Fixpoint RList_length_loop (n : nat) (x : SEXP) (len : Z) : M Z :=
  if Nat.eqb x R_NilValue then ret len
  else match n with
       | O => out_of_fuel
       | S n' => d <- CDR x ;; RList_length_loop n' d (len + 1)
       end.
Definition RList_length (x : SEXP) : M Z := RList_length_loop fuel x 0.

Fixpoint RList_at (x : SEXP) (i : nat) : M SEXP :=
  match i with
  | O => CAR x
  | S i' => d <- CDR x ;; RList_at d i'
  end.

Definition STRING_ELT (x : SEXP) (i : nat) : M SEXP := VECTOR_ELT x i.

Definition compilePromise (ctx : Context) (exp : SEXP) : M (fun_idx_t * Context) :=
  let ctx := ctx_push ctx exp in
  ctx <- compileExpr_rec ctx exp ;;
  ctx <- emit ctx BC.ret ;;
  ctx_pop ctx.

(** The loop over the arguments in [compileDispatch] and [compileCall]: a
    promise per argument. *)
Fixpoint compile_call_args (n : nat) (ctx : Context) (arg : SEXP)
    (callArgs : list fun_idx_t) (names : list SEXP)
    : M (list fun_idx_t * list SEXP * Context) :=
  if Nat.eqb arg R_NilValue then ret (callArgs, names, ctx)
  else match n with
       | O => out_of_fuel
       | S n' =>
           a <- CAR arg ;;
           if Nat.eqb a R_DotsSymbol
           then (next <- CDR arg ;;
                 compile_call_args n' ctx next (callArgs ++ [DOTS_ARG_IDX]) (names ++ [R_NilValue]))
           else if Nat.eqb a R_MissingArg
           then (next <- CDR arg ;;
                 compile_call_args n' ctx next (callArgs ++ [MISSING_ARG_IDX])
                                   (names ++ [R_NilValue]))
           else
             p <- compilePromise ctx a ;;
             tag <- TAG arg ;;
             next <- CDR arg ;;
             compile_call_args n' (snd p) next (callArgs ++ [fst p]) (names ++ [tag])
       end.

Definition compileDispatch (ctx : Context) (selector ast fun_ args : SEXP) : M Context :=
  r <- compile_call_args fuel ctx args [] [] ;;
  let '(callArgs, names, ctx) := r in
  assert (Z.of_nat (length callArgs) <? MAX_NUM_ARGS) "callArgs.size() < MAX_NUM_ARGS" ;;
  ctx <- emit ctx (BC.dispatch selector callArgs names) ;;
  addAst ctx ast.

(** [&&] and [||] *)
Definition special_logical (ctx : Context) (fun_ args_ : SEXP)
    (br : Label -> BC.t) (combine : BC.t) : M (bool * Context) :=
  ctx <- emit ctx (BC.isspecial fun_) ;;
  p <- mkLabel ctx ;;
  let (nextBranch, ctx) := p : Label * Context in
  a0 <- RList_at args_ 0 ;;
  ctx <- compileExpr_rec ctx a0 ;;
  ctx <- emit ctx BC.asLogical ;;
  a0 <- RList_at args_ 0 ;;
  ctx <- addAst ctx a0 ;;
  ctx <- emit ctx BC.dup ;;
  ctx <- emit ctx (br nextBranch) ;;
  a1 <- RList_at args_ 1 ;;
  ctx <- compileExpr_rec ctx a1 ;;
  ctx <- emit ctx BC.asLogical ;;
  a1 <- RList_at args_ 1 ;;
  ctx <- addAst ctx a1 ;;
  ctx <- emit ctx combine ;;
  ctx <- bind_label ctx nextBranch ;;
  ret (true, ctx).

Definition special_quote (ctx : Context) (fun_ args_ : SEXP) : M (bool * Context) :=
  a0 <- RList_at args_ 0 ;;
  p <- compilePromise ctx a0 ;;
  let (i, ctx) := p : fun_idx_t * Context in
  ctx <- emit ctx (BC.isspecial fun_) ;;
  ctx <- emit ctx (BC.push_code i) ;;
  ret (true, ctx).

(** "Verify lhs is valid" *)
Fixpoint valid_lhs (n : nat) (l : SEXP) : M bool :=
  t <- TYPEOF l ;;
  if t =? LANGSXP
  then
    f <- CAR l ;;
    args <- CDR l ;;
    tf <- TYPEOF f ;;
    if tf =? SYMSXP
    then (l' <- CAR args ;;
          match n with
          | O => out_of_fuel
          | S n' => valid_lhs n' l'
          end)
    else ret false
  else if (t =? SYMSXP) || (t =? STRSXP) then ret true
  else ret false.

(** "Find all parts of the lhs" *)
Fixpoint lhs_parts (n : nat) (ast l : SEXP) (lhsParts : list SEXP) : M (list SEXP * SEXP) :=
  t <- TYPEOF l ;;
  if t =? LANGSXP
  then
    f <- CAR l ;;
    args <- CDR l ;;
    assertM (tf <- TYPEOF f ;; ret (tf =? SYMSXP)) "TYPEOF(fun) == SYMSXP" ;;
    l' <- CAR args ;;
    match n with
    | O => out_of_fuel
    | S n' => lhs_parts n' ast l' (lhsParts ++ [l])
    end
  else if t =? SYMSXP then ret (lhsParts ++ [l], l)
  else if t =? STRSXP
  then
    assertM (s <- get_state ;; ret (Rf_length s l =? 1)) "Rf_length(l) == 1" ;;
    c <- STRING_ELT l 0 ;;
    name <- CHAR c ;;
    target <- Rf_install name ;;
    ret (lhsParts ++ [target], target)
  else errorcall ast "invalid (do_set) left-hand side to assignment".

(** The loop over the arguments after the first of a getter or setter: the
    values go on the stack.  [nargs] is counted for the setters. *)
Fixpoint compile_stack_args (n : nat) (ctx : Context) (arg : SEXP)
    (names : list SEXP) (nargs : Z) : M (list SEXP * Z * Context) :=
  if Nat.eqb arg R_NilValue then ret (names, nargs, ctx)
  else match n with
       | O => out_of_fuel
       | S n' =>
           a <- CAR arg ;;
           if Nat.eqb a R_DotsSymbol || Nat.eqb a R_MissingArg
           then
             ctx <- emit ctx (BC.push a) ;;
             next <- CDR arg ;;
             compile_stack_args n' ctx next (names ++ [R_NilValue]) (nargs + 1)
           else
             tag <- TAG arg ;;
             t <- TYPEOF a ;;
             ctx <- (if (t =? LANGSXP) || (t =? SYMSXP)
                     then (p <- compilePromise ctx a ;; emit (snd p) (BC.promise (fst p)))
                     else compileExpr_rec ctx a) ;;
             next <- CDR arg ;;
             compile_stack_args n' ctx next (names ++ [tag]) (nargs + 1)
       end.

Definition nth_part (lhsParts : list SEXP) (i : nat) : M SEXP :=
  match lhsParts !! i with
  | Some g => ret g
  | None => undefined "lhsParts[i] out of range"
  end.

(** "Evaluate the getter list and push it to the stack in reverse order":
    [for (unsigned i = lhsParts.size() - 1; i > 0; --i)]. *)
Fixpoint compile_getters (i : nat) (lhsParts : list SEXP) (ctx : Context) : M Context :=
  match i with
  | O => ret ctx
  | S i' =>
      g <- nth_part lhsParts i ;;
      t <- TYPEOF g ;;
      ctx <- (if t =? SYMSXP then emit ctx (BC.ldvar g)
              else if t =? LANGSXP
              then
                f <- CAR g ;;
                args <- CDR g ;;
                arg <- CDR args ;;
                ctx <- emit ctx (BC.ldfun f) ;;
                ctx <- emit ctx BC.swap ;;
                r <- compile_stack_args fuel ctx arg [R_NilValue] 0 ;;
                let '(names, _, ctx) := r in
                ctx <- emit ctx (BC.call_stack (length names) names) ;;
                rewrite <- hostcall (HC_shallow_duplicate g) (Rf_shallow_duplicate g) ;;
                let ctx := ctx_preserve ctx rewrite in
                d <- CDR rewrite ;;
                SETCAR d symbol.getterPlaceholder ;;
                addAst ctx rewrite
              else (assert false "false" ;; ret ctx)) ;;
      ctx <- (if (1 <? i)%nat then emit ctx BC.dup else ret ctx) ;;
      ctx <- emit ctx BC.uniq ;;
      ctx <- (if (1 <? i)%nat then emit ctx BC.swap else ret ctx) ;;
      compile_getters i' lhsParts ctx
  end.

(** [while (CDR(a) != R_NilValue) a = CDR(a);] *)
Fixpoint last_arg (n : nat) (a : SEXP) : M SEXP :=
  d <- CDR a ;;
  if Nat.eqb d R_NilValue then ret a
  else match n with
       | O => out_of_fuel
       | S n' => last_arg n' d
       end.

(** "Run the setters": every part but the last. *)
Fixpoint compile_setters (lhsParts : list SEXP) (ctx : Context) : M Context :=
  match lhsParts with
  | g :: ((_ :: _) as rest) =>
      f <- CAR g ;;
      args <- CDR g ;;
      pn <- PRINTNAME f ;;
      name <- CHAR pn ;;
      setterName <- Rf_install (String.append name "<-") ;;
      arg <- CDR args ;;
      ctx <- emit ctx (BC.ldfun setterName) ;;
      ctx <- emit ctx (BC.put 2) ;;
      r <- compile_stack_args fuel ctx arg [R_NilValue] 0 ;;
      let '(names, nargs, ctx) := r in
      let names := names ++ [symbol.value] in
      ctx <- (if 0 <? nargs then emit ctx (BC.pick nargs) else ret ctx) ;;
      ctx <- emit ctx (BC.call_stack (length names) names) ;;
      rewrite <- hostcall (HC_shallow_duplicate g) (Rf_shallow_duplicate g) ;;
      let ctx := ctx_preserve ctx rewrite in
      SETCAR rewrite setterName ;;
      a <- CDR rewrite ;;
      SETCAR a symbol.setterPlaceholder ;;
      a <- last_arg fuel a ;;
      value <- CONS_NR symbol.setterPlaceholder R_NilValue ;;
      SET_TAG value symbol.value ;;
      SETCDR a value ;;
      ctx <- addAst ctx rewrite ;;
      ctx <- emit ctx BC.uniq ;;
      compile_setters rest ctx
  | _ => ret ctx
  end.

Definition special_Assign (ctx : Context) (ast fun_ args_ : SEXP) : M (bool * Context) :=
  assertM (n <- RList_length args_ ;; ret (n =? 2)) "args.length() == 2" ;;
  lhs <- RList_at args_ 0 ;;
  rhs <- RList_at args_ 1 ;;
  ok <- valid_lhs fuel lhs ;;
  if negb ok then ret (false, ctx)
  else
    ctx <- emit ctx (BC.isspecial fun_) ;;
    t <- TYPEOF lhs ;;
    if t =? SYMSXP
    then
      ctx <- compileExpr_rec ctx rhs ;;
      ctx <- emit ctx BC.dup ;;
      ctx <- emit ctx (BC.stvar lhs) ;;
      ctx <- emit ctx BC.invisible ;;
      ret (true, ctx)
    else
      ctx <- compileExpr_rec ctx rhs ;;
      ctx <- emit ctx BC.dup ;;
      r <- lhs_parts fuel ast lhs [] ;;
      let (lhsParts, target) := r : list SEXP * SEXP in
      ctx <- compile_getters (length lhsParts - 1) lhsParts ctx ;;
      ctx <- emit ctx (BC.pick (Z.of_nat (length lhsParts) - 1)) ;;
      ctx <- compile_setters lhsParts ctx ;;
      ctx <- emit ctx (BC.stvar target) ;;
      ctx <- emit ctx BC.invisible ;;
      ret (true, ctx).

(** [is.null], [is.list] and [is.pairlist] *)
Definition special_is (ctx : Context) (fun_ args_ : SEXP) (type : SEXPTYPE)
    : M (bool * Context) :=
  ctx <- emit ctx (BC.isspecial fun_) ;;
  a0 <- RList_at args_ 0 ;;
  ctx <- compileExpr_rec ctx a0 ;;
  ctx <- emit ctx (BC.is_ type) ;;
  ret (true, ctx).

(** [[[] and [[] with two arguments *)
Definition special_Bracket (ctx : Context) (ast fun_ args_ : SEXP) : M (bool * Context) :=
  lhs <- RList_at args_ 0 ;;
  idx <- RList_at args_ 1 ;;
  skip <- orM (ret (Nat.eqb idx R_DotsSymbol || Nat.eqb idx R_MissingArg))
              (tg <- TAG idx ;; ret (negb (Nat.eqb tg R_NilValue))) ;;
  if (skip : bool) then ret (false, ctx)
  else
    p <- mkLabel ctx ;;
    let (objBranch, ctx) := p : Label * Context in
    p <- mkLabel ctx ;;
    let (nextBranch, ctx) := p : Label * Context in
    ctx <- emit ctx (BC.isspecial fun_) ;;
    ctx <- compileExpr_rec ctx lhs ;;
    ctx <- emit ctx (BC.brobj objBranch) ;;
    ctx <- compileExpr_rec ctx idx ;;
    ctx <- emit ctx (if Nat.eqb fun_ symbol.DoubleBracket then BC.extract1 else BC.subset1) ;;
    ctx <- addAst ctx ast ;;
    ctx <- emit ctx (BC.br nextBranch) ;;
    ctx <- bind_label ctx objBranch ;;
    ctx <- compileDispatch ctx fun_ ast fun_ args_ ;;
    ctx <- bind_label ctx nextBranch ;;
    ret (true, ctx).

Definition special_While (ctx : Context) (fun_ args_ : SEXP) : M (bool * Context) :=
  assertM (n <- RList_length args_ ;; ret (n =? 2)) "args.length() == 2" ;;
  cond <- RList_at args_ 0 ;;
  body <- RList_at args_ 1 ;;
  ctx <- emit ctx (BC.isspecial fun_) ;;
  p <- mkLabel ctx ;;
  let (loopBranch, ctx) := p : Label * Context in
  p <- mkLabel ctx ;;
  let (nextBranch, ctx) := p : Label * Context in
  ctx <- pushLoop ctx loopBranch nextBranch ;;
  ctx <- emit ctx (BC.beginloop nextBranch) ;;
  ctx <- bind_label ctx loopBranch ;;
  ctx <- compileExpr_rec ctx cond ;;
  ctx <- emit ctx BC.asbool ;;
  ctx <- emit ctx (BC.brfalse nextBranch) ;;
  ctx <- compileExpr_rec ctx body ;;
  ctx <- emit ctx BC.pop ;;
  ctx <- emit ctx (BC.br loopBranch) ;;
  ctx <- bind_label ctx nextBranch ;;
  ctx <- emit ctx BC.endcontext ;;
  ctx <- emit ctx (BC.push R_NilValue) ;;
  ctx <- emit ctx BC.invisible ;;
  ctx <- popLoop ctx ;;
  ret (true, ctx).

Definition special_Repeat (ctx : Context) (fun_ args_ : SEXP) : M (bool * Context) :=
  assertM (n <- RList_length args_ ;; ret (n =? 1)) "args.length() == 1" ;;
  body <- RList_at args_ 0 ;;
  ctx <- emit ctx (BC.isspecial fun_) ;;
  p <- mkLabel ctx ;;
  let (loopBranch, ctx) := p : Label * Context in
  p <- mkLabel ctx ;;
  let (nextBranch, ctx) := p : Label * Context in
  ctx <- pushLoop ctx loopBranch nextBranch ;;
  ctx <- emit ctx (BC.beginloop nextBranch) ;;
  ctx <- bind_label ctx loopBranch ;;
  ctx <- compileExpr_rec ctx body ;;
  ctx <- emit ctx BC.pop ;;
  ctx <- emit ctx (BC.br loopBranch) ;;
  ctx <- bind_label ctx nextBranch ;;
  ctx <- emit ctx BC.endcontext ;;
  ctx <- emit ctx (BC.push R_NilValue) ;;
  ctx <- emit ctx BC.invisible ;;
  ctx <- popLoop ctx ;;
  ret (true, ctx).

(** [next] and [break] inside a loop *)
Definition special_jump (ctx : Context) (fun_ args_ : SEXP) (target : LoopContext -> Label)
    : M (bool * Context) :=
  assertM (n <- RList_length args_ ;; ret (n =? 0)) "args.length() == 0" ;;
  ctx <- emit ctx (BC.isspecial fun_) ;;
  l <- loop ctx ;;
  ctx <- emit ctx (BC.br (target l)) ;;
  ret (true, ctx).

Definition has_length (args_ : SEXP) (k : Z) : M bool :=
  n <- RList_length args_ ;; ret (n =? k).

(** "Inline some specials".  The case of [for] is switched off in the source
    ([if (false && fun == symbol::For)]). *)
Definition compileSpecialCall (ctx : Context) (ast fun_ args_ : SEXP) : M (bool * Context) :=
  c <- andM (ret (Nat.eqb fun_ symbol.And)) (has_length args_ 2) ;;
  if (c : bool) then special_logical ctx fun_ args_ BC.brfalse BC.lglAnd else
  c <- andM (ret (Nat.eqb fun_ symbol.Or)) (has_length args_ 2) ;;
  if (c : bool) then special_logical ctx fun_ args_ BC.brtrue BC.lglOr else
  c <- andM (ret (Nat.eqb fun_ symbol.quote)) (has_length args_ 1) ;;
  if (c : bool) then special_quote ctx fun_ args_ else
  if Nat.eqb fun_ symbol.Assign then special_Assign ctx ast fun_ args_ else
  if Nat.eqb fun_ symbol.Internal then ret (false, ctx) else
  c <- andM (ret (Nat.eqb fun_ symbol.isnull)) (has_length args_ 1) ;;
  if (c : bool) then special_is ctx fun_ args_ NILSXP else
  c <- andM (ret (Nat.eqb fun_ symbol.islist)) (has_length args_ 1) ;;
  if (c : bool) then special_is ctx fun_ args_ VECSXP else
  c <- andM (ret (Nat.eqb fun_ symbol.ispairlist)) (has_length args_ 1) ;;
  if (c : bool) then special_is ctx fun_ args_ LISTSXP else
  c <- andM (ret (Nat.eqb fun_ symbol.DoubleBracket || Nat.eqb fun_ symbol.Bracket))
            (has_length args_ 2) ;;
  if (c : bool) then special_Bracket ctx ast fun_ args_ else
  if Nat.eqb fun_ symbol.While then special_While ctx fun_ args_ else
  if Nat.eqb fun_ symbol.Repeat then special_Repeat ctx fun_ args_ else
  c <- andM (ret (Nat.eqb fun_ symbol.Next)) (inLoop ctx) ;;
  if (c : bool) then special_jump ctx fun_ args_ next_ else
  c <- andM (ret (Nat.eqb fun_ symbol.Break)) (inLoop ctx) ;;
  if (c : bool) then special_jump ctx fun_ args_ break_ else
  ret (false, ctx).

(** "function application" *)
Definition compileCall (ctx : Context) (ast fun_ args : SEXP) : M Context :=
  t <- TYPEOF fun_ ;;
  r <- (if t =? SYMSXP
        then
          r <- compileSpecialCall ctx ast fun_ args ;;
          if fst r then ret r
          else (ctx <- emit (snd r) (BC.ldfun fun_) ;; ret (false, ctx))
        else
          ctx <- compileExpr_rec ctx fun_ ;;
          ctx <- emit ctx BC.isfun ;;
          ret (false, ctx)) ;;
  if fst r then ret (snd r)
  else
    r <- compile_call_args fuel (snd r) args [] [] ;;
    let '(callArgs, names, ctx) := r in
    assert (Z.of_nat (length callArgs) <? MAX_NUM_ARGS) "callArgs.size() < MAX_NUM_ARGS" ;;
    ctx <- emit ctx (BC.call callArgs names) ;;
    addAst ctx ast.

(** "Lookup" *)
Definition compileGetvar (ctx : Context) (name : SEXP) : M Context :=
  dd <- DDVAL name ;;
  if (dd : bool) then emit ctx (BC.ldddvar name)
  else if Nat.eqb name R_MissingArg then emit ctx (BC.push R_MissingArg)
  else emit ctx (BC.ldvar name).

(** "Constant" *)
Definition compileConst (ctx : Context) (constant : SEXP) : M Context :=
  SET_NAMED constant 2 ;;
  emit ctx (BC.push constant).

Definition compileExpr_body (ctx : Context) (exp : SEXP) : M Context :=
  t <- TYPEOF exp ;;
  if t =? LANGSXP
  then (f <- CAR exp ;; args <- CDR exp ;; compileCall ctx exp f args)
  else if t =? SYMSXP then compileGetvar ctx exp
  else if t =? PROMSXP
  then
    expr <- PRCODE exp ;;
    val <- hostcall (HC_forcePromise exp) (forcePromise exp) ;;
    ctx <- compileConst ctx val ;;
    addAst ctx expr
  else if t =? BCODESXP then (assert false "false" ;; ret ctx)
  else compileConst ctx exp.

End Compiler.

Fixpoint compileExpr {H : Host} (fuel : nat) (ctx : Context) (exp : SEXP) : M Context :=
  match fuel with
  | O => out_of_fuel
  | S n => compileExpr_body n (compileExpr n) ctx exp
  end.

Section CompilerEntry.
Context {H : Host}.
Variable fuel : nat.

Fixpoint compileFormals_loop (n : nat) (ctx : Context) (arg : SEXP) (res : list fun_idx_t)
    : M (list fun_idx_t * Context) :=
  if Nat.eqb arg R_NilValue then ret (res, ctx)
  else match n with
       | O => out_of_fuel
       | S n' =>
           a <- CAR arg ;;
           if Nat.eqb a R_MissingArg
           then (next <- CDR arg ;; compileFormals_loop n' ctx next (res ++ [MISSING_ARG_IDX]))
           else
             p <- compilePromise (compileExpr fuel) ctx a ;;
             next <- CDR arg ;;
             compileFormals_loop n' (snd p) next (res ++ [fst p])
       end.
Definition compileFormals (ctx : Context) (formals : SEXP) : M (list fun_idx_t * Context) :=
  compileFormals_loop fuel ctx formals [].

(** [Optimizer::optimize] and [CodeVerifier::vefifyFunctionLayout] are
    declared in ir/Optimizer.h and ir/CodeVerifier.h, which are not among
    the sources: [Compiler::finalize] takes them as parameters here. *)
Variable Optimizer_optimize : FunctionHandle -> M FunctionHandle.
Variable CodeVerifier_vefifyFunctionLayout : FunctionHandle -> M unit.

(** [Compiler::finalize]: what is returned is the function that the
    optimizer hands back, [opt.store], and the formals as they came. *)
Definition Compiler_finalize (exp formals : SEXP) (preserved : list SEXP)
    : M (FunctionHandle * SEXP) :=
  let ctx := mkContext [] [] preserved in
  r <- compileFormals ctx formals ;;
  let ctx := ctx_push (snd r) exp in
  ctx <- compileExpr fuel ctx exp ;;
  ctx <- emit ctx BC.ret ;;
  p <- ctx_pop ctx ;;
  opt <- Optimizer_optimize (function (snd p)) ;;
  CodeVerifier_vefifyFunctionLayout opt ;;
  ret (opt, formals).

End CompilerEntry.

(** Modelled from the spec: the optimization passes over the compiled
    bytecode are treated as an identity pass, and the verifier of the layout
    as a check that passes. *)
Definition identity_pass (f : FunctionHandle) : M FunctionHandle := ret f.
Definition layout_accepted (f : FunctionHandle) : M unit := ret tt.

(** ** What a run of the compiler adds to the code on top *)

(** The loops of the code being compiled. *)
Definition top_loops (ctx : Context) : list LoopContext :=
  match code ctx with
  | c :: _ => loops c
  | [] => []
  end.

(** [ctx'] is [ctx] with [xs] streamed into the code on top, and labels
    handed out; the codes below are the same. *)
Definition grew (ctx ctx' : Context) (xs : list CodeStream.item) : Prop :=
  match code ctx, code ctx' with
  | c :: rest, c' :: rest' =>
      rest' = rest
      /\ CodeStream.source (cs c') = CodeStream.source (cs c)
      /\ CodeStream.items (cs c') = CodeStream.items (cs c) ++ xs
      /\ (CodeStream.nextLabel (cs c) <= CodeStream.nextLabel (cs c'))%nat
  | [], [] => xs = []
  | _, _ => False
  end.

(** The same, with the loops on top as they were. *)
Definition appended (ctx ctx' : Context) (xs : list CodeStream.item) : Prop :=
  grew ctx ctx' xs /\ top_loops ctx' = top_loops ctx.

Definition appends (ctx ctx' : Context) : Prop := exists xs, appended ctx ctx' xs.
Definition grows (ctx ctx' : Context) : Prop := exists xs, grew ctx ctx' xs.

(** [xs] streamed into the code on top. *)
Definition put_items (xs : list CodeStream.item) (ctx : Context) : Context :=
  match code ctx with
  | c :: rest =>
      set_code (mkCodeContext (CodeStream.mk (CodeStream.source (cs c))
                                             (CodeStream.items (cs c) ++ xs)
                                             (CodeStream.nextLabel (cs c)))
                              (loops c) :: rest) ctx
  | [] => ctx
  end.

(** The label that [mkLabel] hands out next. *)
Definition next_label (ctx : Context) : Label :=
  match code ctx with
  | c :: _ => CodeStream.nextLabel (cs c)
  | [] => 0%nat
  end.

(** The context in which the condition of a [while] is compiled: the guard,
    [beginloop_] and the loop label are in the stream, two labels are taken
    and the loop is pushed. *)
Definition while_entry (ctx : Context) : Context :=
  match code ctx with
  | c :: rest =>
      let loopBranch := CodeStream.nextLabel (cs c) in
      let nextBranch := S loopBranch in
      set_code
        (mkCodeContext
           (CodeStream.mk (CodeStream.source (cs c))
              (CodeStream.items (cs c)
               ++ [CodeStream.ins (BC.isspecial symbol.While);
                   CodeStream.ins (BC.beginloop nextBranch);
                   CodeStream.label loopBranch])
              (S nextBranch))
           (mkLoopContext loopBranch nextBranch :: loops c) :: rest) ctx
  | [] => ctx
  end.

(** What the compiler streams for [while (cond) body], given what it streams
    for the condition and for the body. *)
Definition while_code (loopBranch nextBranch : Label)
    (cond_items body_items : list CodeStream.item) : list CodeStream.item :=
  [CodeStream.ins (BC.isspecial symbol.While);
   CodeStream.ins (BC.beginloop nextBranch);
   CodeStream.label loopBranch]
  ++ cond_items
  ++ [CodeStream.ins BC.asbool; CodeStream.ins (BC.brfalse nextBranch)]
  ++ body_items
  ++ [CodeStream.ins BC.pop;
      CodeStream.ins (BC.br loopBranch);
      CodeStream.label nextBranch;
      CodeStream.ins BC.endcontext;
      CodeStream.ins (BC.push R_NilValue);
      CodeStream.ins BC.invisible].

(** ** An initial heap

    The distinguished objects and symbols at their addresses, followed by the
    print names of the symbols.  Address 0 is never a valid object. *)
Definition mk_obj (t : SEXPTYPE) (d : udata) : sexprec :=
  mkSexp (mkInfo t false 2 0) R_NilValue d.
Definition mk_sym (pname : SEXP) : sexprec :=
  mk_obj SYMSXP (u_cons pname R_UnboundValue R_NilValue).
Definition mk_chars (n : string) : sexprec := mk_obj CHARSXP (u_chars n).

Definition base_heap : list sexprec :=
  [
    mk_obj NILSXP (u_int 0);
    mk_obj NILSXP (u_cons R_NilValue R_NilValue R_NilValue);
    mk_sym R_NilValue;
    mk_sym R_NilValue;
    mk_obj LGLSXP (u_ints [1]);
    mk_obj LGLSXP (u_ints [0]);
    mk_obj LGLSXP (u_ints [NA_LOGICAL]);
    mk_sym 29%nat;
    mk_obj ENVSXP (u_cons R_NilValue R_NilValue R_NilValue);
    mk_sym R_NilValue;
    mk_sym 30%nat;
    mk_sym 31%nat;
    mk_sym 32%nat;
    mk_sym 33%nat;
    mk_sym 34%nat;
    mk_sym 35%nat;
    mk_sym 36%nat;
    mk_sym 37%nat;
    mk_sym 38%nat;
    mk_sym 39%nat;
    mk_sym 40%nat;
    mk_sym 41%nat;
    mk_sym 42%nat;
    mk_sym 43%nat;
    mk_sym 44%nat;
    mk_sym 45%nat;
    mk_sym 46%nat;
    mk_sym 47%nat;
    mk_sym 48%nat;
    mk_chars "...";
    mk_chars "*.placeholder.getter.*";
    mk_chars "*.placeholder.setter.*";
    mk_chars "quote";
    mk_chars "value";
    mk_chars "[";
    mk_chars "[[";
    mk_chars "names";
    mk_chars "&&";
    mk_chars "||";
    mk_chars "<-";
    mk_chars ".Internal";
    mk_chars "is.null";
    mk_chars "is.list";
    mk_chars "is.pairlist";
    mk_chars "while";
    mk_chars "repeat";
    mk_chars "for";
    mk_chars "next";
    mk_chars "break"
  ].


(** A state over the initial heap extended with [objs], with the given
    stack and pools; the context chain holds the top-level context. *)
Definition toplevel_context : RCNTXT :=
  mkRCNTXT NULL CTXT_TOPLEVEL R_NilValue R_NilValue R_BaseEnv R_NilValue R_BaseEnv 0.
Definition initial_state (objs : list sexprec) (stack cp src_ : list SEXP) : State :=
  mkState (base_heap ++ objs) stack cp src_ true [toplevel_context] R_NilValue [] 0 [].
Definition first_free : SEXP := length base_heap.

(** ** Concrete inputs *)

Definition code_empty : Code := mkCode 0%nat 0%nat [] [] 0%nat.

(** [NA] below [FALSE] on the stack. *)
Definition state_lgl : State := initial_state [] [R_FalseValue; R_LogicalNAValue] [] [].

(** A logical scalar holding TRUE that is not the shared [R_TrueValue]. *)
Definition fresh_TRUE : sexprec := mkSexp (mkInfo LGLSXP false 0 0) R_NilValue (u_ints [1]).
Definition code_brtrue : Code :=
  mkCode 0%nat 1%nat
         [encodeOpcode brtrue_; 2; 0; 0; 0; encodeOpcode pop_; encodeOpcode pop_; encodeOpcode ret_]
         [0; 0; 0; 0]%nat 0%nat.
Definition state_fresh_TRUE : State := initial_state [fresh_TRUE] [first_free] [] [].

(** Two scalar reals, 2 on top of 1. *)
Definition real_scalar (v : float) : sexprec :=
  mkSexp (mkInfo REALSXP false 0 0) R_NilValue (u_reals [v]).
Definition state_reals : State :=
  initial_state [real_scalar 1%float; real_scalar 2%float] [S first_free; first_free] [] [].
(** TRUE on top of a scalar real. *)
Definition state_real_and_true : State :=
  initial_state [real_scalar 1%float] [R_TrueValue; first_free] [] [].

(** [while] bound to a closure in the current environment. *)
Definition env_shadowing_while : list sexprec :=
  [ mkSexp (mkInfo ENVSXP false 0 0) R_NilValue (u_cons (S first_free) R_BaseEnv R_NilValue);
    mkSexp (mkInfo LISTSXP false 0 0) R_NilValue (u_cons (S (S first_free)) R_NilValue symbol.While);
    mkSexp (mkInfo CLOSXP false 0 0) R_NilValue (u_cons R_NilValue R_NilValue first_free) ].
Definition code_isspecial : Code :=
  mkCode 0%nat 0%nat [encodeOpcode isspecial_; 0; 0; 0; 0; encodeOpcode ret_] [0; 0]%nat 0%nat.
Definition state_shadowed : State :=
  initial_state env_shadowing_while [] [symbol.While] [].

(** [value] bound to an unforced promise of the constant TRUE. *)
Definition env_with_promise : list sexprec :=
  [ mkSexp (mkInfo ENVSXP false 0 0) R_NilValue (u_cons (S first_free) R_BaseEnv R_NilValue);
    mkSexp (mkInfo LISTSXP false 0 0) R_NilValue (u_cons (S (S first_free)) R_NilValue R_valueSym);
    mkSexp (mkInfo PROMSXP false 0 0) R_NilValue (u_cons R_UnboundValue R_TrueValue first_free) ].
Definition code_ldvar : Code :=
  mkCode 0%nat 1%nat [encodeOpcode ldvar_; 0; 0; 0; 0; encodeOpcode ret_] [0; 0]%nat 0%nat.
Definition state_promise : State :=
  initial_state env_with_promise [] [R_valueSym] [].
(** [value] bound to a promise of the constant TRUE that holds the value
    FALSE. *)
Definition env_with_evaluated_promise : list sexprec :=
  [ mkSexp (mkInfo ENVSXP false 0 0) R_NilValue (u_cons (S first_free) R_BaseEnv R_NilValue);
    mkSexp (mkInfo LISTSXP false 0 0) R_NilValue (u_cons (S (S first_free)) R_NilValue R_valueSym);
    mkSexp (mkInfo PROMSXP false 0 0) R_NilValue (u_cons R_FalseValue R_TrueValue first_free) ].
Definition state_evaluated_promise : State :=
  initial_state env_with_evaluated_promise [] [R_valueSym] [].

(** A logical vector of length two, TRUE first, under [asbool_]. *)
Definition lgl_pair : sexprec := mkSexp (mkInfo LGLSXP false 0 0) R_NilValue (u_ints [1; 0]).
Definition code_asbool : Code :=
  mkCode 0%nat 1%nat [encodeOpcode asbool_; encodeOpcode ret_] [0; 0]%nat 0%nat.
Definition state_lgl_pair : State := initial_state [lgl_pair] [first_free] [] [R_NilValue].

(** The result and the final state of a run, for statements about concrete runs. *)
Definition result_of {A} (o : outcome A) (d : A) : A :=
  match o with Ok a _ => a | _ => d end.
Definition state_of {A} (o : outcome A) (d : State) : State :=
  match o with Ok _ s => s | RError _ s => s | LongJmp _ _ s => s | _ => d end.

(** A function object with an entry and one promise that pushes constant 0;
    an object with the class bit set; a closure whose body is the function. *)
Definition code_entry : Code :=
  mkCode 0%nat 1%nat [encodeOpcode push_; 0; 0; 0; 0; encodeOpcode ret_] [0; 0]%nat (S first_free).
Definition code_promise : Code :=
  mkCode 0%nat 1%nat [encodeOpcode push_; 0; 0; 0; 0; encodeOpcode ret_] [0; 0]%nat (S first_free).
Definition program_objects : list sexprec :=
  [ mkSexp (mkInfo ENVSXP false 0 0) R_NilValue (u_cons (5 + first_free)%nat R_BaseEnv R_NilValue);
    mkSexp (mkInfo INTSXP false 0 0) R_NilValue (u_function [(2 + first_free)%nat; (3 + first_free)%nat]);
    mkSexp (mkInfo 31 false 0 0) R_NilValue (u_code code_entry);
    mkSexp (mkInfo 31 false 0 0) R_NilValue (u_code code_promise);
    mkSexp (mkInfo LGLSXP true 0 S4_OBJECT_MASK) R_NilValue (u_ints [1]);
    mkSexp (mkInfo LISTSXP false 0 0) R_NilValue (u_cons (6 + first_free)%nat R_NilValue R_valueSym);
    mkSexp (mkInfo CLOSXP false 0 0) R_NilValue (u_cons R_NilValue (S first_free) first_free) ].
Definition the_env : SEXP := first_free.
Definition the_object : SEXP := (4 + first_free)%nat.
Definition the_closure : SEXP := (6 + first_free)%nat.
Definition state_program : State := initial_state program_objects [] [R_TrueValue] [R_NilValue].

Definition run_dispatch (h : Host) : outcome SEXP :=
  doDispatch (H := h) 5 (evalRirCode (H := h) 5) code_entry R_NilValue R_valueSym the_object [1] 1
             R_NilValue the_env state_program.
Definition run_dispatch_actuals (h : Host) : outcome SEXP :=
  dispatch_actuals (H := h) 5 (evalRirCode (H := h) 5) code_entry R_NilValue the_object [1] 1
             R_NilValue the_env state_program.

(** A host whose S4 dispatch is tried and gives no result and whose
    [usemethod] fails, and the state in which the argument list is ready. *)
Definition host_S3_fails : Host := host_dispatching true NULL (false, NULL).
Definition state_dispatch_ready : State :=
  state_of (run_dispatch_actuals host_S3_fails) state_program.

(** The program state with one value on the stack at entry. *)
Definition state_program_1 : State :=
  initial_state program_objects [R_NilValue] [R_TrueValue] [R_NilValue].
Definition run_entry : outcome SEXP :=
  evalRirCode (H := refHost) 3 (2 + first_free)%nat the_env 0 state_program_1.
(** The activation of the closure, entered with one value on the stack. *)
Definition run_closure : outcome SEXP :=
  rirCallClosure (H := refHost) 3 (evalRirCode (H := refHost) 3)
    R_NilValue the_env the_closure R_NilValue 0 state_program_1.

(** ** Inputs for the placeholder rewrite *)

(** The state in which [doCallStack] goes on after the host has returned the
    duplicate in [s1]. *)
Definition after_duplicate (call_ast : SEXP) (st s1 : State) : State :=
  set_hostLog (HC_shallow_duplicate call_ast :: hostLog st) s1.

(** [names(*tmp*)] and [`names<-`(*tmp*, value = *vtmp*)] as the compiler
    attaches them to a getter or setter call, with a closure and a builtin
    to call. *)
Definition placeholder_objects : list sexprec :=
  [ mkSexp (mkInfo CLOSXP false 0 0) R_NilValue (u_cons R_NilValue R_NilValue R_BaseEnv);
    mkSexp (mkInfo BUILTINSXP false 0 0) R_NilValue (u_int 0);
    mkSexp (mkInfo LANGSXP false 0 0) R_NilValue
           (u_cons R_NamesSymbol (3 + first_free)%nat R_NilValue);
    mkSexp (mkInfo LISTSXP false 0 0) R_NilValue
           (u_cons getterPlaceholderSym R_NilValue R_NilValue);
    mkSexp (mkInfo LANGSXP false 0 0) R_NilValue
           (u_cons R_NamesSymbol (5 + first_free)%nat R_NilValue);
    mkSexp (mkInfo LISTSXP false 0 0) R_NilValue
           (u_cons setterPlaceholderSym (6 + first_free)%nat R_NilValue);
    mkSexp (mkInfo LISTSXP false 0 0) R_NilValue
           (u_cons setterPlaceholderSym R_NilValue R_valueSym) ].
Definition the_getter_call : SEXP := (2 + first_free)%nat.
Definition the_setter_call : SEXP := (4 + first_free)%nat.
(** The target is the symbol [value]; the callee is below it. *)
Definition state_getter (callee : SEXP) : State :=
  initial_state placeholder_objects [R_valueSym; callee] [] [].
(** The value TRUE on top of the target. *)
Definition state_setter (callee : SEXP) : State :=
  initial_state placeholder_objects [R_TrueValue; R_valueSym; callee] [] [].
Definition run_getter (callee : SEXP) : outcome SEXP :=
  fill_placeholders (H := refHost) 2 the_getter_call callee 1 (state_getter callee).
Definition run_setter (callee : SEXP) : outcome SEXP :=
  fill_placeholders (H := refHost) 2 the_setter_call callee 2 (state_setter callee).
(** The whole of [doCallStack] on the getter call, and the calls into the
    host it makes. *)
Definition run_call_stack (callee : SEXP) : outcome SEXP :=
  doCallStack (H := refHost) 2 (evalRirCode (H := refHost) 2) code_empty
              the_getter_call 1 R_NilValue R_BaseEnv (state_getter callee).
Definition host_calls {A} (o : outcome A) : list HostCall :=
  hostLog (state_of o (state_getter NULL)).

(** The state in which the rewrite of the getter call goes on once the
    reference host has duplicated it. *)
Definition state_getter_dup : State :=
  after_duplicate the_getter_call (state_getter first_free)
    (state_of (ref_shallow_duplicate the_getter_call (state_getter first_free))
              (state_getter first_free)).

Definition state_setter_dup : State :=
  after_duplicate the_setter_call (state_setter first_free)
    (state_of (ref_shallow_duplicate the_setter_call (state_setter first_free))
              (state_setter first_free)).

(** ** Inputs for the compiler *)

(** [while (TRUE) value], to be compiled into an empty code. *)
Definition while_objects : list sexprec :=
  [ mkSexp (mkInfo LANGSXP false 0 0) R_NilValue
           (u_cons symbol.While (1 + first_free)%nat R_NilValue);
    mkSexp (mkInfo LISTSXP false 0 0) R_NilValue
           (u_cons R_TrueValue (2 + first_free)%nat R_NilValue);
    mkSexp (mkInfo LISTSXP false 0 0) R_NilValue
           (u_cons R_valueSym R_NilValue R_NilValue) ].
Definition the_while : SEXP := first_free.
Definition state_while : State := initial_state while_objects [] [] [].
Definition ctx_while : Context := ctx_push (mkContext [] [] []) the_while.
Definition run_while : outcome Context :=
  compileExpr (H := refHost) 3 ctx_while the_while state_while.
(** The runs of the compiler on the condition and on the body. *)
Definition run_while_cond : outcome Context :=
  compileExpr (H := refHost) 2 (while_entry ctx_while) R_TrueValue state_while.
Definition ctx_while_body : Context :=
  put_items [CodeStream.ins BC.asbool; CodeStream.ins (BC.brfalse 1%nat)]
            (result_of run_while_cond ctx_while).
Definition run_while_body : outcome Context :=
  compileExpr (H := refHost) 2 ctx_while_body R_valueSym (state_of run_while_cond state_while).

(** [while (TRUE) break] *)
Definition while_break_objects : list sexprec :=
  [ mkSexp (mkInfo LANGSXP false 0 0) R_NilValue
           (u_cons symbol.While (1 + first_free)%nat R_NilValue);
    mkSexp (mkInfo LISTSXP false 0 0) R_NilValue
           (u_cons R_TrueValue (2 + first_free)%nat R_NilValue);
    mkSexp (mkInfo LISTSXP false 0 0) R_NilValue
           (u_cons (3 + first_free)%nat R_NilValue R_NilValue);
    mkSexp (mkInfo LANGSXP false 0 0) R_NilValue
           (u_cons symbol.Break R_NilValue R_NilValue) ].
Definition run_while_break : outcome Context :=
  compileExpr (H := refHost) 4 ctx_while the_while (initial_state while_break_objects [] [] []).

(** The items in the code on top after a run of the compiler. *)
Definition emitted (o : outcome Context) : list CodeStream.item :=
  match o with
  | Ok ctx _ => match code ctx with c :: _ => CodeStream.items (cs c) | [] => [] end
  | _ => []
  end.

(** * Properties *)

(** ** Reasoning about [M] *)

Lemma bind_Ok_inv {A B} (m : M A) (k : A -> M B) s b s' :
  bind m k s = Ok b s' -> exists a s1, m s = Ok a s1 /\ k a s1 = Ok b s'.
Proof.
  unfold bind. destruct (m s) as [a s1| | | | |]; try discriminate.
  intros E. exists a, s1. split; [reflexivity | exact E].
Qed.

Lemma bind_Ok {A B} (m : M A) (k : A -> M B) s a s1 :
  m s = Ok a s1 -> bind m k s = k a s1.
Proof. unfold bind. intros ->. reflexivity. Qed.

Lemma bind_RError {A B} (m : M A) (k : A -> M B) s msg s1 :
  m s = RError msg s1 -> bind m k s = RError msg s1.
Proof. unfold bind. intros ->. reflexivity. Qed.

Lemma bind_AssertFail {A B} (m : M A) (k : A -> M B) s msg :
  m s = AssertFail msg -> bind m k s = AssertFail msg.
Proof. unfold bind. intros ->. reflexivity. Qed.

(** The state components are independent. *)
Lemma heap_set_ostack o s : heap (set_ostack o s) = heap s.
Proof. reflexivity. Qed.
Lemma ostack_set_ostack o s : ostack (set_ostack o s) = o.
Proof. reflexivity. Qed.
Lemma ostack_set_heap h s : ostack (set_heap h s) = ostack s.
Proof. reflexivity. Qed.
Lemma set_ostack_id s : set_ostack (ostack s) s = s.
Proof. destruct s; reflexivity. Qed.

(** ** What is on the stack *)

(** [a] points to integer (or logical) data that starts with [x]. *)
Definition first_int (s : State) (a : SEXP) (x : Z) : Prop :=
  a <> NULL /\ exists r d, heap s !! a = Some r /\ u r = u_ints (x :: d).

(** [a] points to real data that starts with [x]. *)
Definition first_real (s : State) (a : SEXP) (x : float) : Prop :=
  a <> NULL /\ exists r d, heap s !! a = Some r /\ u r = u_reals (x :: d).

(** [a] points to an object of type [t]. *)
Definition has_type (s : State) (a : SEXP) (t : SEXPTYPE) : Prop :=
  a <> NULL /\ exists r, heap s !! a = Some r /\ sx_type (sxpinfo r) = t.

(** The object [add_] and [sub_] would allocate for their result. *)
Definition real_result (v : float) : sexprec :=
  mkSexp (mkInfo REALSXP false 1 0) R_NilValue (u_reals [v]).

Definition isspecial_msg : string :=
  "TYPEOF(val) == SPECIALSXP || TYPEOF(val) == BUILTINSXP".

(** The print name of a symbol, as [CHAR(PRINTNAME(sym))] reads it. *)
Definition symbol_name {H : Host} (s : State) (sym : SEXP) (name : string) : Prop :=
  (pn <- PRINTNAME sym ;; CHAR pn) s = Ok name s.

(** How [ldvar_] leaves the state when it has the value [v], whose header
    is [r]: a NAMED count of 0 is raised to 1, except on [R_NilValue], and [v]
    is pushed. *)
Definition named_and_pushed (v : SEXP) (r : sexprec) (s : State) : State :=
  set_ostack (v :: ostack s)
    (if (sx_named (sxpinfo r) =? 0) && negb (Nat.eqb v R_NilValue)
     then set_heap (<[v := with_named 1 r]> (heap s)) s
     else s).

(** [m] reads no state: it returns the same value in every state and leaves
    the state as it is. *)
Definition reads_nothing {A} (m : M A) : Prop :=
  forall s a s1, m s = Ok a s1 -> s1 = s /\ forall s', m s' = Ok a s'.

Definition asbool_warning : string :=
  "the condition has length > 1 and only the first element will be used".

(** [m] leaves the component [f] of the state as it is whenever it returns. *)
Definition keeps {X A} (f : State -> X) (m : M A) : Prop :=
  forall s a s', m s = Ok a s' -> f s' = f s.

(** A component that the heap does not reach. *)
Definition off_heap {X} (f : State -> X) : Prop := forall h s, f (set_heap h s) = f s.

(** The state in which [doDispatch] goes on to S3 from [st1], where the
    argument list is ready: [st1] itself when S4 is not tried; when it is
    tried, the state in which the host returned NULL, with the call logged. *)
Definition after_S4 {H : Host} (b4 : bool) (call_ast selector actuals env : SEXP)
    (st1 s0 : State) : Prop :=
  if b4
  then exists s4,
         R_possible_dispatch call_ast selector actuals env true st1 = Ok NULL s4
         /\ s0 = set_hostLog (HC_possible_dispatch selector :: hostLog st1) s4
  else s0 = st1.

(** The end of [doDispatch]: [assert(res); return res;]. *)
Definition dispatch_result {H : Host} (m : M SEXP) : M SEXP :=
  bind m (fun res => bind (assert (negb (Nat.eqb res NULL)) "res") (fun _ => ret res)).

(** The instruction at [pc] is [ret_]. *)
Definition at_ret (c : Code) (pc : Z) : Prop :=
  0 <= pc /\ exists b, ccode c !! Z.to_nat pc = Some b /\ decodeOpcode b = Some ret_.

(** The host functions around a closure call do not touch the value stack. *)
Definition host_keeps_ostack {H : Host} : Prop :=
  (forall a b c d e, keeps ostack (closureArgumentAdaptor a b c d e))
  /\ (forall a b c d, keeps ostack (closureDebug a b c d))
  /\ (forall a b c, keeps ostack (endClosureDebug a b c)).

(** What [evalRirCode] leaves behind when it is entered in [st] and returns
    [v] in [st']: after the stack check the object [cp] is read as the code
    [c], the loop is run on [c] from its first instruction with [R_Visible]
    set, it stops in [s_ret] at a [ret_] with [v] on top of the stack, and
    [st'] is [s_ret] without that slot. *)
Definition returns_popped_top {H : Host} (fuel : nat) (cp env : SEXP) (numArgs : Z)
    (st : State) (v : SEXP) (st' : State) : Prop :=
  exists c s_chk s_ret pc_ret,
    R_CheckStack st = Ok tt s_chk
    /\ getCode cp s_chk = Ok c s_chk
    /\ eval_loop fuel (evalRirCode fuel) (S fuel) c env numArgs [] 0 (set_R_Visible true s_chk)
       = Ok tt s_ret
    /\ at_ret c pc_ret
    /\ step fuel (evalRirCode fuel) c env numArgs pc_ret s_ret = Ok None s_ret
    /\ ostack s_ret = v :: ostack st'
    /\ st' = set_ostack (ostack st') s_ret
    /\ (length (ostack s_ret) = 1 + length (ostack st'))%nat.

(** Every object of [s] is still there in [s'] with its type, and outside
    [xs] with its payload (the named count and the attributes may differ). *)
Definition stable_except (xs : list SEXP) (s s' : State) : Prop :=
  forall (y : SEXP) r, heap s !! y = Some r ->
    exists r', heap s' !! y = Some r'
               /\ sx_type (sxpinfo r) = sx_type (sxpinfo r')
               /\ (y ∉ xs -> u r = u r').

(** [x] is a list of the cells [l], in this order, ending in [R_NilValue]. *)
Inductive chain (s : State) : SEXP -> list SEXP -> Prop :=
| chain_last x a t :
    x <> NULL -> cell_of s x = Some (a, R_NilValue, t) -> chain s x [x]
| chain_cons x a d t l :
    x <> NULL -> cell_of s x = Some (a, d, t) -> d <> R_NilValue ->
    chain s d l -> chain s x (x :: l).

(** The cell before the last one of the list [prev :: cells]. *)
Fixpoint penultimate (prev : SEXP) (cells : list SEXP) : SEXP :=
  match cells with
  | c :: ((_ :: _) as l) => penultimate c l
  | _ => prev
  end.

(** [x'] is [x], or [quote(x)] in two cells allocated at [b] or later when
    [x] is a language object or a symbol. *)
Definition quoted (b : nat) (s : State) (x x' : SEXP) : Prop :=
  exists t, has_type s x t /\
    ((t <> LANGSXP /\ t <> SYMSXP /\ x' = x)
     \/ ((t = LANGSXP \/ t = SYMSXP) /\ has_type s x' LANGSXP /\ (b <= x')%nat /\
         exists d, (b <= d)%nat /\ cell_of s x' = Some (quoteSym, d, R_NilValue)
                   /\ cell_of s d = Some (x, R_NilValue, R_NilValue))).

(** What [escape] returns for [x]: the source expression of a code object,
    anything else as it is. *)
Definition escaped (s : State) (x : SEXP) : option SEXP :=
  match heap s !! x with
  | Some r =>
      match u r with
      | u_code c => if Nat.eqb x NULL then None else src_pool s !! csrc c
      | _ => Some x
      end
  | None => Some x
  end.

(** ** Further inputs and specification-level definitions *)

Definition code_pick_put : Code :=
  mkCode 0%nat 4%nat
         [encodeOpcode pick_; 2; 0; 0; 0; encodeOpcode put_; 2; 0; 0; 0; encodeOpcode ret_]
         [0; 0; 0]%nat 0%nat.
Definition state_four : State :=
  initial_state [] [R_TrueValue; R_FalseValue; R_NilValue; R_LogicalNAValue] [] [].

Definition code_is_list : Code :=
  mkCode 0%nat 1%nat [encodeOpcode is_; 2; 0; 0; 0; encodeOpcode ret_] [0; 0]%nat 0%nat.
Definition state_nil_on_top : State := initial_state [] [R_NilValue] [] [].

Definition int_scalar (named : Z) (v : Z) : sexprec :=
  mkSexp (mkInfo INTSXP false named 0) R_NilValue (u_ints [v]).
Definition state_counter (named : Z) : State :=
  initial_state [int_scalar named 41] [first_free] [] [].

(** A promise that holds its value, and one that does not. *)
Definition promise_objects (value : SEXP) : list sexprec :=
  [ mkSexp (mkInfo PROMSXP false 0 0) R_NilValue (u_cons value symbol.While R_BaseEnv);
    int_scalar 0 7 ].
Definition state_holding_promise (value : SEXP) : State :=
  initial_state (promise_objects value) [first_free] [] [].

(** An object whose type tag is 31 but which is no code object. *)
Definition state_tag_31 : State :=
  initial_state [mkSexp (mkInfo 31 false 0 0) R_NilValue (u_int 0)] [] [] [].

Definition state_two_slots : State :=
  initial_state [] [symbol.While; R_NilValue; R_TrueValue] [] [].

(** A context store whose continuation recorded a stack of one slot, below
    two more slots. *)
Definition state_jump : State :=
  initial_state [mkSexp (mkInfo RAWSXP false 0 0) R_NilValue (u_cntxt (mkRirContext 1 None))]
                [R_TrueValue; R_FalseValue; first_free] [] [].

(** The reference host with the function table set by hand: one print flag
    for every entry, one C function for every entry. *)
Definition host_with_builtins (eval_column : Z)
    (cfun : SEXP -> SEXP -> SEXP -> SEXP -> M SEXP) : Host := {|
  NDEBUG := false;
  ENABLE_SLOWASSERT := true;
  COMPILE_ON_DEMAND := false;
  double_to_int := fun _ => 0;
  DOTS_ARG_IDX := 4294967294;
  MISSING_ARG_IDX := 4294967295;
  MAX_NUM_ARGS := 65536;
  Rf_length := ref_length;
  asLogical := ref_asLogical;
  asInteger := ref_asInteger;
  getAttrib := fun _ _ _ => R_NilValue;
  R_has_methods := fun _ _ => false;
  R_FunTab_eval := fun _ => eval_column;
  type2char := fun _ => "object"%string;
  findVar := ref_findVar;
  Rf_ddfindVar := ref_findVar;
  findFun := ref_findFun;
  defineVar := ref_defineVar;
  forcePromise := ref_forcePromise;
  compiler := fun _ => unsupported "compiler";
  R_FunTab_cfun := fun _ => cfun;
  applyClosure := fun _ _ _ _ _ => unsupported "applyClosure";
  closureArgumentAdaptor := fun _ _ _ rho _ => Rf_NewEnvironment R_NilValue R_NilValue rho;
  closureDebug := fun _ _ _ _ => ret tt;
  endClosureDebug := fun _ _ _ => ret tt;
  R_possible_dispatch := fun _ _ _ _ _ => ret NULL;
  Rf_usemethod := fun _ _ _ _ _ _ _ => ret (false, NULL);
  do_subset_dflt := fun _ _ _ _ => unsupported "do_subset_dflt";
  do_subset2_dflt := fun _ _ _ _ => unsupported "do_subset2_dflt";
  Rf_shallow_duplicate := ref_shallow_duplicate;
  Rf_install := ref_install;
  R_CheckStack := ret tt;
  R_CheckUserInterrupt := ret tt
|}.

(** A builtin that returns its argument list and leaves two slots on the
    value stack. *)
Definition leaky_builtin (call_ast op args rho : SEXP) : M SEXP :=
  fun s => Ok args (set_ostack (R_TrueValue :: R_FalseValue :: ostack s) s).
Definition leaky_host : Host := host_with_builtins 100 leaky_builtin.
Definition state_builtin : State :=
  initial_state [mkSexp (mkInfo BUILTINSXP false 0 0) R_NilValue (u_int 7)]
                [R_LogicalNAValue] [] [].

(** The cells of an argument list laid out from address [base] on: one cell
    per (value, tag), each linked to the next address, the last to
    [R_NilValue]. *)
Definition arg_cell (a d t : SEXP) : sexprec := new_sexp LISTSXP (u_cons a d t).
Fixpoint arg_cells (base : nat) (items : list (SEXP * SEXP)) : list sexprec :=
  match items with
  | [] => []
  | (a, t) :: rest =>
      arg_cell a (match rest with [] => R_NilValue | _ => S base end) t
      :: arg_cells (S base) rest
  end.

(** The tags [createArgsListStack] reads for [n] arguments: none without a
    names vector, else the first [n] elements of the vector. *)
Definition arg_names (s : State) (names : SEXP) (n : nat) : option (list SEXP) :=
  if Nat.eqb names R_NilValue then Some (repeat R_NilValue n)
  else if Nat.eqb names NULL then None
  else match heap s !! names with
       | Some r =>
           match u r with
           | u_ptrs d => if (n <=? length d)%nat then Some (take n d) else None
           | _ => None
           end
       | None => None
       end.

(** A value that the list builder passes on as it is: neither [...] nor the
    missing argument nor a code object, and no promise when the arguments
    are evaluated. *)
Definition plain_arg (eager : bool) (s : State) (a : SEXP) : Prop :=
  Nat.eqb a R_DotsSymbol = false /\ Nat.eqb a R_MissingArg = false
  /\ exists r, a <> NULL /\ heap s !! a = Some r
               /\ match u r with u_code _ => False | _ => True end
               /\ (eager = true -> (sx_type (sxpinfo r) =? PROMSXP) = false).

(** [front] and [last] of the list builders after the arguments [l]. *)
Definition front_last (base : nat) (l : list (SEXP * SEXP)) : SEXP * SEXP :=
  match l with
  | [] => (R_NilValue, R_NilValue)
  | _ => (base, (base + length l - 1)%nat)
  end.

Definition names_vector : sexprec :=
  mkSexp (mkInfo STRSXP false 0 0) R_NilValue (u_ptrs [symbol.While; R_NilValue]).
Definition state_two_args : State :=
  initial_state [names_vector] [R_FalseValue; R_TrueValue] [] [].

(** A shared integer vector below an integer index. *)
Definition int_vector (named : Z) (d : list Z) : sexprec :=
  mkSexp (mkInfo INTSXP false named 0) R_NilValue (u_ints d).
Definition state_extract (k : Z) : State :=
  initial_state [int_vector 2 [10; 20; 30]; int_scalar 0 k] [S first_free; first_free] [] [].
(** [extract1_; ret_] with the call [value] as the source of [extract1_]. *)
Definition code_extract : Code :=
  mkCode 0%nat 2%nat [encodeOpcode extract1_; encodeOpcode ret_] [1; 0]%nat 0%nat.
Definition state_extract_call (k : Z) : State :=
  initial_state [int_vector 2 [10; 20; 30]; int_scalar 0 k] [S first_free; first_free] []
                [R_NilValue; R_valueSym].

(** The instructions [ops] are laid out in [c] from offset [x] on, each as
    its opcode byte followed by four bytes per immediate. *)
Fixpoint laid_out (c : Code) (x : Z) (ops : list Opcode) : Prop :=
  match ops with
  | [] => True
  | o :: ops' =>
      0 <= x /\ ccode c !! Z.to_nat x = Some (encodeOpcode o)
      /\ laid_out c (x + 1 + sizeof_ArgT * immediates o) ops'
  end.

(** The offset just behind the first [k] of the instructions [ops]. *)
Fixpoint offset_after (ops : list Opcode) (k : nat) {struct k} : Z :=
  match k with
  | O => 0
  | S k' =>
      match ops with
      | [] => 0
      | o :: ops' => 1 + sizeof_ArgT * immediates o + offset_after ops' k'
      end
  end.

(** [push_ 0; asbool_; ret_] with a source index for [asbool_] only. *)
Definition code_three : Code :=
  mkCode 1%nat 1%nat [encodeOpcode push_; 0; 0; 0; 0; encodeOpcode asbool_; encodeOpcode ret_]
         [0; 2; 0]%nat 0%nat.
Definition state_sources : State :=
  initial_state [] [] [R_TrueValue] [R_NilValue; R_TrueValue; R_FalseValue].

(** [f] bound to a builtin and [x] to an integer in one environment. *)
Definition env_with_function : list sexprec :=
  [ mkSexp (mkInfo ENVSXP false 0 0) R_NilValue (u_cons (S first_free) R_BaseEnv R_NilValue);
    mkSexp (mkInfo LISTSXP false 0 0) R_NilValue
           (u_cons (3 + first_free)%nat (2 + first_free)%nat symbol.While);
    mkSexp (mkInfo LISTSXP false 0 0) R_NilValue
           (u_cons (4 + first_free)%nat R_NilValue symbol.Repeat);
    mkSexp (mkInfo BUILTINSXP false 0 0) R_NilValue (u_int 3);
    int_scalar 0 5 ].
Definition code_ldfun : Code :=
  mkCode 0%nat 1%nat [encodeOpcode ldfun_; 0; 0; 0; 0; encodeOpcode ret_] [0; 0]%nat 0%nat.
Definition state_functions : State :=
  initial_state env_with_function [] [symbol.While; symbol.Repeat] [].

(** The context with one more label handed out. *)
Definition label_taken (ctx : Context) : Context :=
  match code ctx with
  | c :: rest =>
      set_code (mkCodeContext (CodeStream.mk (CodeStream.source (cs c))
                                             (CodeStream.items (cs c))
                                             (S (CodeStream.nextLabel (cs c))))
                              (loops c) :: rest) ctx
  | [] => ctx
  end.

(** [&&] or [||], the branch that skips the second operand, and the
    instruction that combines the two. *)
Definition logical_symbol (conj : bool) : SEXP := if conj then symbol.And else symbol.Or.
Definition logical_branch (conj : bool) (l : Label) : BC.t :=
  if conj then BC.brfalse l else BC.brtrue l.
Definition logical_combine (conj : bool) : BC.t := if conj then BC.lglAnd else BC.lglOr.

(** What the compiler streams between the two operands of [&&] and [||]. *)
Definition logical_middle (conj : bool) (l : Label) (a0 : SEXP) : list CodeStream.item :=
  [CodeStream.ins BC.asLogical; CodeStream.ast a0; CodeStream.ins BC.dup;
   CodeStream.ins (logical_branch conj l)].

(** What the compiler streams for [a0 && a1] and [a0 || a1], given what it
    streams for the operands. *)
Definition logical_code (conj : bool) (l : Label) (a0 a1 : SEXP)
    (items0 items1 : list CodeStream.item) : list CodeStream.item :=
  [CodeStream.ins (BC.isspecial (logical_symbol conj))]
  ++ items0
  ++ logical_middle conj l a0
  ++ items1
  ++ [CodeStream.ins BC.asLogical; CodeStream.ast a1;
      CodeStream.ins (logical_combine conj); CodeStream.label l].

(** What the compiler streams for [x <- rhs] with a symbol [x], given what
    it streams for [rhs]. *)
Definition assign_code (x : SEXP) (rhs_items : list CodeStream.item) : list CodeStream.item :=
  [CodeStream.ins (BC.isspecial symbol.Assign)]
  ++ rhs_items
  ++ [CodeStream.ins BC.dup; CodeStream.ins (BC.stvar x); CodeStream.ins BC.invisible].

(** [TRUE && value] and [value <- TRUE], to be compiled into an empty code. *)
Definition call_of_two (f a0 a1 : SEXP) : list sexprec :=
  [ mkSexp (mkInfo LANGSXP false 0 0) R_NilValue (u_cons f (1 + first_free)%nat R_NilValue);
    mkSexp (mkInfo LISTSXP false 0 0) R_NilValue (u_cons a0 (2 + first_free)%nat R_NilValue);
    mkSexp (mkInfo LISTSXP false 0 0) R_NilValue (u_cons a1 R_NilValue R_NilValue) ].
Definition state_and : State := initial_state (call_of_two symbol.And R_TrueValue R_valueSym) [] [] [].
Definition state_assign : State :=
  initial_state (call_of_two symbol.Assign R_valueSym R_TrueValue) [] [] [].
Definition ctx_empty_code : Context := ctx_push (mkContext [] [] []) first_free.
Definition run_and_first : outcome Context :=
  compileExpr (H := refHost) 2
    (label_taken (put_items [CodeStream.ins (BC.isspecial symbol.And)] ctx_empty_code))
    R_TrueValue state_and.
Definition run_and_second : outcome Context :=
  compileExpr (H := refHost) 2
    (put_items (logical_middle true 0%nat R_TrueValue) (result_of run_and_first ctx_empty_code))
    R_valueSym (state_of run_and_first state_and).
Definition run_assign_rhs : outcome Context :=
  compileExpr (H := refHost) 2
    (put_items [CodeStream.ins (BC.isspecial symbol.Assign)] ctx_empty_code)
    R_TrueValue state_assign.

(** [next], a call without arguments, and a code with one loop open. *)
Definition state_next : State :=
  initial_state [mkSexp (mkInfo LANGSXP false 0 0) R_NilValue
                        (u_cons symbol.Next R_NilValue R_NilValue)] [] [] [].
Definition ctx_in_loop : Context :=
  mkContext [mkCodeContext (CodeStream.mk first_free [] 2%nat) [mkLoopContext 0%nat 1%nat]] [] [].
Definition run_promise : outcome (fun_idx_t * Context) :=
  compilePromise (compileExpr (H := refHost) 2) ctx_in_loop R_valueSym state_next.

(** [beginloop_] with the offset 7 at pc 0, in a code of 16 bytes. *)
Definition code_loop : Code :=
  mkCode 0%nat 2%nat
         ([encodeOpcode beginloop_; 7; 0; 0; 0] ++ repeat (encodeOpcode pop_) 10
            ++ [encodeOpcode ret_])
         (repeat 0%nat 12) 0%nat.

(** [for(TRUE, value)]: a call of [for], which is not inlined. *)
Definition state_for : State :=
  initial_state (call_of_two symbol.For R_TrueValue R_valueSym) [] [] [].
Definition run_for_args : outcome (list fun_idx_t * list SEXP * Context) :=
  compile_call_args (H := refHost) (compileExpr (H := refHost) 3) 3
    (put_items [CodeStream.ins (BC.ldfun symbol.For)] ctx_empty_code)
    (1 + first_free)%nat [] [] state_for.
(** The formals [(value = TRUE)] for the body [while (TRUE) value]. *)
Definition state_formals : State :=
  initial_state (while_objects ++
                 [mkSexp (mkInfo LISTSXP false 0 0) R_NilValue
                         (u_cons R_TrueValue R_NilValue R_valueSym)]) [] [] [].
Definition the_formals : SEXP := (3 + first_free)%nat.
Definition run_formals : outcome (list fun_idx_t * Context) :=
  compileFormals (H := refHost) 3 (mkContext [] [] []) the_formals state_formals.
Definition run_body : outcome Context :=
  compileExpr (H := refHost) 3
    (ctx_push (snd (result_of run_formals ([], mkContext [] [] []))) the_while) the_while
    (state_of run_formals state_formals).
Definition run_finalize : outcome (FunctionHandle * SEXP) :=
  Compiler_finalize (H := refHost) 3 identity_pass layout_accepted
    the_while the_formals [] state_formals.

(** [ctx'] has the codes that the function of [ctx] had, at their
    positions, and possibly more behind them. *)
Definition extends (ctx ctx' : Context) : Prop :=
  exists added, function ctx' = function ctx ++ added.

(** The entries that a loop over arguments (or formals) has made: each is
    one of the [markers], or the position of a code of [fn] that ends with
    [ret_]; the first such position is [n] or later, and each one after it
    is later than the one before: every argument has a code of its own. *)
Fixpoint promise_entries (markers : list fun_idx_t) (n : nat) (fn : FunctionHandle)
    (entries : list fun_idx_t) : Prop :=
  match entries with
  | [] => True
  | i :: rest =>
      (In i markers /\ promise_entries markers n fn rest)
      \/ exists k src xs nl,
           i = Z.of_nat k /\ (n <= k)%nat
           /\ fn !! k = Some (CodeStream.mk src (xs ++ [CodeStream.ins BC.ret]) nl)
           /\ promise_entries markers (S k) fn rest
  end.

(** The type tests that the compiler inlines, with the type each one hands
    to [is_]. *)
Definition inlined_type_tests : list (SEXP * SEXPTYPE) :=
  [ (symbol.isnull, NILSXP); (symbol.islist, VECSXP); (symbol.ispairlist, LISTSXP) ].

(** A call with one argument. *)
Definition call_of_one (f a0 : SEXP) : list sexprec :=
  [ mkSexp (mkInfo LANGSXP false 0 0) R_NilValue (u_cons f (1 + first_free)%nat R_NilValue);
    mkSexp (mkInfo LISTSXP false 0 0) R_NilValue (u_cons a0 R_NilValue R_NilValue) ].
Definition state_islist : State :=
  initial_state (call_of_one symbol.islist R_valueSym) [] [] [].
Definition run_islist_arg : outcome Context :=
  compileExpr (H := refHost) 2
    (put_items [CodeStream.ins (BC.isspecial symbol.islist)] ctx_empty_code)
    R_valueSym state_islist.
Definition state_quote : State :=
  initial_state (call_of_one symbol.quote R_valueSym) [] [] [].
(** The run of the compiler on the argument, in a code of its own. *)
Definition run_quote_arg : outcome Context :=
  compileExpr (H := refHost) 2 (ctx_push ctx_empty_code R_valueSym) R_valueSym state_quote.

(** [stvar_ 0] in an environment without bindings, an integer on the stack. *)
Definition code_stvar : Code :=
  mkCode 0%nat 1%nat [encodeOpcode stvar_; 0; 0; 0; 0; encodeOpcode ret_] [0; 0]%nat 0%nat.
Definition state_store (named : Z) : State :=
  initial_state [int_scalar named 41;
                 mkSexp (mkInfo ENVSXP false 0 0) R_NilValue
                        (u_cons R_NilValue R_BaseEnv R_NilValue)]
                [first_free] [symbol.While] [].
Definition state_store_named : State :=
  set_heap (<[first_free := with_named 1 (int_scalar 0 41)]> (heap (state_store 0)))
           (set_ostack [] (state_store 0)).
Definition state_store_defined : State :=
  state_of (ref_defineVar symbol.While first_free (S first_free) state_store_named)
           (state_store 0).

Section BasicFacts.
Context {H : Host}.

Lemma deref_Ok s a r : a <> NULL -> heap s !! a = Some r -> deref a s = Ok r s.
Proof.
  intros Hn Hl. unfold deref.
  destruct (Nat.eqb_spec a NULL) as [E|_]; [contradiction|]. rewrite Hl. reflexivity.
Qed.

Lemma deref_inv s a r s' :
  deref a s = Ok r s' -> s' = s /\ a <> NULL /\ heap s !! a = Some r.
Proof.
  unfold deref. destruct (Nat.eqb_spec a NULL) as [E|N]; [discriminate|].
  destruct (heap s !! a) eqn:E; [|discriminate].
  intros [= -> ->]. auto.
Qed.

Lemma INTEGER0_Ok s a x : first_int s a x -> INTEGER0 a s = Ok x s.
Proof.
  intros [Hn (r & d & Hl & Hu)]. unfold INTEGER0.
  rewrite (bind_Ok _ _ _ _ _ (deref_Ok _ _ _ Hn Hl)), Hu. reflexivity.
Qed.

Lemma REAL0_Ok s a x : first_real s a x -> REAL0 a s = Ok x s.
Proof.
  intros [Hn (r & d & Hl & Hu)]. unfold REAL0.
  rewrite (bind_Ok _ _ _ _ _ (deref_Ok _ _ _ Hn Hl)), Hu. reflexivity.
Qed.

Lemma TYPEOF_Ok s a t : has_type s a t -> TYPEOF a s = Ok t s.
Proof.
  intros [Hn (r & Hl & Ht)]. unfold TYPEOF.
  rewrite (bind_Ok _ _ _ _ _ (deref_Ok _ _ _ Hn Hl)), Ht. reflexivity.
Qed.

Lemma TYPEOF_inv s a t s' : TYPEOF a s = Ok t s' -> s' = s /\ has_type s a t.
Proof.
  unfold TYPEOF. intros E. apply bind_Ok_inv in E as (r & s1 & E1 & E2).
  apply deref_inv in E1 as (-> & Hn & Hl). injection E2 as <- <-.
  split; [reflexivity|]. split; [exact Hn|]. exists r. auto.
Qed.

Lemma first_int_set_ostack o s a x : first_int s a x -> first_int (set_ostack o s) a x.
Proof. exact (fun h => h). Qed.

Lemma assert_true b msg s : b = true -> assert b msg s = Ok tt s.
Proof. intros ->. unfold assert. destruct NDEBUG; reflexivity. Qed.

Lemma assert_false_enabled msg s : NDEBUG = false -> assert false msg s = AssertFail msg.
Proof. intros E. unfold assert. rewrite E. reflexivity. Qed.

Lemma assert_disabled b msg s : NDEBUG = true -> assert b msg s = Ok tt s.
Proof. intros E. unfold assert. rewrite E. reflexivity. Qed.

End BasicFacts.

(** ** Three-valued logic, as the specification words it *)

Inductive lgl3 := L_TRUE | L_FALSE | L_NA.

Definition lgl3_of (x : Z) : lgl3 :=
  if x =? 1 then L_TRUE else if x =? 0 then L_FALSE else L_NA.

(** [NA && FALSE == FALSE], [NA && TRUE == NA], [FALSE && NA == FALSE]. *)
Definition and3 (a b : lgl3) : lgl3 :=
  match a, b with
  | L_FALSE, _ | _, L_FALSE => L_FALSE
  | L_TRUE, L_TRUE => L_TRUE
  | _, _ => L_NA
  end.

(** [NA || TRUE == TRUE], [NA || FALSE == NA]. *)
Definition or3 (a b : lgl3) : lgl3 :=
  match a, b with
  | L_TRUE, _ | _, L_TRUE => L_TRUE
  | L_FALSE, L_FALSE => L_FALSE
  | _, _ => L_NA
  end.

(** The shared object that stands for a logical value. *)
Definition canonical (l : lgl3) : SEXP :=
  match l with
  | L_TRUE => R_TrueValue
  | L_FALSE => R_FalseValue
  | L_NA => R_LogicalNAValue
  end.

Definition is_canonical_logical (v : SEXP) : Prop :=
  v = R_TrueValue \/ v = R_FalseValue \/ v = R_LogicalNAValue.


(** ** Logical operators *)
Section LogicalOps.
Context {H : Host}.

Lemma is_lgl_cases x : is_lgl x = true -> x = 1 \/ x = 0 \/ x = NA_LOGICAL.
Proof. unfold is_lgl, NA_LOGICAL. intros E. lia. Qed.

Lemma pop_Ok s v o : ostack s = v :: o -> ostack_pop s = Ok v (set_ostack o s).
Proof. unfold ostack_pop. intros ->. reflexivity. Qed.

Lemma pop_inv s v s' :
  ostack_pop s = Ok v s' -> ostack s = v :: ostack s' /\ s' = set_ostack (ostack s') s.
Proof.
  unfold ostack_pop. destruct (ostack s) as [|x o] eqn:E; [discriminate|].
  intros [= -> <-]. split; reflexivity.
Qed.

Lemma push_inv v s u s' : ostack_push v s = Ok u s' -> s' = set_ostack (v :: ostack s) s.
Proof. unfold ostack_push, modify. destruct u. intros [= <-]. reflexivity. Qed.

Lemma ret_inv {A} (a b : A) s s' : ret a s = Ok b s' -> a = b /\ s = s'.
Proof. intros [= -> ->]. auto. Qed.

(** C4: [lgl_and_] and [lgl_or_] pop two logical scalars, each TRUE, FALSE
    or NA, and push the shared object of their three-valued conjunction and
    disjunction ([and3], [or3]): NA && FALSE is FALSE, NA && TRUE is NA,
    FALSE && NA is FALSE; NA || TRUE is TRUE, NA || FALSE is NA; in either
    operand order. *)
Theorem lgl_and_or_three_valued c env pc n st a1 a2 rest x1 x2 :
  ostack st = a2 :: a1 :: rest ->
  first_int st a1 x1 -> first_int st a2 x2 ->
  is_lgl x1 = true -> is_lgl x2 = true ->
  ins_lgl_and_ c env pc n st
    = Ok pc (set_ostack (canonical (and3 (lgl3_of x1) (lgl3_of x2)) :: rest) st)
  /\ ins_lgl_or_ c env pc n st
    = Ok pc (set_ostack (canonical (or3 (lgl3_of x1) (lgl3_of x2)) :: rest) st)
  /\ and3 L_NA L_FALSE = L_FALSE /\ and3 L_FALSE L_NA = L_FALSE
  /\ and3 L_NA L_TRUE = L_NA /\ and3 L_TRUE L_NA = L_NA
  /\ and3 L_TRUE L_TRUE = L_TRUE
  /\ or3 L_NA L_TRUE = L_TRUE /\ or3 L_TRUE L_NA = L_TRUE
  /\ or3 L_NA L_FALSE = L_NA /\ or3 L_FALSE L_NA = L_NA
  /\ or3 L_FALSE L_FALSE = L_FALSE.
Proof.
  intros Hst H1 H2 L1 L2.
  assert (P2 : ostack_pop st = Ok a2 (set_ostack (a1 :: rest) st)) by (apply pop_Ok; exact Hst).
  assert (P1 : ostack_pop (set_ostack (a1 :: rest) st) = Ok a1 (set_ostack rest st))
    by reflexivity.
  assert (I2 := INTEGER0_Ok _ _ _ (first_int_set_ostack (a1 :: rest) _ _ _ H2)).
  assert (I1 := INTEGER0_Ok _ _ _ (first_int_set_ostack rest _ _ _ H1)).
  split; [|split; [|repeat split]].
  - unfold ins_lgl_and_, LOGICAL0.
    rewrite (bind_Ok _ _ _ _ _ P2), (bind_Ok _ _ _ _ _ I2),
            (bind_Ok _ _ _ _ _ P1), (bind_Ok _ _ _ _ _ I1).
    rewrite (bind_Ok _ _ _ _ _ (assert_true _ _ _ L1)).
    rewrite (bind_Ok _ _ _ _ _ (assert_true _ _ _ L2)).
    apply is_lgl_cases in L1 as [->|[->| ->]];
      apply is_lgl_cases in L2 as [->|[->| ->]]; reflexivity.
  - unfold ins_lgl_or_, LOGICAL0.
    rewrite (bind_Ok _ _ _ _ _ P2), (bind_Ok _ _ _ _ _ I2),
            (bind_Ok _ _ _ _ _ P1), (bind_Ok _ _ _ _ _ I1).
    rewrite (bind_Ok _ _ _ _ _ (assert_true _ _ _ L1)).
    rewrite (bind_Ok _ _ _ _ _ (assert_true _ _ _ L2)).
    apply is_lgl_cases in L1 as [->|[->| ->]];
      apply is_lgl_cases in L2 as [->|[->| ->]]; reflexivity.
Qed.

End LogicalOps.

Lemma lgl_and_or_three_valued_witness :
  ins_lgl_and_ (H := refHost) code_empty R_BaseEnv 0 0 state_lgl
    = Ok 0 (set_ostack [R_FalseValue] state_lgl)
  /\ ins_lgl_or_ (H := refHost) code_empty R_BaseEnv 0 0 state_lgl
    = Ok 0 (set_ostack [R_LogicalNAValue] state_lgl).
Proof.
  assert (F : first_int state_lgl R_FalseValue 0).
  { split; [discriminate|]. eexists _, _. split; reflexivity. }
  assert (N : first_int state_lgl R_LogicalNAValue NA_LOGICAL).
  { split; [discriminate|]. eexists _, _. split; reflexivity. }
  pose proof (lgl_and_or_three_valued (H := refHost) code_empty R_BaseEnv 0 0 state_lgl
                R_LogicalNAValue R_FalseValue [] NA_LOGICAL 0 eq_refl N F eq_refl eq_refl)
    as (A & O & _).
  split; [exact A | exact O].
Defined.

(** ** Conditional branches *)
Section Branches.
Context {H : Host}.

Lemma SLOWASSERT_true b msg s : b = true -> SLOWASSERT b msg s = Ok tt s.
Proof. intros ->. unfold SLOWASSERT. destruct ENABLE_SLOWASSERT; [apply assert_true|]; reflexivity. Qed.

Lemma PC_BOUNDSCHECK_Ok c pc s : 0 <= pc < codeSize c -> PC_BOUNDSCHECK c pc s = Ok tt s.
Proof.
  intros Hb. apply SLOWASSERT_true.
  apply andb_true_intro. split; [apply Z.leb_le|apply Z.ltb_lt]; lia.
Qed.

(** The last three steps of an instruction that replaces the top of the stack. *)
Lemma replace_top_inv (v : SEXP) (pc pc' : Z) s s' :
  (ostack_pop ;; ostack_push v ;; ret pc) s = Ok pc' s' ->
  exists o, ostack s' = v :: o.
Proof.
  intros E. apply bind_Ok_inv in E as (x & s1 & E1 & E).
  apply bind_Ok_inv in E as (y & s2 & E2 & E).
  apply ret_inv in E as [_ <-]. apply push_inv in E2 as ->.
  eexists. reflexivity.
Qed.

Lemma asbool_pushes_canonical c env pc n st pc' st' :
  ins_asbool_ c env pc n st = Ok pc' st' ->
  exists o, ostack st' = R_TrueValue :: o \/ ostack st' = R_FalseValue :: o.
Proof.
  unfold ins_asbool_. intros E.
  apply bind_Ok_inv in E as (t & s1 & _ & E).
  apply bind_Ok_inv in E as (len & s2 & _ & E).
  apply bind_Ok_inv in E as (x & s3 & _ & E).
  apply bind_Ok_inv in E as (cond & s4 & _ & E).
  apply bind_Ok_inv in E as (y & s5 & _ & E).
  apply replace_top_inv in E as [o E]. exists o.
  destruct (negb (cond =? 0)); auto.
Qed.

Lemma push_ret_inv (v : SEXP) (pc pc' : Z) s s' :
  (ostack_push v ;; ret pc) s = Ok pc' s' -> ostack s' = v :: ostack s.
Proof.
  intros E. apply bind_Ok_inv in E as (y & s2 & E2 & E).
  apply ret_inv in E as [_ <-]. apply push_inv in E2 as ->. reflexivity.
Qed.

Lemma lgl_and_pushes_canonical c env pc n st pc' st' :
  ins_lgl_and_ c env pc n st = Ok pc' st' ->
  exists v o, ostack st' = v :: o /\ is_canonical_logical v.
Proof.
  unfold ins_lgl_and_, is_canonical_logical. intros E.
  apply bind_Ok_inv in E as (a2 & s1 & _ & E).
  apply bind_Ok_inv in E as (x2 & s2 & _ & E).
  apply bind_Ok_inv in E as (a1 & s3 & _ & E).
  apply bind_Ok_inv in E as (x1 & s4 & _ & E).
  apply bind_Ok_inv in E as (? & s5 & _ & E).
  apply bind_Ok_inv in E as (? & s6 & _ & E).
  destruct ((x1 =? 1) && (x2 =? 1)); [|destruct ((x1 =? 0) || (x2 =? 0))];
    apply push_ret_inv in E; eauto 6.
Qed.

Lemma lgl_or_pushes_canonical c env pc n st pc' st' :
  ins_lgl_or_ c env pc n st = Ok pc' st' ->
  exists v o, ostack st' = v :: o /\ is_canonical_logical v.
Proof.
  unfold ins_lgl_or_, is_canonical_logical. intros E.
  apply bind_Ok_inv in E as (a2 & s1 & _ & E).
  apply bind_Ok_inv in E as (x2 & s2 & _ & E).
  apply bind_Ok_inv in E as (a1 & s3 & _ & E).
  apply bind_Ok_inv in E as (x1 & s4 & _ & E).
  apply bind_Ok_inv in E as (? & s5 & _ & E).
  apply bind_Ok_inv in E as (? & s6 & _ & E).
  destruct ((x1 =? 1) || (x2 =? 1)); [|destruct ((x1 =? 0) && (x2 =? 0))];
    apply push_ret_inv in E; eauto 6.
Qed.

(** C10: [brtrue_] (resp. [brfalse_]) pops the top of the stack and jumps
    only when the popped pointer is [R_TrueValue] (resp. [R_FalseValue])
    itself; any other value, a fresh logical scalar holding TRUE included,
    falls through.  [asbool_] pushes only these two shared objects, and
    [lgl_and_] and [lgl_or_] only the shared TRUE, FALSE and NA. *)
Theorem branch_on_pointer_identity c env pc n st v rest off pc1 :
  readJumpOffset c pc st = Ok (off, pc1) st ->
  ostack st = v :: rest ->
  0 <= pc1 < codeSize c ->
  0 <= pc1 + off < codeSize c ->
  ins_brtrue_ c env pc n st
    = Ok (if Nat.eqb v R_TrueValue then pc1 + off else pc1) (set_ostack rest st)
  /\ ins_brfalse_ c env pc n st
    = Ok (if Nat.eqb v R_FalseValue then pc1 + off else pc1) (set_ostack rest st)
  /\ (v <> R_TrueValue -> ins_brtrue_ c env pc n st = Ok pc1 (set_ostack rest st))
  /\ (v <> R_FalseValue -> ins_brfalse_ c env pc n st = Ok pc1 (set_ostack rest st))
  /\ (forall env' pc0 pc' s s', ins_asbool_ c env' pc0 n s = Ok pc' s' ->
        exists o, ostack s' = R_TrueValue :: o \/ ostack s' = R_FalseValue :: o)
  /\ (forall env' pc0 pc' s s',
        ins_lgl_and_ c env' pc0 n s = Ok pc' s' \/ ins_lgl_or_ c env' pc0 n s = Ok pc' s' ->
        exists w o, ostack s' = w :: o /\ is_canonical_logical w).
Proof.
  intros Hoff Hst B1 B2.
  assert (T : ins_brtrue_ c env pc n st
    = Ok (if Nat.eqb v R_TrueValue then pc1 + off else pc1) (set_ostack rest st)).
  { unfold ins_brtrue_. rewrite (bind_Ok _ _ _ _ _ Hoff).
    rewrite (bind_Ok _ _ _ _ _ (pop_Ok _ _ _ Hst)). cbn [fst snd].
    rewrite (bind_Ok _ _ _ tt (set_ostack rest st)); [reflexivity|].
    apply PC_BOUNDSCHECK_Ok. destruct (Nat.eqb v R_TrueValue); assumption. }
  assert (F : ins_brfalse_ c env pc n st
    = Ok (if Nat.eqb v R_FalseValue then pc1 + off else pc1) (set_ostack rest st)).
  { unfold ins_brfalse_. rewrite (bind_Ok _ _ _ _ _ Hoff).
    rewrite (bind_Ok _ _ _ _ _ (pop_Ok _ _ _ Hst)). cbn [fst snd].
    rewrite (bind_Ok _ _ _ tt (set_ostack rest st)); [reflexivity|].
    apply PC_BOUNDSCHECK_Ok. destruct (Nat.eqb v R_FalseValue); assumption. }
  repeat split.
  - exact T.
  - exact F.
  - intros N. rewrite T. apply Nat.eqb_neq in N. rewrite N. reflexivity.
  - intros N. rewrite F. apply Nat.eqb_neq in N. rewrite N. reflexivity.
  - intros env' pc0 pc' s s'. apply asbool_pushes_canonical.
  - intros env' pc0 pc' s s' [E|E];
      [eapply lgl_and_pushes_canonical|eapply lgl_or_pushes_canonical]; exact E.
Qed.
End Branches.

Lemma branch_on_pointer_identity_witness :
  ins_brtrue_ (H := refHost) code_brtrue R_BaseEnv 1 0 state_fresh_TRUE
    = Ok 5 (set_ostack [] state_fresh_TRUE)
  /\ first_int state_fresh_TRUE first_free 1.
Proof.
  split.
  - refine (proj1 (proj2 (proj2 (branch_on_pointer_identity (H := refHost)
        code_brtrue R_BaseEnv 1 0 state_fresh_TRUE first_free [] 2 5 eq_refl eq_refl _ _))) _).
    + vm_compute. split; [discriminate|reflexivity].
    + vm_compute. split; [discriminate|reflexivity].
    + vm_compute. discriminate.
  - split; [vm_compute; discriminate|]. eexists _, _. split; reflexivity.
Defined.

(** ** Facts about the heap *)
Section HeapFacts.
Context {H : Host}.

Lemma hostcall_Ok {A} ev (m : M A) s a s1 :
  m s = Ok a s1 -> hostcall ev m s = Ok a (set_hostLog (ev :: hostLog s) s1).
Proof. unfold hostcall. intros ->. reflexivity. Qed.

Lemma store_Ok s x r0 r :
  x <> NULL -> heap s !! x = Some r0 ->
  store x r s = Ok tt (set_heap (<[x := r]> (heap s)) s).
Proof.
  intros Hn Hl. unfold store.
  destruct (Nat.eqb_spec x NULL) as [E|_]; [contradiction|]. rewrite Hl. reflexivity.
Qed.

Lemma lookup_fresh (h : list sexprec) r : (h ++ [r]) !! length h = Some r.
Proof. apply list_lookup_middle. reflexivity. Qed.

Lemma insert_fresh (h : list sexprec) r r' : <[length h := r']> (h ++ [r]) = h ++ [r'].
Proof.
  rewrite insert_app_r_alt by lia. rewrite Nat.sub_diag. reflexivity.
Qed.

(** An update of the object allocated last. *)
Lemma update_fresh s h r (f : sexprec -> sexprec) :
  heap s = h ++ [r] -> length h <> NULL ->
  (x <- deref (length h) ;; store (length h) (f x)) s
  = Ok tt (set_heap (h ++ [f r]) s).
Proof.
  intros Hh Hn.
  assert (L : heap s !! length h = Some r) by (rewrite Hh; apply lookup_fresh).
  rewrite (bind_Ok _ _ _ _ _ (deref_Ok _ _ _ Hn L)).
  rewrite (store_Ok _ _ _ _ Hn L), Hh, insert_fresh. reflexivity.
Qed.

Lemma SET_NAMED_fresh s h r k :
  heap s = h ++ [r] -> length h <> NULL ->
  SET_NAMED (length h) k s = Ok tt (set_heap (h ++ [with_named (k mod 4) r]) s).
Proof. intros Hh Hn. unfold SET_NAMED. apply (update_fresh s h r _ Hh Hn). Qed.

Lemma SET_REAL0_fresh s h r x d v :
  heap s = h ++ [r] -> length h <> NULL -> u r = u_reals (x :: d) ->
  SET_REAL0 (length h) v s = Ok tt (set_heap (h ++ [with_u (u_reals (v :: d)) r]) s).
Proof.
  intros Hh Hn Hu. unfold SET_REAL0.
  assert (L : heap s !! length h = Some r) by (rewrite Hh; apply lookup_fresh).
  rewrite (bind_Ok _ _ _ _ _ (deref_Ok _ _ _ Hn L)), Hu.
  rewrite (store_Ok _ _ _ _ Hn L), Hh, insert_fresh. reflexivity.
Qed.

Lemma first_real_grow s h' a x :
  first_real s a x -> first_real (set_heap (heap s ++ h') s) a x.
Proof.
  intros [Hn (r & d & Hl & Hu)]. split; [exact Hn|]. exists r, d. split; [|exact Hu].
  cbn. apply lookup_app_l_Some. exact Hl.
Qed.

Lemma valid_heap_nonempty s a r : a <> NULL -> heap s !! a = Some r -> length (heap s) <> NULL.
Proof. intros Hn Hl. apply lookup_lt_Some in Hl. unfold NULL in *. lia. Qed.

Lemma NAMED_Ok s v r :
  v <> NULL -> heap s !! v = Some r -> NAMED v s = Ok (sx_named (sxpinfo r)) s.
Proof.
  intros Hn Hl. unfold NAMED. rewrite (bind_Ok _ _ _ _ _ (deref_Ok _ _ _ Hn Hl)). reflexivity.
Qed.

Lemma SET_NAMED_Ok s v r k :
  v <> NULL -> heap s !! v = Some r ->
  SET_NAMED v k s = Ok tt (set_heap (<[v := with_named (k mod 4) r]> (heap s)) s).
Proof.
  intros Hn Hl. unfold SET_NAMED. rewrite (bind_Ok _ _ _ _ _ (deref_Ok _ _ _ Hn Hl)).
  apply (store_Ok _ _ r); assumption.
Qed.

Lemma assertM_disabled mb msg s : NDEBUG = true -> assertM mb msg s = Ok tt s.
Proof. intros E. unfold assertM. rewrite E. reflexivity. Qed.

Lemma assertM_true mb msg s : mb s = Ok true s -> assertM mb msg s = Ok tt s.
Proof.
  intros E. unfold assertM. destruct NDEBUG eqn:N; [reflexivity|].
  rewrite (bind_Ok _ _ _ _ _ E). apply assert_true. reflexivity.
Qed.

Lemma assertM_false mb msg s :
  NDEBUG = false -> mb s = Ok false s -> assertM mb msg s = AssertFail msg.
Proof.
  intros N E. unfold assertM. rewrite N.
  rewrite (bind_Ok _ _ _ _ _ E). apply assert_false_enabled. exact N.
Qed.

End HeapFacts.



(** ** Arithmetic fast paths *)
Section Arith.
Context {H : Host}.

Lemma both_scalar_real_true s lhs rhs :
  has_type s lhs REALSXP -> has_type s rhs REALSXP ->
  Rf_length s lhs = 1 -> Rf_length s rhs = 1 ->
  both_scalar_real lhs rhs s = Ok true s.
Proof.
  intros T1 T2 L1 L2. unfold both_scalar_real, andM.
  assert (E1 : (t <- TYPEOF lhs ;; ret (t =? REALSXP)) s = Ok true s)
    by (rewrite (bind_Ok _ _ _ _ _ (TYPEOF_Ok _ _ _ T1)); reflexivity).
  assert (E2 : (t <- TYPEOF rhs ;; ret (t =? REALSXP)) s = Ok true s)
    by (rewrite (bind_Ok _ _ _ _ _ (TYPEOF_Ok _ _ _ T2)); reflexivity).
  rewrite (bind_Ok _ _ _ _ _ E1), (bind_Ok _ _ _ _ _ E2).
  unfold bind, gets. rewrite L1. cbn. rewrite L2. reflexivity.
Qed.

Lemma real_binop_scalars op st rhs lhs rest a b :
  ostack st = rhs :: lhs :: rest ->
  has_type st lhs REALSXP -> has_type st rhs REALSXP ->
  Rf_length (set_ostack rest st) lhs = 1 -> Rf_length (set_ostack rest st) rhs = 1 ->
  first_real st lhs a -> first_real st rhs b ->
  real_binop op st
  = Ok tt (set_ostack (length (heap st) :: rest)
             (set_heap (heap st ++ [real_result (op a b)]) st)).
Proof.
  intros Hst T1 T2 L1 L2 R1 R2. unfold real_binop.
  rewrite (bind_Ok _ _ _ _ _ (pop_Ok _ _ _ Hst)).
  rewrite (bind_Ok _ _ _ lhs (set_ostack rest st)) by reflexivity.
  rewrite (bind_Ok _ _ _ _ _ (both_scalar_real_true (set_ostack rest st) lhs rhs T1 T2 L1 L2)).
  set (s2 := set_ostack rest st).
  assert (Hne : length (heap st) <> NULL).
  { destruct T1 as [Hn (r & Hl & _)]. eapply valid_heap_nonempty; eauto. }
  unfold allocReal1. unfold bind at 1. unfold alloc at 1. cbn [heap s2 set_ostack].
  set (s3 := set_heap _ s2).
  assert (H3 : heap s3 = heap st ++ [new_sexp REALSXP (u_reals [0%float])]) by reflexivity.
  rewrite (bind_Ok _ _ _ _ _ (SET_NAMED_fresh s3 _ _ 1 H3 Hne)).
  set (s4 := set_heap _ s3).
  assert (R1' : first_real s4 lhs a).
  { destruct R1 as [Hn (r & d & Hl & Hu)]. split; [exact Hn|]. exists r, d. split; [|exact Hu].
    apply lookup_app_l_Some. exact Hl. }
  assert (R2' : first_real s4 rhs b).
  { destruct R2 as [Hn (r & d & Hl & Hu)]. split; [exact Hn|]. exists r, d. split; [|exact Hu].
    apply lookup_app_l_Some. exact Hl. }
  rewrite (bind_Ok _ _ _ _ _ (REAL0_Ok _ _ _ R1')), (bind_Ok _ _ _ _ _ (REAL0_Ok _ _ _ R2')).
  assert (H4 : heap s4 = heap st ++ [with_named (1 mod 4) (new_sexp REALSXP (u_reals [0%float]))])
    by reflexivity.
  rewrite (bind_Ok _ _ _ _ _ (SET_REAL0_fresh s4 _ _ _ _ (op a b) H4 Hne eq_refl)).
  reflexivity.
Qed.

Lemma real_binop_other op st rhs lhs rest :
  ostack st = rhs :: lhs :: rest ->
  both_scalar_real lhs rhs (set_ostack rest st) = Ok false (set_ostack rest st) ->
  real_binop op st = NOT_IMPLEMENTED (set_ostack rest st).
Proof.
  intros Hst B. unfold real_binop.
  rewrite (bind_Ok _ _ _ _ _ (pop_Ok _ _ _ Hst)).
  rewrite (bind_Ok _ _ _ lhs (set_ostack rest st)) by reflexivity.
  rewrite (bind_Ok _ _ _ _ _ B). reflexivity.
Qed.

Lemma both_scalar_real_Ok s lhs rhs tl tr :
  has_type s lhs tl -> has_type s rhs tr ->
  both_scalar_real lhs rhs s
  = Ok ((tl =? REALSXP) && ((tr =? REALSXP)
        && ((Rf_length s lhs =? 1) && (Rf_length s rhs =? 1)))) s.
Proof.
  intros T1 T2. unfold both_scalar_real, andM.
  assert (E1 : (t <- TYPEOF lhs ;; ret (t =? REALSXP)) s = Ok (tl =? REALSXP) s)
    by (rewrite (bind_Ok _ _ _ _ _ (TYPEOF_Ok _ _ _ T1)); reflexivity).
  assert (E2 : (t <- TYPEOF rhs ;; ret (t =? REALSXP)) s = Ok (tr =? REALSXP) s)
    by (rewrite (bind_Ok _ _ _ _ _ (TYPEOF_Ok _ _ _ T2)); reflexivity).
  rewrite (bind_Ok _ _ _ _ _ E1). destruct (tl =? REALSXP); [|reflexivity].
  rewrite (bind_Ok _ _ _ _ _ E2). destruct (tr =? REALSXP); [|reflexivity].
  unfold bind, gets, ret. destruct (Rf_length s lhs =? 1); reflexivity.
Qed.

(** Behind a guard that is compiled out, an instruction is its body. *)
Lemma behind_guard (m : M unit) (pc : Z) s s' :
  NDEBUG = true -> m s = Ok tt s' ->
  (assert false "false" ;; m ;; ret pc) s = Ok pc s'.
Proof.
  intros N E. rewrite (bind_Ok _ _ _ _ _ (assert_disabled false "false" s N)).
  rewrite (bind_Ok _ _ _ _ _ E). reflexivity.
Qed.

(** C8 (amended): [add_] and [sub_] start with [assert(false)]: with
    assertions enabled either aborts, whatever the operands.  Behind the
    guard (assertions compiled out), two scalar reals are popped and a fresh
    scalar real holding their sum (difference) is pushed; for operands of
    any other shape both are popped, [NOT_IMPLEMENTED] is reached and
    nothing is pushed: there is no fallback to the builtin. *)
Theorem add_sub_behind_assert c env pc n :
  (NDEBUG = false ->
     forall st, ins_add_ c env pc n st = AssertFail "false"
                /\ ins_sub_ c env pc n st = AssertFail "false")
  /\ (NDEBUG = true ->
        forall st rhs lhs rest,
          ostack st = rhs :: lhs :: rest ->
          (forall a b,
             has_type st lhs REALSXP -> has_type st rhs REALSXP ->
             Rf_length (set_ostack rest st) lhs = 1 ->
             Rf_length (set_ostack rest st) rhs = 1 ->
             first_real st lhs a -> first_real st rhs b ->
             ins_add_ c env pc n st
             = Ok pc (set_ostack (length (heap st) :: rest)
                        (set_heap (heap st ++ [real_result (PrimFloat.add a b)]) st))
             /\ ins_sub_ c env pc n st
                = Ok pc (set_ostack (length (heap st) :: rest)
                           (set_heap (heap st ++ [real_result (PrimFloat.sub a b)]) st)))
          /\ (forall tl tr,
                has_type st lhs tl -> has_type st rhs tr ->
                tl <> REALSXP \/ tr <> REALSXP
                \/ Rf_length (set_ostack rest st) lhs <> 1
                \/ Rf_length (set_ostack rest st) rhs <> 1 ->
                ins_add_ c env pc n st = Ok pc (set_ostack rest st)
                /\ ins_sub_ c env pc n st = Ok pc (set_ostack rest st))).
Proof.
  split.
  - intros N st. split.
    + unfold ins_add_. apply bind_AssertFail. apply assert_false_enabled. exact N.
    + unfold ins_sub_. apply bind_AssertFail. apply assert_false_enabled. exact N.
  - intros N st rhs lhs rest Hst. split.
    + intros a b T1 T2 L1 L2 R1 R2. split; apply (behind_guard _ pc _ _ N);
        eapply real_binop_scalars; eassumption.
    + intros tl tr T1 T2 Hsh.
      assert (B : both_scalar_real lhs rhs (set_ostack rest st) = Ok false (set_ostack rest st)).
      { rewrite (both_scalar_real_Ok (set_ostack rest st) lhs rhs tl tr T1 T2).
        unfold ret. f_equal.
        destruct Hsh as [Hs|[Hs|[Hs|Hs]]]; apply Z.eqb_neq in Hs; rewrite Hs;
          repeat first [reflexivity | rewrite andb_false_r | rewrite andb_false_l]. }
      split; apply (behind_guard _ pc _ _ N);
        rewrite (real_binop_other _ st rhs lhs rest Hst B);
        apply assert_disabled; exact N.
Qed.

End Arith.

(** C8 (as stated) fails: on two scalar reals [add_] aborts instead of
    pushing their sum. *)
Lemma add_asserts_false :
  ins_add_ (H := refHost) code_empty R_BaseEnv 0 0 state_reals = AssertFail "false"
  /\ first_real state_reals first_free 1%float
  /\ first_real state_reals (S first_free) 2%float.
Proof.
  split; [reflexivity|].
  split; (split; [discriminate|]; eexists _, _; split; reflexivity).
Qed.

Lemma add_sub_behind_assert_witness :
  ins_add_ (H := refHost) code_empty R_BaseEnv 0 0 state_reals = AssertFail "false"
  /\ ins_add_ (H := host_release refHost) code_empty R_BaseEnv 0 0 state_reals
     = Ok 0 (set_ostack [length (heap state_reals)]
               (set_heap (heap state_reals ++ [real_result 3%float]) state_reals))
  /\ ins_sub_ (H := host_release refHost) code_empty R_BaseEnv 0 0 state_reals
     = Ok 0 (set_ostack [length (heap state_reals)]
               (set_heap (heap state_reals ++ [real_result (-1)%float]) state_reals))
  /\ ins_add_ (H := host_release refHost) code_empty R_BaseEnv 0 0 state_real_and_true
     = Ok 0 (set_ostack [] state_real_and_true).
Proof.
  assert (T1 : has_type state_reals first_free REALSXP).
  { split; [discriminate|]. eexists. split; reflexivity. }
  assert (T2 : has_type state_reals (S first_free) REALSXP).
  { split; [discriminate|]. eexists. split; reflexivity. }
  assert (R1 : first_real state_reals first_free 1%float).
  { split; [discriminate|]. eexists _, _. split; reflexivity. }
  assert (R2 : first_real state_reals (S first_free) 2%float).
  { split; [discriminate|]. eexists _, _. split; reflexivity. }
  assert (T3 : has_type state_real_and_true R_TrueValue LGLSXP).
  { split; [discriminate|]. eexists. split; reflexivity. }
  assert (T4 : has_type state_real_and_true first_free REALSXP).
  { split; [discriminate|]. eexists. split; reflexivity. }
  split; [|split; [|split]].
  - exact (proj1 (proj1 (add_sub_behind_assert (H := refHost) code_empty R_BaseEnv 0 0)
                    eq_refl state_reals)).
  - exact (proj1 (proj1 (proj2 (add_sub_behind_assert (H := host_release refHost)
                                  code_empty R_BaseEnv 0 0)
                           eq_refl state_reals (S first_free) first_free [] eq_refl)
                    1%float 2%float T1 T2 eq_refl eq_refl R1 R2)).
  - exact (proj2 (proj1 (proj2 (add_sub_behind_assert (H := host_release refHost)
                                  code_empty R_BaseEnv 0 0)
                           eq_refl state_reals (S first_free) first_free [] eq_refl)
                    1%float 2%float T1 T2 eq_refl eq_refl R1 R2)).
  - refine (proj1 (proj2 (proj2 (add_sub_behind_assert (H := host_release refHost)
                                   code_empty R_BaseEnv 0 0)
                            eq_refl state_real_and_true R_TrueValue first_free [] eq_refl)
                     REALSXP LGLSXP T4 T3 _)).
    right. left. discriminate.
Defined.

(** ** The guard of inlined special forms *)
Section Guards.
Context {H : Host}.

(** C9 (amended): [isspecial_] looks the symbol up with [findVar] and
    asserts that the binding is a special or a builtin.  When it is, only
    the pc moves; when the binding is shadowed by anything else the
    assertion fails (assertions enabled) or is skipped (assertions compiled
    out): there is no fallback to a dynamic resolution of the call. *)
Theorem isspecial_only_asserts c env pc n st sym pc1 val st1 t :
  readConst c pc st = Ok (sym, pc1) st ->
  findVar sym env st = Ok val st1 ->
  has_type st1 val t ->
  let st1' := set_hostLog (HC_findVar sym env :: hostLog st) st1 in
  (t = SPECIALSXP \/ t = BUILTINSXP -> ins_isspecial_ c env pc n st = Ok pc1 st1')
  /\ (t <> SPECIALSXP -> t <> BUILTINSXP -> NDEBUG = false ->
      ins_isspecial_ c env pc n st = AssertFail isspecial_msg)
  /\ (NDEBUG = true -> ins_isspecial_ c env pc n st = Ok pc1 st1').
Proof.
  intros Hc Hf Ht st1'.
  assert (T : TYPEOF val st1' = Ok t st1') by (apply TYPEOF_Ok; exact Ht).
  assert (E : ins_isspecial_ c env pc n st
     = (assertM (t <- TYPEOF val ;; ret ((t =? SPECIALSXP) || (t =? BUILTINSXP))) isspecial_msg ;;
        ret pc1) st1').
  { unfold ins_isspecial_.
    rewrite (bind_Ok _ _ _ _ _ Hc). cbn [fst snd].
    rewrite (bind_Ok _ _ _ _ _ (hostcall_Ok _ _ _ _ _ Hf)). reflexivity. }
  split; [|split].
  - intros D. rewrite E.
    rewrite (bind_Ok _ _ _ tt st1'); [reflexivity|].
    apply assertM_true. rewrite (bind_Ok _ _ _ _ _ T).
    destruct D as [-> | ->]; reflexivity.
  - intros N1 N2 N. rewrite E. apply bind_AssertFail.
    apply assertM_false; [exact N|]. rewrite (bind_Ok _ _ _ _ _ T).
    apply Z.eqb_neq in N1, N2. rewrite N1, N2. reflexivity.
  - intros N. rewrite E.
    rewrite (bind_Ok _ _ _ tt st1'); [reflexivity|]. apply assertM_disabled. exact N.
Qed.

End Guards.

(** C9 (as stated) fails: with [while] bound to a closure the guard aborts. *)
Lemma isspecial_shadowed_aborts :
  findVar (Host := refHost) symbol.While first_free state_shadowed
    = Ok (S (S first_free)) state_shadowed
  /\ has_type state_shadowed (S (S first_free)) CLOSXP
  /\ ins_isspecial_ (H := refHost) code_isspecial first_free 1 0 state_shadowed
     = AssertFail isspecial_msg.
Proof.
  split; [reflexivity|]. split; [|reflexivity].
  split; [discriminate|]. eexists. split; reflexivity.
Qed.

Lemma isspecial_only_asserts_witness :
  ins_isspecial_ (H := refHost) code_isspecial first_free 1 0 state_shadowed
     = AssertFail isspecial_msg.
Proof.
  assert (T : has_type state_shadowed (S (S first_free)) CLOSXP).
  { split; [discriminate|]. eexists. split; reflexivity. }
  refine (proj1 (proj2 (isspecial_only_asserts (H := refHost) code_isspecial first_free 1 0
            state_shadowed symbol.While 5 (S (S first_free)) state_shadowed CLOSXP
            eq_refl eq_refl T)) _ _ eq_refl); discriminate.
Defined.

(** ** Variable lookup *)
Section Load.
Context {H : Host}.

(** The end of [ldvar_]: the value is marked as named and pushed. *)
Lemma named_push_tail v (pc : Z) s r :
  v <> NULL -> heap s !! v = Some r ->
  (n <- NAMED v ;;
   when ((n =? 0) && negb (Nat.eqb v R_NilValue)) (SET_NAMED v 1) ;;
   ostack_push v ;; ret pc) s = Ok pc (named_and_pushed v r s).
Proof.
  intros Hn Hl. unfold named_and_pushed.
  rewrite (bind_Ok _ _ _ _ _ (NAMED_Ok _ _ _ Hn Hl)).
  destruct ((sx_named (sxpinfo r) =? 0) && negb (Nat.eqb v R_NilValue)); cbn [when].
  - rewrite (bind_Ok _ _ _ _ _ (SET_NAMED_Ok _ _ _ 1 Hn Hl)). reflexivity.
  - reflexivity.
Qed.

(** The value slot of a promise. *)
Lemma PRVALUE_Ok s p v code penv :
  p <> NULL -> cell_of s p = Some (v, code, penv) -> PRVALUE p s = Ok v s.
Proof.
  intros Hn C. unfold PRVALUE, CAR, slots, cell_of in *.
  destruct (heap s !! p) as [r|] eqn:L; [|discriminate].
  rewrite (bind_Ok _ _ _ (v, code, penv) s); [reflexivity|].
  rewrite (bind_Ok _ _ _ _ _ (deref_Ok _ _ _ Hn L)).
  destruct (u r); try discriminate. injection C as -> -> ->. reflexivity.
Qed.

(** C6: [ldvar_ k] looks the symbol up in [env].  An unbound symbol fails
    with "object not found", the missing-argument marker with the
    missing-argument error.  A promise is forced first: one without a value
    is handed to the host's [forcePromise] and what that returns is pushed;
    one that was forced before gives the value it holds, marked as shared.
    Any other value is pushed as it is. *)
Theorem ldvar_lookup c env pc n st sym pc1 val st1 :
  readConst c pc st = Ok (sym, pc1) st ->
  findVar sym env st = Ok val st1 ->
  let s2 := set_R_Visible true (set_hostLog (HC_findVar sym env :: hostLog st) st1) in
  (val = R_UnboundValue -> ins_ldvar_ c env pc n st = RError "object not found" s2)
  /\ (val = R_MissingArg -> forall name, symbol_name s2 sym name ->
        ins_ldvar_ c env pc n st = RError (missing_arg_msg name) s2)
  /\ (val <> R_UnboundValue -> val <> R_MissingArg -> has_type s2 val PROMSXP ->
      forall pv code penv, cell_of s2 val = Some (pv, code, penv) ->
        (pv = NULL \/ pv = R_UnboundValue ->
         forall v s3 r,
           forcePromise val s2 = Ok v s3 -> v <> NULL -> heap s3 !! v = Some r ->
           ins_ldvar_ c env pc n st
           = Ok pc1 (named_and_pushed v r
                       (set_hostLog (HC_forcePromise val :: hostLog s2) s3)))
        /\ (pv <> NULL -> pv <> R_UnboundValue ->
            forall r, heap s2 !! pv = Some r ->
              NDEBUG = true \/ sx_type (sxpinfo r) <> PROMSXP ->
              ins_ldvar_ c env pc n st
              = Ok pc1 (set_ostack (pv :: ostack s2)
                          (set_heap (<[pv := with_named 2 r]> (heap s2)) s2))))
  /\ (val <> R_UnboundValue -> val <> R_MissingArg ->
      forall r, val <> NULL -> heap s2 !! val = Some r ->
        sx_type (sxpinfo r) <> PROMSXP ->
        ins_ldvar_ c env pc n st = Ok pc1 (named_and_pushed val r s2)).
Proof.
  intros Hc Hf s2.
  assert (E : ins_ldvar_ c env pc n st =
    ((if Nat.eqb val R_UnboundValue then error "object not found"
      else if Nat.eqb val R_MissingArg
      then (pn <- PRINTNAME sym ;; name <- CHAR pn ;; error (missing_arg_msg name))
      else ret tt) ;;
     t <- TYPEOF val ;;
     val <- (if t =? PROMSXP then promiseValue val else ret val) ;;
     n <- NAMED val ;;
     when ((n =? 0) && negb (Nat.eqb val R_NilValue)) (SET_NAMED val 1) ;;
     ostack_push val ;;
     ret pc1) s2).
  { unfold ins_ldvar_. rewrite (bind_Ok _ _ _ _ _ Hc). cbn [fst snd].
    rewrite (bind_Ok _ _ _ _ _ (hostcall_Ok _ _ _ _ _ Hf)). reflexivity. }
  split; [|split; [|split]].
  - intros ->. rewrite E. reflexivity.
  - intros -> name Hname. rewrite E. cbn [Nat.eqb R_MissingArg R_UnboundValue].
    apply bind_RError. unfold symbol_name in Hname.
    apply bind_Ok_inv in Hname as (pn & sx & E1 & E2).
    rewrite (bind_Ok _ _ _ _ _ E1).
    assert (sx = s2) as ->.
    { unfold PRINTNAME, CAR, slots in E1.
      apply bind_Ok_inv in E1 as (p & sy & E1 & E3). injection E3 as _ <-.
      apply bind_Ok_inv in E1 as (r & sz & E1 & E3).
      apply deref_inv in E1 as (-> & _). destruct (u r); try discriminate.
      injection E3 as _ <-. reflexivity. }
    rewrite (bind_Ok _ _ _ _ _ E2). reflexivity.
  - intros N1 N2 T pv code penv C.
    assert (Hp : val <> NULL) by apply T.
    assert (V : PRVALUE val s2 = Ok pv s2) by exact (PRVALUE_Ok s2 val pv code penv Hp C).
    assert (E' : ins_ldvar_ c env pc n st =
      (val <- promiseValue val ;;
       n <- NAMED val ;;
       when ((n =? 0) && negb (Nat.eqb val R_NilValue)) (SET_NAMED val 1) ;;
       ostack_push val ;;
       ret pc1) s2).
    { rewrite E. apply Nat.eqb_neq in N1, N2. rewrite N1, N2.
      rewrite (bind_Ok _ _ _ tt s2) by reflexivity.
      rewrite (bind_Ok _ _ _ _ _ (TYPEOF_Ok _ _ _ T)). reflexivity. }
    split.
    + intros Hpv v s3 r F Hn Hl. rewrite E'.
      assert (P : promiseValue val s2
                  = Ok v (set_hostLog (HC_forcePromise val :: hostLog s2) s3)).
      { unfold promiseValue. rewrite (bind_Ok _ _ _ _ _ V).
        assert (G : negb (Nat.eqb pv NULL) && negb (Nat.eqb pv R_UnboundValue) = false).
        { destruct Hpv as [-> | ->]; reflexivity. }
        rewrite G. apply (hostcall_Ok _ _ _ _ _ F). }
      rewrite (bind_Ok _ _ _ _ _ P).
      apply named_push_tail; [exact Hn|exact Hl].
    + intros Hv Hu r L Ty. rewrite E'.
      assert (P : promiseValue val s2
                  = Ok pv (set_heap (<[pv := with_named 2 r]> (heap s2)) s2)).
      { unfold promiseValue. rewrite (bind_Ok _ _ _ _ _ V).
        pose proof Hv as Hv'. apply Nat.eqb_neq in Hv', Hu. rewrite Hv', Hu. cbn [negb andb].
        assert (A : assertM (t <- TYPEOF pv ;; ret (negb (t =? PROMSXP)))
                      "TYPEOF(promise) != PROMSXP" s2 = Ok tt s2).
        { destruct Ty as [N|Ty]; [apply assertM_disabled, N|]. apply assertM_true.
          assert (Tv : has_type s2 pv (sx_type (sxpinfo r)))
            by (split; [exact Hv|]; exists r; auto).
          rewrite (bind_Ok _ _ _ _ _ (TYPEOF_Ok _ _ _ Tv)).
          apply Z.eqb_neq in Ty. rewrite Ty. reflexivity. }
        rewrite (bind_Ok _ _ _ _ _ A).
        rewrite (bind_Ok _ _ _ _ _ (SET_NAMED_Ok s2 pv r 2 Hv L)). reflexivity. }
      rewrite (bind_Ok _ _ _ _ _ P).
      set (s3 := set_heap (<[pv := with_named 2 r]> (heap s2)) s2).
      assert (L3 : heap s3 !! pv = Some (with_named 2 r)).
      { cbn [s3 heap set_heap]. apply list_lookup_insert_eq. eapply lookup_lt_Some, L. }
      rewrite (named_push_tail pv pc1 s3 (with_named 2 r) Hv L3).
      unfold named_and_pushed. cbn [with_named sx_named sxpinfo]. reflexivity.
  - intros N1 N2 r Hn Hl Nt. rewrite E.
    apply Nat.eqb_neq in N1, N2. rewrite N1, N2.
    rewrite (bind_Ok _ _ _ tt s2) by reflexivity.
    assert (T : has_type s2 val (sx_type (sxpinfo r))) by (split; [exact Hn|]; exists r; auto).
    rewrite (bind_Ok _ _ _ _ _ (TYPEOF_Ok _ _ _ T)).
    apply Z.eqb_neq in Nt. rewrite Nt.
    rewrite (bind_Ok _ _ _ val s2) by reflexivity.
    apply named_push_tail; assumption.
Qed.

End Load.

Lemma ldvar_lookup_witness :
  (exists s4,
     ins_ldvar_ (H := refHost) code_ldvar first_free 1 0 state_promise = Ok 5 s4
     /\ ostack s4 = [R_TrueValue]
     /\ hostLog s4 = [HC_forcePromise (S (S first_free)); HC_findVar R_valueSym first_free])
  /\ (exists s4,
        ins_ldvar_ (H := refHost) code_ldvar first_free 1 0 state_evaluated_promise = Ok 5 s4
        /\ ostack s4 = [R_FalseValue]
        /\ hostLog s4 = [HC_findVar R_valueSym first_free]).
Proof.
  split.
  - assert (T : has_type
       (set_R_Visible true (set_hostLog (HC_findVar R_valueSym first_free :: hostLog state_promise)
                              state_promise))
       (S (S first_free)) PROMSXP).
    { split; [discriminate|]. eexists. split; reflexivity. }
    pose proof (ldvar_lookup (H := refHost) code_ldvar first_free 1 0 state_promise
                  R_valueSym 5 (S (S first_free)) state_promise eq_refl eq_refl) as (_ & _ & P & _).
    eexists. split.
    + refine (proj1 (P _ _ T R_UnboundValue R_TrueValue first_free eq_refl)
                (or_intror eq_refl) R_TrueValue _ _ eq_refl _ eq_refl); discriminate.
    + split; reflexivity.
  - assert (T : has_type
       (set_R_Visible true
          (set_hostLog (HC_findVar R_valueSym first_free :: hostLog state_evaluated_promise)
             state_evaluated_promise))
       (S (S first_free)) PROMSXP).
    { split; [discriminate|]. eexists. split; reflexivity. }
    pose proof (ldvar_lookup (H := refHost) code_ldvar first_free 1 0 state_evaluated_promise
                  R_valueSym 5 (S (S first_free)) state_evaluated_promise eq_refl eq_refl)
      as (_ & _ & P & _).
    eexists. split.
    + refine (proj2 (P _ _ T R_FalseValue R_TrueValue first_free eq_refl)
                _ _ _ eq_refl (or_intror _)); discriminate.
    + split; reflexivity.
Defined.

(** ** Source references *)
Section Sources.
Context {H : Host}.

Lemma reads_nothing_ret {A} (a : A) : reads_nothing (ret a).
Proof. intros s b s1 [= <- <-]. split; reflexivity. Qed.

Lemma reads_nothing_undefined {A} msg : reads_nothing (@undefined A msg).
Proof. intros s b s1 E. discriminate. Qed.

Lemma reads_nothing_bind {A B} (m : M A) (k : A -> M B) :
  reads_nothing m -> (forall a, reads_nothing (k a)) -> reads_nothing (bind m k).
Proof.
  intros Hm Hk s b s1 E. apply bind_Ok_inv in E as (a & s0 & E1 & E2).
  apply Hm in E1 as [-> E1]. apply Hk in E2 as [-> E2].
  split; [reflexivity|]. intros s'. rewrite (bind_Ok _ _ _ _ _ (E1 s')). apply E2.
Qed.

Lemma reads_nothing_assert b msg : reads_nothing (assert b msg).
Proof.
  unfold assert. destruct NDEBUG; [apply reads_nothing_ret|].
  destruct b; [apply reads_nothing_ret|]. intros s a s1 E. discriminate.
Qed.

Lemma reads_nothing_byte_at c pc : reads_nothing (byte_at c pc).
Proof.
  unfold byte_at. destruct (pc <? 0); [apply reads_nothing_undefined|].
  destruct (ccode c !! Z.to_nat pc); [apply reads_nothing_ret|apply reads_nothing_undefined].
Qed.

Lemma reads_nothing_advancePc c pc : reads_nothing (advancePc c pc).
Proof.
  unfold advancePc. apply reads_nothing_bind; [apply reads_nothing_byte_at|].
  intros b. destruct (decodeOpcode b); [apply reads_nothing_ret|].
  apply reads_nothing_bind; [apply reads_nothing_assert|]. intros _. apply reads_nothing_ret.
Qed.

Lemma reads_nothing_insIdx_loop fuel c x pc i : reads_nothing (insIdx_loop fuel c x pc i).
Proof.
  revert x i. induction fuel as [|fuel IH]; intros x i; cbn [insIdx_loop].
  - apply reads_nothing_undefined.
  - apply reads_nothing_bind; [apply reads_nothing_advancePc|].
    intros x'. destruct (x' =? pc); [apply reads_nothing_ret|apply IH].
Qed.

Lemma reads_nothing_src_at c i : reads_nothing (src_at c i).
Proof.
  unfold src_at. destruct (csrcs c !! i); [apply reads_nothing_ret|apply reads_nothing_undefined].
Qed.

(** [getSrcAt] depends on the state through the source pool only. *)
Lemma getSrcAt_stable c pc s a s1 :
  getSrcAt c pc s = Ok a s1 ->
  s1 = s /\ forall s', src_pool s' = src_pool s -> getSrcAt c pc s' = Ok a s'.
Proof.
  unfold getSrcAt. intros E.
  apply bind_Ok_inv in E as (i & s2 & E1 & E).
  apply reads_nothing_insIdx_loop in E1 as [-> E1].
  apply bind_Ok_inv in E as (k & s3 & E2 & E).
  apply reads_nothing_src_at in E2 as [-> E2].
  unfold src_pool_at in E.
  destruct (src_pool s !! (if Nat.eqb k 0 then csrc c else k)) eqn:L; [|discriminate].
  injection E as <- <-. split; [reflexivity|].
  intros s' P. unfold current_insIdx.
  rewrite (bind_Ok _ _ _ _ _ (E1 s')), (bind_Ok _ _ _ _ _ (E2 s')).
  unfold src_pool_at. rewrite P, L. reflexivity.
Qed.

End Sources.


(** ** Conditions *)
Section Conditions.
Context {H : Host}.

Lemma top_Ok s v o : ostack s = v :: o -> ostack_top s = Ok v s.
Proof. unfold ostack_top. intros ->. reflexivity. Qed.

(** [asbool_] up to the computation of [cond]: the warning is out. *)
Lemma asbool_after_warning c env pc n st t rest ast :
  ostack st = t :: rest ->
  getSrcAt c pc st = Ok ast st ->
  let len := Rf_length st t in
  let stw := if 1 <? len
             then set_R_Warnings ((ast, asbool_warning) :: R_Warnings st) st else st in
  ins_asbool_ c env pc n st =
  (cond <- (if 0 <? len
            then
              ty <- TYPEOF t ;;
              if ty =? LGLSXP then LOGICAL0 t
              else if ty =? INTSXP
              then (INTEGER0 t ;; gets (fun s => asLogical s t))
              else gets (fun s => asLogical s t)
            else ret NA_LOGICAL) ;;
   when (cond =? NA_LOGICAL)
        (msg <- (if negb (len =? 0)
                 then (l <- isLogical t ;;
                       ret (if (l : bool) then "missing value where TRUE/FALSE needed"
                            else "argument is not interpretable as logical")%string)
                 else ret "argument is of length zero"%string) ;;
         ast <- getSrcAt c pc ;;
         errorcall ast msg) ;;
   ostack_pop ;;
   ostack_push (if negb (cond =? 0) then R_TrueValue else R_FalseValue) ;;
   ret pc) stw.
Proof.
  intros Hst Hsrc len stw. unfold ins_asbool_.
  rewrite (bind_Ok _ _ _ _ _ (top_Ok _ _ _ Hst)).
  rewrite (bind_Ok _ _ _ len st) by reflexivity.
  rewrite (bind_Ok _ _ _ tt stw); [reflexivity|].
  subst stw. destruct (1 <? len); [|reflexivity]. cbn [when].
  rewrite (bind_Ok _ _ _ _ _ Hsrc). reflexivity.
Qed.

(** C3: [asbool_] on the value [t] on top of the stack.  Length 0: the
    error "argument is of length zero".  First element NA: the error
    "missing value where TRUE/FALSE needed" for a logical [t] and "argument
    is not interpretable as logical" otherwise.  Length above 1: a warning is
    recorded and the first element decides.  Without error [t] is replaced
    on the stack by the shared TRUE or FALSE. *)
Theorem asbool_conversion c env pc n st t rest ast ty :
  ostack st = t :: rest ->
  getSrcAt c pc st = Ok ast st ->
  has_type st t ty ->
  let len := Rf_length st t in
  let stw := if 1 <? len
             then set_R_Warnings ((ast, asbool_warning) :: R_Warnings st) st else st in
  (len = 0 -> ins_asbool_ c env pc n st = RError "argument is of length zero" st)
  /\ (0 < len -> ty = LGLSXP -> first_int st t NA_LOGICAL ->
      ins_asbool_ c env pc n st = RError "missing value where TRUE/FALSE needed" stw)
  /\ (0 < len -> ty <> LGLSXP -> (ty = INTSXP -> exists y, first_int st t y) ->
      asLogical stw t = NA_LOGICAL ->
      ins_asbool_ c env pc n st = RError "argument is not interpretable as logical" stw)
  /\ (0 < len -> forall x, x <> NA_LOGICAL ->
      (ty = LGLSXP /\ first_int st t x)
      \/ (ty <> LGLSXP /\ (ty = INTSXP -> exists y, first_int st t y) /\ asLogical stw t = x) ->
      ins_asbool_ c env pc n st
      = Ok pc (set_ostack ((if x =? 0 then R_FalseValue else R_TrueValue) :: rest) stw))
  /\ (1 < len -> R_Warnings stw = (ast, asbool_warning) :: R_Warnings st)
  /\ (len <= 1 -> stw = st).
Proof.
  intros Hst Hsrc Hty len stw.
  pose proof (asbool_after_warning c env pc n st t rest ast Hst Hsrc) as E.
  fold len in E. fold stw in E. cbv zeta in E.
  assert (Hw : heap stw = heap st /\ ostack stw = ostack st /\ src_pool stw = src_pool st).
  { subst stw. destruct (1 <? len); repeat split. }
  destruct Hw as (Hh & Ho & Hp).
  assert (Tw : TYPEOF t stw = Ok ty stw).
  { apply TYPEOF_Ok. destruct Hty as [N (r & L & T)]. split; [exact N|]. exists r.
    rewrite Hh. auto. }
  assert (Iw : forall x, first_int st t x -> INTEGER0 t stw = Ok x stw).
  { intros x [N (r & d & L & U)]. apply INTEGER0_Ok. split; [exact N|]. exists r, d.
    rewrite Hh. auto. }
  assert (Sw : getSrcAt c pc stw = Ok ast stw).
  { apply (getSrcAt_stable c pc st ast st Hsrc). exact Hp. }
  assert (Lw : isLogical t stw = Ok (ty =? LGLSXP) stw).
  { unfold isLogical. rewrite (bind_Ok _ _ _ _ _ Tw). reflexivity. }
  (* the condition, by type *)
  assert (C1 : forall x, 0 < len -> ty = LGLSXP -> first_int st t x ->
     (if 0 <? len
      then
        ty <- TYPEOF t ;;
        if ty =? LGLSXP then LOGICAL0 t
        else if ty =? INTSXP
        then (INTEGER0 t ;; gets (fun s => asLogical s t))
        else gets (fun s => asLogical s t)
      else ret NA_LOGICAL) stw = Ok x stw).
  { intros x Hl -> Hx. apply Z.ltb_lt in Hl. rewrite Hl.
    rewrite (bind_Ok _ _ _ _ _ Tw). cbn. apply Iw. exact Hx. }
  assert (C2 : 0 < len -> ty <> LGLSXP -> (ty = INTSXP -> exists y, first_int st t y) ->
     (if 0 <? len
      then
        ty <- TYPEOF t ;;
        if ty =? LGLSXP then LOGICAL0 t
        else if ty =? INTSXP
        then (INTEGER0 t ;; gets (fun s => asLogical s t))
        else gets (fun s => asLogical s t)
      else ret NA_LOGICAL) stw = Ok (asLogical stw t) stw).
  { intros Hl Hn Hi. apply Z.ltb_lt in Hl. rewrite Hl.
    rewrite (bind_Ok _ _ _ _ _ Tw). apply Z.eqb_neq in Hn. rewrite Hn.
    destruct (Z.eqb_spec ty INTSXP) as [Ei|_]; [|reflexivity].
    destruct (Hi Ei) as [y Hy]. rewrite (bind_Ok _ _ _ _ _ (Iw y Hy)). reflexivity. }
  assert (Pw : forall v, (ostack_pop ;; ostack_push v ;; ret pc) stw
                         = Ok pc (set_ostack (v :: rest) stw)).
  { intros v. unfold bind, ostack_pop. rewrite Ho, Hst. reflexivity. }
  split; [|split; [|split; [|split; [|split]]]].
  - intros L0. rewrite E.
    assert (stw = st) as -> by (subst stw; rewrite L0; reflexivity).
    rewrite L0. change (0 <? 0) with false. cbv iota.
    rewrite (bind_Ok _ _ _ NA_LOGICAL st) by reflexivity.
    apply bind_RError. change (NA_LOGICAL =? NA_LOGICAL) with true.
    change (negb (0 =? 0)) with false. cbn [when].
    rewrite (bind_Ok _ _ _ "argument is of length zero"%string st) by reflexivity.
    rewrite (bind_Ok _ _ _ _ _ Hsrc). reflexivity.
  - intros Hl Ht Hx. rewrite E. rewrite (bind_Ok _ _ _ _ _ (C1 _ Hl Ht Hx)).
    cbn [Z.eqb NA_LOGICAL Pos.eqb when]. apply bind_RError.
    assert ((len =? 0) = false) as -> by (apply Z.eqb_neq; lia). cbn [negb].
    rewrite (bind_Ok _ _ _ "missing value where TRUE/FALSE needed"%string stw)
      by (rewrite (bind_Ok _ _ _ _ _ Lw), Ht; reflexivity).
    rewrite (bind_Ok _ _ _ _ _ Sw). reflexivity.
  - intros Hl Hn Hi Ha. rewrite E. rewrite (bind_Ok _ _ _ _ _ (C2 Hl Hn Hi)).
    rewrite Ha. cbn [Z.eqb NA_LOGICAL Pos.eqb when]. apply bind_RError.
    assert ((len =? 0) = false) as -> by (apply Z.eqb_neq; lia). cbn [negb].
    apply Z.eqb_neq in Hn.
    rewrite (bind_Ok _ _ _ "argument is not interpretable as logical"%string stw)
      by (rewrite (bind_Ok _ _ _ _ _ Lw), Hn; reflexivity).
    rewrite (bind_Ok _ _ _ _ _ Sw). reflexivity.
  - intros Hl x Hx D. rewrite E.
    assert (Cx : (if 0 <? len
      then
        ty <- TYPEOF t ;;
        if ty =? LGLSXP then LOGICAL0 t
        else if ty =? INTSXP
        then (INTEGER0 t ;; gets (fun s => asLogical s t))
        else gets (fun s => asLogical s t)
      else ret NA_LOGICAL) stw = Ok x stw).
    { destruct D as [[Ht Hf] | (Hn & Hi & <-)]; [apply C1|apply C2]; assumption. }
    rewrite (bind_Ok _ _ _ _ _ Cx).
    apply Z.eqb_neq in Hx. rewrite Hx. cbn [when].
    rewrite (bind_Ok _ _ _ tt stw) by reflexivity.
    rewrite Pw. destruct (x =? 0); reflexivity.
  - intros Hl. subst stw. apply Z.ltb_lt in Hl. rewrite Hl. reflexivity.
  - intros Hl. subst stw. assert ((1 <? len) = false) as -> by (apply Z.ltb_ge; lia). reflexivity.
Qed.

End Conditions.


Lemma asbool_conversion_witness :
  ins_asbool_ (H := refHost) code_asbool R_BaseEnv 1 0 state_lgl_pair
  = Ok 1 (set_ostack [R_TrueValue]
            (set_R_Warnings [(R_NilValue, asbool_warning)] state_lgl_pair)).
Proof.
  assert (T : has_type state_lgl_pair first_free LGLSXP).
  { split; [discriminate|]. eexists. split; reflexivity. }
  assert (F : first_int state_lgl_pair first_free 1).
  { split; [discriminate|]. eexists _, _. split; reflexivity. }
  pose proof (asbool_conversion (H := refHost) code_asbool R_BaseEnv 1 0 state_lgl_pair
                first_free [] R_NilValue LGLSXP eq_refl eq_refl T) as (_ & _ & _ & P & _).
  refine (P _ 1 _ (or_introl (conj eq_refl F))); [reflexivity | discriminate].
Defined.

(** ** Components of the state that an operation leaves alone *)
Create HintDb keeps.

Section Keeps.
Context {H : Host} {X : Type} (f : State -> X).

Lemma keeps_ret {A} (a : A) : keeps f (ret a).
Proof. intros s b s' [= <- <-]. reflexivity. Qed.

Lemma keeps_bind {A B} (m : M A) (k : A -> M B) :
  keeps f m -> (forall a, keeps f (k a)) -> keeps f (bind m k).
Proof.
  intros Hm Hk s b s' E. apply bind_Ok_inv in E as (a & s1 & E1 & E2).
  rewrite (Hk a _ _ _ E2). apply (Hm _ _ _ E1).
Qed.

Lemma keeps_gets {A} (g : State -> A) : keeps f (gets g).
Proof. intros s b s' [= <- <-]. reflexivity. Qed.

Lemma keeps_fail {A} (m : M A) : (forall s a s', m s <> Ok a s') -> keeps f m.
Proof. intros N s a s' E. destruct (N _ _ _ E). Qed.

Lemma keeps_undefined {A} msg : keeps f (@undefined A msg).
Proof. apply keeps_fail. discriminate. Qed.

Lemma keeps_error {A} msg : keeps f (@error A msg).
Proof. apply keeps_fail. discriminate. Qed.

Lemma keeps_assert b msg : keeps f (assert b msg).
Proof.
  unfold assert. destruct NDEBUG; [apply keeps_ret|].
  destruct b; [apply keeps_ret|]. apply keeps_fail. discriminate.
Qed.

Lemma keeps_modify (g : State -> State) : (forall s, f (g s) = f s) -> keeps f (modify g).
Proof. intros Hg s b s' E. inversion E; subst. apply Hg. Qed.

Lemma keeps_deref x : keeps f (deref x).
Proof. intros s r s' E. apply deref_inv in E as [-> _]. reflexivity. Qed.

Lemma keeps_store x r : off_heap f -> keeps f (store x r).
Proof.
  intros Hf s a s'. unfold store. destruct (Nat.eqb x NULL); [discriminate|].
  destruct (heap s !! x); [|discriminate]. intros E. inversion E; subst. apply Hf.
Qed.

Lemma keeps_alloc r : off_heap f -> keeps f (alloc r).
Proof. intros Hf s a s' E. inversion E; subst. apply Hf. Qed.

End Keeps.

#[export] Hint Resolve keeps_ret keeps_gets keeps_undefined keeps_error keeps_assert
  keeps_deref keeps_store keeps_alloc : keeps.

(** Break a monadic term along its binds and case distinctions. *)
Ltac keeps_step :=
  lazymatch goal with
  | |- keeps _ (bind _ _) => apply keeps_bind; [|intros ?]
  | |- keeps _ (when ?b _) => destruct b; cbn [when]
  | |- keeps _ (if ?b then _ else _) => destruct b
  | |- keeps _ (match ?x with _ => _ end) => destruct x
  | |- off_heap _ => intros ? ?; reflexivity
  | |- _ => solve [eauto with keeps]
  end.
Ltac keeps_tac := repeat keeps_step.

Section KeepsRuntime.
Context {H : Host} {X : Type} (f : State -> X) (Hf : off_heap f).

Lemma keeps_TYPEOF x : keeps f (TYPEOF x).
Proof. unfold TYPEOF. keeps_tac. Qed.
Lemma keeps_slots x : keeps f (slots x).
Proof. unfold slots. keeps_tac. Qed.
Lemma keeps_CAR x : keeps f (CAR x).
Proof. unfold CAR. pose proof keeps_slots. keeps_tac. Qed.
Lemma keeps_CDR x : keeps f (CDR x).
Proof. unfold CDR. pose proof keeps_slots. keeps_tac. Qed.
Lemma keeps_TAG x : keeps f (TAG x).
Proof. unfold TAG. pose proof keeps_slots. keeps_tac. Qed.
Lemma keeps_CHAR x : keeps f (CHAR x).
Proof. unfold CHAR. keeps_tac. Qed.
Lemma keeps_SETCAR x v : keeps f (SETCAR x v).
Proof. unfold SETCAR. pose proof keeps_slots. keeps_tac. Qed.
Lemma keeps_SETCDR x v : keeps f (SETCDR x v).
Proof. unfold SETCDR. pose proof keeps_slots. keeps_tac. Qed.
Lemma keeps_SET_TAG x v : keeps f (SET_TAG x v).
Proof. unfold SET_TAG. pose proof keeps_slots. keeps_tac. Qed.
Lemma keeps_assertM mb msg : keeps f mb -> keeps f (assertM mb msg).
Proof. intros Hm. unfold assertM. keeps_tac. Qed.
Lemma keeps_SLOWASSERT b msg : keeps f (SLOWASSERT b msg).
Proof. unfold SLOWASSERT. keeps_tac. Qed.
Lemma keeps_andM a b : keeps f a -> keeps f b -> keeps f (andM a b).
Proof. intros Ha Hb. unfold andM. keeps_tac. Qed.
Lemma keeps_IS_S4_OBJECT x : keeps f (IS_S4_OBJECT x).
Proof. unfold IS_S4_OBJECT. keeps_tac. Qed.

End KeepsRuntime.

#[export] Hint Resolve keeps_TYPEOF keeps_slots keeps_CAR keeps_CDR keeps_TAG keeps_CHAR
  keeps_SETCAR keeps_SETCDR keeps_SET_TAG keeps_SLOWASSERT keeps_IS_S4_OBJECT : keeps.

(** ** Method dispatch *)
Section Dispatch.
Context {H : Host}.
Variable fuel : nat.
Variable evalRirCode_rec : SEXP -> SEXP -> Z -> M SEXP.

Lemma hostcall_inv {A} ev (m : M A) s a s' :
  hostcall ev m s = Ok a s' ->
  exists s1, m s = Ok a s1 /\ s' = set_hostLog (ev :: hostLog s) s1.
Proof.
  unfold hostcall. destruct (m s) as [b s1| | | | |]; try discriminate.
  intros E. inversion E; subst. eauto.
Qed.

Lemma keeps_rl_setLength {X} (f : State -> X) n :
  (forall o s, f (set_ostack o s) = f s) -> keeps f (rl_setLength n).
Proof.
  intros Hf s a s'. unfold rl_setLength.
  destruct (decide (n <= length (ostack s))%nat); [|discriminate].
  intros E. inversion E; subst. apply Hf.
Qed.

Lemma keeps_restoreCont_log k : keeps hostLog (restoreCont k).
Proof.
  unfold restoreCont, ostack_length.
  pose proof (keeps_rl_setLength hostLog (stackPointer k) (fun _ _ => eq_refl)).
  keeps_tac.
Qed.

Lemma keeps_begincontext_log a b c d e f g : keeps hostLog (Rf_begincontext a b c d e f g).
Proof. unfold Rf_begincontext. apply keeps_modify. reflexivity. Qed.

Lemma keeps_endcontext_log a : keeps hostLog (Rf_endcontext a).
Proof.
  intros s x s'. unfold Rf_endcontext. destruct (chain_after a (R_GlobalContext s)); [|discriminate].
  intros E. inversion E; subst. reflexivity.
Qed.

Lemma keeps_id_query obj selector :
  keeps (fun s => s) (andM (IS_S4_OBJECT obj) (gets (fun s => R_has_methods s selector))).
Proof. apply keeps_andM; [unfold IS_S4_OBJECT|]; keeps_tac. Qed.

Lemma hostLog_set_hostLog l s : hostLog (set_hostLog l s) = l.
Proof. reflexivity. Qed.

(** [doDispatch] up to the end of the S4 attempt, when that gives no result. *)
Lemma doDispatch_after_S4 caller call_ast selector obj args nargs names env st actuals st1 b4 s0 :
  dispatch_actuals fuel evalRirCode_rec caller call_ast obj args nargs names env st
    = Ok actuals st1 ->
  andM (IS_S4_OBJECT obj) (gets (fun s => R_has_methods s selector)) st1 = Ok b4 st1 ->
  after_S4 b4 call_ast selector actuals env st1 s0 ->
  doDispatch fuel evalRirCode_rec caller call_ast selector obj args nargs names env st
  = dispatch_result
      (r3 <- dispatch_S3 call_ast selector obj actuals env NULL ;;
       if fst r3 then (restoreCont (mkRirContext (length (ostack st1)) None) ;; ret (snd r3))
       else dispatch_normal_call fuel evalRirCode_rec call_ast selector actuals env nargs
              (mkRirContext (length (ostack st1)) None) (snd r3)) s0.
Proof.
  intros Hpre Hq Ha. unfold doDispatch, dispatch_result.
  rewrite (bind_Ok _ _ _ _ _ Hpre).
  rewrite (bind_Ok _ _ _ (mkRirContext (length (ostack st1)) None) st1) by reflexivity.
  unfold after_S4 in Ha. destruct b4.
  - destruct Ha as (s4 & E4 & ->).
    rewrite (bind_Ok _ _ _ (Some NULL)
               (set_hostLog (HC_possible_dispatch selector :: hostLog st1) s4)).
    + reflexivity.
    + unfold dispatch_S4. rewrite (bind_Ok _ _ _ _ _ Hq).
      rewrite (bind_Ok _ _ _ _ _ (hostcall_Ok _ _ _ _ _ E4)). reflexivity.
  - subst s0. rewrite (bind_Ok _ _ _ None st1).
    + reflexivity.
    + unfold dispatch_S4. rewrite (bind_Ok _ _ _ _ _ Hq). reflexivity.
Qed.

(** The S3 attempt, given what the host's [usemethod] returns. *)
Lemma dispatch_S3_Ok call_ast selector obj actuals env s0 generic rho1 sa s3 ok r3 s3' sf :
  symbol_name s0 selector generic ->
  Rf_NewEnvironment R_NilValue R_NilValue env s0 = Ok rho1 sa ->
  initClosureContext call_ast rho1 env actuals selector sa = Ok tt s3 ->
  Rf_usemethod generic obj call_ast actuals rho1 env R_BaseEnv s3 = Ok (ok, r3) s3' ->
  endClosureContext NULL (if ok then r3 else R_NilValue)
    (set_hostLog (HC_usemethod selector obj :: hostLog s3) s3') = Ok tt sf ->
  dispatch_S3 call_ast selector obj actuals env NULL s0
  = Ok (ok, if ok then r3 else NULL) sf
  /\ hostLog sf = HC_usemethod selector obj :: hostLog s0.
Proof.
  intros Hn He Hi Hu Hc. split.
  - unfold symbol_name in Hn. apply bind_Ok_inv in Hn as (pn & sx & E1 & E2).
    pose proof (keeps_CAR (fun s => s) _ _ _ _ E1) as Hx. cbv beta in Hx. subst sx.
    unfold dispatch_S3.
    rewrite (bind_Ok _ _ _ _ _ E1), (bind_Ok _ _ _ _ _ E2), (bind_Ok _ _ _ _ _ He),
      (bind_Ok _ _ _ _ _ Hi), (bind_Ok _ _ _ _ _ (hostcall_Ok _ _ _ _ _ Hu)).
    cbn [fst snd]. destruct ok; rewrite (bind_Ok _ _ _ _ _ Hc); reflexivity.
  - rewrite (keeps_endcontext_log _ _ _ _ Hc), hostLog_set_hostLog. f_equal.
    rewrite (keeps_begincontext_log _ _ _ _ _ _ _ _ _ _ Hi).
    exact (keeps_alloc hostLog _ (fun _ _ => eq_refl) _ _ _ He).
Qed.

(** The call of the function that [findFun] returned is the call that
    [doCall] makes for a callee of this kind. *)
Lemma dispatch_invoke_closure call_ast selector actuals env nargs k res0 callee s :
  callee <> R_UnboundValue -> callee <> R_MissingArg -> has_type s callee CLOSXP ->
  dispatch_invoke fuel evalRirCode_rec call_ast selector actuals env nargs k res0 callee s
  = call_closure fuel evalRirCode_rec call_ast callee actuals env (Z.of_nat nargs) s.
Proof.
  intros N1 N2 T. unfold dispatch_invoke.
  apply Nat.eqb_neq in N1, N2. rewrite N1, N2.
  rewrite (bind_Ok _ _ _ tt s) by reflexivity.
  rewrite (bind_Ok _ _ _ _ _ (TYPEOF_Ok _ _ _ T)). reflexivity.
Qed.

Lemma prim_offset_of s f r i :
  f <> NULL -> heap s !! f = Some r -> u r = u_int i -> prim_offset f s = Ok i s.
Proof.
  intros Hn L U. unfold prim_offset.
  rewrite (bind_Ok _ _ _ _ _ (deref_Ok _ _ _ Hn L)), U. reflexivity.
Qed.

Lemma dispatch_invoke_builtin call_ast selector actuals env nargs k res0 callee s r i :
  callee <> R_UnboundValue -> callee <> R_MissingArg -> has_type s callee BUILTINSXP ->
  heap s !! callee = Some r -> u r = u_int i ->
  dispatch_invoke fuel evalRirCode_rec call_ast selector actuals env nargs k res0 callee s
  = (force_all evalRirCode_rec fuel actuals env ;;
     call_builtin call_ast callee actuals env) s.
Proof.
  intros N1 N2 T L U. unfold dispatch_invoke.
  apply Nat.eqb_neq in N1, N2. rewrite N1, N2.
  rewrite (bind_Ok _ _ _ tt s) by reflexivity.
  rewrite (bind_Ok _ _ _ _ _ (TYPEOF_Ok _ _ _ T)).
  change (BUILTINSXP =? SPECIALSXP) with false. change (BUILTINSXP =? BUILTINSXP) with true.
  cbv iota.
  pose proof (prim_offset_of s callee r i (proj1 T) L U) as P.
  unfold getBuiltin, getFlag.
  rewrite (bind_Ok _ _ _ (R_FunTab_cfun i) s) by (rewrite (bind_Ok _ _ _ _ _ P); reflexivity).
  rewrite (bind_Ok _ _ _ ((R_FunTab_eval i / 100) mod 10) s)
    by (rewrite (bind_Ok _ _ _ _ _ P); reflexivity).
  reflexivity.
Qed.

Lemma dispatch_invoke_special call_ast selector actuals env nargs k res0 callee s r i :
  callee <> R_UnboundValue -> callee <> R_MissingArg -> has_type s callee SPECIALSXP ->
  heap s !! callee = Some r -> u r = u_int i ->
  k = mkRirContext (length (ostack s)) None ->
  dispatch_invoke fuel evalRirCode_rec call_ast selector actuals env nargs k res0 callee s
  = call_special call_ast callee env s.
Proof.
  intros N1 N2 T L U ->. unfold dispatch_invoke, call_special.
  apply Nat.eqb_neq in N1, N2. rewrite N1, N2.
  rewrite (bind_Ok _ _ _ tt s) by reflexivity.
  rewrite (bind_Ok _ _ _ _ _ (TYPEOF_Ok _ _ _ T)).
  change (SPECIALSXP =? SPECIALSXP) with true. cbv iota.
  pose proof (prim_offset_of s callee r i (proj1 T) L U) as P.
  unfold getBuiltin, getFlag.
  rewrite !(bind_Ok _ _ _ (R_FunTab_cfun i) s) by (rewrite (bind_Ok _ _ _ _ _ P); reflexivity).
  rewrite !(bind_Ok _ _ _ ((R_FunTab_eval i / 100) mod 10) s)
    by (rewrite (bind_Ok _ _ _ _ _ P); reflexivity).
  unfold set_visible_from at 1 3.
  rewrite !(bind_Ok _ _ _ tt (set_R_Visible (negb ((R_FunTab_eval i / 100) mod 10 =? 1)) s))
    by reflexivity.
  rewrite (bind_Ok _ _ _ (mkRirContext (length (ostack s)) None)
             (set_R_Visible (negb ((R_FunTab_eval i / 100) mod 10 =? 1)) s)) by reflexivity.
  reflexivity.
Qed.

(** C2: [dispatch_] tries S4 first, and only when the object is an S4
    object and the selector has methods; then S3 through [usemethod]; and
    only when both fail it resolves the selector with [findFun] in the
    current environment and calls the result as [doCall] does.  The first
    success gives the result and the later mechanisms are not called. *)
Theorem dispatch_order caller call_ast selector obj args nargs names env st actuals st1 b4 :
  dispatch_actuals fuel evalRirCode_rec caller call_ast obj args nargs names env st
    = Ok actuals st1 ->
  andM (IS_S4_OBJECT obj) (gets (fun s => R_has_methods s selector)) st1 = Ok b4 st1 ->
  let k := mkRirContext (length (ostack st1)) None in
  let run := doDispatch fuel evalRirCode_rec caller call_ast selector obj args nargs names env st in
  (b4 = true ->
   forall res s4 st',
     R_possible_dispatch call_ast selector actuals env true st1 = Ok res s4 ->
     res <> NULL ->
     restoreCont k (set_hostLog (HC_possible_dispatch selector :: hostLog st1) s4) = Ok tt st' ->
     run = Ok res st' /\ hostLog st' = HC_possible_dispatch selector :: hostLog st1)
  /\ (forall s0, after_S4 b4 call_ast selector actuals env st1 s0 ->
      forall generic rho1 sa s3 ok r3 s3' sf,
        symbol_name s0 selector generic ->
        Rf_NewEnvironment R_NilValue R_NilValue env s0 = Ok rho1 sa ->
        initClosureContext call_ast rho1 env actuals selector sa = Ok tt s3 ->
        Rf_usemethod generic obj call_ast actuals rho1 env R_BaseEnv s3 = Ok (ok, r3) s3' ->
        endClosureContext NULL (if ok then r3 else R_NilValue)
          (set_hostLog (HC_usemethod selector obj :: hostLog s3) s3') = Ok tt sf ->
        (ok = true ->
         forall st', restoreCont k sf = Ok tt st' -> NDEBUG = true \/ r3 <> NULL ->
           run = Ok r3 st' /\ hostLog st' = HC_usemethod selector obj :: hostLog s0)
        /\ (ok = false ->
            forall callee sc, findFun selector env sf = Ok callee sc ->
              let s_call := set_hostLog (HC_findFun selector env :: hostLog sf) sc in
              hostLog s_call
              = HC_findFun selector env :: HC_usemethod selector obj :: hostLog s0
              /\ (callee <> R_UnboundValue -> callee <> R_MissingArg ->
                  (has_type s_call callee CLOSXP ->
                   run = dispatch_result
                           (call_closure fuel evalRirCode_rec call_ast callee actuals env
                              (Z.of_nat nargs)) s_call)
                  /\ (forall r i,
                        has_type s_call callee BUILTINSXP ->
                        heap s_call !! callee = Some r -> u r = u_int i ->
                        run = dispatch_result
                                (force_all evalRirCode_rec fuel actuals env ;;
                                 call_builtin call_ast callee actuals env) s_call)
                  /\ (forall r i,
                        has_type s_call callee SPECIALSXP ->
                        heap s_call !! callee = Some r -> u r = u_int i ->
                        length (ostack s_call) = length (ostack st1) ->
                        run = dispatch_result (call_special call_ast callee env) s_call)))).
Proof.
  intros Hpre Hq k run. split.
  - intros -> res s4 st' E4 Hres Er. split.
    + unfold run, doDispatch.
      rewrite (bind_Ok _ _ _ _ _ Hpre).
      rewrite (bind_Ok _ _ _ k st1) by reflexivity.
      rewrite (bind_Ok _ _ _ (Some res)
                 (set_hostLog (HC_possible_dispatch selector :: hostLog st1) s4));
        [|unfold dispatch_S4; rewrite (bind_Ok _ _ _ _ _ Hq);
          rewrite (bind_Ok _ _ _ _ _ (hostcall_Ok _ _ _ _ _ E4)); reflexivity].
      apply Nat.eqb_neq in Hres. rewrite Hres. cbn [negb].
      rewrite (bind_Ok _ _ _ res st'); [|rewrite (bind_Ok _ _ _ _ _ Er); reflexivity].
      rewrite Hres. cbn [negb].
      rewrite (bind_Ok _ _ _ _ _ (assert_true true "res" st' eq_refl)). reflexivity.
    + rewrite (keeps_restoreCont_log _ _ _ _ Er). reflexivity.
  - intros s0 Ha generic rho1 sa s3 ok r3 s3' sf Hn He Hi Hu Hc.
    pose proof (doDispatch_after_S4 caller call_ast selector obj args nargs names env st
                  actuals st1 b4 s0 Hpre Hq Ha) as Run. fold k run in Run.
    destruct (dispatch_S3_Ok call_ast selector obj actuals env s0 generic rho1 sa s3 ok r3 s3' sf
                Hn He Hi Hu Hc) as [E3 L3].
    split.
    + intros -> st' Er Hr. split.
      * rewrite Run. unfold dispatch_result.
        rewrite (bind_Ok _ _ _ r3 st');
          [|rewrite (bind_Ok _ _ _ _ _ E3); cbn [fst snd];
            rewrite (bind_Ok _ _ _ _ _ Er); reflexivity].
        rewrite (bind_Ok _ _ _ tt st'); [reflexivity|].
        destruct Hr as [N|Hr]; [apply assert_disabled, N|].
        apply assert_true. apply Nat.eqb_neq in Hr. rewrite Hr. reflexivity.
      * rewrite (keeps_restoreCont_log _ _ _ _ Er). exact L3.
    + intros -> callee sc Ef s_call. split.
      * unfold s_call. rewrite hostLog_set_hostLog, L3. reflexivity.
      * intros N1 N2.
        assert (Run' : run = dispatch_result
                  (dispatch_invoke fuel evalRirCode_rec call_ast selector actuals env nargs k NULL
                     callee) s_call).
        { rewrite Run. unfold dispatch_result. unfold bind at 1 3.
          unfold bind at 1. rewrite E3. cbn [fst snd]. unfold dispatch_normal_call.
          rewrite (bind_Ok _ _ _ _ _ (hostcall_Ok _ _ _ _ _ Ef)). reflexivity. }
        split; [|split].
        -- intros T. rewrite Run'. unfold dispatch_result, bind.
           rewrite (dispatch_invoke_closure _ _ _ _ _ _ _ _ _ N1 N2 T). reflexivity.
        -- intros r i T L U. rewrite Run'. unfold dispatch_result. unfold bind at 1 3.
           rewrite (dispatch_invoke_builtin _ _ _ _ _ _ _ _ _ r i N1 N2 T L U). reflexivity.
        -- intros r i T L U Hlen. rewrite Run'. unfold dispatch_result. unfold bind at 1 3.
           rewrite (dispatch_invoke_special _ _ _ _ _ k _ _ _ r i N1 N2 T L U); [reflexivity|].
           unfold k. rewrite Hlen. reflexivity.
Qed.

End Dispatch.

Example dispatch_S4_first :
  hostLog (state_of (run_dispatch (host_dispatching true R_FalseValue (true, R_TrueValue))) state_program)
    = [HC_possible_dispatch R_valueSym]
  /\ result_of (run_dispatch (host_dispatching true R_FalseValue (true, R_TrueValue))) NULL
     = R_FalseValue.
Proof. split; vm_compute; reflexivity. Qed.

Example dispatch_S3_second :
  hostLog (state_of (run_dispatch (host_dispatching true NULL (true, R_TrueValue))) state_program)
    = [HC_usemethod R_valueSym the_object; HC_possible_dispatch R_valueSym]
  /\ result_of (run_dispatch (host_dispatching true NULL (true, R_TrueValue))) NULL
     = R_TrueValue.
Proof. split; vm_compute; reflexivity. Qed.

Example dispatch_call_last :
  hostLog (state_of (run_dispatch (host_dispatching false NULL (false, NULL))) state_program)
    = [HC_closureArgumentAdaptor the_closure; HC_findFun R_valueSym the_env;
       HC_usemethod R_valueSym the_object]
  /\ run_dispatch (host_dispatching false NULL (false, NULL))
     = Ok R_TrueValue (state_of (run_dispatch (host_dispatching false NULL (false, NULL))) state_program).
Proof. split; vm_compute; reflexivity. Qed.

Lemma dispatch_order_witness :
  exists s_call,
    run_dispatch host_S3_fails
    = dispatch_result (H := host_S3_fails)
        (call_closure (H := host_S3_fails) 5 (evalRirCode (H := host_S3_fails) 5)
           R_NilValue the_closure (result_of (run_dispatch_actuals host_S3_fails) NULL)
           the_env 1) s_call
    /\ hostLog s_call
       = [HC_findFun R_valueSym the_env; HC_usemethod R_valueSym the_object;
          HC_possible_dispatch R_valueSym]
    /\ result_of (run_dispatch host_S3_fails) NULL = R_TrueValue.
Proof.
  pose proof (dispatch_order (H := host_S3_fails) 5 (evalRirCode (H := host_S3_fails) 5)
                code_entry R_NilValue R_valueSym the_object [1] 1 R_NilValue the_env
                state_program (result_of (run_dispatch_actuals host_S3_fails) NULL)
                state_dispatch_ready true) as P.
  assert (Hpre : dispatch_actuals (H := host_S3_fails) 5 (evalRirCode (H := host_S3_fails) 5)
                   code_entry R_NilValue the_object [1] 1 R_NilValue the_env state_program
                 = Ok (result_of (run_dispatch_actuals host_S3_fails) NULL) state_dispatch_ready)
    by (vm_compute; reflexivity).
  assert (Hq : andM (IS_S4_OBJECT the_object)
                 (gets (fun s => R_has_methods (Host := host_S3_fails) s R_valueSym))
                 state_dispatch_ready = Ok true state_dispatch_ready)
    by (vm_compute; reflexivity).
  destruct (P Hpre Hq) as [_ P2]. clear P.
  assert (Ha : after_S4 (H := host_S3_fails) true R_NilValue R_valueSym
                 (result_of (run_dispatch_actuals host_S3_fails) NULL) the_env
                 state_dispatch_ready
                 (set_hostLog (HC_possible_dispatch R_valueSym :: hostLog state_dispatch_ready)
                    state_dispatch_ready)).
  { exists state_dispatch_ready. split; reflexivity. }
  set (actuals := result_of (run_dispatch_actuals host_S3_fails) NULL) in *.
  set (s0 := set_hostLog (HC_possible_dispatch R_valueSym :: hostLog state_dispatch_ready)
               state_dispatch_ready) in *.
  set (sa := state_of (Rf_NewEnvironment R_NilValue R_NilValue the_env s0) s0).
  set (s3 := state_of (initClosureContext R_NilValue (length (heap s0)) the_env actuals
                         R_valueSym sa) sa).
  set (sf := state_of (endClosureContext NULL R_NilValue
                         (set_hostLog (HC_usemethod R_valueSym the_object :: hostLog s3) s3))
                      s3).
  assert (Hn : symbol_name (H := host_S3_fails) s0 R_valueSym "value") by (vm_compute; reflexivity).
  assert (He : Rf_NewEnvironment R_NilValue R_NilValue the_env s0 = Ok (length (heap s0)) sa)
    by (vm_compute; reflexivity).
  assert (Hi : initClosureContext R_NilValue (length (heap s0)) the_env actuals R_valueSym sa
               = Ok tt s3) by (vm_compute; reflexivity).
  assert (Hu : Rf_usemethod (Host := host_S3_fails) "value" the_object R_NilValue actuals
                 (length (heap s0)) the_env R_BaseEnv s3 = Ok (false, NULL) s3)
    by (vm_compute; reflexivity).
  assert (Hc : endClosureContext NULL R_NilValue
                 (set_hostLog (HC_usemethod R_valueSym the_object :: hostLog s3) s3)
               = Ok tt sf) by (vm_compute; reflexivity).
  destruct (P2 s0 Ha "value"%string (length (heap s0)) sa s3 false NULL s3 sf Hn He Hi Hu Hc)
    as [_ P3].
  assert (Hf : findFun (Host := host_S3_fails) R_valueSym the_env sf = Ok the_closure sf)
    by (vm_compute; reflexivity).
  destruct (P3 eq_refl the_closure sf Hf) as [L P4].
  exists (set_hostLog (HC_findFun R_valueSym the_env :: hostLog sf) sf).
  split; [|split; vm_compute; reflexivity].
  apply P4; [discriminate|discriminate|].
  split; [discriminate|]. eexists. split; vm_compute; reflexivity.
Defined.

(** ** The main loop and activations *)
Section MainLoop.
Context {H : Host}.
Variable fuel : nat.
Variable evalRirCode_rec : SEXP -> SEXP -> Z -> M SEXP.

Lemma byte_at_inv c pc s b s' :
  byte_at c pc s = Ok b s' -> s' = s /\ 0 <= pc /\ ccode c !! Z.to_nat pc = Some b.
Proof.
  unfold byte_at. destruct (Z.ltb_spec pc 0); [discriminate|].
  destruct (ccode c !! Z.to_nat pc); [|discriminate].
  intros E. inversion E; subst. auto.
Qed.

Lemma bind_ret_Some_None {A B} (m : M A) (g : A -> B) s s' :
  (x <- m ;; ret (Some (g x))) s <> Ok None s'.
Proof.
  intros E. apply bind_Ok_inv in E as (a & s1 & _ & E). discriminate.
Qed.

(** The loop is left only at a [ret_]. *)
Lemma step_None c env n pc s s' :
  step fuel evalRirCode_rec c env n pc s = Ok None s' -> s' = s /\ at_ret c pc.
Proof.
  unfold step. intros E. apply bind_Ok_inv in E as ([b pc1] & s1 & E1 & E).
  unfold readOpcode in E1. apply bind_Ok_inv in E1 as (b' & s2 & E1 & E2).
  apply ret_inv in E2 as [E2 <-]. injection E2 as -> <-.
  apply byte_at_inv in E1 as (-> & Hpc & Hb). cbn [fst snd] in E.
  destruct (decodeOpcode b) as [op|] eqn:D.
  - destruct op; cbn [ins_of] in E;
      try (exfalso; revert E;
           first [ apply (bind_ret_Some_None _ (fun pc' => (pc', [])))
                 | apply (bind_ret_Some_None _ (fun r => (fst r, [snd r]))) ]).
    apply ret_inv in E as [_ <-]. split; [reflexivity|]. split; [exact Hpc|]. eauto.
  - exfalso. apply bind_Ok_inv in E as (a & s3 & _ & E). discriminate.
Qed.

(** The last turn of a loop that returns reads a [ret_], in the state in
    which the loop returns. *)
Lemma eval_loop_stops_at_ret n c env numArgs armed pc s s' :
  eval_loop fuel evalRirCode_rec n c env numArgs armed pc s = Ok tt s' ->
  exists pc_ret,
    at_ret c pc_ret /\ step fuel evalRirCode_rec c env numArgs pc_ret s' = Ok None s'.
Proof.
  revert armed pc s. induction n as [|n IH]; intros armed pc s; cbn [eval_loop].
  - discriminate.
  - destruct (step fuel evalRirCode_rec c env numArgs pc s) as [[[pc' arm]|] s1 | | t v s1 | | |] eqn:E;
      try discriminate.
    + apply IH.
    + intros E2. injection E2 as <-. pose proof E as E0.
      apply step_None in E0 as [-> R]. eauto.
    + destruct (existsb (Nat.eqb t) armed); [|discriminate].
      intros E2. apply bind_Ok_inv in E2 as (pc' & s2 & _ & E2). eapply IH. exact E2.
Qed.

End MainLoop.

Section Activation.
Context {H : Host}.

Lemma keeps_hostcall {X A} (f : State -> X) ev (m : M A) :
  (forall l s, f (set_hostLog l s) = f s) -> keeps f m -> keeps f (hostcall ev m).
Proof.
  intros Hf Hm s a s' E. unfold hostcall in E.
  destruct (m s) as [b s1| | | | |] eqn:E1; try discriminate.
  inversion E; subst. rewrite Hf. eapply Hm. exact E1.
Qed.

Lemma keeps_ostack_begincontext a b c d e f g : keeps ostack (Rf_begincontext a b c d e f g).
Proof. unfold Rf_begincontext. apply keeps_modify. reflexivity. Qed.

Lemma keeps_ostack_endcontext a : keeps ostack (Rf_endcontext a).
Proof.
  intros s x s'. unfold Rf_endcontext. destruct (chain_after a (R_GlobalContext s)); [|discriminate].
  intros E. inversion E; subst. reflexivity.
Qed.

Lemma keeps_ostack_current_context : keeps ostack current_context.
Proof.
  intros s x s'. unfold current_context. destruct (R_GlobalContext s); [discriminate|].
  intros E. inversion E; subst. reflexivity.
Qed.

Lemma keeps_ostack_codeAt fn i : keeps ostack (codeAt fn i).
Proof. unfold codeAt. keeps_tac. Qed.

Lemma ostack_length_inv s n s' : ostack_length s = Ok n s' -> s' = s /\ n = length (ostack s).
Proof. intros E. inversion E; subst. auto. Qed.

Lemma top_inv s v s' : ostack_top s = Ok v s' -> s' = s /\ exists o, ostack s = v :: o.
Proof.
  unfold ostack_top. destruct (ostack s) as [|x o]; [discriminate|].
  intros E. inversion E; subst. eauto.
Qed.

(** [createRirClosureContext] pushes the context store. *)
Lemma createRirClosureContext_ostack a b c d e s store_ s' :
  createRirClosureContext a b c d e s = Ok store_ s' -> ostack s' = store_ :: ostack s.
Proof.
  unfold createRirClosureContext. intros E.
  apply bind_Ok_inv in E as (st0 & s1 & E1 & E).
  apply bind_Ok_inv in E as (u1 & s2 & E2 & E).
  apply bind_Ok_inv in E as (g & s3 & E3 & E).
  apply bind_Ok_inv in E as (u2 & s4 & E4 & E).
  apply bind_Ok_inv in E as (n & s5 & E5 & E).
  apply bind_Ok_inv in E as (u3 & s6 & E6 & E).
  apply ret_inv in E as [<- <-].
  apply (keeps_alloc ostack _ (fun _ _ => eq_refl)) in E1.
  apply push_inv in E2. apply keeps_ostack_current_context in E3.
  assert (K4 : ostack s4 = ostack s3).
  { destruct (callflag g =? CTXT_GENERIC); eapply keeps_ostack_begincontext; exact E4. }
  apply ostack_length_inv in E5 as [-> _].
  assert (K6 : ostack s6 = ostack s4).
  { revert E6. apply (keeps_bind ostack); [apply keeps_deref|].
    intros r. apply keeps_store. intros ? ?; reflexivity. }
  rewrite K6, K4, E3, E2. cbn. rewrite E1. reflexivity.
Qed.

(** [endRirContext] pops one slot. *)
Lemma endRirContext_ostack v s u0 s' :
  endRirContext v s = Ok u0 s' -> exists x, ostack s = x :: ostack s'.
Proof.
  unfold endRirContext. intros E.
  apply bind_Ok_inv in E as (st0 & s1 & E1 & E).
  apply bind_Ok_inv in E as (u1 & s2 & E2 & E).
  apply bind_Ok_inv in E as (u2 & s3 & E3 & E).
  apply bind_Ok_inv in E as (x & s4 & E4 & E).
  apply ret_inv in E as [_ <-].
  apply top_inv in E1 as [-> _].
  assert (K2 : ostack s2 = ostack s).
  { revert E2. apply keeps_assertM. apply keeps_bind; [apply keeps_TYPEOF|]. intros; apply keeps_ret. }
  assert (K3 : ostack s3 = ostack s2).
  { destruct (negb (Nat.eqb v NULL)); eapply keeps_ostack_endcontext; exact E3. }
  apply pop_inv in E4 as [E4 _]. exists x. congruence.
Qed.

Lemma rirCallClosure_balanced fuel rec call_ast env callee actuals nargs s r s' :
  NDEBUG = false -> host_keeps_ostack ->
  rirCallClosure fuel rec call_ast env callee actuals nargs s = Ok r s' ->
  length (ostack s') = length (ostack s).
Proof.
  intros N (K1 & K2 & K3). unfold rirCallClosure. intros E.
  apply bind_Ok_inv in E as (newEnv & s1 & E1 & E).
  apply bind_Ok_inv in E as (u1 & s2 & E2 & E).
  apply bind_Ok_inv in E as (cntxt & s3 & E3 & E).
  apply bind_Ok_inv in E as (u2 & s4 & E4 & E).
  apply bind_Ok_inv in E as (body & s5 & E5 & E).
  apply bind_Ok_inv in E as (code & s6 & E6 & E).
  apply bind_Ok_inv in E as (size_before & s7 & E7 & E).
  apply bind_Ok_inv in E as (top_before & s8 & E8 & E).
  apply bind_Ok_inv in E as (result & s9 & E9 & E).
  apply bind_Ok_inv in E as (size_after & s10 & E10 & E).
  apply bind_Ok_inv in E as (top_after & s11 & E11 & E).
  apply bind_Ok_inv in E as (u3 & s12 & E12 & E).
  apply bind_Ok_inv in E as (u4 & s13 & E13 & E).
  apply bind_Ok_inv in E as (u5 & s14 & E14 & E).
  apply bind_Ok_inv in E as (x & s15 & E15 & E).
  apply ret_inv in E as [_ <-].
  apply (keeps_hostcall ostack _ _ (fun _ _ => eq_refl) (K1 _ _ _ _ _)) in E1.
  apply push_inv in E2.
  apply createRirClosureContext_ostack in E3.
  apply K2 in E4.
  apply (keeps_CDR ostack) in E5.
  apply keeps_ostack_codeAt in E6.
  apply ostack_length_inv in E7 as [-> ->].
  apply top_inv in E8 as [-> _].
  apply ostack_length_inv in E10 as [-> ->].
  apply top_inv in E11 as [-> _].
  unfold assert in E12. rewrite N in E12.
  destruct (Nat.eqb top_before top_after && Nat.eqb (length (ostack s6)) (length (ostack s9))) eqn:G;
    [|discriminate].
  injection E12 as E12.
  apply andb_prop in G as [_ G]. apply Nat.eqb_eq in G.
  apply K3 in E13.
  apply endRirContext_ostack in E14 as [y E14].
  apply pop_inv in E15 as [E15 _].
  subst s12 s2.
  assert (L : length (ostack s6) = S (S (length (ostack s)))).
  { rewrite E6, E5, E4, E3. cbn. rewrite E1. reflexivity. }
  assert (L' : length (ostack s9) = S (S (length (ostack s15)))).
  { rewrite <- E13, E14, E15. reflexivity. }
  lia.
Qed.

(** The checks at the entry of [evalRirCode] read the state only. *)
Lemma entry_checks_pure env s u0 s' :
  (when (Nat.eqb env NULL) (error "'rho' cannot be C NULL: detected in C-level eval") ;;
   ise <- isEnvironment env ;;
   when (negb ise) (t <- TYPEOF env ;; error (rho_not_env_msg t))) s = Ok u0 s' -> s' = s.
Proof.
  intros E.
  apply bind_Ok_inv in E as (u1 & s1 & E1 & E).
  apply bind_Ok_inv in E as (ise & s2 & E2 & E).
  assert (s1 = s) as ->.
  { destruct (Nat.eqb env NULL); [discriminate|]. apply ret_inv in E1 as [_ <-]. reflexivity. }
  unfold isEnvironment in E2. apply bind_Ok_inv in E2 as (t & s3 & E2 & E3).
  apply TYPEOF_inv in E2 as [-> _]. apply ret_inv in E3 as [_ <-].
  destruct ise; cbn [negb when] in E.
  - apply ret_inv in E as [_ <-]. reflexivity.
  - apply bind_Ok_inv in E as (t' & s4 & _ & E). discriminate.
Qed.

Lemma getCode_inv p s c s' : getCode p s = Ok c s' -> s' = s.
Proof.
  unfold getCode. intros E. apply bind_Ok_inv in E as (r & s1 & E1 & E).
  apply deref_inv in E1 as (-> & _). destruct (u r); try discriminate.
  apply ret_inv in E as [_ <-]. reflexivity.
Qed.

(** C1 (amended): when [evalRirCode] completes normally, the loop it ran on
    the code handed to it has stopped at a [ret_] with the result on top of
    the value stack, and [evalRirCode] pops that slot and returns the value:
    the stack at completion is the stack at [ret_] without its top.  Around
    the activation of a closure the interpreter asserts that the stack is as
    long as before, so a closure call that completes leaves the stack length
    of its entry. *)
Theorem evalRirCode_pops_result fuel :
  (forall cp env numArgs st v st',
     evalRirCode (S fuel) cp env numArgs st = Ok v st' ->
     returns_popped_top fuel cp env numArgs st v st')
  /\ (forall rec call_ast rho callee actuals nargs s r s',
        NDEBUG = false -> host_keeps_ostack ->
        rirCallClosure fuel rec call_ast rho callee actuals nargs s = Ok r s' ->
        length (ostack s') = length (ostack s)).
Proof.
  split.
  - intros cp env numArgs st v st' E.
    cbn [evalRirCode] in E. unfold evalRirCode_body in E.
    assert (E0 : (((when (Nat.eqb env NULL)
                      (error "'rho' cannot be C NULL: detected in C-level eval") ;;
                    ise <- isEnvironment env ;;
                    when (negb ise) (t <- TYPEOF env ;; error (rho_not_env_msg t))) ;;
                   R_CheckStack ;;
                   c <- getCode cp ;;
                   ostack_ensureSize (stackLength c + 5) ;;
                   modify (set_R_Visible true) ;;
                   eval_loop fuel (evalRirCode fuel) (S fuel) c env numArgs [] 0 ;;
                   ostack_pop) st) = Ok v st').
    { rewrite <- E. unfold bind.
      destruct (when (Nat.eqb env NULL) _ st) as [? ?| | | | |]; try reflexivity.
      destruct (isEnvironment env s) as [? ?| | | | |]; reflexivity. }
    clear E. apply bind_Ok_inv in E0 as (u1 & s1 & Ech & E).
    apply entry_checks_pure in Ech as ->.
    apply bind_Ok_inv in E as ([] & s4 & Ek & E).
    apply bind_Ok_inv in E as (c & s5 & Ec & E).
    pose proof (getCode_inv _ _ _ _ Ec) as ->.
    apply bind_Ok_inv in E as (u4 & s6 & E6 & E). apply ret_inv in E6 as [_ <-].
    apply bind_Ok_inv in E as (u5 & s7 & E7 & E). injection E7 as _ <-.
    apply bind_Ok_inv in E as ([] & s8 & EL & E).
    apply pop_inv in E as [E1 E2].
    destruct (eval_loop_stops_at_ret _ _ _ _ _ _ _ _ _ _ EL) as (pc_ret & R & St).
    exists c, s4, s8, pc_ret.
    split; [exact Ek|]. split; [exact Ec|]. split; [exact EL|]. split; [exact R|].
    split; [exact St|]. split; [exact E1|]. split; [exact E2|]. rewrite E1. reflexivity.
  - intros rec call_ast rho callee actuals nargs s r s'. apply rirCallClosure_balanced.
Qed.

End Activation.

(** C1 (as stated) fails: entered with one slot on the stack, code that
    pushes a constant and returns completes with one slot, not two. *)
Lemma evalRirCode_leaves_entry_length :
  run_entry = Ok R_TrueValue state_program_1
  /\ length (ostack (state_of run_entry state_program_1)) = length (ostack state_program_1).
Proof. split; vm_compute; reflexivity. Qed.

Lemma refHost_keeps_ostack : host_keeps_ostack (H := refHost).
Proof.
  split; [|split].
  - intros a b c d e s x s' E. injection E as _ <-. reflexivity.
  - intros a b c d s x s' E. injection E as _ <-. reflexivity.
  - intros a b c s x s' E. injection E as _ <-. reflexivity.
Qed.

Lemma evalRirCode_pops_result_witness :
  returns_popped_top (H := refHost) 2 (2 + first_free)%nat the_env 0
    state_program_1 R_TrueValue state_program_1
  /\ length (ostack (state_of run_closure state_program_1)) = length (ostack state_program_1).
Proof.
  split.
  - refine (proj1 (evalRirCode_pops_result (H := refHost) 2) (2 + first_free)%nat the_env 0
              state_program_1 R_TrueValue state_program_1 _).
    vm_compute. reflexivity.
  - refine (proj2 (evalRirCode_pops_result (H := refHost) 3) (evalRirCode (H := refHost) 3)
              R_NilValue the_env the_closure R_NilValue 0 state_program_1
              (result_of run_closure NULL) (state_of run_closure state_program_1)
              eq_refl refHost_keeps_ostack _).
    vm_compute. reflexivity.
Defined.

(** ** The placeholders of complex assignment *)
Section Frames.
Context {H : Host}.

Lemma stable_refl xs s : stable_except xs s s.
Proof. intros y r L. exists r. auto. Qed.

Lemma stable_trans xs s1 s2 s3 :
  stable_except xs s1 s2 -> stable_except xs s2 s3 -> stable_except xs s1 s3.
Proof.
  intros A B y r L. destruct (A y r L) as (r2 & L2 & T2 & U2).
  destruct (B y r2 L2) as (r3 & L3 & T3 & U3). exists r3. split; [exact L3|].
  split; [congruence|]. intros N. rewrite (U2 N). apply U3, N.
Qed.

Lemma stable_weaken xs ys s s' :
  (forall y, y ∈ xs -> y ∈ ys) -> stable_except xs s s' -> stable_except ys s s'.
Proof.
  intros I A y r L. destruct (A y r L) as (r' & L' & T & U). exists r'.
  split; [exact L'|]. split; [exact T|]. intros N. apply U. intros M. apply N, I, M.
Qed.

Lemma stable_nil xs s s' : stable_except [] s s' -> stable_except xs s s'.
Proof. apply stable_weaken. intros y M. inversion M. Qed.

Lemma stable_same_heap xs s s' : heap s' = heap s -> stable_except xs s s'.
Proof. intros E y r L. exists r. rewrite E. auto. Qed.

Lemma alloc_inv r s x s' :
  alloc r s = Ok x s' -> x = length (heap s) /\ s' = set_heap (heap s ++ [r]) s.
Proof. intros E. inversion E; subst. auto. Qed.

Lemma store_inv x r s u0 s' :
  store x r s = Ok u0 s' ->
  x <> NULL /\ (exists r0, heap s !! x = Some r0) /\ s' = set_heap (<[x := r]> (heap s)) s.
Proof.
  unfold store. destruct (Nat.eqb_spec x NULL); [discriminate|].
  destruct (heap s !! x) eqn:L; [|discriminate].
  intros E. inversion E; subst. eauto.
Qed.

Lemma stable_alloc xs r s x s' : alloc r s = Ok x s' -> stable_except xs s s'.
Proof.
  intros E. apply alloc_inv in E as [_ ->]. intros y r0 L. exists r0.
  split; [|auto]. cbn. apply lookup_app_l_Some. exact L.
Qed.

Lemma alloc_lookup r s x s' : alloc r s = Ok x s' -> heap s' !! x = Some r.
Proof.
  intros E. apply alloc_inv in E as [-> ->]. cbn.
  rewrite lookup_app_r by lia. rewrite Nat.sub_diag. reflexivity.
Qed.

(** An update that keeps type and payload of the object. *)
Lemma stable_update xs x (f : sexprec -> sexprec) s u0 s' :
  (forall r, sx_type (sxpinfo r) = sx_type (sxpinfo (f r)) /\ u r = u (f r)) ->
  (r <- deref x ;; store x (f r)) s = Ok u0 s' -> stable_except xs s s'.
Proof.
  intros Hf E. apply bind_Ok_inv in E as (r & s1 & E1 & E2).
  apply deref_inv in E1 as (-> & Hn & Hl).
  apply store_inv in E2 as (_ & _ & ->).
  intros y r0 L. cbn. destruct (Nat.eq_dec x y) as [<-|Ne].
  - exists (f r). split.
    + apply list_lookup_insert_eq. eapply lookup_lt_Some. exact Hl.
    + rewrite Hl in L. injection L as <-. destruct (Hf r). auto.
  - exists r0. split; [|auto]. rewrite list_lookup_insert_ne by exact Ne. exact L.
Qed.

Lemma stable_SET_NAMED xs x n s u0 s' : SET_NAMED x n s = Ok u0 s' -> stable_except xs s s'.
Proof. apply stable_update. intros r. split; reflexivity. Qed.

Lemma stable_INCREMENT_NAMED xs x s u0 s' :
  INCREMENT_NAMED x s = Ok u0 s' -> stable_except xs s s'.
Proof.
  unfold INCREMENT_NAMED. intros E. apply bind_Ok_inv in E as (n & s1 & E1 & E).
  assert (s1 = s) as ->.
  { unfold NAMED in E1. apply bind_Ok_inv in E1 as (r & s2 & E1 & E2).
    apply deref_inv in E1 as (-> & _). apply ret_inv in E2 as [_ <-]. reflexivity. }
  destruct (negb (n =? NAMEDMAX)); cbn [when] in E.
  - eapply stable_SET_NAMED. exact E.
  - apply ret_inv in E as [_ <-]. apply stable_refl.
Qed.

(** A write to one pointer slot of [x]. *)
Lemma slot_write_inv x (g : SEXP * SEXP * SEXP -> udata) s u0 s' :
  (r <- deref x ;; p <- slots x ;; store x (with_u (g p) r)) s = Ok u0 s' ->
  exists r p,
    x <> NULL /\ heap s !! x = Some r /\ cell_of s x = Some p
    /\ heap s' !! x = Some (with_u (g p) r)
    /\ stable_except [x] s s'.
Proof.
  intros E. apply bind_Ok_inv in E as (r & s1 & E1 & E).
  apply deref_inv in E1 as (-> & Hn & Hl).
  apply bind_Ok_inv in E as (p & s2 & E2 & E).
  unfold slots in E2. apply bind_Ok_inv in E2 as (r2 & s3 & E2 & E3).
  apply deref_inv in E2 as (-> & _ & Hl2). rewrite Hl in Hl2. injection Hl2 as <-.
  assert (Hc : cell_of s x = Some p /\ s2 = s).
  { unfold cell_of. rewrite Hl. destruct (u r); try discriminate.
    apply ret_inv in E3 as [<- <-]. auto. }
  destruct Hc as [Hc ->].
  apply store_inv in E as (_ & _ & ->).
  exists r, p. split; [exact Hn|]. split; [exact Hl|]. split; [exact Hc|]. split.
  - cbn. apply list_lookup_insert_eq. eapply lookup_lt_Some. exact Hl.
  - intros y r0 L. cbn. destruct (Nat.eq_dec x y) as [<-|Ne].
    + exists (with_u (g p) r). split.
      * apply list_lookup_insert_eq. eapply lookup_lt_Some. exact Hl.
      * rewrite Hl in L. injection L as <-. split; [reflexivity|].
        intros N. exfalso. apply N. left.
    + exists r0. split; [|auto]. rewrite list_lookup_insert_ne by exact Ne. exact L.
Qed.

Lemma SETCAR_inv x v s u0 s' :
  SETCAR x v s = Ok u0 s' ->
  exists a d t, x <> NULL /\ cell_of s x = Some (a, d, t) /\ cell_of s' x = Some (v, d, t)
                /\ stable_except [x] s s'.
Proof.
  intros E. apply slot_write_inv in E as (r & [[a d] t] & Hn & Hl & Hc & Hl' & St).
  exists a, d, t. split; [exact Hn|]. split; [exact Hc|]. split; [|exact St].
  unfold cell_of. rewrite Hl'. reflexivity.
Qed.

Lemma SETCDR_inv x v s u0 s' :
  SETCDR x v s = Ok u0 s' ->
  exists a d t, x <> NULL /\ cell_of s x = Some (a, d, t) /\ cell_of s' x = Some (a, v, t)
                /\ stable_except [x] s s'.
Proof.
  intros E. apply slot_write_inv in E as (r & [[a d] t] & Hn & Hl & Hc & Hl' & St).
  exists a, d, t. split; [exact Hn|]. split; [exact Hc|]. split; [|exact St].
  unfold cell_of. rewrite Hl'. reflexivity.
Qed.

Lemma SET_TAG_inv x v s u0 s' :
  SET_TAG x v s = Ok u0 s' ->
  exists a d t, x <> NULL /\ cell_of s x = Some (a, d, t) /\ cell_of s' x = Some (a, d, v)
                /\ stable_except [x] s s'.
Proof.
  intros E. apply slot_write_inv in E as (r & [[a d] t] & Hn & Hl & Hc & Hl' & St).
  exists a, d, t. split; [exact Hn|]. split; [exact Hc|]. split; [|exact St].
  unfold cell_of. rewrite Hl'. reflexivity.
Qed.

(** What stability gives for cells and types. *)
Lemma stable_cell xs s s' y p :
  stable_except xs s s' -> y ∉ xs -> cell_of s y = Some p -> cell_of s' y = Some p.
Proof.
  intros St N C. unfold cell_of in *. destruct (heap s !! y) as [r|] eqn:L; [|discriminate].
  destruct (St y r L) as (r' & L' & _ & U). rewrite L', <- (U N). exact C.
Qed.

Lemma stable_type xs s s' y t :
  stable_except xs s s' -> has_type s y t -> has_type s' y t.
Proof.
  intros St [Hn (r & L & T)]. destruct (St y r L) as (r' & L' & T' & _).
  split; [exact Hn|]. exists r'. split; [exact L'|]. congruence.
Qed.

Lemma cell_valid s y p : cell_of s y = Some p -> (y < length (heap s))%nat.
Proof.
  unfold cell_of. destruct (heap s !! y) eqn:L; [|discriminate].
  intros _. eapply lookup_lt_Some. exact L.
Qed.

Lemma stable_length xs s s' : stable_except xs s s' -> (length (heap s) <= length (heap s'))%nat.
Proof.
  intros St. destruct (heap s) as [|r0 h] eqn:E using rev_ind; [cbn; lia|].
  clear IHh. destruct (St (length h) r0) as (r' & L' & _).
  - rewrite E. apply list_lookup_middle. reflexivity.
  - apply lookup_lt_Some in L'. rewrite length_app. cbn. lia.
Qed.

Lemma has_type_valid s y t : has_type s y t -> (y < length (heap s))%nat.
Proof. intros [_ (r & L & _)]. eapply lookup_lt_Some. exact L. Qed.

(** [quote_if_ast] allocates at most the two cells of the wrapper. *)
Lemma quote_if_ast_inv x s x' s' :
  quote_if_ast x s = Ok x' s' ->
  stable_except [] s s' /\ quoted (length (heap s)) s' x x'.
Proof.
  unfold quote_if_ast. intros E. apply bind_Ok_inv in E as (t & s1 & E1 & E).
  apply TYPEOF_inv in E1 as [-> T].
  destruct ((t =? LANGSXP) || (t =? SYMSXP)) eqn:B.
  - apply bind_Ok_inv in E as (d & s2 & E2 & E3).
    pose proof (stable_alloc [] _ _ _ _ E2) as St2.
    pose proof (stable_alloc [] _ _ _ _ E3) as St3.
    pose proof (alloc_lookup _ _ _ _ E2) as L2.
    pose proof (alloc_lookup _ _ _ _ E3) as L3.
    pose proof (alloc_inv _ _ _ _ E2) as [Hd Hs2].
    pose proof (alloc_inv _ _ _ _ E3) as [Hx' Hs3].
    assert (Hlen : length (heap s2) = S (length (heap s))).
    { subst s2. cbn. rewrite length_app. cbn. lia. }
    split; [eapply stable_trans; eassumption|].
    exists t. split; [eapply stable_type; [|exact T]; eapply stable_trans; eassumption|].
    right. split; [lia|]. split; [|split; [lia|]].
    + split; [|eexists; split; [exact L3|reflexivity]]. unfold NULL. lia.
    + exists d. split; [lia|]. split; [unfold cell_of; unfold SEXP in *; rewrite L3; reflexivity|].
      eapply (stable_cell []); [exact St3|inversion 1|].
      unfold cell_of. unfold SEXP in *. rewrite L2. reflexivity.
  - apply ret_inv in E as [<- <-]. split; [apply stable_refl|].
    exists t. split; [exact T|]. left. lia.
Qed.

Lemma quoted_stable xs b s s' x x' :
  stable_except xs s s' -> (forall y, y ∈ xs -> (y < b)%nat) ->
  quoted b s x x' -> quoted b s' x x'.
Proof.
  intros St Hb (t & T & Q). exists t. split; [eapply stable_type; eassumption|].
  destruct Q as [Q|(Q1 & Q2 & Q3 & d & Q4 & Q5 & Q6)]; [left; exact Q|right].
  split; [exact Q1|]. split; [eapply stable_type; eassumption|]. split; [exact Q3|].
  exists d. split; [exact Q4|].
  split; (eapply stable_cell; [exact St| |eassumption]); intros M; apply Hb in M; lia.
Qed.

Lemma quoted_mono b b' s x x' : (b' <= b)%nat -> quoted b s x x' -> quoted b' s x x'.
Proof.
  intros Hb (t & T & Q). exists t. split; [exact T|].
  destruct Q as [Q|(Q1 & Q2 & Q3 & d & Q4 & Q5 & Q6)]; [left; exact Q|right].
  split; [exact Q1|]. split; [exact Q2|]. split; [lia|]. exists d. split; [lia|]. auto.
Qed.

Lemma quoted_type b s x x' : quoted b s x x' -> exists t, has_type s x' t.
Proof.
  intros (t & T & [(_ & _ & ->)|(_ & T' & _)]); eauto.
Qed.

(** An allocation followed by writes to the new object leaves the old ones alone. *)
Lemma stable_fresh xs v s s1 s' :
  stable_except xs s s1 -> stable_except [v] s1 s' -> (length (heap s) <= v)%nat ->
  stable_except xs s s'.
Proof.
  intros A B Hv y r L. destruct (A y r L) as (r1 & L1 & T1 & U1).
  destruct (B y r1 L1) as (r' & L' & T' & U'). exists r'. split; [exact L'|].
  split; [congruence|]. intros N. rewrite (U1 N). apply U'.
  intros M. apply list_elem_of_singleton in M. apply lookup_lt_Some in L. lia.
Qed.

Lemma chain_valid s a l y : chain s a l -> y ∈ l -> exists p, cell_of s y = Some p.
Proof.
  induction 1 as [x a0 t Hn Hc|x a0 d t l Hn Hc Hd Hch IH]; intros M.
  - apply list_elem_of_singleton in M as ->. eauto.
  - apply elem_of_cons in M as [->|M]; eauto.
Qed.

(** A change of the [CAR] of one cell does not change the spine of a list. *)
Lemma chain_stable s s' x v d0 t0 a l :
  stable_except [x] s s' -> cell_of s x = Some (v, d0, t0) ->
  (exists v', cell_of s' x = Some (v', d0, t0)) ->
  chain s a l -> chain s' a l.
Proof.
  intros St Cx (v' & Cx'). induction 1 as [y a0 t Hn Hc|y a0 d t l Hn Hc Hd Hch IH].
  - destruct (Nat.eq_dec y x) as [->|Ne].
    + rewrite Cx in Hc. injection Hc as -> -> ->. eapply chain_last; eassumption.
    + eapply chain_last; [exact Hn|]. eapply stable_cell; [exact St| |exact Hc].
      intros M. apply list_elem_of_singleton in M. contradiction.
  - destruct (Nat.eq_dec y x) as [->|Ne].
    + rewrite Cx in Hc. injection Hc as -> -> ->. eapply chain_cons; eassumption.
    + eapply chain_cons; [exact Hn| |exact Hd|exact IH].
      eapply stable_cell; [exact St| |exact Hc].
      intros M. apply list_elem_of_singleton in M. contradiction.
Qed.

Lemma slots_Ok s x p : x <> NULL -> cell_of s x = Some p -> slots x s = Ok p s.
Proof.
  intros Hn C. unfold slots, cell_of in *.
  destruct (heap s !! x) as [r|] eqn:L; [|discriminate].
  rewrite (bind_Ok _ _ _ _ _ (deref_Ok _ _ _ Hn L)).
  destruct (u r); try discriminate. injection C as <-. reflexivity.
Qed.

Lemma CDR_Ok s x a d t : x <> NULL -> cell_of s x = Some (a, d, t) -> CDR x s = Ok d s.
Proof. intros Hn C. unfold CDR. rewrite (bind_Ok _ _ _ _ _ (slots_Ok _ _ _ Hn C)). reflexivity. Qed.

Lemma CAR_Ok s x a d t : x <> NULL -> cell_of s x = Some (a, d, t) -> CAR x s = Ok a s.
Proof. intros Hn C. unfold CAR. rewrite (bind_Ok _ _ _ _ _ (slots_Ok _ _ _ Hn C)). reflexivity. Qed.

Lemma last_default {A} (l : list A) c d d' : List.last (c :: l) d = List.last (c :: l) d'.
Proof. revert c. induction l as [|c' l IH]; intros c; [reflexivity|]. apply (IH c'). Qed.

(** The walk to the last cell of a list. *)
Lemma last_cell_chain s a l :
  chain s a l -> forall n prev, (length l <= S n)%nat ->
  last_cell n prev a s = Ok (penultimate prev l, List.last l a) s.
Proof.
  induction 1 as [x a0 t Hn Hc|x a0 d t l Hn Hc Hd Hch IH]; intros n prev Hlen.
  - destruct n; cbn [last_cell]; rewrite (bind_Ok _ _ _ _ _ (CDR_Ok _ _ _ _ _ Hn Hc));
      reflexivity.
  - destruct l as [|c l]; [inversion Hch|].
    cbn [length] in Hlen. destruct n as [|n]; [lia|].
    cbn [last_cell]. rewrite (bind_Ok _ _ _ _ _ (CDR_Ok _ _ _ _ _ Hn Hc)).
    destruct (Nat.eqb_spec d R_NilValue); [contradiction|].
    rewrite IH by (cbn [length]; lia). f_equal. f_equal.
    change (List.last (x :: c :: l) x) with (List.last (c :: l) x). apply last_default.
Qed.

Lemma penultimate_in prev l : penultimate prev l = prev \/ penultimate prev l ∈ l.
Proof.
  revert prev. induction l as [|c l IH]; intros prev; [left; reflexivity|].
  destruct l as [|c' l]; [left; reflexivity|]. right.
  change (penultimate prev (c :: c' :: l)) with (penultimate c (c' :: l)).
  destruct (IH c) as [->|M]; [left|right; exact M].
Qed.

End Frames.

Section KeepsMore.
Context {H : Host} {X : Type} (f : State -> X) (Hf : off_heap f).

Lemma keeps_ostack_at i : keeps f (ostack_at i).
Proof. intros s a s'. unfold ostack_at. destruct (ostack s !! i); [|discriminate]. intros [= _ <-]. reflexivity. Qed.

Lemma keeps_ostack_top : keeps f ostack_top.
Proof. intros s a s'. unfold ostack_top. destruct (ostack s); [discriminate|]. intros [= _ <-]. reflexivity. Qed.

Lemma keeps_isValidCodeObject x : keeps f (isValidCodeObject x).
Proof. intros s a s'. unfold isValidCodeObject. destruct (heap s !! x); intros [= _ <-]; reflexivity. Qed.

Lemma keeps_isValidFunctionSEXP x : keeps f (isValidFunctionSEXP x).
Proof. intros s a s'. unfold isValidFunctionSEXP. destruct (heap s !! x); intros [= _ <-]; reflexivity. Qed.

Lemma keeps_src_pool_at i : keeps f (src_pool_at i).
Proof. intros s a s'. unfold src_pool_at. destruct (src_pool s !! i); [|discriminate]. intros [= _ <-]. reflexivity. Qed.

Lemma keeps_getCode x : keeps f (getCode x).
Proof. unfold getCode. keeps_tac. Qed.

Lemma keeps_codeAt x i : keeps f (codeAt x i).
Proof. unfold codeAt. keeps_tac. Qed.

Lemma keeps_rirExpr x : keeps f (rirExpr x).
Proof.
  pose proof keeps_isValidCodeObject. pose proof keeps_isValidFunctionSEXP.
  pose proof keeps_getCode. pose proof keeps_src_pool_at. pose proof keeps_codeAt.
  unfold rirExpr, isValidFunctionObject, functionCode.
  keeps_tac; apply keeps_assertM; keeps_tac.
Qed.

Lemma keeps_escape x : keeps f (escape x).
Proof.
  pose proof keeps_isValidCodeObject. pose proof keeps_rirExpr.
  unfold escape. keeps_tac. apply keeps_assertM; keeps_tac.
Qed.

Lemma keeps_quote_if_ast x : keeps f (quote_if_ast x).
Proof. unfold quote_if_ast, CONS_NR, LCONS. keeps_tac. Qed.

Lemma keeps_INCREMENT_NAMED x : keeps f (INCREMENT_NAMED x).
Proof. unfold INCREMENT_NAMED, NAMED, SET_NAMED. keeps_tac. Qed.

Lemma keeps_last_cell n prev a : keeps f (last_cell n prev a).
Proof.
  revert prev a. induction n as [|n IH]; intros prev a; cbn [last_cell]; keeps_tac;
    try (apply keeps_fail; discriminate); try apply IH.
Qed.

End KeepsMore.

Section Placeholders.
Context {H : Host}.

Lemma escape_escaped x s v s' : escape x s = Ok v s' -> s' = s /\ escaped s x = Some v.
Proof.
  intros E. split; [exact (keeps_escape (fun s => s) x _ _ _ E)|].
  unfold escape in E. apply bind_Ok_inv in E as (isc & s1 & E1 & E).
  apply bind_Ok_inv in E as (v' & s2 & E2 & E).
  apply bind_Ok_inv in E as (u0 & s3 & _ & E). apply ret_inv in E as [-> _].
  unfold escaped. unfold isValidCodeObject in E1.
  destruct (heap s !! x) as [r|] eqn:L.
  - injection E1 as <- <-. destruct (u r) eqn:U; try (apply ret_inv in E2 as [-> _]; reflexivity).
    unfold rirExpr in E2. apply bind_Ok_inv in E2 as (isc & s4 & E1 & E2).
    unfold isValidCodeObject in E1. rewrite L, U in E1. injection E1 as <- <-.
    apply bind_Ok_inv in E2 as (c' & s5 & E1 & E2).
    unfold getCode in E1. apply bind_Ok_inv in E1 as (r' & s6 & E0 & E1).
    apply deref_inv in E0 as (-> & Hn & L'). rewrite L in L'. injection L' as <-.
    rewrite U in E1. apply ret_inv in E1 as [<- <-].
    destruct (Nat.eqb_spec x NULL); [contradiction|].
    unfold src_pool_at in E2. destruct (src_pool s !! csrc c); [|discriminate].
    injection E2 as ->. reflexivity.
  - injection E1 as <- <-. apply ret_inv in E2 as [-> _]. reflexivity.
Qed.

Lemma escaped_escape x s v t :
  escaped s x = Some v -> has_type s v t -> escape x s = Ok v s.
Proof.
  intros E T. unfold escape.
  assert (E2 : (isc <- isValidCodeObject x ;; if (isc : bool) then rirExpr x else ret x) s
               = Ok v s).
  { assert (Ei : isValidCodeObject x s
                 = Ok (match heap s !! x with
                       | Some r => match u r with u_code _ => true | _ => false end
                       | None => false
                       end) s).
    { unfold isValidCodeObject. destruct (heap s !! x); reflexivity. }
    rewrite (bind_Ok _ _ _ _ _ Ei). unfold escaped in E.
    destruct (heap s !! x) as [r|] eqn:L.
    - destruct (u r) eqn:U; try (injection E as <-; reflexivity).
      destruct (Nat.eqb_spec x NULL) as [|Hn]; [discriminate|].
      unfold rirExpr. rewrite (bind_Ok _ _ _ _ _ Ei).
      assert (Eg : getCode x s = Ok c s).
      { unfold getCode. rewrite (bind_Ok _ _ _ _ _ (deref_Ok _ _ _ Hn L)), U. reflexivity. }
      rewrite (bind_Ok _ _ _ _ _ Eg). unfold src_pool_at. rewrite E. reflexivity.
    - injection E as <-. reflexivity. }
  apply bind_Ok_inv in E2 as (isc & s1 & E1 & E2).
  rewrite (bind_Ok _ _ _ _ _ E1), (bind_Ok _ _ _ _ _ E2).
  unfold assertM. destruct NDEBUG eqn:ND; [reflexivity|].
  assert (Ea : (t0 <- TYPEOF v;; ret (negb ((if t0 =? 0 then 1 else 0) =? 31))) s
               = Ok true s).
  { rewrite (bind_Ok _ _ _ _ _ (TYPEOF_Ok _ _ _ T)). destruct (t =? 0); reflexivity. }
  erewrite bind_Ok; [reflexivity|].
  rewrite (bind_Ok _ _ _ _ _ Ea). apply assert_true. reflexivity.
Qed.


(** [escape] gives the same in a later heap. *)
Lemma escaped_stable xs s s' x v :
  stable_except xs s s' -> src_pool s' = src_pool s ->
  (forall y, y ∈ xs -> exists p p', cell_of s y = Some p /\ cell_of s' y = Some p') ->
  (x < length (heap s))%nat ->
  escaped s x = Some v -> escaped s' x = Some v.
Proof.
  intros St Sp Hxs Hv E. unfold escaped, SEXP in *.
  destruct (heap s !! x) as [r|] eqn:L.
  2:{ apply lookup_ge_None in L. lia. }
  destruct (St x r L) as (r' & L' & _ & U). unfold SEXP in *. rewrite L'.
  destruct (decide (x ∈ xs)) as [M|N].
  - destruct (Hxs x M) as (p & p' & C & C'). unfold cell_of in C, C'. unfold SEXP in *.
    rewrite L in C. rewrite L' in C'.
    destruct (u r); try discriminate. destruct (u r'); try discriminate. exact E.
  - rewrite <- (U N), Sp. exact E.
Qed.

Lemma slot_write_Ok x (g : SEXP * SEXP * SEXP -> udata) s p :
  x <> NULL -> cell_of s x = Some p ->
  exists s', (r <- deref x ;; p <- slots x ;; store x (with_u (g p) r)) s = Ok tt s'.
Proof.
  intros Hn C. pose proof (slots_Ok _ _ _ Hn C) as Es.
  unfold cell_of in C. destruct (heap s !! x) as [r|] eqn:L; [|discriminate].
  rewrite (bind_Ok _ _ _ _ _ (deref_Ok _ _ _ Hn L)), (bind_Ok _ _ _ _ _ Es).
  unfold store. destruct (Nat.eqb_spec x NULL); [contradiction|]. rewrite L. eauto.
Qed.

Lemma quote_if_ast_Ok x s t : has_type s x t -> exists x' s', quote_if_ast x s = Ok x' s'.
Proof.
  intros T. unfold quote_if_ast. rewrite (bind_Ok _ _ _ _ _ (TYPEOF_Ok _ _ _ T)).
  destruct ((t =? LANGSXP) || (t =? SYMSXP)); [|eauto]. unfold CONS_NR, LCONS, alloc.
  cbn [bind]. eauto.
Qed.

Lemma INCREMENT_NAMED_Ok x s t : has_type s x t -> exists s', INCREMENT_NAMED x s = Ok tt s'.
Proof.
  intros [Hn (r & L & _)]. unfold INCREMENT_NAMED.
  assert (En : NAMED x s = Ok (sx_named (sxpinfo r)) s).
  { unfold NAMED. rewrite (bind_Ok _ _ _ _ _ (deref_Ok _ _ _ Hn L)). reflexivity. }
  rewrite (bind_Ok _ _ _ _ _ En). destruct (negb _); cbn [when]; [|eauto].
  unfold SET_NAMED. rewrite (bind_Ok _ _ _ _ _ (deref_Ok _ _ _ Hn L)).
  unfold store. destruct (Nat.eqb_spec x NULL); [contradiction|]. rewrite L. eauto.
Qed.

End Placeholders.

Section Rewrite.
Context {H : Host}.
Variable fuel : nat.

Lemma assertM_Ok (mb : M bool) msg s :
  NDEBUG = true \/ mb s = Ok true s -> assertM mb msg s = Ok tt s.
Proof.
  intros D. unfold assertM. destruct NDEBUG eqn:ND; [reflexivity|].
  destruct D as [D|D]; [discriminate|]. rewrite (bind_Ok _ _ _ _ _ D).
  apply assert_true. reflexivity.
Qed.

Lemma is_placeholder_call_Ok callee call_ast st t ph :
  has_type st callee t -> CADR call_ast st = Ok ph st ->
  is_placeholder_call callee call_ast st
  = Ok (((t =? SPECIALSXP) || (t =? CLOSXP))
        && (Nat.eqb ph getterPlaceholderSym || Nat.eqb ph setterPlaceholderSym)) st.
Proof.
  intros T C. unfold is_placeholder_call, andM.
  assert (E : (t0 <- TYPEOF callee ;; ret ((t0 =? SPECIALSXP) || (t0 =? CLOSXP))) st
              = Ok ((t =? SPECIALSXP) || (t =? CLOSXP)) st).
  { rewrite (bind_Ok _ _ _ _ _ (TYPEOF_Ok _ _ _ T)). reflexivity. }
  rewrite (bind_Ok _ _ _ _ _ E). destruct ((t =? SPECIALSXP) || (t =? CLOSXP)); [|reflexivity].
  rewrite (bind_Ok _ _ _ _ _ C). reflexivity.
Qed.

(** The guard: a callee that is neither a special nor a closure gets the
    call as it is, whatever its first argument. *)
Lemma fill_placeholders_guard call_ast callee nargs st t :
  has_type st callee t -> t <> SPECIALSXP -> t <> CLOSXP ->
  fill_placeholders fuel call_ast callee nargs st = Ok call_ast st.
Proof.
  intros T N1 N2. unfold fill_placeholders.
  assert (E : is_placeholder_call callee call_ast st = Ok false st).
  { unfold is_placeholder_call, andM.
    assert (E : (t0 <- TYPEOF callee ;; ret ((t0 =? SPECIALSXP) || (t0 =? CLOSXP))) st
                = Ok false st).
    { rewrite (bind_Ok _ _ _ _ _ (TYPEOF_Ok _ _ _ T)).
      destruct (Z.eqb_spec t SPECIALSXP); [contradiction|].
      destruct (Z.eqb_spec t CLOSXP); [contradiction|]. reflexivity. }
    rewrite (bind_Ok _ _ _ _ _ E). reflexivity. }
  rewrite (bind_Ok _ _ _ _ _ E). reflexivity.
Qed.

Lemma fill_placeholders_plain call_ast callee nargs st t ph :
  has_type st callee t -> CADR call_ast st = Ok ph st ->
  ph <> getterPlaceholderSym -> ph <> setterPlaceholderSym ->
  fill_placeholders fuel call_ast callee nargs st = Ok call_ast st.
Proof.
  intros T C N1 N2. unfold fill_placeholders.
  rewrite (bind_Ok _ _ _ _ _ (is_placeholder_call_Ok _ _ _ _ _ T C)).
  destruct (Nat.eqb_spec ph getterPlaceholderSym); [contradiction|].
  destruct (Nat.eqb_spec ph setterPlaceholderSym); [contradiction|].
  rewrite andb_false_r. reflexivity.
Qed.


(** The target goes into the first argument cell [a]. *)
Lemma target_filled call' nargs s a x rest t1 n target0 target ty :
  a <> NULL -> cell_of s a = Some (x, rest, t1) ->
  nargs = S n -> ostack s !! n = Some target0 ->
  escape target0 s = Ok target s -> has_type s target ty ->
  forall f0 tg, call' <> NULL -> cell_of s call' = Some (f0, a, tg) ->
  exists target' s2,
    (forall B (k : SEXP -> M B),
       (a' <- CDR call' ;; target <- ostack_at_pred nargs ;; target <- escape target ;;
        target <- quote_if_ast target ;; SETCAR a' target ;; k a') s = k a s2)
    /\ quoted (length (heap s)) s2 target target'
    /\ cell_of s2 a = Some (target', rest, t1)
    /\ stable_except [a] s s2
    /\ (forall X (f : State -> X), off_heap f -> f s2 = f s).
Proof.
  intros Hna Ca -> Hst Ee Tt f0 tg Hnc Cc.
  destruct (quote_if_ast_Ok _ _ _ Tt) as (target' & sq & Eq).
  pose proof (quote_if_ast_inv _ _ _ _ Eq) as [Stq Q].
  pose proof (stable_cell _ _ _ _ _ Stq ltac:(inversion 1) Ca) as Caq.
  destruct (slot_write_Ok a (fun p => u_cons target' (snd (fst p)) (snd p)) sq _ Hna Caq)
    as (s2 & Es).
  change (SETCAR a target' sq = Ok tt s2) in Es.
  pose proof (SETCAR_inv _ _ _ _ _ Es) as (a1 & d1 & t1' & _ & Ca1 & Ca2 & St2).
  rewrite Caq in Ca1. injection Ca1 as <- <- <-.
  exists target', s2. split; [|split; [|split; [|split]]].
  - intros B k. rewrite (bind_Ok _ _ _ _ _ (CDR_Ok _ _ _ _ _ Hnc Cc)).
    assert (Eo : ostack_at_pred (S n) s = Ok target0 s).
    { cbn [ostack_at_pred]. unfold ostack_at. rewrite Hst. reflexivity. }
    rewrite (bind_Ok _ _ _ _ _ Eo), (bind_Ok _ _ _ _ _ Ee), (bind_Ok _ _ _ _ _ Eq),
      (bind_Ok _ _ _ _ _ Es). reflexivity.
  - eapply quoted_stable; [exact St2| |exact Q].
    intros y M. apply list_elem_of_singleton in M as ->. eapply cell_valid. exact Ca.
  - exact Ca2.
  - eapply stable_trans; [|exact St2]. apply stable_nil. exact Stq.
  - intros X f Hf. rewrite (keeps_SETCAR f Hf _ _ _ _ _ Es).
    apply (keeps_quote_if_ast f Hf _ _ _ _ Eq).
Qed.


Lemma chain_last_in s a l : chain s a l -> List.last l a ∈ l.
Proof.
  induction 1 as [x a0 t Hn Hc|x a0 d t l Hn Hc Hd Hch IH]; [left|].
  destruct l as [|c l]; [inversion Hch|]. right.
  change (List.last (x :: c :: l) x) with (List.last (c :: l) x).
  rewrite (last_default l c x d). exact IH.
Qed.

Lemma chain_nonnull s a l y : chain s a l -> y ∈ l -> y <> NULL.
Proof.
  induction 1 as [x a0 t Hn Hc|x a0 d t l Hn Hc Hd Hch IH]; intros M.
  - apply list_elem_of_singleton in M as ->. exact Hn.
  - apply elem_of_cons in M as [->|M]; auto.
Qed.

(** The value goes into a fresh last cell tagged [value]. *)
Lemma value_filled call' a cells s2 val0 stk val tv :
  call' <> NULL -> (exists p, cell_of s2 call' = Some p) ->
  chain s2 a cells -> (length cells <= S fuel)%nat ->
  (NDEBUG = true
   \/ exists tl, cell_of s2 (List.last cells a) = Some (setterPlaceholderSym, R_NilValue, tl)) ->
  ostack s2 = val0 :: stk -> escape val0 s2 = Ok val s2 -> has_type s2 val tv ->
  exists val' v xp dp tp st',
    (pa <- last_cell fuel call' a ;;
     assertM (x <- CAR (snd pa) ;; ret (Nat.eqb x setterPlaceholderSym))
             "CAR(a) == setterPlaceholderSym" ;;
     val <- ostack_top ;;
     val <- escape val ;;
     val <- quote_if_ast val ;;
     INCREMENT_NAMED val ;;
     v <- CONS_NR val R_NilValue ;;
     SET_TAG v R_valueSym ;;
     SETCDR (fst pa) v) s2 = Ok tt st'
    /\ quoted (length (heap s2)) st' val val'
    /\ (length (heap s2) <= v)%nat
    /\ cell_of st' v = Some (val', R_NilValue, R_valueSym)
    /\ cell_of s2 (penultimate call' cells) = Some (xp, dp, tp)
    /\ cell_of st' (penultimate call' cells) = Some (xp, v, tp)
    /\ stable_except [penultimate call' cells] s2 st'
    /\ (forall X (f : State -> X), off_heap f -> f st' = f s2).
Proof.
  intros Hnc Cc Ch Hlen Has Hst Ee Tv.
  set (prev := penultimate call' cells).
  assert (Hprev : prev <> NULL /\ exists p, cell_of s2 prev = Some p).
  { destruct (penultimate_in call' cells) as [E|M].
    - fold prev in E. rewrite E. eauto.
    - fold prev in M. split; [eapply chain_nonnull; eassumption|eapply chain_valid; eassumption]. }
  destruct Hprev as [Hnp ([[xp dp] tp] & Cp)].
  pose proof (last_cell_chain _ _ _ Ch fuel call' Hlen) as El. fold prev in El.
  assert (Ea : assertM (x <- CAR (List.last cells a) ;; ret (Nat.eqb x setterPlaceholderSym))
                 "CAR(a) == setterPlaceholderSym" s2 = Ok tt s2).
  { apply assertM_Ok. destruct Has as [ND|(tl & Cl)]; [left; exact ND|right].
    assert (Hnl : List.last cells a <> NULL).
    { eapply chain_nonnull; [exact Ch|]. eapply chain_last_in. exact Ch. }
    rewrite (bind_Ok _ _ _ _ _ (CAR_Ok _ _ _ _ _ Hnl Cl)). reflexivity. }
  assert (Et : ostack_top s2 = Ok val0 s2) by (unfold ostack_top; rewrite Hst; reflexivity).
  destruct (quote_if_ast_Ok _ _ _ Tv) as (val' & s3 & Eq).
  pose proof (quote_if_ast_inv _ _ _ _ Eq) as [St3 Q].
  destruct (quoted_type _ _ _ _ Q) as (tv' & Tv').
  destruct (INCREMENT_NAMED_Ok _ _ _ Tv') as (s4 & Ei).
  pose proof (stable_INCREMENT_NAMED [] _ _ _ _ Ei) as St4.
  destruct (CONS_NR val' R_NilValue s4) as [v s5| | | | |] eqn:Ec; try discriminate.
  pose proof (stable_alloc [] _ _ _ _ Ec) as St5.
  pose proof (alloc_lookup _ _ _ _ Ec) as L5.
  pose proof (alloc_inv _ _ _ _ Ec) as [Hv _].
  assert (Hlen2 : (length (heap s2) <= v)%nat).
  { rewrite Hv. etransitivity; [eapply stable_length; exact St3|].
    eapply stable_length; exact St4. }
  assert (Hnv : v <> NULL).
  { destruct Cc as (p & Cc). apply cell_valid in Cc. unfold NULL. lia. }
  assert (Cv5 : cell_of s5 v = Some (val', R_NilValue, R_NilValue)).
  { unfold cell_of. unfold SEXP in *. rewrite L5. reflexivity. }
  destruct (slot_write_Ok v (fun p => u_cons (fst (fst p)) (snd (fst p)) R_valueSym) s5 _ Hnv Cv5)
    as (s6 & Eg).
  change (SET_TAG v R_valueSym s5 = Ok tt s6) in Eg.
  pose proof (SET_TAG_inv _ _ _ _ _ Eg) as (a6 & d6 & t6 & _ & C6 & C6' & St6).
  rewrite Cv5 in C6. injection C6 as <- <- <-.
  assert (St26 : stable_except [] s2 s6).
  { eapply stable_trans; [exact St3|]. eapply stable_trans; [exact St4|].
    eapply stable_fresh; [exact St5|exact St6|]. rewrite Hv. lia. }
  pose proof (stable_cell _ _ _ _ _ St26 ltac:(inversion 1) Cp) as Cp6.
  destruct (slot_write_Ok prev (fun p => u_cons (fst (fst p)) v (snd p)) s6 _ Hnp Cp6)
    as (st' & Ed).
  change (SETCDR prev v s6 = Ok tt st') in Ed.
  pose proof (SETCDR_inv _ _ _ _ _ Ed) as (a7 & d7 & t7 & _ & C7 & C7' & St7).
  rewrite Cp6 in C7. injection C7 as <- <- <-.
  assert (Hpv : (prev < length (heap s2))%nat) by (eapply cell_valid; exact Cp).
  exists val', v, xp, dp, tp, st'. split; [|split; [|split; [|split; [|split; [|split; [|split]]]]]].
  - rewrite (bind_Ok _ _ _ _ _ El). cbn [fst snd].
    rewrite (bind_Ok _ _ _ _ _ Ea), (bind_Ok _ _ _ _ _ Et), (bind_Ok _ _ _ _ _ Ee),
      (bind_Ok _ _ _ _ _ Eq), (bind_Ok _ _ _ _ _ Ei), (bind_Ok _ _ _ _ _ Ec),
      (bind_Ok _ _ _ _ _ Eg). exact Ed.
  - eapply quoted_stable; [exact St7| |].
    { intros y M. apply list_elem_of_singleton in M as ->. exact Hpv. }
    eapply quoted_stable; [eapply stable_fresh; [exact St5|exact St6|rewrite Hv; lia]| |].
    { intros y M. inversion M. }
    eapply quoted_stable; [exact St4| |exact Q]. intros y M. inversion M.
  - exact Hlen2.
  - eapply stable_cell; [exact St7| |exact C6'].
    intros M. apply list_elem_of_singleton in M. lia.
  - exact Cp.
  - exact C7'.
  - eapply stable_trans; [apply stable_nil; exact St26|exact St7].
  - intros X f Hf. rewrite (keeps_SETCDR f Hf _ _ _ _ _ Ed), (keeps_SET_TAG f Hf _ _ _ _ _ Eg),
      (keeps_alloc f _ Hf _ _ _ Ec), (keeps_INCREMENT_NAMED f Hf _ _ _ _ Ei).
    apply (keeps_quote_if_ast f Hf _ _ _ _ Eq).
Qed.


Lemma escaped_valid s x v t : escaped s x = Some v -> has_type s v t -> (x < length (heap s))%nat.
Proof.
  unfold escaped. intros E T. destruct (heap s !! x) eqn:L.
  - eapply lookup_lt_Some. exact L.
  - injection E as ->. eapply has_type_valid. exact T.
Qed.

(** C7 (amended): the head of [doCallStack] rewrites the call AST only when
    the callee is a special or a closure and the first argument of the AST
    is the getter or the setter placeholder; for any other callee, and for
    any other first argument, the AST is passed on as it is and nothing is
    duplicated.  When it rewrites, it works on the shallow duplicate the
    host returns: the first argument cell of the duplicate gets the target,
    which is the entry [nargs - 1] of the value stack (the first stacked
    argument) after [escape]; for a setter the value is the top of the
    stack after [escape], it goes into a fresh cell tagged [value] that
    becomes the [CDR] of the cell before the last one of the duplicate
    (of the duplicate itself when it has one argument cell).  A target or value that is
    a language object or a symbol is wrapped as [quote(x)] in two fresh
    cells.  Nothing but the heap changes, and in the heap only the first
    argument cell and the cell before the last of the duplicate. *)
Theorem placeholders_filled call_ast callee nargs st t :
  has_type st callee t ->
  (t <> SPECIALSXP -> t <> CLOSXP ->
   fill_placeholders fuel call_ast callee nargs st = Ok call_ast st)
  /\ (forall ph, CADR call_ast st = Ok ph st ->
       ph <> getterPlaceholderSym -> ph <> setterPlaceholderSym ->
       fill_placeholders fuel call_ast callee nargs st = Ok call_ast st)
  /\ (forall ph call' s1 f0 a tg x rest t1 n target0 target ty,
       let s := after_duplicate call_ast st s1 in
       t = SPECIALSXP \/ t = CLOSXP ->
       CADR call_ast st = Ok ph st ->
       Rf_shallow_duplicate call_ast st = Ok call' s1 ->
       call' <> NULL -> cell_of s call' = Some (f0, a, tg) ->
       a <> NULL -> cell_of s a = Some (x, rest, t1) ->
       nargs = S n -> ostack s !! n = Some target0 ->
       escape target0 s = Ok target s -> has_type s target ty ->
       (ph = getterPlaceholderSym ->
        exists target' st',
          fill_placeholders fuel call_ast callee nargs st = Ok call' st'
          /\ quoted (length (heap s)) st' target target'
          /\ cell_of st' a = Some (target', rest, t1)
          /\ stable_except [a] s st'
          /\ (forall X (f : State -> X), off_heap f -> f st' = f s))
       /\ (ph = setterPlaceholderSym ->
           forall cells val0 stk val tv,
           chain s a cells -> (length cells <= S fuel)%nat ->
           (NDEBUG = true
            \/ (List.last cells a <> a
                /\ exists tl, cell_of s (List.last cells a)
                              = Some (setterPlaceholderSym, R_NilValue, tl))) ->
           ostack s = val0 :: stk -> escape val0 s = Ok val s -> has_type s val tv ->
           exists target' val' v rest' xp tp st',
             fill_placeholders fuel call_ast callee nargs st = Ok call' st'
             /\ quoted (length (heap s)) st' target target'
             /\ cell_of st' a = Some (target', rest', t1)
             /\ quoted (length (heap s)) st' val val'
             /\ (length (heap s) <= v)%nat
             /\ cell_of st' v = Some (val', R_NilValue, R_valueSym)
             /\ cell_of st' (penultimate call' cells) = Some (xp, v, tp)
             /\ stable_except [a; penultimate call' cells] s st'
             /\ (forall X (f : State -> X), off_heap f -> f st' = f s))).
Proof.
  intros T. split; [apply fill_placeholders_guard; exact T|].
  split; [intros ph C N1 N2; eapply fill_placeholders_plain; eassumption|].
  intros ph call' s1 f0 a tg x rest t1 n target0 target ty s Ht Cph Ed Hnc Cc Hna Ca Hn Hst Ee Tt.
  destruct (target_filled call' nargs s a x rest t1 n target0 target ty Hna Ca Hn Hst Ee Tt
              f0 tg Hnc Cc) as (target' & s2 & Ek & Q & Ca2 & St2 & Off2).
  assert (Eh : hostcall (HC_shallow_duplicate call_ast) (Rf_shallow_duplicate call_ast) st
               = Ok call' s) by (apply hostcall_Ok; exact Ed).
  assert (Ept : ((t =? SPECIALSXP) || (t =? CLOSXP)) = true).
  { destruct Ht as [-> | ->]; reflexivity. }
  split.
  - intros ->. exists target', s2. split; [|auto].
    unfold fill_placeholders.
    rewrite (bind_Ok _ _ _ _ _ (is_placeholder_call_Ok _ _ _ _ _ T Cph)), Ept.
    change (true && (Nat.eqb getterPlaceholderSym getterPlaceholderSym
                     || Nat.eqb getterPlaceholderSym setterPlaceholderSym)) with true.
    cbv iota.
    rewrite (bind_Ok _ _ _ _ _ Cph), (bind_Ok _ _ _ _ _ Eh).
    etransitivity; [apply Ek|]. reflexivity.
  - intros -> cells val0 stk val tv Ch Hlen Has Hstk Eev Tv.
    assert (Ch2 : chain s2 a cells) by (eapply chain_stable; eauto).
    assert (Ccall : exists p, cell_of s2 call' = Some p).
    { destruct (Nat.eq_dec call' a) as [->|Ne]; [eauto|]. eexists.
      eapply stable_cell; [exact St2| |exact Cc].
      intros M. apply list_elem_of_singleton in M. contradiction. }
    assert (Has2 : NDEBUG = true
                   \/ exists tl, cell_of s2 (List.last cells a)
                                 = Some (setterPlaceholderSym, R_NilValue, tl)).
    { destruct Has as [ND|(Ne & tl & Cl)]; [left; exact ND|right]. exists tl.
      eapply stable_cell; [exact St2| |exact Cl].
      intros M. apply list_elem_of_singleton in M. contradiction. }
    assert (Hstk2 : ostack s2 = val0 :: stk).
    { rewrite (Off2 _ ostack) by (intros ? ?; reflexivity). exact Hstk. }
    assert (Tv2 : has_type s2 val tv) by (eapply stable_type; eassumption).
    assert (Eev2 : escape val0 s2 = Ok val s2).
    { eapply escaped_escape; [|exact Tv2].
      pose proof (escape_escaped _ _ _ _ Eev) as [_ Ees].
      eapply escaped_stable; [exact St2| | | |exact Ees].
      - apply (Off2 _ src_pool). intros ? ?; reflexivity.
      - intros y M. apply list_elem_of_singleton in M as ->. eauto.
      - eapply escaped_valid; eassumption. }
    destruct (value_filled call' a cells s2 val0 stk val tv Hnc Ccall Ch2 Hlen Has2 Hstk2 Eev2 Tv2)
      as (val' & v & xp & dp & tp & st' & Ev & Qv & Hv & Cv & Cp2 & Cp' & St' & Off').
    set (prev := penultimate call' cells) in *.
    assert (Hb : (length (heap s) <= length (heap s2))%nat) by (eapply stable_length; exact St2).
    assert (Hpv : (prev < length (heap s))%nat).
    { destruct (penultimate_in call' cells) as [E|M].
      - fold prev in E. rewrite E. eapply cell_valid. exact Cc.
      - fold prev in M. destruct (chain_valid _ _ _ _ Ch M) as (p & Cp). eapply cell_valid. exact Cp. }
    assert (Ca' : exists rest', cell_of st' a = Some (target', rest', t1)).
    { destruct (Nat.eq_dec prev a) as [E|Ne].
      - rewrite E in Cp2, Cp'. rewrite Ca2 in Cp2. injection Cp2 as <- <- <-. eauto.
      - exists rest. eapply stable_cell; [exact St'| |exact Ca2].
        intros M. apply list_elem_of_singleton in M. congruence. }
    destruct Ca' as (rest' & Ca').
    exists target', val', v, rest', xp, tp, st'.
    split; [|split; [|split; [|split; [|split; [|split; [|split; [|split]]]]]]].
    + unfold fill_placeholders.
      rewrite (bind_Ok _ _ _ _ _ (is_placeholder_call_Ok _ _ _ _ _ T Cph)), Ept.
      change (true && (Nat.eqb setterPlaceholderSym getterPlaceholderSym
                       || Nat.eqb setterPlaceholderSym setterPlaceholderSym)) with true.
      cbv iota.
      rewrite (bind_Ok _ _ _ _ _ Cph), (bind_Ok _ _ _ _ _ Eh).
      etransitivity; [apply Ek|]. cbv beta.
      change (Nat.eqb setterPlaceholderSym setterPlaceholderSym) with true. cbn [when].
      erewrite bind_Ok; [reflexivity|exact Ev].
    + eapply quoted_stable; [exact St'| |exact Q].
      intros y M. apply list_elem_of_singleton in M as ->. exact Hpv.
    + exact Ca'.
    + eapply quoted_mono; [exact Hb|exact Qv].
    + lia.
    + exact Cv.
    + exact Cp'.
    + eapply stable_trans; (eapply stable_weaken; [|eassumption]); intros y M;
        apply list_elem_of_singleton in M as ->; [left|right; left].
    + intros X f Hf. rewrite (Off' X f Hf). apply Off2, Hf.
Qed.

End Rewrite.

(** C7 (as stated) fails: with a builtin to call, the AST that carries the
    getter placeholder as its first argument is passed on as it is; the
    only call into the host is the builtin itself, nothing is duplicated.
    With a closure to call the AST is duplicated first. *)
Lemma builtin_getter_not_rewritten :
  CADR the_getter_call (state_getter (S first_free))
  = Ok getterPlaceholderSym (state_getter (S first_free))
  /\ run_getter (S first_free) = Ok the_getter_call (state_getter (S first_free))
  /\ host_calls (run_call_stack (S first_free)) = [HC_cfun (S first_free)]
  /\ host_calls (run_call_stack first_free)
     = [HC_applyClosure first_free; HC_shallow_duplicate the_getter_call].
Proof. repeat split; vm_compute; reflexivity. Qed.

Lemma placeholders_filled_witness :
  (exists target' st',
     run_getter first_free = Ok (7 + first_free)%nat st'
     /\ quoted (length (heap state_getter_dup)) st' R_valueSym target'
     /\ cell_of st' (8 + first_free)%nat = Some (target', R_NilValue, R_NilValue)
     /\ stable_except [(8 + first_free)%nat] state_getter_dup st'
     /\ (forall X (f : State -> X), off_heap f -> f st' = f state_getter_dup))
  /\ (exists target' val' v rest' xp tp st',
        run_setter first_free = Ok (7 + first_free)%nat st'
        /\ quoted (length (heap state_setter_dup)) st' R_valueSym target'
        /\ cell_of st' (8 + first_free)%nat = Some (target', rest', R_NilValue)
        /\ quoted (length (heap state_setter_dup)) st' R_TrueValue val'
        /\ (length (heap state_setter_dup) <= v)%nat
        /\ cell_of st' v = Some (val', R_NilValue, R_valueSym)
        /\ cell_of st' (penultimate (7 + first_free)%nat
                                    [(8 + first_free)%nat; (9 + first_free)%nat])
           = Some (xp, v, tp)
        /\ stable_except [(8 + first_free)%nat;
                          penultimate (7 + first_free)%nat
                                      [(8 + first_free)%nat; (9 + first_free)%nat]]
                         state_setter_dup st'
        /\ (forall X (f : State -> X), off_heap f -> f st' = f state_setter_dup)).
Proof.
  split.
  - refine (proj1 (proj2 (proj2 (placeholders_filled (H := refHost) 2 the_getter_call
                                   first_free 1 (state_getter first_free) CLOSXP _))
                     getterPlaceholderSym (7 + first_free)%nat
                     (state_of (ref_shallow_duplicate the_getter_call (state_getter first_free))
                               (state_getter first_free))
                     R_NamesSymbol (8 + first_free)%nat R_NilValue
                     getterPlaceholderSym R_NilValue R_NilValue
                     0%nat R_valueSym R_valueSym SYMSXP _ _ _ _ _ _ _ _ _ _ _) eq_refl).
    + split; [discriminate|]. eexists. split; reflexivity.
    + right. reflexivity.
    + vm_compute. reflexivity.
    + vm_compute. reflexivity.
    + discriminate.
    + vm_compute. reflexivity.
    + discriminate.
    + vm_compute. reflexivity.
    + reflexivity.
    + reflexivity.
    + vm_compute. reflexivity.
    + split; [discriminate|]. eexists. split; reflexivity.
  - refine (proj2 (proj2 (proj2 (placeholders_filled (H := refHost) 2 the_setter_call
                                   first_free 2 (state_setter first_free) CLOSXP _))
                     setterPlaceholderSym (7 + first_free)%nat
                     (state_of (ref_shallow_duplicate the_setter_call (state_setter first_free))
                               (state_setter first_free))
                     R_NamesSymbol (8 + first_free)%nat R_NilValue
                     setterPlaceholderSym (9 + first_free)%nat R_NilValue
                     1%nat R_valueSym R_valueSym SYMSXP _ _ _ _ _ _ _ _ _ _ _) eq_refl
                  [(8 + first_free)%nat; (9 + first_free)%nat] R_TrueValue
                  [R_valueSym; first_free] R_TrueValue LGLSXP _ _ _ _ _ _).
    + split; [discriminate|]. eexists. split; reflexivity.
    + right. reflexivity.
    + vm_compute. reflexivity.
    + vm_compute. reflexivity.
    + discriminate.
    + vm_compute. reflexivity.
    + discriminate.
    + vm_compute. reflexivity.
    + reflexivity.
    + reflexivity.
    + vm_compute. reflexivity.
    + split; [discriminate|]. eexists. split; reflexivity.
    + eapply chain_cons; [discriminate|vm_compute; reflexivity|discriminate|].
      eapply chain_last; [discriminate|vm_compute; reflexivity].
    + cbn. lia.
    + right. split; [discriminate|]. exists R_valueSym. vm_compute. reflexivity.
    + reflexivity.
    + vm_compute. reflexivity.
    + split; [discriminate|]. eexists. split; reflexivity.
Defined.

(** The getter call with a closure to call: the copy's argument is
    [quote(value)], the AST of the compiler still has the placeholder. *)
Example getter_rewrite :
  let st' := state_of (run_getter first_free) (state_getter first_free) in
  result_of (run_getter first_free) NULL = (7 + first_free)%nat
  /\ cell_of st' (7 + first_free)%nat = Some (R_NamesSymbol, (8 + first_free)%nat, R_NilValue)
  /\ cell_of st' (8 + first_free)%nat = Some ((10 + first_free)%nat, R_NilValue, R_NilValue)
  /\ cell_of st' (10 + first_free)%nat = Some (quoteSym, (9 + first_free)%nat, R_NilValue)
  /\ cell_of st' (9 + first_free)%nat = Some (R_valueSym, R_NilValue, R_NilValue)
  /\ cell_of st' (3 + first_free)%nat = Some (getterPlaceholderSym, R_NilValue, R_NilValue)
  /\ hostLog st' = [HC_shallow_duplicate the_getter_call].
Proof. vm_compute. repeat split; reflexivity. Qed.

(** The setter call: the target goes into the first argument of the copy and
    a new last cell tagged [value] holds the value from the top of the stack. *)
Example setter_rewrite :
  let st' := state_of (run_setter first_free) (state_setter first_free) in
  result_of (run_setter first_free) NULL = (7 + first_free)%nat
  /\ cell_of st' (7 + first_free)%nat = Some (R_NamesSymbol, (8 + first_free)%nat, R_NilValue)
  /\ cell_of st' (8 + first_free)%nat
     = Some ((11 + first_free)%nat, (12 + first_free)%nat, R_NilValue)
  /\ cell_of st' (11 + first_free)%nat = Some (quoteSym, (10 + first_free)%nat, R_NilValue)
  /\ cell_of st' (10 + first_free)%nat = Some (R_valueSym, R_NilValue, R_NilValue)
  /\ cell_of st' (12 + first_free)%nat = Some (R_TrueValue, R_NilValue, R_valueSym)
  /\ cell_of st' (5 + first_free)%nat
     = Some (setterPlaceholderSym, (6 + first_free)%nat, R_NilValue)
  /\ cell_of st' (6 + first_free)%nat = Some (setterPlaceholderSym, R_NilValue, R_valueSym).
Proof. vm_compute. repeat split; reflexivity. Qed.

(** ** The lowering of loops *)
Section StreamFacts.
Context {H : Host}.

Lemma grew_refl ctx : grew ctx ctx [].
Proof.
  unfold grew. destruct (code ctx) as [|c rest]; [reflexivity|].
  rewrite app_nil_r. auto.
Qed.

Lemma grew_trans a b c xs ys : grew a b xs -> grew b c ys -> grew a c (xs ++ ys).
Proof.
  unfold grew. destruct (code a) as [|ca ra], (code b) as [|cb rb], (code c) as [|cc rc];
    try tauto.
  - intros -> ->. reflexivity.
  - intros (-> & S1 & I1 & L1) (-> & S2 & I2 & L2). split; [reflexivity|].
    split; [congruence|]. split; [rewrite I2, I1, app_assoc; reflexivity|lia].
Qed.

Lemma grew_same_code a b : code b = code a -> grew a b [].
Proof. intros E. unfold grew. rewrite E. apply grew_refl. Qed.

Lemma appended_refl ctx : appended ctx ctx [].
Proof. split; [apply grew_refl|reflexivity]. Qed.

Lemma appended_trans a b c xs ys :
  appended a b xs -> appended b c ys -> appended a c (xs ++ ys).
Proof. intros [G1 L1] [G2 L2]. split; [eapply grew_trans; eassumption|congruence]. Qed.

Lemma appends_refl ctx : appends ctx ctx.
Proof. exists []. apply appended_refl. Qed.

Lemma appends_trans a b c : appends a b -> appends b c -> appends a c.
Proof. intros [xs A] [ys B]. exists (xs ++ ys). eapply appended_trans; eassumption. Qed.

Lemma grows_refl ctx : grows ctx ctx.
Proof. exists []. apply grew_refl. Qed.

Lemma grows_trans a b c : grows a b -> grows b c -> grows a c.
Proof. intros [xs A] [ys B]. exists (xs ++ ys). eapply grew_trans; eassumption. Qed.

Lemma appends_grows a b : appends a b -> grows a b.
Proof. intros [xs [G _]]. exists xs. exact G. Qed.

Lemma appends_loops a b : appends a b -> top_loops b = top_loops a.
Proof. intros [xs [_ L]]. exact L. Qed.

Lemma appends_same_code a b : code b = code a -> appends a b.
Proof.
  intros E. exists []. split; [apply grew_same_code; exact E|].
  unfold top_loops. rewrite E. reflexivity.
Qed.

Lemma update_top_inv f ctx s ctx' s' :
  update_top f ctx s = Ok ctx' s' ->
  s' = s /\ exists c rest, code ctx = c :: rest /\ ctx' = set_code (f c :: rest) ctx.
Proof.
  unfold update_top. destruct (code ctx) as [|c rest] eqn:E; [discriminate|].
  intros R. apply ret_inv in R as [<- <-]. eauto.
Qed.

Lemma stream_Ok ctx x s c rest :
  code ctx = c :: rest -> stream ctx x s = Ok (put_items [x] ctx) s.
Proof. intros E. unfold stream, update_top, put_items. rewrite E. reflexivity. Qed.

Lemma stream_inv ctx x s ctx' s' :
  stream ctx x s = Ok ctx' s' -> s' = s /\ ctx' = put_items [x] ctx /\ appended ctx ctx' [x].
Proof.
  intros E. apply update_top_inv in E as (-> & c & rest & Ec & ->).
  split; [reflexivity|]. split; [unfold put_items; rewrite Ec; reflexivity|].
  split; [|unfold top_loops; rewrite Ec; reflexivity].
  unfold grew. rewrite Ec. cbn. auto.
Qed.

Lemma put_items_appended xs ctx c rest :
  code ctx = c :: rest -> appended ctx (put_items xs ctx) xs.
Proof.
  intros Ec. unfold put_items. rewrite Ec.
  split; [|unfold top_loops; rewrite Ec; reflexivity].
  unfold grew. rewrite Ec. cbn. auto.
Qed.

Lemma code_top_inv ctx s c s' :
  code_top ctx s = Ok c s' -> s' = s /\ exists rest, code ctx = c :: rest.
Proof.
  unfold code_top. destruct (code ctx) as [|c0 rest]; [discriminate|].
  intros R. apply ret_inv in R as [<- <-]. eauto.
Qed.

Lemma mkLabel_inv ctx s l ctx' s' :
  mkLabel ctx s = Ok (l, ctx') s' ->
  s' = s /\ appended ctx ctx' []
  /\ exists c rest, code ctx = c :: rest /\ l = CodeStream.nextLabel (cs c)
       /\ ctx' = set_code (mkCodeContext (CodeStream.mk (CodeStream.source (cs c))
                                                        (CodeStream.items (cs c))
                                                        (S (CodeStream.nextLabel (cs c))))
                                         (loops c) :: rest) ctx.
Proof.
  unfold mkLabel. intros E. apply bind_Ok_inv in E as (c & s1 & E1 & E).
  apply code_top_inv in E1 as (-> & rest & Ec). cbn [CodeStream.mkLabel] in E.
  apply bind_Ok_inv in E as (ctx1 & s1 & E1 & E).
  apply update_top_inv in E1 as (-> & c1 & rest1 & Ec1 & ->).
  rewrite Ec in Ec1. injection Ec1 as <- <-.
  apply ret_inv in E as [E <-]. injection E as <- <-.
  split; [reflexivity|]. split; [|eauto 7].
  split; [|unfold top_loops; rewrite Ec; reflexivity].
  unfold grew. rewrite Ec. cbn. rewrite app_nil_r. auto.
Qed.

Lemma pushLoop_inv ctx n b s ctx' s' :
  pushLoop ctx n b s = Ok ctx' s' ->
  s' = s /\ grew ctx ctx' [] /\ top_loops ctx' = mkLoopContext n b :: top_loops ctx
  /\ exists c rest, code ctx = c :: rest
       /\ ctx' = set_code (mkCodeContext (cs c) (mkLoopContext n b :: loops c) :: rest) ctx.
Proof.
  intros E. apply update_top_inv in E as (-> & c & rest & Ec & ->).
  split; [reflexivity|]. split; [|split; [unfold top_loops; rewrite Ec; reflexivity|eauto]].
  unfold grew. rewrite Ec. cbn. rewrite app_nil_r. auto.
Qed.

Lemma popLoop_inv ctx s ctx' s' :
  popLoop ctx s = Ok ctx' s' ->
  s' = s /\ grew ctx ctx' [] /\ exists l, top_loops ctx = l :: top_loops ctx'.
Proof.
  unfold popLoop. intros E. apply bind_Ok_inv in E as (c & s1 & E1 & E).
  apply code_top_inv in E1 as (-> & rest & Ec).
  destruct (loops c) as [|l ls] eqn:El; [discriminate|].
  apply update_top_inv in E as (-> & c1 & rest1 & Ec1 & ->).
  rewrite Ec in Ec1. injection Ec1 as <- <-.
  split; [reflexivity|]. split.
  - unfold grew. rewrite Ec. cbn. rewrite app_nil_r. auto.
  - exists l. unfold top_loops. rewrite Ec, El. reflexivity.
Qed.

Lemma ctx_pop_inv ctx s i ctx' s' :
  ctx_pop ctx s = Ok (i, ctx') s' ->
  s' = s /\ exists c, code ctx = c :: code ctx'.
Proof.
  unfold ctx_pop. destruct (code ctx) as [|c rest]; [discriminate|].
  intros R. apply ret_inv in R as [R <-]. injection R as <- <-. eauto.
Qed.

End StreamFacts.

(** ** The compiler only appends to the code on top *)

Lemma emit_appends ctx bc s ctx' s' : emit ctx bc s = Ok ctx' s' -> appends ctx ctx'.
Proof. intros E. apply stream_inv in E as (_ & _ & E). eexists. exact E. Qed.

Lemma bind_label_appends ctx l s ctx' s' : bind_label ctx l s = Ok ctx' s' -> appends ctx ctx'.
Proof. intros E. apply stream_inv in E as (_ & _ & E). eexists. exact E. Qed.

Lemma addAst_appends ctx a s ctx' s' : addAst ctx a s = Ok ctx' s' -> appends ctx ctx'.
Proof. intros E. apply stream_inv in E as (_ & _ & E). eexists. exact E. Qed.

Lemma mkLabel_appends ctx s l ctx' s' : mkLabel ctx s = Ok (l, ctx') s' -> appends ctx ctx'.
Proof. intros E. apply mkLabel_inv in E as (_ & E & _). eexists. exact E. Qed.

Lemma pushLoop_grows ctx n b s ctx' s' :
  pushLoop ctx n b s = Ok ctx' s' ->
  grows ctx ctx' /\ top_loops ctx' = mkLoopContext n b :: top_loops ctx.
Proof. intros E. apply pushLoop_inv in E as (_ & G & L & _). split; [eexists; exact G|exact L]. Qed.

Lemma popLoop_grows ctx s ctx' s' :
  popLoop ctx s = Ok ctx' s' ->
  grows ctx ctx' /\ exists l, top_loops ctx = l :: top_loops ctx'.
Proof. intros E. apply popLoop_inv in E as (_ & G & L). split; [eexists; exact G|exact L]. Qed.

(** Take a successful run apart into the runs of its steps. *)
Ltac run_inv :=
  repeat match goal with
  | E : bind _ _ _ = Ok _ _ |- _ => apply bind_Ok_inv in E as (? & ? & ? & E)
  | E : ret _ _ = Ok _ _ |- _ => apply ret_inv in E as [? ?]; subst
  | E : (_, _) = (_, _) |- _ => injection E as ? ?; subst
  | E : out_of_fuel _ = Ok _ _ |- _ => discriminate E
  | E : undefined _ _ = Ok _ _ |- _ => discriminate E
  | E : errorcall _ _ _ = Ok _ _ |- _ => discriminate E
  | E : context [match ?p with pair _ _ => _ end] |- _ => destruct p
  | E : (if ?b then _ else _) _ = Ok _ _ |- _ => destruct b eqn:?
  | E : emit _ _ _ = Ok _ _ |- _ => apply emit_appends in E
  | E : bind_label _ _ _ = Ok _ _ |- _ => apply bind_label_appends in E
  | E : addAst _ _ _ = Ok _ _ |- _ => apply addAst_appends in E
  | E : mkLabel _ _ = Ok _ _ |- _ => apply mkLabel_appends in E
  end.

(** Chain the steps. *)
Ltac chain :=
  solve [ apply appends_refl
        | eassumption
        | eapply appends_trans; [eassumption|chain] ].

Section Appends.
Context {H : Host}.
Variable fuel : nat.
Variable compileExpr_rec : Context -> SEXP -> M Context.
Hypothesis rec_appends :
  forall ctx e s ctx' s', compileExpr_rec ctx e s = Ok ctx' s' -> appends ctx ctx'.

Ltac use_rec :=
  repeat match goal with
  | E : compileExpr_rec _ _ _ = Ok _ _ |- _ => apply rec_appends in E
  end.

(** A promise is compiled in a code of its own, which is finalized. *)
Lemma compilePromise_code ctx e s i ctx' s' :
  compilePromise compileExpr_rec ctx e s = Ok (i, ctx') s' -> code ctx' = code ctx.
Proof.
  unfold compilePromise. intros E. run_inv. use_rec.
  match goal with
  | E : ctx_pop ?y _ = Ok _ _ |- _ =>
      assert (A : appends (ctx_push ctx e) y) by chain;
      apply ctx_pop_inv in E as (_ & c & Ec)
  end.
  apply appends_grows in A as [xs G]. unfold grew in G. rewrite Ec in G. cbn in G.
  destruct G as (-> & _). reflexivity.
Qed.

Lemma compilePromise_appends ctx e s p s' :
  compilePromise compileExpr_rec ctx e s = Ok p s' -> appends ctx (snd p).
Proof. destruct p as [i ctx']. intros E. apply appends_same_code. eapply compilePromise_code, E. Qed.

Ltac use_promise :=
  repeat match goal with
  | E : compilePromise _ _ _ _ = Ok _ _ |- _ => apply compilePromise_appends in E; cbn [snd] in E
  end.

Lemma compile_call_args_appends n : forall ctx arg cA nm s r s',
  compile_call_args compileExpr_rec n ctx arg cA nm s = Ok r s' -> appends ctx (snd r).
Proof.
  induction n as [|n IHn]; intros ctx arg cA nm s r s' E; cbn [compile_call_args] in E.
  - destruct (Nat.eqb arg R_NilValue); [|discriminate]. run_inv. apply appends_refl.
  - destruct (Nat.eqb arg R_NilValue); [run_inv; apply appends_refl|].
    run_inv; use_promise;
      repeat match goal with
      | E : compile_call_args _ _ _ _ _ _ _ = Ok _ _ |- _ => apply IHn in E
      end; chain.
Qed.

Ltac use_call_args :=
  repeat match goal with
  | E : compile_call_args _ _ _ _ _ _ _ = Ok _ _ |- _ =>
      apply compile_call_args_appends in E; cbn [snd] in E
  end.

Lemma compileDispatch_appends ctx selector ast f args s ctx' s' :
  compileDispatch fuel compileExpr_rec ctx selector ast f args s = Ok ctx' s' ->
  appends ctx ctx'.
Proof. unfold compileDispatch. intros E. run_inv. use_call_args. chain. Qed.

Lemma special_logical_appends ctx f args br combine s r s' :
  special_logical compileExpr_rec ctx f args br combine s = Ok r s' -> appends ctx (snd r).
Proof. unfold special_logical. intros E. run_inv. use_rec. cbn [snd]. chain. Qed.

Lemma special_quote_appends ctx f args s r s' :
  special_quote compileExpr_rec ctx f args s = Ok r s' -> appends ctx (snd r).
Proof. unfold special_quote. intros E. run_inv. use_promise. cbn [snd]. chain. Qed.

Lemma special_is_appends ctx f args ty s r s' :
  special_is compileExpr_rec ctx f args ty s = Ok r s' -> appends ctx (snd r).
Proof. unfold special_is. intros E. run_inv. use_rec. cbn [snd]. chain. Qed.

Lemma special_jump_appends ctx f args tgt s r s' :
  special_jump fuel ctx f args tgt s = Ok r s' -> appends ctx (snd r).
Proof. unfold special_jump. intros E. run_inv. cbn [snd]. chain. Qed.

Lemma compile_stack_args_appends n : forall ctx arg nm k s r s',
  compile_stack_args compileExpr_rec n ctx arg nm k s = Ok r s' -> appends ctx (snd r).
Proof.
  induction n as [|n IHn]; intros ctx arg nm k s r s' E; cbn [compile_stack_args] in E.
  - destruct (Nat.eqb arg R_NilValue); [|discriminate]. run_inv. apply appends_refl.
  - destruct (Nat.eqb arg R_NilValue); [run_inv; apply appends_refl|].
    run_inv; use_promise; use_rec;
      repeat match goal with
      | E : compile_stack_args _ _ _ _ _ _ _ = Ok _ _ |- _ => apply IHn in E
      end; chain.
Qed.

Ltac use_stack_args :=
  repeat match goal with
  | E : compile_stack_args _ _ _ _ _ _ _ = Ok _ _ |- _ =>
      apply compile_stack_args_appends in E; cbn [snd] in E
  end.

Lemma compile_getters_appends i : forall parts ctx s ctx' s',
  compile_getters fuel compileExpr_rec i parts ctx s = Ok ctx' s' -> appends ctx ctx'.
Proof.
  induction i as [|i IHi]; intros parts ctx s ctx' s' E; cbn [compile_getters] in E.
  - run_inv. apply appends_refl.
  - run_inv; use_stack_args;
      repeat match goal with
      | E : compile_getters _ _ _ _ _ _ = Ok _ _ |- _ => apply IHi in E
      end; chain.
Qed.

Lemma compile_setters_appends parts : forall ctx s ctx' s',
  compile_setters fuel compileExpr_rec parts ctx s = Ok ctx' s' -> appends ctx ctx'.
Proof.
  induction parts as [|g rest IHp]; intros ctx s ctx' s' E; cbn [compile_setters] in E.
  - run_inv. apply appends_refl.
  - destruct rest as [|g' rest]; [run_inv; apply appends_refl|].
    run_inv; use_stack_args;
      repeat match goal with
      | E : compile_setters _ _ _ _ _ = Ok _ _ |- _ => apply IHp in E
      end; chain.
Qed.

Lemma special_Assign_appends ctx ast f args s r s' :
  special_Assign fuel compileExpr_rec ctx ast f args s = Ok r s' -> appends ctx (snd r).
Proof.
  unfold special_Assign. intros E. run_inv; use_rec; cbn [snd];
    repeat match goal with
    | E : compile_getters _ _ _ _ _ _ = Ok _ _ |- _ => apply compile_getters_appends in E
    | E : compile_setters _ _ _ _ _ = Ok _ _ |- _ => apply compile_setters_appends in E
    end; chain.
Qed.

Lemma special_Bracket_appends ctx ast f args s r s' :
  special_Bracket fuel compileExpr_rec ctx ast f args s = Ok r s' -> appends ctx (snd r).
Proof.
  unfold special_Bracket. intros E. run_inv; use_rec; cbn [snd];
    repeat match goal with
    | E : compileDispatch _ _ _ _ _ _ _ _ = Ok _ _ |- _ => apply compileDispatch_appends in E
    end; chain.
Qed.

(** A loop is pushed for the body and popped after it. *)
Lemma loop_appends a b c d :
  grows a b -> top_loops b = top_loops a ->
  forall l, grows b c -> top_loops c = l :: top_loops b ->
  appends c d ->
  forall e l', grows d e -> top_loops d = l' :: top_loops e ->
  appends a e.
Proof.
  intros [x1 G1] L1 l [x2 G2] L2 [x3 [G3 L3]] e l' [x4 G4] L4.
  exists (((x1 ++ x2) ++ x3) ++ x4). split.
  - repeat (eapply grew_trans; [|eassumption]). exact G1.
  - congruence.
Qed.

Lemma special_While_appends ctx f args s r s' :
  special_While fuel compileExpr_rec ctx f args s = Ok r s' -> appends ctx (snd r).
Proof.
  unfold special_While. intros E. run_inv. use_rec. cbn [snd].
  match goal with
  | E1 : pushLoop ?b _ _ _ = Ok ?c _, E2 : popLoop ?d _ = Ok ?e _ |- _ =>
      apply pushLoop_grows in E1 as [G1 L1]; apply popLoop_grows in E2 as [G2 [l' L2]];
      assert (A : appends ctx b) by chain; assert (B : appends c d) by chain
  end.
  eapply loop_appends; eauto using appends_grows, appends_loops.
Qed.

Lemma special_Repeat_appends ctx f args s r s' :
  special_Repeat fuel compileExpr_rec ctx f args s = Ok r s' -> appends ctx (snd r).
Proof.
  unfold special_Repeat. intros E. run_inv. use_rec. cbn [snd].
  match goal with
  | E1 : pushLoop ?b _ _ _ = Ok ?c _, E2 : popLoop ?d _ = Ok ?e _ |- _ =>
      apply pushLoop_grows in E1 as [G1 L1]; apply popLoop_grows in E2 as [G2 [l' L2]];
      assert (A : appends ctx b) by chain; assert (B : appends c d) by chain
  end.
  eapply loop_appends; eauto using appends_grows, appends_loops.
Qed.

Lemma compileSpecialCall_appends ctx ast f args s r s' :
  compileSpecialCall fuel compileExpr_rec ctx ast f args s = Ok r s' -> appends ctx (snd r).
Proof.
  unfold compileSpecialCall. intros E.
  repeat match goal with
  | E : bind _ _ _ = Ok _ _ |- _ => apply bind_Ok_inv in E as (? & ? & _ & E)
  | E : (if ?b then _ else _) _ = Ok _ _ |- _ => destruct b
  end;
  eauto using special_logical_appends, special_quote_appends, special_Assign_appends,
    special_is_appends, special_Bracket_appends, special_While_appends,
    special_Repeat_appends, special_jump_appends.
  apply ret_inv in E as [<- _]. apply appends_refl.
  apply ret_inv in E as [<- _]. apply appends_refl.
Qed.

Lemma compileCall_appends ctx ast f args s ctx' s' :
  compileCall fuel compileExpr_rec ctx ast f args s = Ok ctx' s' -> appends ctx ctx'.
Proof.
  unfold compileCall. intros E. run_inv; use_rec; use_call_args;
    repeat match goal with
    | E : compileSpecialCall _ _ _ _ _ _ _ = Ok _ _ |- _ =>
        apply compileSpecialCall_appends in E; cbn [snd fst] in *
    end; try chain.
Qed.

Lemma compileGetvar_appends ctx name s ctx' s' :
  compileGetvar ctx name s = Ok ctx' s' -> appends ctx ctx'.
Proof. unfold compileGetvar. intros E. run_inv; chain. Qed.

Lemma compileConst_appends ctx c s ctx' s' :
  compileConst ctx c s = Ok ctx' s' -> appends ctx ctx'.
Proof. unfold compileConst. intros E. run_inv; chain. Qed.

Lemma compileExpr_body_appends ctx e s ctx' s' :
  compileExpr_body fuel compileExpr_rec ctx e s = Ok ctx' s' -> appends ctx ctx'.
Proof.
  unfold compileExpr_body. intros E. run_inv;
    repeat match goal with
    | E : compileCall _ _ _ _ _ _ _ = Ok _ _ |- _ => apply compileCall_appends in E
    | E : compileGetvar _ _ _ = Ok _ _ |- _ => apply compileGetvar_appends in E
    | E : compileConst _ _ _ = Ok _ _ |- _ => apply compileConst_appends in E
    end; chain.
Qed.

End Appends.

Lemma compileExpr_appends {H : Host} fuel : forall ctx e s ctx' s',
  compileExpr fuel ctx e s = Ok ctx' s' -> appends ctx ctx'.
Proof.
  induction fuel as [|n IH]; intros ctx e s ctx' s' E; [discriminate|].
  cbn [compileExpr] in E. eapply compileExpr_body_appends; [exact IH|exact E].
Qed.

(** Run the operations on the context that are in sight. *)
Ltac simp_ctx :=
  repeat progress
    (unfold emit, stream, update_top, mkLabel, code_top, pushLoop, popLoop, bind_label,
       set_code, CodeStream.mkLabel, CodeStream.insert; cbn).

Section WhileLoop.
Context {H : Host}.

Lemma emit_Ok ctx bc s c rest :
  code ctx = c :: rest -> emit ctx bc s = Ok (put_items [CodeStream.ins bc] ctx) s.
Proof. apply stream_Ok. Qed.

Lemma bind_label_Ok ctx l s c rest :
  code ctx = c :: rest -> bind_label ctx l s = Ok (put_items [CodeStream.label l] ctx) s.
Proof. apply stream_Ok. Qed.

Lemma put_items_code xs ctx c rest :
  code ctx = c :: rest ->
  code (put_items xs ctx)
  = mkCodeContext (CodeStream.mk (CodeStream.source (cs c)) (CodeStream.items (cs c) ++ xs)
                                 (CodeStream.nextLabel (cs c))) (loops c) :: rest.
Proof. intros E. unfold put_items. rewrite E. reflexivity. Qed.

Lemma put_items_app xs ys ctx : put_items ys (put_items xs ctx) = put_items (xs ++ ys) ctx.
Proof.
  destruct ctx as [[|c rest] fn pres]; [reflexivity|].
  unfold put_items, set_code. cbn. rewrite <- app_assoc. reflexivity.
Qed.

(** The lowering of [while], relative to the runs of the compiler on the
    condition and on the body. *)
Lemma special_While_run fuel (rec : Context -> SEXP -> M Context) ctx args st cond body
    ctx2 st2 ctx3 st3 cond_items body_items :
  code ctx <> [] ->
  assertM (n <- RList_length fuel args ;; ret (n =? 2)) "args.length() == 2" st = Ok tt st ->
  RList_at args 0 st = Ok cond st -> RList_at args 1 st = Ok body st ->
  rec (while_entry ctx) cond st = Ok ctx2 st2 ->
  appended (while_entry ctx) ctx2 cond_items ->
  rec (put_items [CodeStream.ins BC.asbool;
                  CodeStream.ins (BC.brfalse (S (next_label ctx)))] ctx2) body st2
  = Ok ctx3 st3 ->
  appended (put_items [CodeStream.ins BC.asbool;
                       CodeStream.ins (BC.brfalse (S (next_label ctx)))] ctx2)
           ctx3 body_items ->
  exists ctx',
    special_While fuel rec ctx symbol.While args st = Ok (true, ctx') st3
    /\ appended ctx ctx'
         (while_code (next_label ctx) (S (next_label ctx)) cond_items body_items)
    /\ function ctx' = function ctx3 /\ preserve ctx' = preserve ctx3.
Proof.
  intros Hne Ea E0 E1 Ec Ac Eb Ab.
  destruct ctx as [[|[[src0 its0 nl0] lps0] rest] fn pres]; [contradiction|]. clear Hne.
  destruct ctx2 as [[|[[src2 its2 nl2] lps2] rest2] fn2 pres2]; [destruct Ac as [[] _]|].
  destruct ctx3 as [[|[[src3 its3 nl3] lps3] rest3] fn3 pres3]; [destruct Ab as [[] _]|].
  destruct Ac as [Gc Lc]. destruct Ab as [Gb Lb].
  unfold grew, top_loops, while_entry, put_items, next_label, set_code in *. cbn in *.
  destruct Gc as (-> & -> & -> & Nc). destruct Gb as (-> & -> & -> & Nb). subst lps3 lps2.
  eexists. split; [|split; [|split]].
  - unfold special_While.
    rewrite (bind_Ok _ _ _ _ _ Ea), (bind_Ok _ _ _ _ _ E0), (bind_Ok _ _ _ _ _ E1).
    simp_ctx. rewrite <- !app_assoc. cbn [app]. rewrite <- !app_assoc in Ec. cbn [app] in Ec.
    rewrite (bind_Ok _ _ _ _ _ Ec). simp_ctx.
    rewrite <- !app_assoc. rewrite <- ?app_assoc in Eb. cbn [app] in Eb |- *.
    rewrite (bind_Ok _ _ _ _ _ Eb). simp_ctx. reflexivity.
  - split; [|reflexivity]. cbn.
    split; [reflexivity|]. split; [reflexivity|]. split; [|lia].
    repeat first [rewrite <- app_assoc | progress cbn [app]]. reflexivity.
  - reflexivity.
  - reflexivity.
Qed.

Lemma RList_length_two fuel st args cond args2 t1 body t2 :
  (2 <= fuel)%nat ->
  args <> NULL -> args <> R_NilValue -> cell_of st args = Some (cond, args2, t1) ->
  args2 <> NULL -> args2 <> R_NilValue -> cell_of st args2 = Some (body, R_NilValue, t2) ->
  RList_length fuel args st = Ok 2 st.
Proof.
  intros Hf N1 N1' C1 N2 N2' C2. unfold RList_length.
  destruct fuel as [|[|n]]; [lia|lia|]. cbn [RList_length_loop].
  destruct (Nat.eqb_spec args R_NilValue); [contradiction|].
  rewrite (bind_Ok _ _ _ _ _ (CDR_Ok _ _ _ _ _ N1 C1)).
  destruct (Nat.eqb_spec args2 R_NilValue); [contradiction|].
  rewrite (bind_Ok _ _ _ _ _ (CDR_Ok _ _ _ _ _ N2 C2)).
  destruct n; reflexivity.
Qed.

(** C5 (amended): for an AST [while (cond) body] (a call of the symbol
    [while] with the two arguments [cond] and [body]) the compiler streams
    into the code on top exactly: [isspecial_] on the symbol [while], then
    [beginloop_] to the label after the loop, the loop label, what it
    streams for the condition, [asbool_], [brfalse_] to the label after
    the loop, what it streams for the body, [pop_], [br_] to the loop
    label, the label after the loop, [endcontext_], [push_] of
    [R_NilValue] and [invisible_].  The condition and the body are compiled
    with the loop pushed, and whenever the compiler returns on both it returns on
    the loop; the codes below the top and the loops of the top are as
    before. *)
Theorem while_lowering fuel ctx ast st args tg cond args2 t1 body t2 ctx2 st2 ctx3 st3 :
  code ctx <> [] ->
  NDEBUG = true \/ (2 <= fuel)%nat ->
  has_type st ast LANGSXP -> cell_of st ast = Some (symbol.While, args, tg) ->
  has_type st symbol.While SYMSXP ->
  args <> NULL -> args <> R_NilValue -> cell_of st args = Some (cond, args2, t1) ->
  args2 <> NULL -> args2 <> R_NilValue -> cell_of st args2 = Some (body, R_NilValue, t2) ->
  compileExpr fuel (while_entry ctx) cond st = Ok ctx2 st2 ->
  compileExpr fuel (put_items [CodeStream.ins BC.asbool;
                               CodeStream.ins (BC.brfalse (S (next_label ctx)))] ctx2)
              body st2 = Ok ctx3 st3 ->
  exists cond_items body_items ctx',
    appended (while_entry ctx) ctx2 cond_items
    /\ appended (put_items [CodeStream.ins BC.asbool;
                            CodeStream.ins (BC.brfalse (S (next_label ctx)))] ctx2)
                ctx3 body_items
    /\ compileExpr (S fuel) ctx ast st = Ok ctx' st3
    /\ appended ctx ctx'
         (while_code (next_label ctx) (S (next_label ctx)) cond_items body_items)
    /\ function ctx' = function ctx3 /\ preserve ctx' = preserve ctx3.
Proof.
  intros Hne Hf Ta Ca Tw N1 N1' C1 N2 N2' C2 Ec Eb.
  destruct (compileExpr_appends _ _ _ _ _ _ Ec) as [cond_items Ac].
  destruct (compileExpr_appends _ _ _ _ _ _ Eb) as [body_items Ab].
  assert (Ea : assertM (n <- RList_length fuel args ;; ret (n =? 2)) "args.length() == 2" st
               = Ok tt st).
  { apply assertM_Ok. destruct Hf as [Hf|Hf]; [left; exact Hf|right].
    rewrite (bind_Ok _ _ _ _ _ (RList_length_two _ _ _ _ _ _ _ _ Hf N1 N1' C1 N2 N2' C2)).
    reflexivity. }
  assert (E0 : RList_at args 0 st = Ok cond st) by (exact (CAR_Ok _ _ _ _ _ N1 C1)).
  assert (E1 : RList_at args 1 st = Ok body st).
  { cbn [RList_at]. rewrite (bind_Ok _ _ _ _ _ (CDR_Ok _ _ _ _ _ N1 C1)).
    exact (CAR_Ok _ _ _ _ _ N2 C2). }
  destruct (special_While_run fuel (compileExpr fuel) ctx args st cond body ctx2 st2 ctx3 st3
              cond_items body_items Hne Ea E0 E1 Ec Ac Eb Ab) as (ctx' & Er & A & Fn & Pr).
  exists cond_items, body_items, ctx'. split; [exact Ac|]. split; [exact Ab|].
  split; [|auto].
  cbn [compileExpr]. unfold compileExpr_body.
  rewrite (bind_Ok _ _ _ _ _ (TYPEOF_Ok _ _ _ Ta)).
  change (LANGSXP =? LANGSXP) with true. cbv iota.
  destruct Ta as [Na _].
  rewrite (bind_Ok _ _ _ _ _ (CAR_Ok _ _ _ _ _ Na Ca)), (bind_Ok _ _ _ _ _ (CDR_Ok _ _ _ _ _ Na Ca)).
  unfold compileCall. rewrite (bind_Ok _ _ _ _ _ (TYPEOF_Ok _ _ _ Tw)).
  change (SYMSXP =? SYMSXP) with true. cbv iota.
  assert (Es : compileSpecialCall fuel (compileExpr fuel) ctx ast symbol.While args st
               = Ok (true, ctx') st3).
  { rewrite <- Er. reflexivity. }
  erewrite bind_Ok; [|rewrite (bind_Ok _ _ _ _ _ Es); reflexivity]. reflexivity.
Qed.

End WhileLoop.

(** C5 (as stated) fails: the first instruction streamed for
    [while (TRUE) value] is the guard [isspecial_], the [beginloop_] comes
    second. *)
Lemma while_starts_with_isspecial :
  emitted run_while
  = [CodeStream.ins (BC.isspecial symbol.While);
     CodeStream.ins (BC.beginloop 1%nat);
     CodeStream.label 0%nat;
     CodeStream.ins (BC.push R_TrueValue);
     CodeStream.ins BC.asbool;
     CodeStream.ins (BC.brfalse 1%nat);
     CodeStream.ins (BC.ldvar R_valueSym);
     CodeStream.ins BC.pop;
     CodeStream.ins (BC.br 0%nat);
     CodeStream.label 1%nat;
     CodeStream.ins BC.endcontext;
     CodeStream.ins (BC.push R_NilValue);
     CodeStream.ins BC.invisible].
Proof. vm_compute. reflexivity. Qed.

Lemma while_lowering_witness :
  exists cond_items body_items ctx',
    appended (while_entry ctx_while) (result_of run_while_cond ctx_while) cond_items
    /\ appended ctx_while_body (result_of run_while_body ctx_while) body_items
    /\ run_while = Ok ctx' (state_of run_while_body state_while)
    /\ appended ctx_while ctx' (while_code 0%nat 1%nat cond_items body_items)
    /\ function ctx' = function (result_of run_while_body ctx_while)
    /\ preserve ctx' = preserve (result_of run_while_body ctx_while).
Proof.
  refine (while_lowering (H := refHost) 2 ctx_while the_while state_while
            (1 + first_free)%nat R_NilValue R_TrueValue (2 + first_free)%nat R_NilValue
            R_valueSym R_NilValue
            (result_of run_while_cond ctx_while) (state_of run_while_cond state_while)
            (result_of run_while_body ctx_while) (state_of run_while_body state_while)
            _ _ _ _ _ _ _ _ _ _ _ _ _).
  - discriminate.
  - right. lia.
  - split; [discriminate|]. eexists. split; reflexivity.
  - reflexivity.
  - split; [discriminate|]. eexists. split; reflexivity.
  - discriminate.
  - discriminate.
  - reflexivity.
  - discriminate.
  - discriminate.
  - reflexivity.
  - vm_compute. reflexivity.
  - vm_compute. reflexivity.
Defined.

(** Inside the loop, [break] is a jump to the label after the loop. *)
Example while_break_lowering :
  emitted run_while_break
  = while_code 0%nat 1%nat
      [CodeStream.ins (BC.push R_TrueValue)]
      [CodeStream.ins (BC.isspecial symbol.Break); CodeStream.ins (BC.br 1%nat)].
Proof. vm_compute. reflexivity. Qed.

(** * Further properties of the interpreter and the compiler *)

Section StackShuffles.
Context {H : Host}.

Lemma bind_Undef {A B} (m : M A) (k : A -> M B) s msg :
  m s = Undef msg -> bind m k s = Undef msg.
Proof. intros E. unfold bind. rewrite E. reflexivity. Qed.

Lemma set_ostack_twice o o' s : set_ostack o (set_ostack o' s) = set_ostack o s.
Proof. reflexivity. Qed.

Lemma ostack_at_Ok s i v : ostack s !! i = Some v -> ostack_at i s = Ok v s.
Proof. unfold ostack_at. intros ->. reflexivity. Qed.

Lemma ostack_set_Ok s i v :
  (i < length (ostack s))%nat -> ostack_set i v s = Ok tt (set_ostack (<[i := v]> (ostack s)) s).
Proof. unfold ostack_set. intros L. destruct (decide _); [reflexivity|contradiction]. Qed.

(** The loop of [pick_]: every slot above the picked one moves one slot
    deeper. *)
Lemma pick_loop_spec front : forall x rest s,
  ostack s = front ++ x :: rest ->
  pick_loop (length front) (length front) s
  = Ok 0%nat (set_ostack (hd x front :: front ++ rest) s).
Proof.
  induction front as [|f front IH] using rev_ind; intros x rest s E.
  - cbn in *. rewrite <- E, set_ostack_id. reflexivity.
  - rewrite length_app. cbn [length]. rewrite Nat.add_1_r. cbn [pick_loop].
    replace (S (length front) - 1)%nat with (length front) by lia.
    assert (E1 : ostack s !! length front = Some f).
    { rewrite E, <- app_assoc. apply list_lookup_middle. reflexivity. }
    rewrite (bind_Ok _ _ _ _ _ (ostack_at_Ok _ _ _ E1)).
    assert (L : (S (length front) < length (ostack s))%nat).
    { rewrite E, !length_app. cbn. lia. }
    rewrite (bind_Ok _ _ _ _ _ (ostack_set_Ok _ _ f L)).
    assert (E2 : <[S (length front) := f]> (ostack s) = front ++ f :: f :: rest).
    { rewrite E, <- app_assoc. cbn [app].
      rewrite insert_app_r_alt by lia.
      replace (S (length front) - length front)%nat with 1%nat by lia. reflexivity. }
    rewrite E2. rewrite (IH f (f :: rest) (set_ostack (front ++ f :: f :: rest) s) eq_refl).
    rewrite set_ostack_twice.
    f_equal. f_equal. rewrite <- app_assoc. cbn [app]. f_equal.
    destruct front; reflexivity.
Qed.

(** The loop of [put_]: every slot down to the target moves one slot up. *)
Lemma put_loop_spec front : forall pre y rest s,
  ostack s = pre ++ y :: front ++ rest ->
  put_loop (length front) (length pre) s
  = Ok (length pre + length front)%nat
       (set_ostack (pre ++ front ++ List.last front y :: rest) s).
Proof.
  induction front as [|f front IH]; intros pre y rest s E.
  - cbn [length put_loop app List.last]. rewrite Nat.add_0_r. cbn in E.
    rewrite <- E, set_ostack_id. reflexivity.
  - cbn [length put_loop].
    assert (E1 : ostack s !! S (length pre) = Some f).
    { rewrite E. rewrite lookup_app_r by lia.
      replace (S (length pre) - length pre)%nat with 1%nat by lia. reflexivity. }
    rewrite (bind_Ok _ _ _ _ _ (ostack_at_Ok _ _ _ E1)).
    assert (L : (length pre < length (ostack s))%nat).
    { rewrite E, !length_app. cbn. lia. }
    rewrite (bind_Ok _ _ _ _ _ (ostack_set_Ok _ _ f L)).
    assert (E2 : <[length pre := f]> (ostack s) = (pre ++ [f]) ++ f :: front ++ rest).
    { rewrite E. rewrite insert_app_r_alt by lia. rewrite Nat.sub_diag.
      rewrite <- app_assoc. reflexivity. }
    rewrite E2.
    pose proof (IH (pre ++ [f]) f rest (set_ostack ((pre ++ [f]) ++ f :: front ++ rest) s)
                  eq_refl) as R.
    rewrite length_app in R. cbn [length] in R. rewrite Nat.add_1_r in R.
    assert (El : List.last (f :: front) y = List.last front f).
    { destruct front as [|a l]; [reflexivity|].
      change (List.last (f :: a :: l) y) with (List.last (a :: l) y). apply last_default. }
    rewrite R, set_ostack_twice, El. f_equal; [lia|]. f_equal.
    rewrite <- app_assoc. reflexivity.
Qed.

Lemma ins_pick_Ok c env pc n s front v rest pc' :
  readImmediate c pc s = Ok (Z.of_nat (length front), pc') s ->
  ostack s = front ++ v :: rest ->
  ins_pick_ c env pc n s = Ok pc' (set_ostack (v :: front ++ rest) s).
Proof.
  intros Ei E. unfold ins_pick_. rewrite (bind_Ok _ _ _ _ _ Ei). cbn [fst snd].
  rewrite Nat2Z.id.
  assert (E1 : ostack s !! length front = Some v) by (rewrite E; apply list_lookup_middle; reflexivity).
  rewrite (bind_Ok _ _ _ _ _ (ostack_at_Ok _ _ _ E1)).
  rewrite (bind_Ok _ _ _ _ _ (pick_loop_spec front v rest s E)).
  erewrite bind_Ok; [|apply ostack_set_Ok; cbn; lia]. reflexivity.
Qed.

Lemma ins_put_Ok c env pc n s front v rest pc' :
  readImmediate c pc s = Ok (Z.of_nat (length front), pc') s ->
  ostack s = v :: front ++ rest ->
  ins_put_ c env pc n s = Ok pc' (set_ostack (front ++ v :: rest) s).
Proof.
  intros Ei E. unfold ins_put_. rewrite (bind_Ok _ _ _ _ _ Ei). cbn [fst snd].
  rewrite Nat2Z.id.
  assert (E1 : ostack s !! 0%nat = Some v) by (rewrite E; reflexivity).
  rewrite (bind_Ok _ _ _ _ _ (ostack_at_Ok _ _ _ E1)).
  rewrite (bind_Ok _ _ _ _ _ (put_loop_spec front [] v rest s E)).
  cbn [length app Nat.add].
  erewrite bind_Ok; [|apply ostack_set_Ok; cbn; rewrite length_app; cbn; lia].
  cbn [ret]. rewrite set_ostack_twice. f_equal. f_equal. cbn [ostack].
  rewrite ostack_set_ostack, insert_app_r_alt by lia. rewrite Nat.sub_diag. reflexivity.
Qed.

Lemma put_loop_underflow k : forall pos s,
  (0 < k)%nat -> (length (ostack s) <= pos + k)%nat ->
  put_loop k pos s = Undef "ostack_at below the stack".
Proof.
  induction k as [|k IH]; intros pos s Hk Hl; [lia|]. cbn [put_loop].
  unfold bind at 1. unfold ostack_at.
  destruct (ostack s !! S pos) as [v|] eqn:E; [|reflexivity].
  apply lookup_lt_Some in E.
  rewrite (bind_Ok _ _ _ _ _ (ostack_set_Ok s pos v ltac:(lia))).
  apply IH; [lia|]. cbn. rewrite length_insert. lia.
Qed.

Lemma readImmediate_reads_nothing c pc : reads_nothing (readImmediate c pc).
Proof.
  unfold readImmediate, read_u32.
  repeat (apply reads_nothing_bind; [try apply reads_nothing_byte_at|intros ?]);
    apply reads_nothing_ret.
Qed.

(** X1: [pick_ i] brings the slot at depth [i] to the top and [put_ i] takes
    the top to depth [i]; the slots in between keep their order.  With [i]
    at or beyond the length of the stack both read below the stack. *)
Theorem pick_put_move_one_slot c env pc n s front v rest pc' :
  readImmediate c pc s = Ok (Z.of_nat (length front), pc') s ->
  (ostack s = front ++ v :: rest ->
   ins_pick_ c env pc n s = Ok pc' (set_ostack (v :: front ++ rest) s))
  /\ (ostack s = v :: front ++ rest ->
      ins_put_ c env pc n s = Ok pc' (set_ostack (front ++ v :: rest) s))
  /\ ((length (ostack s) <= length front)%nat ->
      ins_pick_ c env pc n s = Undef "ostack_at below the stack"
      /\ ins_put_ c env pc n s = Undef "ostack_at below the stack").
Proof.
  intros Ei. split; [apply ins_pick_Ok, Ei|]. split; [apply ins_put_Ok, Ei|].
  intros Hl. unfold ins_pick_, ins_put_. rewrite !(bind_Ok _ _ _ _ _ Ei). cbn [fst snd].
  rewrite Nat2Z.id. split.
  - unfold bind, ostack_at. rewrite lookup_ge_None_2 by lia. reflexivity.
  - destruct (ostack s) as [|x o] eqn:E; [unfold bind, ostack_at; rewrite E; reflexivity|].
    assert (E0 : ostack s !! 0%nat = Some x) by (rewrite E; reflexivity).
    rewrite (bind_Ok _ _ _ _ _ (ostack_at_Ok _ _ _ E0)).
    unfold bind at 1. rewrite put_loop_underflow; [reflexivity| |rewrite E; cbn in *; lia].
    cbn in Hl. lia.
Qed.

(** X2: [put_ i] undoes [pick_ i] and [pick_ i] undoes [put_ i], on every
    stack with more than [i] slots. *)
Theorem pick_put_round_trip c env pc1 pc2 n s i pc1' pc2' :
  readImmediate c pc1 s = Ok (Z.of_nat i, pc1') s ->
  readImmediate c pc2 s = Ok (Z.of_nat i, pc2') s ->
  (i < length (ostack s))%nat ->
  (ins_pick_ c env pc1 n ;; ins_put_ c env pc2 n) s = Ok pc2' s
  /\ (ins_put_ c env pc1 n ;; ins_pick_ c env pc2 n) s = Ok pc2' s.
Proof.
  intros E1 E2 Hl.
  pose proof (proj2 (readImmediate_reads_nothing c pc2 _ _ _ E2)) as E2'.
  split.
  - assert (Es : ostack s = take i (ostack s) ++ drop i (ostack s)) by (symmetry; apply take_drop).
    destruct (drop i (ostack s)) as [|v rest] eqn:Ed.
    { apply (f_equal length) in Ed. rewrite length_drop in Ed. cbn in Ed. lia. }
    assert (Hi : length (take i (ostack s)) = i) by (rewrite length_take; lia).
    rewrite <- Hi in E1.
    rewrite (bind_Ok _ _ _ _ _ (ins_pick_Ok c env pc1 n s _ v rest pc1' E1 Es)).
    erewrite ins_put_Ok; [|rewrite Hi; apply E2'|reflexivity].
    rewrite set_ostack_twice, <- Es, set_ostack_id. reflexivity.
  - destruct (ostack s) as [|v o] eqn:Eo; [cbn in Hl; lia|]. cbn in Hl.
    assert (Es : o = take i o ++ drop i o) by (symmetry; apply take_drop).
    assert (Hi : length (take i o) = i) by (rewrite length_take; lia).
    rewrite <- Hi in E1.
    assert (Eo' : ostack s = v :: take i o ++ drop i o) by (rewrite <- Es; exact Eo).
    rewrite (bind_Ok _ _ _ _ _ (ins_put_Ok c env pc1 n s _ v _ pc1' E1 Eo')).
    erewrite ins_pick_Ok; [|rewrite Hi; apply E2'|reflexivity].
    rewrite set_ostack_twice, <- Es, <- Eo, set_ostack_id. reflexivity.
Qed.

End StackShuffles.


Lemma pick_put_move_one_slot_witness :
  ins_pick_ code_pick_put R_BaseEnv 1 0 state_four
  = Ok 5 (set_ostack [R_NilValue; R_TrueValue; R_FalseValue; R_LogicalNAValue] state_four).
Proof.
  exact (proj1 (pick_put_move_one_slot code_pick_put R_BaseEnv 1 0 state_four
                  [R_TrueValue; R_FalseValue] R_NilValue [R_LogicalNAValue] 5 eq_refl) eq_refl).
Defined.

Lemma pick_put_round_trip_witness :
  (ins_pick_ code_pick_put R_BaseEnv 1 0 ;;
   ins_put_ code_pick_put R_BaseEnv 6 0) state_four = Ok 10 state_four.
Proof.
  refine (proj1 (pick_put_round_trip code_pick_put R_BaseEnv 1 6 0 state_four
                   2%nat 5 10 eq_refl eq_refl _)).
  cbn. lia.
Defined.

Section TypeTests.
Context {H : Host}.

Lemma typeof_test s x t (f : SEXPTYPE -> bool) :
  has_type s x t -> (ty <- TYPEOF x ;; ret (f ty)) s = Ok (f t) s.
Proof. intros T. rewrite (bind_Ok _ _ _ _ _ (TYPEOF_Ok _ _ _ T)). reflexivity. Qed.

(** X3: [is_] pops a value and pushes [TRUE] or [FALSE] for a type test that
    is exact for NILSXP, LGLSXP and REALSXP only: the test for VECSXP also
    accepts a pairlist and the test for LISTSXP also accepts [NULL].  Any
    other immediate runs into [assert(false)]; with assertions compiled out
    the answer is read uninitialised. *)
Theorem is_type_table c env pc n s test rest i pc' t :
  ostack s = test :: rest ->
  readImmediate c pc s = Ok (i, pc') s ->
  has_type s test t ->
  (i = NILSXP \/ i = LGLSXP \/ i = REALSXP ->
   ins_is_ c env pc n s
   = Ok pc' (set_ostack ((if t =? i then R_TrueValue else R_FalseValue) :: rest) s))
  /\ (i = VECSXP ->
      ins_is_ c env pc n s
      = Ok pc' (set_ostack ((if (t =? VECSXP) || (t =? LISTSXP)
                             then R_TrueValue else R_FalseValue) :: rest) s))
  /\ (i = LISTSXP ->
      ins_is_ c env pc n s
      = Ok pc' (set_ostack ((if (t =? LISTSXP) || (t =? NILSXP)
                             then R_TrueValue else R_FalseValue) :: rest) s))
  /\ (i <> NILSXP -> i <> LGLSXP -> i <> REALSXP -> i <> VECSXP -> i <> LISTSXP ->
      (NDEBUG = false -> ins_is_ c env pc n s = AssertFail "false")
      /\ (NDEBUG = true -> ins_is_ c env pc n s = Undef "res is read uninitialised")).
Proof.
  intros Hst Ei T.
  pose proof (proj2 (readImmediate_reads_nothing c pc _ _ _ Ei) (set_ostack rest s)) as Ei'.
  assert (T' : has_type (set_ostack rest s) test t) by exact T.
  unfold ins_is_. rewrite (bind_Ok _ _ _ _ _ (pop_Ok _ _ _ Hst)), (bind_Ok _ _ _ _ _ Ei').
  cbn [fst snd].
  split; [|split; [|split]].
  - intros Hi.
    assert (E : (i =? NILSXP) || (i =? LGLSXP) || (i =? REALSXP) = true).
    { destruct Hi as [->| [->| ->]]; reflexivity. }
    rewrite E. rewrite (bind_Ok _ _ _ _ _ (typeof_test _ _ _ (fun ty => ty =? i) T')).
    reflexivity.
  - intros ->. cbn [Z.eqb VECSXP NILSXP LGLSXP REALSXP orb Pos.eqb].
    rewrite (bind_Ok _ _ _ _ _ (typeof_test _ _ _ (fun ty => (ty =? 19) || (ty =? LISTSXP)) T')).
    reflexivity.
  - intros ->. cbn [Z.eqb VECSXP LISTSXP NILSXP LGLSXP REALSXP orb Pos.eqb].
    rewrite (bind_Ok _ _ _ _ _ (typeof_test _ _ _ (fun ty => (ty =? 2) || (ty =? NILSXP)) T')).
    reflexivity.
  - intros N1 N2 N3 N4 N5.
    apply Z.eqb_neq in N1, N2, N3, N4, N5. rewrite N1, N2, N3, N4, N5. cbn [orb].
    split; intros N.
    + apply bind_AssertFail, bind_AssertFail. apply assert_false_enabled, N.
    + unfold bind. rewrite (assert_disabled _ _ _ N). reflexivity.
Qed.

End TypeTests.

Lemma is_type_table_witness :
  ins_is_ (H := refHost) code_is_list R_BaseEnv 1 0 state_nil_on_top
  = Ok 5 (set_ostack [R_TrueValue] state_nil_on_top).
Proof.
  assert (T : has_type state_nil_on_top R_NilValue NILSXP).
  { split; [discriminate|]. eexists. split; reflexivity. }
  exact (proj1 (proj2 (proj2 (is_type_table (H := refHost) code_is_list R_BaseEnv 1 0
           state_nil_on_top R_NilValue [] LISTSXP 5 NILSXP eq_refl eq_refl T))) eq_refl).
Defined.

Section Counters.
Context {H : Host}.

Lemma to_int32_succ i :
  -2147483648 <= i < 2147483647 -> to_int32 ((i + 1) mod 4294967296) = i + 1.
Proof.
  intros Hi. unfold to_int32. destruct (Z_lt_le_dec (i + 1) 0) as [Hn|Hp].
  - assert (E : (i + 1) mod 4294967296 = i + 1 + 4294967296).
    { replace (i + 1) with ((i + 1 + 4294967296) + (-1) * 4294967296) at 1 by lia.
      rewrite Z_mod_plus_full. apply Z.mod_small. lia. }
    rewrite E.
    destruct (Z.ltb_spec (i + 1 + 4294967296) 2147483648); lia.
  - rewrite Z.mod_small by lia.
    destruct (Z.ltb_spec (i + 1) 2147483648); lia.
Qed.

Lemma SET_INTEGER0_Ok s x r i d v :
  x <> NULL -> heap s !! x = Some r -> u r = u_ints (i :: d) ->
  SET_INTEGER0 x v s = Ok tt (set_heap (<[x := with_u (u_ints (v :: d)) r]> (heap s)) s).
Proof.
  intros Hn Hl Hu. unfold SET_INTEGER0.
  rewrite (bind_Ok _ _ _ _ _ (deref_Ok _ _ _ Hn Hl)), Hu.
  apply (store_Ok _ _ r); assumption.
Qed.

(** X5: [inc_] adds one to the integer on top of the stack.  An object that
    is not shared (NAMED at most 1) is updated in place; a shared one is left
    as it is and replaced on the stack by a fresh integer scalar. *)
Theorem inc_in_place_unless_shared c env pc n s x rest r i d :
  ostack s = x :: rest ->
  x <> NULL -> heap s !! x = Some r ->
  sx_type (sxpinfo r) = INTSXP -> u r = u_ints (i :: d) ->
  -2147483648 <= i < 2147483647 ->
  (sx_named (sxpinfo r) <= 1 ->
   ins_inc_ c env pc n s
   = Ok pc (set_heap (<[x := with_u (u_ints (i + 1 :: d)) r]> (heap s)) s))
  /\ (1 < sx_named (sxpinfo r) ->
      ins_inc_ c env pc n s
      = Ok pc (set_ostack (length (heap s) :: rest)
                 (set_heap (heap s ++ [new_sexp INTSXP (u_ints [i + 1])]) s))).
Proof.
  intros Hst Hn Hl Ht Hu Hi.
  assert (T : (t <- TYPEOF x ;; ret (t =? INTSXP)) s = Ok true s).
  { rewrite (typeof_test s x INTSXP (fun t => t =? INTSXP)); [reflexivity|].
    split; [exact Hn|]. exists r. auto. }
  assert (I : INTEGER0 x s = Ok i s).
  { apply INTEGER0_Ok. split; [exact Hn|]. exists r, d. auto. }
  unfold ins_inc_.
  rewrite (bind_Ok _ _ _ _ _ (top_Ok _ _ _ Hst)).
  rewrite (bind_Ok _ _ _ _ _ (assertM_true _ _ _ T)).
  rewrite (bind_Ok _ _ _ _ _ I).
  unfold MAYBE_SHARED.
  rewrite to_int32_succ by exact Hi.
  split; intros Hs.
  - assert (E : (k <- NAMED x ;; ret (1 <? k)) s = Ok false s).
    { rewrite (bind_Ok _ _ _ _ _ (NAMED_Ok _ _ _ Hn Hl)). unfold ret. f_equal.
      apply Z.ltb_ge. exact Hs. }
    rewrite (bind_Ok _ _ _ _ _ E).
    rewrite (bind_Ok _ _ _ _ _ (SET_INTEGER0_Ok _ _ _ _ _ (i + 1) Hn Hl Hu)). reflexivity.
  - assert (E : (k <- NAMED x ;; ret (1 <? k)) s = Ok true s).
    { rewrite (bind_Ok _ _ _ _ _ (NAMED_Ok _ _ _ Hn Hl)). unfold ret. f_equal.
      apply Z.ltb_lt. exact Hs. }
    rewrite (bind_Ok _ _ _ _ _ E).
    assert (Hne : length (heap s) <> NULL) by (eapply valid_heap_nonempty; eauto).
    assert (B : (ostack_pop ;; nn <- allocInt1 INTSXP ;; SET_INTEGER0 nn (i + 1) ;;
                 ostack_push nn) s
                = Ok tt (set_ostack (length (heap s) :: rest)
                           (set_heap (heap s ++ [new_sexp INTSXP (u_ints [i + 1])]) s))).
    { rewrite (bind_Ok _ _ _ _ _ (pop_Ok _ _ _ Hst)).
      unfold allocInt1. unfold bind at 1. unfold alloc at 1. cbn [heap set_ostack].
      set (s3 := set_heap _ _).
      assert (L : heap s3 !! length (heap s) = Some (new_sexp INTSXP (u_ints [0])))
        by apply lookup_fresh.
      rewrite (bind_Ok _ _ _ _ _ (SET_INTEGER0_Ok s3 _ _ 0 [] (i + 1) Hne L eq_refl)).
      unfold ostack_push, modify. cbn. rewrite insert_fresh. reflexivity. }
    rewrite (bind_Ok _ _ _ _ _ B). reflexivity.
Qed.

End Counters.

Lemma inc_in_place_unless_shared_witness :
  ins_inc_ (H := refHost) code_empty R_BaseEnv 0 0 (state_counter 2)
  = Ok 0 (set_ostack [length (heap (state_counter 2))]
            (set_heap (heap (state_counter 2) ++ [new_sexp INTSXP (u_ints [42])])
               (state_counter 2))).
Proof.
  refine (proj2 (inc_in_place_unless_shared (H := refHost) code_empty R_BaseEnv 0 0
                   (state_counter 2) first_free [] (int_scalar 2 41) 41 []
                   eq_refl _ eq_refl eq_refl eq_refl _) _).
  - discriminate.
  - lia.
  - cbn. lia.
Defined.

Section Comparison.
Context {H : Host}.

(** X4: on two scalar reals [lt_] pops both and pushes the shared [TRUE]
    when the left one is smaller and the shared [FALSE] otherwise; the real
    vector it allocates is left unused on the heap.  For operands of any
    other shape it reaches [NOT_IMPLEMENTED]: an abort, or with assertions
    compiled out two values popped and none pushed. *)
Theorem lt_scalar_reals c env pc n st rhs lhs rest :
  ostack st = rhs :: lhs :: rest ->
  (forall a b,
     has_type st lhs REALSXP -> has_type st rhs REALSXP ->
     Rf_length (set_ostack rest st) lhs = 1 -> Rf_length (set_ostack rest st) rhs = 1 ->
     first_real st lhs a -> first_real st rhs b ->
     ins_lt_ c env pc n st
     = Ok pc (set_ostack ((if PrimFloat.ltb a b then R_TrueValue else R_FalseValue) :: rest)
                (set_heap (heap st ++ [real_result 0%float]) st)))
  /\ (both_scalar_real lhs rhs (set_ostack rest st) = Ok false (set_ostack rest st) ->
      (NDEBUG = false -> ins_lt_ c env pc n st = AssertFail "false")
      /\ (NDEBUG = true -> ins_lt_ c env pc n st = Ok pc (set_ostack rest st))).
Proof.
  intros Hst. split.
  - intros a b T1 T2 L1 L2 R1 R2.
    assert (B : (r <- ostack_pop ;; l <- ostack_pop ;; fast <- both_scalar_real l r ;;
                 (if (fast : bool)
                  then res <- allocReal1 ;; SET_NAMED res 1 ;;
                       x <- REAL0 l ;; y <- REAL0 r ;;
                       ostack_push (if PrimFloat.ltb x y then R_TrueValue else R_FalseValue)
                  else NOT_IMPLEMENTED) ;; ret pc) st
                = Ok pc (set_ostack ((if PrimFloat.ltb a b then R_TrueValue else R_FalseValue)
                                       :: rest)
                           (set_heap (heap st ++ [real_result 0%float]) st))); [|exact B].
    rewrite (bind_Ok _ _ _ _ _ (pop_Ok _ _ _ Hst)).
    rewrite (bind_Ok _ _ _ lhs (set_ostack rest st)) by reflexivity.
    rewrite (bind_Ok _ _ _ _ _ (both_scalar_real_true (set_ostack rest st) lhs rhs T1 T2 L1 L2)).
    set (s2 := set_ostack rest st).
    assert (Hne : length (heap st) <> NULL).
    { destruct T1 as [Hn (r & Hl & _)]. eapply valid_heap_nonempty; eauto. }
    assert (F : (res <- allocReal1 ;; SET_NAMED res 1 ;;
                 x <- REAL0 lhs ;; y <- REAL0 rhs ;;
                 ostack_push (if PrimFloat.ltb x y then R_TrueValue else R_FalseValue)) s2
                = Ok tt (set_ostack ((if PrimFloat.ltb a b then R_TrueValue else R_FalseValue)
                                       :: rest)
                           (set_heap (heap st ++ [real_result 0%float]) st))).
    { unfold allocReal1. unfold bind at 1. unfold alloc at 1. cbn [heap s2 set_ostack].
      set (s3 := set_heap _ s2).
      assert (H3 : heap s3 = heap st ++ [new_sexp REALSXP (u_reals [0%float])]) by reflexivity.
      rewrite (bind_Ok _ _ _ _ _ (SET_NAMED_fresh s3 _ _ 1 H3 Hne)).
      set (s4 := set_heap _ s3).
      assert (R1' : first_real s4 lhs a).
      { destruct R1 as [Hn (r & d & Hl & Hu)]. split; [exact Hn|]. exists r, d.
        split; [|exact Hu]. apply lookup_app_l_Some. exact Hl. }
      assert (R2' : first_real s4 rhs b).
      { destruct R2 as [Hn (r & d & Hl & Hu)]. split; [exact Hn|]. exists r, d.
        split; [|exact Hu]. apply lookup_app_l_Some. exact Hl. }
      rewrite (bind_Ok _ _ _ _ _ (REAL0_Ok _ _ _ R1')), (bind_Ok _ _ _ _ _ (REAL0_Ok _ _ _ R2')).
      reflexivity. }
    rewrite (bind_Ok _ _ _ _ _ F). reflexivity.
  - intros B.
    split; intros N.
    + unfold ins_lt_.
      rewrite (bind_Ok _ _ _ _ _ (pop_Ok _ _ _ Hst)).
      rewrite (bind_Ok _ _ _ lhs (set_ostack rest st)) by reflexivity.
      rewrite (bind_Ok _ _ _ _ _ B).
      apply bind_AssertFail, assert_false_enabled, N.
    + unfold ins_lt_.
      rewrite (bind_Ok _ _ _ _ _ (pop_Ok _ _ _ Hst)).
      rewrite (bind_Ok _ _ _ lhs (set_ostack rest st)) by reflexivity.
      rewrite (bind_Ok _ _ _ _ _ B).
      unfold NOT_IMPLEMENTED. rewrite (bind_Ok _ _ _ _ _ (assert_disabled _ _ _ N)).
      reflexivity.
Qed.

End Comparison.

Lemma lt_scalar_reals_witness :
  ins_lt_ (H := refHost) code_empty R_BaseEnv 0 0 state_reals
  = Ok 0 (set_ostack [R_TrueValue]
            (set_heap (heap state_reals ++ [real_result 0%float]) state_reals)).
Proof.
  assert (T1 : has_type state_reals first_free REALSXP).
  { split; [discriminate|]. eexists. split; reflexivity. }
  assert (T2 : has_type state_reals (S first_free) REALSXP).
  { split; [discriminate|]. eexists. split; reflexivity. }
  assert (R1 : first_real state_reals first_free 1%float).
  { split; [discriminate|]. eexists _, _. split; reflexivity. }
  assert (R2 : first_real state_reals (S first_free) 2%float).
  { split; [discriminate|]. eexists _, _. split; reflexivity. }
  exact (proj1 (lt_scalar_reals (H := refHost) code_empty R_BaseEnv 0 0 state_reals
                  (S first_free) first_free [] eq_refl)
           1%float 2%float T1 T2 eq_refl eq_refl R1 R2).
Defined.

Section Promises.
Context {H : Host}.

(** X6: [force_] on a promise that already holds a value pushes that value
    and marks it shared (NAMED 2) without asking the host; on a promise whose
    value slot is unbound it pushes what the host's [forcePromise] returns. *)
Theorem force_evaluated_promise c env pc n s p rest v code penv :
  ostack s = p :: rest ->
  has_type s p PROMSXP -> cell_of s p = Some (v, code, penv) ->
  (forall r, v <> NULL -> v <> R_UnboundValue ->
     heap s !! v = Some r -> (sx_type (sxpinfo r) =? PROMSXP) = false ->
     ins_force_ c env pc n s
     = Ok pc (set_ostack (v :: rest) (set_heap (<[v := with_named 2 r]> (heap s)) s)))
  /\ (forall x s1, v = R_UnboundValue ->
        forcePromise p (set_ostack rest s) = Ok x s1 ->
        ins_force_ c env pc n s
        = Ok pc (set_ostack (x :: ostack s1)
                   (set_hostLog (HC_forcePromise p :: hostLog s) s1))).
Proof.
  intros Hst T C.
  assert (Hp : p <> NULL) by apply T.
  assert (A : assertM (t <- TYPEOF p ;; ret (t =? PROMSXP)) "TYPEOF(p) == PROMSXP"
                (set_ostack rest s) = Ok tt (set_ostack rest s)).
  { apply assertM_true. apply (typeof_test (set_ostack rest s) p PROMSXP (fun t => t =? PROMSXP)).
    exact T. }
  assert (V : PRVALUE p (set_ostack rest s) = Ok v (set_ostack rest s)).
  { apply (CAR_Ok (set_ostack rest s) p v code penv Hp). exact C. }
  unfold ins_force_.
  rewrite (bind_Ok _ _ _ _ _ (pop_Ok _ _ _ Hst)), (bind_Ok _ _ _ _ _ A).
  split.
  - intros r Hv Hu L Ty.
    assert (P : promiseValue p (set_ostack rest s)
                = Ok v (set_heap (<[v := with_named 2 r]> (heap s)) (set_ostack rest s))).
    { unfold promiseValue. rewrite (bind_Ok _ _ _ _ _ V).
      apply Nat.eqb_neq in Hv, Hu. rewrite Hv, Hu. cbn [negb andb].
      apply Nat.eqb_neq in Hv.
      assert (Tv : has_type (set_ostack rest s) v (sx_type (sxpinfo r))).
      { split; [exact Hv|]. exists r. auto. }
      erewrite bind_Ok;
        [|apply assertM_true;
          rewrite (typeof_test _ _ _ (fun t => negb (t =? PROMSXP)) Tv), Ty; reflexivity].
      rewrite (bind_Ok _ _ _ _ _ (SET_NAMED_Ok (set_ostack rest s) v r 2 Hv L)). reflexivity. }
    rewrite (bind_Ok _ _ _ _ _ P). reflexivity.
  - intros x s1 -> F.
    assert (P : promiseValue p (set_ostack rest s)
                = Ok x (set_hostLog (HC_forcePromise p :: hostLog s) s1)).
    { unfold promiseValue. rewrite (bind_Ok _ _ _ _ _ V). cbn [Nat.eqb negb andb].
      rewrite Nat.eqb_refl. cbn [negb andb]. apply (hostcall_Ok _ _ _ _ _ F). }
    rewrite (bind_Ok _ _ _ _ _ P). reflexivity.
Qed.

(** X7: the guard of [escape], [assert(!TYPEOF(val) != 31)], holds for every
    type: a value that is no code object comes back unchanged, whatever its
    type tag, and a code object comes back as the AST its source index names
    in the source pool. *)
Theorem escape_guard_is_void val s r t :
  val <> NULL -> heap s !! val = Some r -> sx_type (sxpinfo r) = t ->
  (isValidCodeObject val s = Ok false s -> escape val s = Ok val s)
  /\ (forall k ast ta,
        u r = u_code k -> src_pool s !! csrc k = Some ast -> has_type s ast ta ->
        escape val s = Ok ast s).
Proof.
  intros Hn L Ht. split.
  - intros E. apply (escaped_escape val s val t).
    + unfold isValidCodeObject in E. rewrite L in E. unfold escaped. rewrite L.
      destruct (u r); try reflexivity. discriminate.
    + split; [exact Hn|]. exists r. auto.
  - intros k ast ta U P T. apply (escaped_escape val s ast ta); [|exact T].
    unfold escaped. rewrite L, U. apply Nat.eqb_neq in Hn. rewrite Hn. exact P.
Qed.

(** X8: [close_] pops the body and, below it, the formals, and pushes a fresh
    closure made of the two and the current environment; neither operand is
    inspected. *)
Theorem close_builds_closure c env pc n s body formals rest :
  ostack s = body :: formals :: rest -> heap s <> [] ->
  ins_close_ c env pc n s
  = Ok pc (set_ostack (length (heap s) :: rest)
             (set_heap (heap s ++ [new_sexp CLOSXP (u_cons formals body env)]) s)).
Proof.
  intros Hst Hh.
  assert (Hne : length (heap s) <> NULL) by (destruct (heap s); [contradiction|discriminate]).
  unfold ins_close_.
  rewrite (bind_Ok _ _ _ _ _ (pop_Ok _ _ _ Hst)).
  rewrite (bind_Ok _ _ _ formals (set_ostack rest s)) by reflexivity.
  unfold allocSExp. unfold bind at 1. unfold alloc at 1. cbn [heap set_ostack].
  set (x := length (heap s)). set (s1 := set_heap _ _).
  assert (Hx : x <> NULL) by exact Hne.
  assert (L1 : heap s1 !! x = Some (new_sexp CLOSXP (u_cons R_NilValue R_NilValue R_NilValue)))
    by apply lookup_fresh.
  assert (E1 : SET_FORMALS x formals s1
               = Ok tt (set_heap (heap s ++ [new_sexp CLOSXP (u_cons formals R_NilValue R_NilValue)]) s1)).
  { unfold SET_FORMALS, SETCAR. rewrite (bind_Ok _ _ _ _ _ (deref_Ok _ _ _ Hx L1)).
    erewrite bind_Ok; [|apply (slots_Ok s1 x (R_NilValue, R_NilValue, R_NilValue) Hx);
                        unfold cell_of; unfold SEXP in *; rewrite L1; reflexivity].
    rewrite (store_Ok _ _ _ _ Hx L1). cbn [heap s1 set_heap]. unfold x.
    rewrite insert_fresh. reflexivity. }
  rewrite (bind_Ok _ _ _ _ _ E1). set (s2 := set_heap _ s1).
  assert (L2 : heap s2 !! x = Some (new_sexp CLOSXP (u_cons formals R_NilValue R_NilValue)))
    by apply lookup_fresh.
  assert (E2 : SET_BODY x body s2
               = Ok tt (set_heap (heap s ++ [new_sexp CLOSXP (u_cons formals body R_NilValue)]) s2)).
  { unfold SET_BODY, SETCDR. rewrite (bind_Ok _ _ _ _ _ (deref_Ok _ _ _ Hx L2)).
    erewrite bind_Ok; [|apply (slots_Ok s2 x (formals, R_NilValue, R_NilValue) Hx);
                        unfold cell_of; unfold SEXP in *; rewrite L2; reflexivity].
    rewrite (store_Ok _ _ _ _ Hx L2). cbn [heap s2 set_heap]. unfold x.
    rewrite insert_fresh. reflexivity. }
  rewrite (bind_Ok _ _ _ _ _ E2). set (s3 := set_heap _ s2).
  assert (L3 : heap s3 !! x = Some (new_sexp CLOSXP (u_cons formals body R_NilValue)))
    by apply lookup_fresh.
  assert (E3 : SET_CLOENV x env s3
               = Ok tt (set_heap (heap s ++ [new_sexp CLOSXP (u_cons formals body env)]) s3)).
  { unfold SET_CLOENV, SET_TAG. rewrite (bind_Ok _ _ _ _ _ (deref_Ok _ _ _ Hx L3)).
    erewrite bind_Ok; [|apply (slots_Ok s3 x (formals, body, R_NilValue) Hx);
                        unfold cell_of; unfold SEXP in *; rewrite L3; reflexivity].
    rewrite (store_Ok _ _ _ _ Hx L3). cbn [heap s3 set_heap]. unfold x.
    rewrite insert_fresh. reflexivity. }
  rewrite (bind_Ok _ _ _ _ _ E3). reflexivity.
Qed.

End Promises.

Lemma force_evaluated_promise_witness :
  ins_force_ (H := refHost) code_empty R_BaseEnv 0 0 (state_holding_promise (S first_free))
  = Ok 0 (set_ostack [S first_free]
            (set_heap (<[S first_free := with_named 2 (int_scalar 0 7)]>
                         (heap (state_holding_promise (S first_free))))
               (state_holding_promise (S first_free)))).
Proof.
  assert (T : has_type (state_holding_promise (S first_free)) first_free PROMSXP).
  { split; [discriminate|]. eexists. split; reflexivity. }
  refine (proj1 (force_evaluated_promise (H := refHost) code_empty R_BaseEnv 0 0
                   (state_holding_promise (S first_free)) first_free [] (S first_free)
                   symbol.While R_BaseEnv eq_refl T eq_refl)
            (int_scalar 0 7) _ _ eq_refl eq_refl); discriminate.
Defined.

Lemma escape_guard_is_void_witness :
  escape (H := refHost) first_free state_tag_31 = Ok first_free state_tag_31.
Proof.
  refine (proj1 (escape_guard_is_void (H := refHost) first_free state_tag_31
                   (mkSexp (mkInfo 31 false 0 0) R_NilValue (u_int 0)) 31 _ eq_refl eq_refl)
            eq_refl).
  discriminate.
Defined.

Lemma close_builds_closure_witness :
  ins_close_ code_empty R_BaseEnv 0 0 state_two_slots
  = Ok 0 (set_ostack [length (heap state_two_slots); R_TrueValue]
            (set_heap (heap state_two_slots
                         ++ [new_sexp CLOSXP (u_cons R_NilValue symbol.While R_BaseEnv)])
               state_two_slots)).
Proof.
  refine (close_builds_closure code_empty R_BaseEnv 0 0 state_two_slots
            symbol.While R_NilValue [R_TrueValue] eq_refl _).
  discriminate.
Defined.

Section Continuations.
Context {H : Host}.

Lemma restoreCont_Ok k s :
  (stackPointer k <= length (ostack s))%nat ->
  restoreCont k s
  = Ok tt (set_ostack (drop (length (ostack s) - stackPointer k) (ostack s)) s).
Proof.
  intros Hk. unfold restoreCont, ostack_length.
  rewrite (bind_Ok _ _ _ (length (ostack s)) s) by reflexivity.
  rewrite (bind_Ok _ _ _ _ _ (SLOWASSERT_true _ _ s (proj2 (Nat.leb_le _ _) Hk))).
  unfold rl_setLength. destruct (decide _) as [_|N]; [reflexivity|contradiction].
Qed.

Lemma restoreCont_cuts l o s :
  ostack s = l ++ o ->
  restoreCont (mkRirContext (length o) None) s = Ok tt (set_ostack o s).
Proof.
  intros E. rewrite restoreCont_Ok; cbn [stackPointer]; rewrite E, length_app; [|lia].
  replace (length l + length o - length o)%nat with (length l) by lia.
  rewrite drop_app_length. reflexivity.
Qed.

(** X9: [createRirClosureContext] pushes the store of the new context and
    records in its continuation the height of the stack with the store on it;
    [restoreCont] on that continuation drops whatever was pushed since and
    leaves the store on top. *)
Theorem closure_context_marks_stack call_ast env parent args op s g gs :
  R_GlobalContext s = g :: gs -> heap s <> [] ->
  exists s1,
    createRirClosureContext call_ast env parent args op s = Ok (length (heap s)) s1
    /\ ostack s1 = length (heap s) :: ostack s
    /\ get_continuation (length (heap s)) s1
       = Ok (mkRirContext (S (length (ostack s))) None) s1
    /\ forall l,
         (k <- get_continuation (length (heap s)) ;; restoreCont k)
           (set_ostack (l ++ ostack s1) s1) = Ok tt s1.
Proof.
  intros Hg Hh.
  assert (Hne : length (heap s) <> NULL) by (destruct (heap s); [contradiction|discriminate]).
  set (x := length (heap s)).
  set (k := mkRirContext (S (length (ostack s))) None).
  set (frame := mkRCNTXT x CTXT_RETURN args op
                  (if callflag g =? CTXT_GENERIC then sysparent g else parent)
                  call_ast env 0).
  set (s1 := set_heap (heap s ++ [with_u (u_cntxt k) (new_sexp RAWSXP (u_cntxt (mkRirContext 0 None)))])
               (set_R_GlobalContext (frame :: g :: gs)
                  (set_ostack (x :: ostack s) s))).
  assert (L : heap s1 !! x = Some (with_u (u_cntxt k) (new_sexp RAWSXP (u_cntxt (mkRirContext 0 None)))))
    by apply lookup_fresh.
  assert (G : forall st, heap st !! x = heap s1 !! x ->
                get_continuation x st = Ok k st).
  { intros st E. unfold get_continuation. rewrite L in E.
    rewrite (bind_Ok _ _ _ _ _ (deref_Ok _ _ _ Hne E)). reflexivity. }
  exists s1. split; [|split; [reflexivity|split; [apply G; reflexivity|]]].
  - unfold createRirClosureContext, alloc_cntxt_store.
    unfold bind at 1. unfold alloc at 1. fold x.
    set (s2 := set_heap _ s).
    rewrite (bind_Ok _ _ _ tt (set_ostack (x :: ostack s) s2)) by reflexivity.
    set (s3 := set_ostack _ s2).
    assert (C : current_context s3 = Ok g s3) by (unfold current_context; cbn; rewrite Hg; reflexivity).
    rewrite (bind_Ok _ _ _ _ _ C).
    assert (B : (if callflag g =? CTXT_GENERIC
                 then Rf_begincontext x CTXT_RETURN call_ast env (sysparent g) args op
                 else Rf_begincontext x CTXT_RETURN call_ast env parent args op) s3
                = Ok tt (set_R_GlobalContext (frame :: g :: gs) s3)).
    { unfold frame. destruct (callflag g =? CTXT_GENERIC);
        unfold Rf_begincontext, modify; cbn; rewrite Hg; reflexivity. }
    rewrite (bind_Ok _ _ _ _ _ B). set (s4 := set_R_GlobalContext _ s3).
    unfold ostack_length.
    rewrite (bind_Ok _ _ _ (S (length (ostack s))) s4) by reflexivity.
    assert (S4 : heap s4 = heap s ++ [new_sexp RAWSXP (u_cntxt (mkRirContext 0 None))])
      by reflexivity.
    unfold set_continuation.
    rewrite (bind_Ok _ _ _ _ _ (update_fresh s4 (heap s) _ (with_u (u_cntxt k)) S4 Hne)).
    reflexivity.
  - intros l. rewrite (bind_Ok _ _ _ _ _ (G (set_ostack (l ++ ostack s1) s1) eq_refl)).
    rewrite (restoreCont_cuts l (ostack s1)) by reflexivity.
    rewrite set_ostack_twice, set_ostack_id. reflexivity.
Qed.

End Continuations.

Section Trampoline.
Context {H : Host}.
Variable fuel : nat.
Variable rec : SEXP -> SEXP -> Z -> M SEXP.

(** X10: [rirCallTrampoline] lets a long jump to any other context pass, and
    turns a long jump to its own context into a return of [R_ReturnedValue]
    with the stack cut back to the height its continuation recorded.  A
    normal return of the code is passed on as it is. *)
Theorem trampoline_catches_own_jump cntxt code env nargs s :
  (forall v s1, rec code env nargs s = Ok v s1 ->
     rirCallTrampoline fuel rec cntxt code env nargs s = Ok v s1)
  /\ (forall t mask s1, rec code env nargs s = LongJmp t mask s1 ->
        Nat.eqb t cntxt = false ->
        rirCallTrampoline fuel rec cntxt code env nargs s = LongJmp t mask s1)
  /\ (forall mask s1 k, rec code env nargs s = LongJmp cntxt mask s1 ->
        get_continuation cntxt s1 = Ok k s1 ->
        (stackPointer k <= length (ostack s1))%nat ->
        Nat.eqb (R_ReturnedValue s1) R_RestartToken = false ->
        rirCallTrampoline fuel rec cntxt code env nargs s
        = Ok (R_ReturnedValue s1)
             (set_ostack (drop (length (ostack s1) - stackPointer k) (ostack s1)) s1)).
Proof.
  unfold rirCallTrampoline. cbn [rirCallTrampoline_loop]. unfold catch.
  split; [|split].
  - intros v s1 ->. reflexivity.
  - intros t mask s1 -> ->. reflexivity.
  - intros mask s1 k -> G Hk R. rewrite Nat.eqb_refl.
    rewrite (bind_Ok _ _ _ _ _ G), (bind_Ok _ _ _ _ _ (restoreCont_Ok k s1 Hk)).
    unfold gets at 1. unfold bind at 1. cbn [R_ReturnedValue set_ostack]. rewrite R.
    reflexivity.
Qed.

End Trampoline.

Lemma closure_context_marks_stack_witness :
  exists s1,
    createRirClosureContext R_NilValue R_BaseEnv R_BaseEnv R_NilValue R_NilValue state_four
    = Ok (length (heap state_four)) s1
    /\ ostack s1 = length (heap state_four) :: ostack state_four
    /\ get_continuation (length (heap state_four)) s1 = Ok (mkRirContext 5 None) s1
    /\ forall l,
         (k <- get_continuation (length (heap state_four)) ;; restoreCont (H := refHost) k)
           (set_ostack (l ++ ostack s1) s1) = Ok tt s1.
Proof.
  refine (closure_context_marks_stack (H := refHost) R_NilValue R_BaseEnv R_BaseEnv
            R_NilValue R_NilValue state_four toplevel_context [] eq_refl _).
  discriminate.
Defined.

Lemma trampoline_catches_own_jump_witness :
  rirCallTrampoline (H := refHost) 0 (fun _ _ _ => longjmp first_free 0)
    first_free R_NilValue R_BaseEnv 0 state_jump
  = Ok R_NilValue (set_ostack [first_free] state_jump).
Proof.
  refine (proj2 (proj2 (trampoline_catches_own_jump (H := refHost) 0
                          (fun _ _ _ => longjmp first_free 0)
                          first_free R_NilValue R_BaseEnv 0 state_jump))
            0 state_jump (mkRirContext 1 None) eq_refl eq_refl _ eq_refl).
  cbn. lia.
Defined.

Section Builtins.
Context {H : Host}.

Lemma prim_offset_inv f s i s' :
  prim_offset f s = Ok i s' ->
  s' = s /\ f <> NULL /\ exists r, heap s !! f = Some r /\ u r = u_int i.
Proof.
  unfold prim_offset. intros E. apply bind_Ok_inv in E as (r & s1 & E1 & E).
  apply deref_inv in E1 as (-> & Hn & L). destruct (u r) eqn:U; try discriminate.
  apply ret_inv in E as [<- <-]. eauto.
Qed.

Lemma prim_offset_Ok f s r i :
  f <> NULL -> heap s !! f = Some r -> u r = u_int i -> prim_offset f s = Ok i s.
Proof.
  intros Hn L U. unfold prim_offset. rewrite (bind_Ok _ _ _ _ _ (deref_Ok _ _ _ Hn L)), U.
  reflexivity.
Qed.

(** X11: a call of a builtin leaves the value stack as it found it, whatever
    the builtin left on it, and sets [R_Visible] from the print flag of the
    function table: visible for flag 0, invisible for flag 1, the builtin's
    own choice for flag 2. *)
Theorem builtin_call_restores_stack call_ast callee argslist env s f flag res s1 extra :
  getBuiltin callee s = Ok f s -> getFlag callee s = Ok flag s ->
  f call_ast callee argslist env
    (if flag <? 2 then set_R_Visible (negb (flag =? 1)) s else s) = Ok res s1 ->
  ostack s1 = extra ++ ostack s ->
  exists s',
    call_builtin call_ast callee argslist env s = Ok res s'
    /\ ostack s' = ostack s /\ heap s' = heap s1
    /\ hostLog s' = HC_cfun callee :: hostLog s
    /\ (flag = 0 -> R_Visible s' = true)
    /\ (flag = 1 -> R_Visible s' = false)
    /\ (2 <= flag -> R_Visible s' = R_Visible s1).
Proof.
  intros Eb Ef Er Eo.
  assert (Hb : forall st, heap st = heap s -> getBuiltin callee st = Ok f st).
  { intros st Hst. unfold getBuiltin in *. apply bind_Ok_inv in Eb as (i & s0 & E1 & E2).
    apply prim_offset_inv in E1 as (-> & Hn & r & L & U). apply ret_inv in E2 as [<- _].
    rewrite <- Hst in L. rewrite (bind_Ok _ _ _ _ _ (prim_offset_Ok _ _ _ _ Hn L U)).
    reflexivity. }
  assert (Hf : forall st, heap st = heap s -> getFlag callee st = Ok flag st).
  { intros st Hst. unfold getFlag in *. apply bind_Ok_inv in Ef as (i & s0 & E1 & E2).
    apply prim_offset_inv in E1 as (-> & Hn & r & L & U). apply ret_inv in E2 as [<- _].
    rewrite <- Hst in L. rewrite (bind_Ok _ _ _ _ _ (prim_offset_Ok _ _ _ _ Hn L U)).
    reflexivity. }
  set (s0 := if flag <? 2 then set_R_Visible (negb (flag =? 1)) s else s) in *.
  set (s2 := set_hostLog (HC_cfun callee :: hostLog s) s1).
  set (s3 := set_ostack (ostack s) s2).
  exists (if flag <? 2 then set_R_Visible (negb (flag =? 1)) s3 else s3).
  split.
  - unfold call_builtin. rewrite (bind_Ok _ _ _ _ _ Eb), (bind_Ok _ _ _ _ _ Ef).
    assert (E0 : when (flag <? 2) (set_visible_from flag) s = Ok tt s0).
    { unfold s0, when, set_visible_from. destruct (flag <? 2); reflexivity. }
    rewrite (bind_Ok _ _ _ _ _ E0).
    assert (Ek : current_cont s0 = Ok (mkRirContext (length (ostack s)) None) s0).
    { unfold current_cont, ostack_length, s0. destruct (flag <? 2); reflexivity. }
    rewrite (bind_Ok _ _ _ _ _ Ek).
    assert (Eh : hostcall (HC_cfun callee) (f call_ast callee argslist env) s0 = Ok res s2).
    { rewrite (hostcall_Ok _ _ _ _ _ Er). unfold s2, s0. destruct (flag <? 2); reflexivity. }
    rewrite (bind_Ok _ _ _ _ _ Eh).
    rewrite (bind_Ok _ _ _ _ _ (restoreCont_cuts extra (ostack s) s2 Eo)). fold s3.
    unfold when, set_visible_from. destruct (flag <? 2); reflexivity.
  - repeat split.
    + destruct (flag <? 2); reflexivity.
    + destruct (flag <? 2); reflexivity.
    + destruct (flag <? 2); reflexivity.
    + intros ->. reflexivity.
    + intros ->. reflexivity.
    + intros Hge. destruct (Z.ltb_spec flag 2); [lia|]. reflexivity.
Qed.

End Builtins.

Section Evaluation.
Context {H : Host}.
Variable rec : SEXP -> SEXP -> Z -> M SEXP.

(** X12: [rirEval] returns a value of a self-evaluating type as it is,
    marks it shared (NAMED 2) and sets [R_Visible]; it runs no code for it.
    It counts its calls: the call that finds the counter at 1000 asks the
    host for a pending interrupt and starts the count again. *)
Theorem rirEval_constant e env s r t :
  e <> NULL -> heap s !! e = Some r -> sx_type (sxpinfo r) = t -> In t self_evaluating ->
  (evalcount s < 1000 ->
   rirEval rec e env s
   = Ok e (let s0 := set_R_Visible true (set_evalcount (evalcount s + 1) s) in
           if sx_named (sxpinfo r) <=? 1
           then set_heap (<[e := with_named 2 r]> (heap s0)) s0 else s0))
  /\ (forall s1, 1000 <= evalcount s ->
        R_CheckUserInterrupt s = Ok tt s1 -> heap s1 !! e = Some r ->
        rirEval rec e env s
        = Ok e (let s0 := set_R_Visible true (set_evalcount 0 s1) in
                if sx_named (sxpinfo r) <=? 1
                then set_heap (<[e := with_named 2 r]> (heap s0)) s0 else s0)).
Proof.
  intros Hn L Ht Hin.
  assert (E1 : (t =? INTSXP) = false).
  { cbn in Hin. repeat (destruct Hin as [<-|Hin]; [reflexivity|]). contradiction. }
  assert (E2 : existsb (Z.eqb t) self_evaluating = true).
  { apply existsb_exists. exists t. split; [exact Hin|apply Z.eqb_refl]. }
  split.
  - intros Hc. unfold rirEval.
    rewrite (bind_Ok _ _ _ (evalcount s) s) by reflexivity.
    destruct (Z.ltb_spec 1000 (evalcount s + 1)) as [Hgt|_]; [lia|].
    rewrite (bind_Ok _ _ _ tt (set_evalcount (evalcount s + 1) s)) by reflexivity.
    rewrite (bind_Ok _ _ _ tt (set_R_Visible true (set_evalcount (evalcount s + 1) s)))
      by reflexivity.
    set (s0 := set_R_Visible true _).
    assert (T : has_type s0 e t) by (split; [exact Hn|]; exists r; auto).
    rewrite (bind_Ok _ _ _ _ _ (TYPEOF_Ok _ _ _ T)).
    rewrite E1, E2. rewrite (bind_Ok _ _ _ false s0) by reflexivity. cbn [orb].
    rewrite (bind_Ok _ _ _ _ _ (NAMED_Ok s0 _ _ Hn L)).
    destruct (sx_named (sxpinfo r) <=? 1); cbn [when].
    + rewrite (bind_Ok _ _ _ _ _ (SET_NAMED_Ok s0 _ _ 2 Hn L)). reflexivity.
    + reflexivity.
  - intros s1 Hc Ei L1. unfold rirEval.
    rewrite (bind_Ok _ _ _ (evalcount s) s) by reflexivity.
    destruct (Z.ltb_spec 1000 (evalcount s + 1)) as [_|Hle]; [|lia].
    assert (Et : (R_CheckUserInterrupt ;; modify (set_evalcount 0)) s
                 = Ok tt (set_evalcount 0 s1)).
    { rewrite (bind_Ok _ _ _ _ _ Ei). reflexivity. }
    rewrite (bind_Ok _ _ _ _ _ Et).
    rewrite (bind_Ok _ _ _ tt (set_R_Visible true (set_evalcount 0 s1))) by reflexivity.
    set (s0 := set_R_Visible true _).
    assert (T : has_type s0 e t) by (split; [exact Hn|]; exists r; auto).
    rewrite (bind_Ok _ _ _ _ _ (TYPEOF_Ok _ _ _ T)).
    rewrite E1, E2. rewrite (bind_Ok _ _ _ false s0) by reflexivity. cbn [orb].
    rewrite (bind_Ok _ _ _ _ _ (NAMED_Ok s0 _ _ Hn L1)).
    destruct (sx_named (sxpinfo r) <=? 1); cbn [when].
    + rewrite (bind_Ok _ _ _ _ _ (SET_NAMED_Ok s0 _ _ 2 Hn L1)). reflexivity.
    + reflexivity.
Qed.

End Evaluation.

Lemma builtin_call_restores_stack_witness :
  exists s',
    call_builtin (H := leaky_host) R_NilValue first_free R_NilValue R_BaseEnv state_builtin
    = Ok R_NilValue s'
    /\ ostack s' = [R_LogicalNAValue] /\ R_Visible s' = false.
Proof.
  destruct (builtin_call_restores_stack (H := leaky_host) R_NilValue first_free R_NilValue
              R_BaseEnv state_builtin leaky_builtin 1 R_NilValue
              (set_ostack [R_TrueValue; R_FalseValue; R_LogicalNAValue]
                 (set_R_Visible false state_builtin))
              [R_TrueValue; R_FalseValue] eq_refl eq_refl eq_refl eq_refl)
    as (s' & E & Ho & _ & _ & _ & V & _).
  exists s'. split; [exact E|]. split; [exact Ho|]. apply V. reflexivity.
Defined.

Lemma rirEval_constant_witness :
  rirEval (H := refHost) (fun _ _ _ => ret R_NilValue) first_free R_BaseEnv state_reals
  = Ok first_free
       (set_heap (<[first_free := with_named 2 (real_scalar 1%float)]> (heap state_reals))
          (set_R_Visible true (set_evalcount 1 state_reals))).
Proof.
  refine (proj1 (rirEval_constant (H := refHost) (fun _ _ _ => ret R_NilValue) first_free
                   R_BaseEnv state_reals (real_scalar 1%float) REALSXP _ eq_refl eq_refl _) _).
  - discriminate.
  - cbn. tauto.
  - cbn. lia.
Defined.

Section ArgLists.
Context {H : Host}.
Variable fuel : nat.
Variable rec : SEXP -> SEXP -> Z -> M SEXP.

Lemma length_arg_cells items : forall base, length (arg_cells base items) = length items.
Proof.
  induction items as [|[a t] rest IH]; intros base; cbn; [reflexivity|].
  rewrite IH. reflexivity.
Qed.

Lemma arg_cells_cons base a t rest :
  rest <> [] ->
  arg_cells base ((a, t) :: rest) = arg_cell a (S base) t :: arg_cells (S base) rest.
Proof. destruct rest; [contradiction|reflexivity]. Qed.

Lemma last_cons_ne {A} (x : A) l d : l <> [] -> List.last (x :: l) d = List.last l d.
Proof. destruct l; [contradiction|reflexivity]. Qed.

Lemma arg_cells_snoc done : forall base a t v nm,
  List.last done (v, nm) = (a, t) -> done <> [] ->
  arg_cells base (done ++ [(v, nm)])
  = <[(length done - 1)%nat := arg_cell a (base + length done)%nat t]> (arg_cells base done)
    ++ [arg_cell v R_NilValue nm].
Proof.
  induction done as [|[a0 t0] rest IH]; intros base a t v nm Hl Hne; [contradiction|].
  destruct (decide (rest = [])) as [->|Hr].
  - cbn in Hl. injection Hl as <- <-. cbn. replace (base + 1)%nat with (S base) by lia.
    reflexivity.
  - rewrite last_cons_ne in Hl by exact Hr.
    rewrite <- app_comm_cons.
    rewrite (arg_cells_cons base a0 t0 (rest ++ [(v, nm)])) by (destruct rest; discriminate).
    rewrite (arg_cells_cons base a0 t0 rest Hr).
    rewrite (IH (S base) a t v nm Hl Hr). cbn [length].
    replace (S (length rest) - 1)%nat with (S (length rest - 1))
      by (destruct rest; [contradiction|cbn; lia]).
    replace (S base + length rest)%nat with (base + S (length rest))%nat by lia.
    reflexivity.
Qed.

Lemma arg_cells_last done : forall base a t d,
  List.last done d = (a, t) -> done <> [] ->
  arg_cells base done !! (length done - 1)%nat = Some (arg_cell a R_NilValue t).
Proof.
  induction done as [|[a0 t0] rest IH]; intros base a t d Hl Hne; [contradiction|].
  destruct (decide (rest = [])) as [->|Hr].
  - cbn in Hl. injection Hl as <- <-. reflexivity.
  - rewrite last_cons_ne in Hl by exact Hr.
    rewrite (arg_cells_cons base a0 t0 rest Hr). cbn [length].
    replace (S (length rest) - 1)%nat with (S (length rest - 1))
      by (destruct rest; [contradiction|cbn; lia]).
    apply (IH (S base) a t d Hl Hr).
Qed.

Lemma is_list_type_Ok s x t :
  has_type s x t -> (t =? LISTSXP) || (t =? NILSXP) = true ->
  is_list_type x s = Ok true s.
Proof.
  intros T E. unfold is_list_type. rewrite (bind_Ok _ _ _ _ _ (TYPEOF_Ok _ _ _ T)), E.
  reflexivity.
Qed.

Lemma SET_TAG_fresh s h a d t nm :
  heap s = h ++ [arg_cell a d t] -> length h <> NULL ->
  SET_TAG (length h) nm s = Ok tt (set_heap (h ++ [arg_cell a d nm]) s).
Proof.
  intros Hh Hn. unfold SET_TAG.
  assert (L : heap s !! length h = Some (arg_cell a d t)) by (rewrite Hh; apply lookup_fresh).
  rewrite (bind_Ok _ _ _ _ _ (deref_Ok _ _ _ Hn L)).
  erewrite bind_Ok; [|apply (slots_Ok s (length h) (a, d, t) Hn);
                      unfold cell_of; unfold SEXP in *; rewrite L; reflexivity].
  rewrite (store_Ok _ _ _ _ Hn L), Hh, insert_fresh. reflexivity.
Qed.

(** The first append: the new cell is front and last. *)
Lemma listAppend_first st v nm :
  has_type st R_NilValue NILSXP -> length (heap st) <> NULL ->
  __listAppend R_NilValue R_NilValue v nm st
  = Ok (length (heap st), length (heap st))
       (set_heap (heap st ++ [arg_cell v R_NilValue nm]) st).
Proof.
  intros Tn Hn. unfold __listAppend.
  rewrite (bind_Ok _ _ _ _ _ (assertM_true _ _ _ (is_list_type_Ok _ _ _ Tn eq_refl))).
  rewrite (bind_Ok _ _ _ _ _ (assertM_true _ _ _ (is_list_type_Ok _ _ _ Tn eq_refl))).
  unfold CONS_NR. unfold bind at 1. unfold alloc at 1.
  set (s1 := set_heap _ st).
  rewrite (bind_Ok _ _ _ _ _ (SET_TAG_fresh s1 (heap st) v R_NilValue R_NilValue nm eq_refl Hn)).
  reflexivity.
Qed.

(** A later append: the last cell is linked to the new one. *)
Lemma listAppend_next st front last a t v nm :
  has_type st front LISTSXP -> Nat.eqb front R_NilValue = false ->
  last <> NULL -> Nat.eqb last R_NilValue = false ->
  heap st !! last = Some (arg_cell a R_NilValue t) ->
  __listAppend front last v nm st
  = Ok (front, length (heap st))
       (set_heap (<[last := arg_cell a (length (heap st)) t]> (heap st)
                    ++ [arg_cell v R_NilValue nm]) st).
Proof.
  intros Tf Nf Hl Nl L.
  assert (Tl : has_type st last LISTSXP) by (split; [exact Hl|]; eexists; split; [exact L|reflexivity]).
  assert (Hn : length (heap st) <> NULL) by (eapply valid_heap_nonempty; eauto).
  unfold __listAppend.
  rewrite (bind_Ok _ _ _ _ _ (assertM_true _ _ _ (is_list_type_Ok _ _ _ Tf eq_refl))).
  rewrite (bind_Ok _ _ _ _ _ (assertM_true _ _ _ (is_list_type_Ok _ _ _ Tl eq_refl))).
  unfold CONS_NR. unfold bind at 1. unfold alloc at 1.
  set (s1 := set_heap _ st).
  rewrite (bind_Ok _ _ _ _ _ (SET_TAG_fresh s1 (heap st) v R_NilValue R_NilValue nm eq_refl Hn)).
  set (s2 := set_heap _ s1). rewrite Nf, Nl. cbn [negb when].
  assert (L2 : heap s2 !! last = Some (arg_cell a R_NilValue t)).
  { cbn. apply lookup_app_l_Some. exact L. }
  assert (E : SETCDR last (length (heap st)) s2
              = Ok tt (set_heap (<[last := arg_cell a (length (heap st)) t]> (heap st)
                                   ++ [arg_cell v R_NilValue nm]) s2)).
  { unfold SETCDR. rewrite (bind_Ok _ _ _ _ _ (deref_Ok _ _ _ Hl L2)).
    erewrite bind_Ok; [|apply (slots_Ok s2 last (a, R_NilValue, t) Hl);
                        unfold cell_of; unfold SEXP in *; rewrite L2; reflexivity].
    rewrite (store_Ok _ _ _ _ Hl L2). cbn [heap s2 set_heap].
    rewrite insert_app_l by (eapply lookup_lt_Some; exact L). reflexivity. }
  rewrite (bind_Ok _ _ _ _ _ E). reflexivity.
Qed.

Lemma rev_lookup {A} (l : list A) : forall i x,
  l !! i = Some x -> rev l !! (length l - 1 - i)%nat = Some x.
Proof.
  induction l as [|a l IH]; intros i x E; [discriminate|].
  cbn [rev length]. destruct i as [|j].
  - injection E as ->. replace (S (length l) - 1 - 0)%nat with (length (rev l))
      by (rewrite length_rev; lia).
    apply list_lookup_middle. reflexivity.
  - apply lookup_app_l_Some. replace (S (length l) - 1 - S j)%nat with (length l - 1 - j)%nat by lia.
    apply IH. exact E.
Qed.

Lemma map_lookup {A B} (f : A -> B) (l : list A) : forall i x,
  l !! i = Some x -> map f l !! i = Some (f x).
Proof.
  induction l as [|a l IH]; intros [|i] x E; try discriminate.
  - injection E as ->. reflexivity.
  - apply IH. exact E.
Qed.

Lemma repeat_lookup {A} (x : A) n : forall i y, repeat x n !! i = Some y -> y = x.
Proof.
  induction n as [|n IH]; intros [|i] y E; try discriminate.
  - injection E as ->. reflexivity.
  - apply (IH i). exact E.
Qed.

Section Build.
Variables (s : State) (names env call_ast : SEXP) (eager : bool).
Variable items : list (SEXP * SEXP).
Hypothesis Hnil : has_type s R_NilValue NILSXP.
Hypothesis Hargs : take (length items) (ostack s) = rev (map fst items).
Hypothesis Hnames : arg_names s names (length items) = Some (map snd items).
Hypothesis Hplain : Forall (plain_arg eager s) (map fst items).

Let base := length (heap s).


Lemma base_ge : (2 <= base)%nat.
Proof.
  destruct Hnil as [_ (r & L & _)]. apply lookup_lt_Some in L. unfold R_NilValue in L.
  unfold base. lia.
Qed.

Lemma name_at_Ok st h' i v nm :
  heap st = heap s ++ h' -> items !! i = Some (v, nm) -> name_at names i st = Ok nm st.
Proof.
  intros Hst Hi. unfold name_at. unfold arg_names in Hnames.
  pose proof (map_lookup snd items i _ Hi) as Hm. cbn [snd] in Hm.
  destruct (Nat.eqb names R_NilValue) eqn:En; cbn [negb].
  - injection Hnames as Hr. rewrite <- Hr in Hm. apply repeat_lookup in Hm as ->. reflexivity.
  - destruct (Nat.eqb_spec names NULL) as [|Nn]; [discriminate|].
    destruct (heap s !! names) as [r|] eqn:L; [|discriminate].
    destruct (u r) eqn:U; try discriminate.
    destruct (length items <=? length d)%nat; [|discriminate].
    injection Hnames as Hr. rewrite <- Hr in Hm. apply lookup_take_Some in Hm as [Hm _].
    unfold VECTOR_ELT.
    assert (L' : heap st !! names = Some r) by (rewrite Hst; apply lookup_app_l_Some, L).
    rewrite (bind_Ok _ _ _ _ _ (deref_Ok _ _ _ Nn L')), U, Hm. reflexivity.
Qed.

Lemma arg_at_Ok st i v nm :
  ostack st = ostack s -> items !! i = Some (v, nm) ->
  ostack_at (length items - 1 - i) st = Ok v st.
Proof.
  intros Ho Hi. apply ostack_at_Ok. rewrite Ho.
  pose proof (map_lookup fst items i _ Hi) as Hm. cbn [fst] in Hm.
  apply rev_lookup in Hm. rewrite <- Hargs, length_map in Hm.
  apply lookup_take_Some in Hm as [Hm _]. exact Hm.
Qed.

Lemma plain_arg_passes st h' i v nm :
  heap st = heap s ++ h' -> items !! i = Some (v, nm) ->
  Nat.eqb v R_DotsSymbol = false /\ Nat.eqb v R_MissingArg = false
  /\ (if eager
      then (t <- TYPEOF v ;; if t =? PROMSXP then rirEval rec v env else ret v)
      else ret v) st = Ok v st
  /\ escape v st = Ok v st.
Proof.
  intros Hst Hi.
  pose proof (map_lookup fst items i _ Hi) as Hm. cbn [fst] in Hm.
  pose proof (proj1 (Forall_lookup _ _) Hplain i v Hm) as (Hd & Hmi & r & Hn & L & Hc & He).
  split; [exact Hd|]. split; [exact Hmi|].
  assert (L' : heap st !! v = Some r) by (rewrite Hst; apply lookup_app_l_Some, L).
  assert (T : has_type st v (sx_type (sxpinfo r))) by (split; [exact Hn|]; exists r; auto).
  split.
  - destruct eager; [|reflexivity].
    rewrite (bind_Ok _ _ _ _ _ (TYPEOF_Ok _ _ _ T)), (He eq_refl). reflexivity.
  - apply (escaped_escape v st v (sx_type (sxpinfo r))); [|exact T]. unfold escaped.
    unfold SEXP in *. rewrite L'. destruct (u r); try reflexivity. contradiction.
Qed.

Lemma append_step st done v nm :
  heap st = heap s ++ arg_cells base done ->
  __listAppend (fst (front_last base done)) (snd (front_last base done)) v nm st
  = Ok (front_last base (done ++ [(v, nm)]))
       (set_heap (heap s ++ arg_cells base (done ++ [(v, nm)])) st).
Proof.
  intros Hst. pose proof base_ge as Hb.
  assert (Hlen : length (heap st) = (base + length done)%nat).
  { rewrite Hst, length_app, length_arg_cells. reflexivity. }
  destruct (decide (done = [])) as [->|Hne].
  - cbn [front_last fst snd app].
    rewrite listAppend_first.
    + rewrite Hlen, Hst. cbn [length arg_cells app]. rewrite Nat.add_0_r, app_nil_r.
      replace (base + 1 - 1)%nat with base by lia. reflexivity.
    + destruct Hnil as [Hn (r & L & Ty)]. split; [exact Hn|]. exists r. split; [|exact Ty].
      rewrite Hst. apply lookup_app_l_Some, L.
    + rewrite Hlen. unfold NULL. lia.
  - destruct (List.last done (v, nm)) as [a t] eqn:El.
    assert (Ef : front_last base done = (base, (base + length done - 1)%nat))
      by (destruct done; [contradiction|reflexivity]).
    assert (Ef' : front_last base (done ++ [(v, nm)]) = (base, (base + length done)%nat)).
    { destruct done; [contradiction|]. cbn [front_last app]. f_equal.
      cbn [length]. rewrite length_app. cbn [length]. lia. }
    assert (Hd : (0 < length done)%nat) by (destruct done; [contradiction|cbn; lia]).
    rewrite Ef, Ef'. cbn [fst snd].
    assert (Ll : heap st !! (base + length done - 1)%nat = Some (arg_cell a R_NilValue t)).
    { rewrite Hst. rewrite lookup_app_r by (unfold base; lia).
      replace (base + length done - 1 - length (heap s))%nat with (length done - 1)%nat
        by (unfold base; lia).
      apply (arg_cells_last done base a t (v, nm) El Hne). }
    assert (Tf : has_type st base LISTSXP).
    { split; [unfold NULL; lia|].
      destruct done as [|[a0 t0] rest]; [contradiction|]. eexists. split.
      - rewrite Hst. apply list_lookup_middle. reflexivity.
      - reflexivity. }
    rewrite (listAppend_next st base _ a t v nm Tf); [| | | |exact Ll].
    + rewrite Hlen. do 2 f_equal. rewrite Hst.
      rewrite insert_app_r_alt by (unfold base; lia).
      replace (base + length done - 1 - length (heap s))%nat with (length done - 1)%nat
        by (unfold base; lia).
      rewrite <- app_assoc. f_equal. symmetry.
      apply (arg_cells_snoc done base a t v nm El Hne).
    + apply Nat.eqb_neq. unfold R_NilValue. lia.
    + unfold NULL. lia.
    + apply Nat.eqb_neq. unfold R_NilValue. lia.
Qed.

Lemma createArgsListStack_loop_spec rest : forall done st,
  items = done ++ rest ->
  heap st = heap s ++ arg_cells base done -> ostack st = ostack s ->
  createArgsListStack_loop fuel rec (length rest) (length done) (length items)
    names env call_ast eager (front_last base done) st
  = Ok (front_last base items) (set_heap (heap s ++ arg_cells base items) st).
Proof.
  induction rest as [|[v nm] rest IH]; intros done st Hi Hst Ho.
  - rewrite app_nil_r in Hi. subst done. cbn [length createArgsListStack_loop].
    unfold ret. f_equal. rewrite <- Hst. destruct st; reflexivity.
  - cbn [length createArgsListStack_loop].
    assert (Li : items !! length done = Some (v, nm)).
    { rewrite Hi. apply list_lookup_middle. reflexivity. }
    rewrite (bind_Ok _ _ _ _ _ (name_at_Ok st _ _ v nm Hst Li)).
    rewrite (bind_Ok _ _ _ _ _ (arg_at_Ok st _ v nm Ho Li)).
    destruct (plain_arg_passes st _ _ v nm Hst Li) as (Hd & Hm & Ev & Ee).
    rewrite Hd, Hm.
    assert (Eb : (arg <- (if eager
                          then (t <- TYPEOF v ;; if t =? PROMSXP then rirEval rec v env else ret v)
                          else ret v) ;;
                  arg <- escape arg ;;
                  __listAppend (fst (front_last base done)) (snd (front_last base done)) arg nm) st
                 = Ok (front_last base (done ++ [(v, nm)]))
                      (set_heap (heap s ++ arg_cells base (done ++ [(v, nm)])) st)).
    { rewrite (bind_Ok _ _ _ _ _ Ev), (bind_Ok _ _ _ _ _ Ee). apply append_step, Hst. }
    rewrite (bind_Ok _ _ _ _ _ Eb).
    replace (S (length done)) with (length (done ++ [(v, nm)]))
      by (rewrite length_app; cbn; lia).
    rewrite (IH (done ++ [(v, nm)])); [reflexivity| |reflexivity|exact Ho].
    rewrite <- app_assoc. exact Hi.
Qed.

(** X13: for arguments that need no expansion and no evaluation
    [createArgsListStack] returns a fresh pairlist of as many cells as there
    are arguments, with the deepest of the argument slots first and the tags
    taken from the names vector in that order; the stack and the objects
    that were there are left as they are. *)
Theorem createArgsListStack_builds_list c :
  createArgsListStack fuel rec c (length items) names env call_ast eager s
  = Ok (match items with [] => R_NilValue | _ => length (heap s) end)
       (set_heap (heap s ++ arg_cells (length (heap s)) items) s).
Proof.
  unfold createArgsListStack.
  rewrite (bind_Ok _ _ _ _ _ (createArgsListStack_loop_spec items [] s eq_refl
                                (eq_sym (app_nil_r _)) eq_refl)).
  unfold ret. f_equal. destruct items; reflexivity.
Qed.

End Build.

End ArgLists.

Lemma createArgsListStack_builds_list_witness :
  createArgsListStack (H := refHost) 0 (fun _ _ _ => ret R_NilValue) code_empty 2
    first_free R_BaseEnv R_NilValue false state_two_args
  = Ok (length (heap state_two_args))
       (set_heap (heap state_two_args
                    ++ [arg_cell R_TrueValue (S (length (heap state_two_args))) symbol.While;
                        arg_cell R_FalseValue R_NilValue R_NilValue])
          state_two_args).
Proof.
  refine (createArgsListStack_builds_list (H := refHost) 0 (fun _ _ _ => ret R_NilValue)
            state_two_args first_free R_BaseEnv R_NilValue false
            [(R_TrueValue, symbol.While); (R_FalseValue, R_NilValue)] _ eq_refl eq_refl _
            code_empty).
  - split; [discriminate|]. eexists. split; reflexivity.
  - repeat (apply Forall_cons; split;
            [split; [reflexivity|split; [reflexivity|]]; eexists;
             split; [discriminate|split; [reflexivity|split; [exact I|discriminate]]]|]).
    apply Forall_nil. exact I.
Defined.

Section ExtractFast.
Context {H : Host}.

Lemma IS_SIMPLE_SCALAR_Ok s x r ty :
  x <> NULL -> heap s !! x = Some r ->
  IS_SIMPLE_SCALAR x ty s
  = Ok ((sx_type (sxpinfo r) =? ty)
        && (match u r with
            | u_ints d => Z.of_nat (length d)
            | u_reals d => Z.of_nat (length d)
            | u_ptrs d => Z.of_nat (length d)
            | _ => 0
            end =? 1)
        && Nat.eqb (attrib r) R_NilValue) s.
Proof.
  intros Hn L. unfold IS_SIMPLE_SCALAR.
  assert (T : has_type s x (sx_type (sxpinfo r))) by (split; [exact Hn|]; exists r; auto).
  rewrite (bind_Ok _ _ _ _ _ (TYPEOF_Ok _ _ _ T)), (bind_Ok _ _ _ _ _ (deref_Ok _ _ _ Hn L)).
  reflexivity.
Qed.

Lemma to_int32_wrap v :
  -2147483648 <= v < 2147483648 -> to_int32 (v mod 4294967296) = v.
Proof.
  intros Hv. unfold to_int32. destruct (Z_lt_le_dec v 0) as [Hn|Hp].
  - assert (E : v mod 4294967296 = v + 4294967296).
    { replace v with ((v + 4294967296) + (-1) * 4294967296) at 1 by lia.
      rewrite Z_mod_plus_full. apply Z.mod_small. lia. }
    rewrite E. destruct (Z.ltb_spec (v + 4294967296) 2147483648); lia.
  - rewrite Z.mod_small by lia. destruct (Z.ltb_spec v 2147483648); lia.
Qed.

(** X14: the fast path of [extract1_] for a shared integer vector without
    names and a plain integer scalar index [k].  For [1 <= k <= length] a
    fresh integer scalar holding element [k] is pushed and [R_Visible] is set,
    with no call of the host's subsetting.  For [INT_MIN < k <= 0] the bounds
    test [Rf_length(val) <= i] passes and the element is read before the data
    of the vector.  For [k] beyond the length, and for [k = INT_MIN] (the
    integer NA), whose index [k - 1] wraps around to [INT_MAX], the
    instruction goes on with the host's subsetting, in the state in which
    the fast path has allocated its result. *)
Theorem extract1_fast_path c env pc n s idx val rest rv ri d k :
  ostack s = idx :: val :: rest ->
  val <> NULL -> heap s !! val = Some rv ->
  sx_type (sxpinfo rv) = INTSXP -> u rv = u_ints d -> 1 < sx_named (sxpinfo rv) ->
  idx <> NULL -> heap s !! idx = Some ri ->
  sx_type (sxpinfo ri) = INTSXP -> u ri = u_ints [k] -> attrib ri = R_NilValue ->
  -2147483648 <= k <= 2147483647 -> Z.of_nat (length d) <= 2147483647 ->
  getAttrib (set_ostack rest s) val R_NamesSymbol = R_NilValue ->
  Rf_length (set_heap (heap s ++ [new_sexp INTSXP (u_ints [0])]) (set_ostack rest s)) val
  = Z.of_nat (length d) ->
  (forall v, 1 <= k -> d !! Z.to_nat (k - 1) = Some v ->
     ins_extract1_ c env pc n s
     = Ok pc (set_ostack (length (heap s) :: rest)
                (set_R_Visible true
                   (set_heap (heap s ++ [new_sexp INTSXP (u_ints [v])]) s))))
  /\ (-2147483648 < k <= 0 ->
      ins_extract1_ c env pc n s = Undef "vector read before its data")
  /\ (k = -2147483648 \/ Z.of_nat (length d) < k ->
      ins_extract1_ c env pc n s
      = (res <- (args <- CONS_NR idx R_NilValue ;;
                 args <- CONS_NR val args ;;
                 ast <- getSrcForCall c pc ;;
                 hostcall (HC_subset R_Subset2Sym)
                   (do_subset2_dflt ast R_Subset2Sym args env)) ;;
         modify (set_R_Visible true) ;;
         ostack_push res ;;
         ret pc)
          (set_heap (heap s ++ [new_sexp INTSXP (u_ints [0])]) (set_ostack rest s))).
Proof.
  intros Hst Hv Lv Tv Uv Sh Hi Li Ti Ui Ai Hk32 Hd32 Hnames Hlen.
  set (s1 := set_ostack rest s) in *.
  set (s2 := set_heap (heap s ++ [new_sexp INTSXP (u_ints [0])]) s1) in *.
  assert (Hne : length (heap s) <> NULL) by (eapply valid_heap_nonempty; eauto).
  assert (Tv1 : has_type s1 val INTSXP) by (split; [exact Hv|]; exists rv; auto).
  assert (Ti1 : has_type s1 idx INTSXP) by (split; [exact Hi|]; exists ri; auto).
  assert (Lv2 : heap s2 !! val = Some rv) by (cbn; apply lookup_app_l_Some, Lv).
  assert (Li2 : heap s2 !! idx = Some ri) by (cbn; apply lookup_app_l_Some, Li).
  assert (Ek : vec_get idx 0 s2 = Ok (elt_int k) s2).
  { unfold vec_get. rewrite (bind_Ok _ _ _ _ _ (deref_Ok _ _ _ Hi Li2)), Ui. reflexivity. }
  assert (En : gets (fun st => getAttrib st val R_NamesSymbol) s1 = Ok R_NilValue s1).
  { unfold gets. rewrite Hnames. reflexivity. }
  assert (Ei : IS_SIMPLE_SCALAR idx INTSXP s1 = Ok true s1).
  { rewrite (IS_SIMPLE_SCALAR_Ok s1 idx ri INTSXP Hi Li), Ti, Ui, Ai. reflexivity. }
  assert (Es : MAYBE_SHARED val s1 = Ok true s1).
  { unfold MAYBE_SHARED. rewrite (bind_Ok _ _ _ _ _ (NAMED_Ok s1 _ _ Hv Lv)).
    unfold ret. f_equal. apply Z.ltb_lt. exact Sh. }
  assert (Ea : allocVector1 INTSXP s1 = Ok (length (heap s)) s2) by reflexivity.
  assert (El : gets (fun st => Rf_length st val) s2 = Ok (Z.of_nat (length d)) s2).
  { unfold gets. rewrite Hlen. reflexivity. }
  assert (Hd : find (fun p => shift_tag (fst p) (snd p) =? shift_tag INTSXP INTSXP) simple_cases
               = Some (INTSXP, INTSXP)) by (vm_compute; reflexivity).
  (* the fast path up to the bounds test *)
  assert (Pre :
            (names <- gets (fun st => getAttrib st val R_NamesSymbol) ;;
             ss <- IS_SIMPLE_SCALAR idx INTSXP ;;
             if negb (Nat.eqb names R_NilValue) || negb ss then ret None
             else
               sv <- IS_SIMPLE_SCALAR val INTSXP ;;
               sh <- MAYBE_SHARED val ;;
               res <- (if sv && negb sh then ret val else allocVector1 INTSXP) ;;
               e <- vec_get idx 0 ;;
               let i := to_int32 ((elt_to_int e - 1) mod 4294967296) in
               len <- gets (fun st => Rf_length st val) ;;
               if len <=? i then ret None
               else (x <- vec_get val i ;; vec_set0 res x ;; ret (Some res))) s1
            = (if Z.of_nat (length d) <=? to_int32 ((k - 1) mod 4294967296) then ret None
               else (x <- vec_get val (to_int32 ((k - 1) mod 4294967296)) ;;
                     vec_set0 (length (heap s)) x ;; ret (Some (length (heap s))))) s2).
  { rewrite (bind_Ok _ _ _ _ _ En), (bind_Ok _ _ _ _ _ Ei). cbn [Nat.eqb R_NilValue negb orb].
    rewrite (bind_Ok _ _ _ _ _ (IS_SIMPLE_SCALAR_Ok s1 val rv INTSXP Hv Lv)).
    rewrite (bind_Ok _ _ _ _ _ Es). rewrite andb_false_r.
    rewrite (bind_Ok _ _ _ _ _ Ea), (bind_Ok _ _ _ _ _ Ek). cbn [elt_to_int]. cbv zeta.
    rewrite (bind_Ok _ _ _ _ _ El). reflexivity. }
  unfold ins_extract1_.
  rewrite (bind_Ok _ _ _ _ _ (pop_Ok _ _ _ Hst)).
  rewrite (bind_Ok _ _ _ val s1) by reflexivity.
  rewrite (bind_Ok _ _ _ _ _ (TYPEOF_Ok _ _ _ Tv1)), (bind_Ok _ _ _ _ _ (TYPEOF_Ok _ _ _ Ti1)).
  rewrite Hd. cbn [fst snd]. unfold SIMPLECASE.
  split; [|split].
  - intros v Hk Lk.
    assert (Hw : to_int32 ((k - 1) mod 4294967296) = k - 1) by (apply to_int32_wrap; lia).
    rewrite Hw in Pre.
    assert (Hb : (Z.of_nat (length d) <=? k - 1) = false).
    { apply Z.leb_gt. apply lookup_lt_Some in Lk. lia. }
    assert (Eg : vec_get val (k - 1) s2 = Ok (elt_int v) s2).
    { unfold vec_get. rewrite (bind_Ok _ _ _ _ _ (deref_Ok _ _ _ Hv Lv2)), Uv, Lk.
      destruct (Z.ltb_spec (k - 1) 0); [lia|]. reflexivity. }
    assert (L0 : heap s2 !! length (heap s) = Some (new_sexp INTSXP (u_ints [0])))
      by apply lookup_fresh.
    assert (Ew : vec_set0 (length (heap s)) (elt_int v) s2
                 = Ok tt (set_heap (heap s ++ [new_sexp INTSXP (u_ints [v])]) s1)).
    { cbn [vec_set0]. rewrite (SET_INTEGER0_Ok s2 _ _ 0 [] v Hne L0 eq_refl).
      cbn [heap s2 set_heap]. rewrite insert_fresh. reflexivity. }
    rewrite Hb in Pre.
    rewrite (bind_Ok _ _ _ _ _ Eg), (bind_Ok _ _ _ _ _ Ew) in Pre.
    rewrite (bind_Ok _ _ _ _ _ Pre). reflexivity.
  - intros Hk.
    assert (Hw : to_int32 ((k - 1) mod 4294967296) = k - 1) by (apply to_int32_wrap; lia).
    rewrite Hw in Pre.
    assert (Hb : (Z.of_nat (length d) <=? k - 1) = false) by (apply Z.leb_gt; lia).
    assert (Eg : vec_get val (k - 1) s2 = Undef "vector read before its data").
    { unfold vec_get. rewrite (bind_Ok _ _ _ _ _ (deref_Ok _ _ _ Hv Lv2)).
      destruct (Z.ltb_spec (k - 1) 0); [reflexivity|lia]. }
    rewrite Hb in Pre. rewrite (bind_Undef _ _ _ _ Eg) in Pre.
    apply bind_Undef, Pre.
  - intros Hk.
    assert (Hb : (Z.of_nat (length d) <=? to_int32 ((k - 1) mod 4294967296)) = true).
    { apply Z.leb_le. destruct Hk as [-> | Hk].
      - change (to_int32 ((-2147483648 - 1) mod 4294967296)) with 2147483647. exact Hd32.
      - rewrite to_int32_wrap by lia. lia. }
    rewrite Hb in Pre. rewrite (bind_Ok _ _ _ _ _ Pre). reflexivity.
Qed.

End ExtractFast.

Lemma extract1_fast_path_witness :
  ins_extract1_ (H := refHost) code_empty R_BaseEnv 0 0 (state_extract 2)
  = Ok 0 (set_ostack [length (heap (state_extract 2))]
            (set_R_Visible true
               (set_heap (heap (state_extract 2) ++ [new_sexp INTSXP (u_ints [20])])
                  (state_extract 2))))
  /\ ins_extract1_ (H := refHost) code_empty R_BaseEnv 0 0 (state_extract 0)
     = Undef "vector read before its data"
  /\ hostLog (state_of (ins_extract1_ (H := refHost) code_extract R_BaseEnv 1 0
                          (state_extract_call NA_INTEGER)) (state_extract_call NA_INTEGER))
     = [HC_subset R_Subset2Sym].
Proof.
  split; [|split].
  - refine (proj1 (extract1_fast_path (H := refHost) code_empty R_BaseEnv 0 0 (state_extract 2)
                     (S first_free) first_free [] (int_vector 2 [10; 20; 30]) (int_scalar 0 2)
                     [10; 20; 30] 2 eq_refl _ eq_refl eq_refl eq_refl _ _ eq_refl eq_refl
                     eq_refl eq_refl _ _ eq_refl eq_refl) 20 _ eq_refl);
      try discriminate; cbn; lia.
  - refine (proj1 (proj2 (extract1_fast_path (H := refHost) code_empty R_BaseEnv 0 0
                     (state_extract 0)
                     (S first_free) first_free [] (int_vector 2 [10; 20; 30]) (int_scalar 0 0)
                     [10; 20; 30] 0 eq_refl _ eq_refl eq_refl eq_refl _ _ eq_refl eq_refl
                     eq_refl eq_refl _ _ eq_refl eq_refl)) _);
      try discriminate; cbn; lia.
  - rewrite (proj2 (proj2 (extract1_fast_path (H := refHost) code_extract R_BaseEnv 1 0
                     (state_extract_call NA_INTEGER)
                     (S first_free) first_free [] (int_vector 2 [10; 20; 30])
                     (int_scalar 0 NA_INTEGER)
                     [10; 20; 30] NA_INTEGER eq_refl ltac:(discriminate) eq_refl eq_refl eq_refl
                     ltac:(cbn; lia) ltac:(discriminate) eq_refl eq_refl
                     eq_refl eq_refl ltac:(unfold NA_INTEGER; lia) ltac:(cbn; lia)
                     eq_refl eq_refl)) (or_introl eq_refl)).
    vm_compute. reflexivity.
Defined.

Section SourceIndex.
Context {H : Host}.

Lemma decode_encode o : decodeOpcode (encodeOpcode o) = Some o.
Proof. destruct o; reflexivity. Qed.

Lemma immediates_nonneg o : 0 <= immediates o.
Proof. destruct o; cbn; lia. Qed.

Lemma offset_after_pos ops : forall k, (0 < k)%nat -> ops <> [] -> 0 < offset_after ops k.
Proof.
  destruct ops as [|o ops]; intros [|k] Hk Hne; try lia; try contradiction.
  cbn [offset_after]. pose proof (immediates_nonneg o).
  assert (0 <= offset_after ops k).
  { clear. revert k. induction ops as [|a l IH]; intros [|k]; cbn; try lia.
    pose proof (immediates_nonneg a). specialize (IH k). unfold sizeof_ArgT. lia. }
  unfold sizeof_ArgT. lia.
Qed.

Lemma advancePc_Ok c x o s :
  0 <= x -> ccode c !! Z.to_nat x = Some (encodeOpcode o) ->
  advancePc c x s = Ok (x + 1 + sizeof_ArgT * immediates o) s.
Proof.
  intros Hx L. unfold advancePc, byte_at.
  destruct (Z.ltb_spec x 0); [lia|]. unfold OpcodeT in *. rewrite L.
  rewrite (bind_Ok _ _ _ (encodeOpcode o) s) by reflexivity.
  rewrite decode_encode. reflexivity.
Qed.

Lemma insIdx_loop_spec c s ops : forall j x i fuel,
  laid_out c x ops -> (j < length ops)%nat -> (j < fuel)%nat ->
  insIdx_loop fuel c x (x + offset_after ops (S j)) i s = Ok (i + j)%nat s.
Proof.
  induction ops as [|o ops IH]; intros j x i fuel Hl Hj Hf; [cbn in Hj; lia|].
  destruct Hl as (Hx & Lx & Hl). destruct fuel as [|fuel]; [lia|].
  cbn [insIdx_loop]. rewrite (bind_Ok _ _ _ _ _ (advancePc_Ok c x o s Hx Lx)).
  pose proof (immediates_nonneg o) as Hi.
  destruct j as [|j].
  - cbn [offset_after].
    replace (x + (1 + sizeof_ArgT * immediates o + 0)) with (x + 1 + sizeof_ArgT * immediates o)
      by lia.
    rewrite Z.eqb_refl. rewrite Nat.add_0_r. reflexivity.
  - cbn [length] in Hj.
    assert (Hne : ops <> []) by (destruct ops; [cbn in Hj; lia|discriminate]).
    pose proof (offset_after_pos ops (S j) ltac:(lia) Hne) as Hp.
    change (offset_after (o :: ops) (S (S j)))
      with (1 + sizeof_ArgT * immediates o + offset_after ops (S j)).
    destruct (Z.eqb_spec (x + 1 + sizeof_ArgT * immediates o)
                (x + (1 + sizeof_ArgT * immediates o + offset_after ops (S j)))) as [E|_];
      [lia|].
    replace (x + (1 + sizeof_ArgT * immediates o + offset_after ops (S j)))
      with (x + 1 + sizeof_ArgT * immediates o + offset_after ops (S j)) by lia.
    rewrite (IH j _ (S i) fuel Hl ltac:(lia) ltac:(lia)). f_equal. lia.
Qed.

Lemma laid_out_length c ops : forall x,
  laid_out c x ops -> Z.of_nat (length ops) + x <= Z.of_nat (length (ccode c)) \/ ops = [].
Proof.
  induction ops as [|o ops IH]; intros x Hl; [right; reflexivity|left].
  destruct Hl as (Hx & Lx & Hl). pose proof (immediates_nonneg o) as Hi.
  apply lookup_lt_Some in Lx.
  destruct (IH _ Hl) as [Hle| ->]; cbn [length]; unfold sizeof_ArgT in *; lia.
Qed.

(** X15: in a code whose instructions are laid out back to back,
    [getSrcAt] called with the pc just behind the instruction number [j]
    finds the source index of that instruction and returns the AST it names
    in the source pool, or the AST of the whole code when the index is 0.
    [getSrcForCall] returns the same AST for a non-zero index and fails its
    assertion for the index 0. *)
Theorem getSrcAt_finds_instruction c s ops j sidx ast :
  laid_out c 0 ops -> (j < length ops)%nat ->
  csrcs c !! j = Some sidx ->
  src_pool s !! (if Nat.eqb sidx 0 then csrc c else sidx) = Some ast ->
  getSrcAt c (offset_after ops (S j)) s = Ok ast s
  /\ (Nat.eqb sidx 0 = false -> getSrcForCall c (offset_after ops (S j)) s = Ok ast s)
  /\ (Nat.eqb sidx 0 = true -> NDEBUG = false ->
      getSrcForCall c (offset_after ops (S j)) s = AssertFail "sidx").
Proof.
  intros Hl Hj Ls La.
  assert (Ei : current_insIdx c (offset_after ops (S j)) s = Ok j s).
  { unfold current_insIdx.
    pose proof (insIdx_loop_spec c s ops j 0 0%nat (S (length (ccode c))) Hl Hj) as E.
    rewrite Z.add_0_l in E. apply E.
    destruct (laid_out_length c ops 0 Hl) as [Hle| ->]; [lia|cbn in Hj; lia]. }
  assert (Es : src_at c j s = Ok sidx s) by (unfold src_at; rewrite Ls; reflexivity).
  split; [|split].
  - unfold getSrcAt. rewrite (bind_Ok _ _ _ _ _ Ei), (bind_Ok _ _ _ _ _ Es).
    unfold src_pool_at. rewrite La. reflexivity.
  - intros Hz. unfold getSrcForCall. rewrite (bind_Ok _ _ _ _ _ Ei), (bind_Ok _ _ _ _ _ Es).
    rewrite Hz in *. rewrite (bind_Ok _ _ _ _ _ (assert_true _ _ s eq_refl)).
    unfold src_pool_at. rewrite La. reflexivity.
  - intros Hz N. unfold getSrcForCall. rewrite (bind_Ok _ _ _ _ _ Ei), (bind_Ok _ _ _ _ _ Es).
    rewrite Hz. apply bind_AssertFail, assert_false_enabled, N.
Qed.

End SourceIndex.

Lemma getSrcAt_finds_instruction_witness :
  getSrcAt (H := refHost) code_three 6 state_sources = Ok R_FalseValue state_sources
  /\ getSrcAt (H := refHost) code_three 5 state_sources = Ok R_TrueValue state_sources.
Proof.
  split.
  - refine (proj1 (getSrcAt_finds_instruction (H := refHost) code_three state_sources
                     [push_; asbool_; ret_] 1 2%nat R_FalseValue _ _ eq_refl eq_refl)).
    + vm_compute. repeat (split; [discriminate|split; [reflexivity|]]). exact I.
    + cbn. lia.
  - refine (proj1 (getSrcAt_finds_instruction (H := refHost) code_three state_sources
                     [push_; asbool_; ret_] 0 0%nat R_TrueValue _ _ eq_refl eq_refl)).
    + vm_compute. repeat (split; [discriminate|split; [reflexivity|]]). exact I.
    + cbn. lia.
Defined.

Section LoadFunction.
Context {H : Host}.

(** X16: [ldfun_] pushes what [findFun] returns for the symbol when that is
    a builtin, a special, or a closure (which it compiles first only under
    [COMPILE_ON_DEMAND]); for a value of any other type it raises
    "attempt to apply non-function" and pushes nothing.  Unlike [ldvar_] it
    neither forces a promise nor touches [R_Visible]. *)
Theorem ldfun_pushes_functions_only c env pc n s sym pc1 val s1 t :
  readConst c pc s = Ok (sym, pc1) s ->
  findFun sym env s = Ok val s1 ->
  Nat.eqb val R_UnboundValue = false -> Nat.eqb val R_MissingArg = false ->
  has_type s1 val t ->
  (t = SPECIALSXP \/ t = BUILTINSXP \/ (t = CLOSXP /\ COMPILE_ON_DEMAND = false) ->
   ins_ldfun_ c env pc n s
   = Ok pc1 (set_ostack (val :: ostack s1)
               (set_hostLog (HC_findFun sym env :: hostLog s) s1)))
  /\ ((t =? CLOSXP) || (t =? SPECIALSXP) || (t =? BUILTINSXP) = false ->
      ins_ldfun_ c env pc n s
      = RError "attempt to apply non-function"
               (set_hostLog (HC_findFun sym env :: hostLog s) s1)).
Proof.
  intros Ec Ef Nu Nm T.
  set (s2 := set_hostLog (HC_findFun sym env :: hostLog s) s1).
  assert (T2 : has_type s2 val t) by exact T.
  unfold ins_ldfun_. rewrite (bind_Ok _ _ _ _ _ Ec). cbn [fst snd].
  rewrite (bind_Ok _ _ _ _ _ (hostcall_Ok _ _ _ _ _ Ef)). fold s2.
  rewrite Nu, Nm. rewrite (bind_Ok _ _ _ tt s2) by reflexivity.
  rewrite (bind_Ok _ _ _ _ _ (TYPEOF_Ok _ _ _ T2)).
  split.
  - intros [->| [->| [-> Cd]]].
    + reflexivity.
    + reflexivity.
    + change (CLOSXP =? CLOSXP) with true. cbv iota. rewrite Cd. reflexivity.
  - intros Hn. apply orb_false_elim in Hn as [Hn H3]. apply orb_false_elim in Hn as [H1 H2].
    rewrite H1, H2, H3. reflexivity.
Qed.

(** X17: [uniq_] leaves a value that is not shared where it is and raises
    its NAMED count by one; for a shared value it asks the host for a shallow
    copy, puts the copy in the top slot and raises the count of the copy.
    The shared original is not written to. *)
Theorem uniq_copies_shared_values c env pc n s v rest r :
  ostack s = v :: rest -> v <> NULL -> heap s !! v = Some r ->
  (0 <= sx_named (sxpinfo r) <= 1 ->
   ins_uniq_ c env pc n s
   = Ok pc (set_heap (<[v := with_named (sx_named (sxpinfo r) + 1) r]> (heap s)) s))
  /\ (forall v' s1 r',
        1 < sx_named (sxpinfo r) ->
        Rf_shallow_duplicate v s = Ok v' s1 -> ostack s1 = ostack s ->
        v' <> NULL -> heap s1 !! v' = Some r' ->
        ins_uniq_ c env pc n s
        = Ok pc (set_heap (<[v' := with_named ((sx_named (sxpinfo r') + 1) mod 4) r']> (heap s1))
                   (set_ostack (v' :: rest)
                      (set_hostLog (HC_shallow_duplicate v :: hostLog s) s1)))).
Proof.
  intros Hst Hv L. unfold ins_uniq_, MAYBE_SHARED.
  rewrite (bind_Ok _ _ _ _ _ (top_Ok _ _ _ Hst)).
  split.
  - intros Hn.
    assert (E : (k <- NAMED v ;; ret (1 <? k)) s = Ok false s).
    { rewrite (bind_Ok _ _ _ _ _ (NAMED_Ok _ _ _ Hv L)). unfold ret. f_equal.
      apply Z.ltb_ge. lia. }
    rewrite (bind_Ok _ _ _ _ _ E). cbn [when].
    rewrite (bind_Ok _ _ _ tt s) by reflexivity.
    rewrite (bind_Ok _ _ _ _ _ (top_Ok _ _ _ Hst)).
    rewrite (bind_Ok _ _ _ _ _ (NAMED_Ok _ _ _ Hv L)).
    rewrite (bind_Ok _ _ _ _ _ (SET_NAMED_Ok _ _ _ _ Hv L)).
    rewrite Z.mod_small by lia. reflexivity.
  - intros v' s1 r' Hn Ed Eo Hv' L'.
    assert (E : (k <- NAMED v ;; ret (1 <? k)) s = Ok true s).
    { rewrite (bind_Ok _ _ _ _ _ (NAMED_Ok _ _ _ Hv L)). unfold ret. f_equal.
      apply Z.ltb_lt. lia. }
    rewrite (bind_Ok _ _ _ _ _ E). cbn [when].
    set (s2 := set_hostLog (HC_shallow_duplicate v :: hostLog s) s1).
    set (s3 := set_ostack (v' :: rest) s2).
    assert (W : (x <- hostcall (HC_shallow_duplicate v) (Rf_shallow_duplicate v) ;;
                 ostack_set 0 x) s = Ok tt s3).
    { rewrite (bind_Ok _ _ _ _ _ (hostcall_Ok _ _ _ _ _ Ed)). fold s2.
      rewrite ostack_set_Ok by (cbn; rewrite Eo, Hst; cbn; lia).
      unfold s3. cbn [ostack s2 set_hostLog]. rewrite Eo, Hst. reflexivity. }
    rewrite (bind_Ok _ _ _ _ _ W).
    assert (L3 : heap s3 !! v' = Some r') by exact L'.
    rewrite (bind_Ok _ _ _ _ _ (top_Ok s3 v' rest eq_refl)).
    rewrite (bind_Ok _ _ _ _ _ (NAMED_Ok _ _ _ Hv' L3)).
    rewrite (bind_Ok _ _ _ _ _ (SET_NAMED_Ok _ _ _ _ Hv' L3)). reflexivity.
Qed.

End LoadFunction.

Lemma ldfun_pushes_functions_only_witness :
  ins_ldfun_ (H := refHost) code_ldfun first_free 1 0 state_functions
  = Ok 5 (set_ostack [(3 + first_free)%nat]
            (set_hostLog [HC_findFun symbol.While first_free] state_functions)).
Proof.
  assert (T : has_type state_functions (3 + first_free)%nat BUILTINSXP).
  { split; [discriminate|]. eexists. split; reflexivity. }
  refine (proj1 (ldfun_pushes_functions_only (H := refHost) code_ldfun first_free 1 0
                   state_functions symbol.While 5 (3 + first_free)%nat state_functions
                   BUILTINSXP eq_refl eq_refl eq_refl eq_refl T) _).
  right. left. reflexivity.
Defined.

Lemma uniq_copies_shared_values_witness :
  ins_uniq_ (H := refHost) code_empty R_BaseEnv 0 0 (state_counter 1)
  = Ok 0 (set_heap (<[first_free := with_named 2 (int_scalar 1 41)]> (heap (state_counter 1)))
            (state_counter 1)).
Proof.
  refine (proj1 (uniq_copies_shared_values (H := refHost) code_empty R_BaseEnv 0 0
                   (state_counter 1) first_free [] (int_scalar 1 41) eq_refl _ eq_refl) _).
  - discriminate.
  - cbn. lia.
Defined.

(** Pass the cases of [compileSpecialCall] that do not apply. *)
Ltac skip_cases s :=
  repeat first
    [ rewrite (bind_Ok _ _ _ false s) by reflexivity; cbv beta iota
    | progress cbn [Nat.eqb symbol.Next symbol.Break symbol.For symbol.And symbol.Or
        symbol.quote quoteSym symbol.Assign symbol.Internal symbol.isnull symbol.islist
        symbol.ispairlist symbol.DoubleBracket symbol.Bracket R_Subset2Sym R_SubsetSym
        symbol.While symbol.Repeat orb] ].

Section Lowering.
Context {H : Host}.

(** A call of a symbol that [compileSpecialCall] inlines. *)
Lemma compileExpr_special fuel ctx ast st f args tg ctx' st' :
  has_type st ast LANGSXP -> cell_of st ast = Some (f, args, tg) ->
  has_type st f SYMSXP ->
  compileSpecialCall fuel (compileExpr fuel) ctx ast f args st = Ok (true, ctx') st' ->
  compileExpr (S fuel) ctx ast st = Ok ctx' st'.
Proof.
  intros Ta Ca Tf Es. cbn [compileExpr]. unfold compileExpr_body.
  rewrite (bind_Ok _ _ _ _ _ (TYPEOF_Ok _ _ _ Ta)).
  change (LANGSXP =? LANGSXP) with true. cbv iota.
  destruct Ta as [Na _].
  rewrite (bind_Ok _ _ _ _ _ (CAR_Ok _ _ _ _ _ Na Ca)), (bind_Ok _ _ _ _ _ (CDR_Ok _ _ _ _ _ Na Ca)).
  unfold compileCall. rewrite (bind_Ok _ _ _ _ _ (TYPEOF_Ok _ _ _ Tf)).
  change (SYMSXP =? SYMSXP) with true. cbv iota.
  erewrite bind_Ok; [|rewrite (bind_Ok _ _ _ _ _ Es); reflexivity]. reflexivity.
Qed.

Lemma has_length_two fuel st args a0 args2 t1 a1 t2 :
  (2 <= fuel)%nat ->
  args <> NULL -> args <> R_NilValue -> cell_of st args = Some (a0, args2, t1) ->
  args2 <> NULL -> args2 <> R_NilValue -> cell_of st args2 = Some (a1, R_NilValue, t2) ->
  has_length fuel args 2 st = Ok true st.
Proof.
  intros. unfold has_length.
  erewrite bind_Ok; [|eapply RList_length_two; eassumption]. reflexivity.
Qed.

Lemma special_logical_run (rec : Context -> SEXP -> M Context) conj ctx args st a0 a1
    ctx2 st2 ctx3 st3 items0 items1 :
  code ctx <> [] ->
  RList_at args 0 st = Ok a0 st ->
  rec (label_taken (put_items [CodeStream.ins (BC.isspecial (logical_symbol conj))] ctx)) a0 st
  = Ok ctx2 st2 ->
  appended (label_taken (put_items [CodeStream.ins (BC.isspecial (logical_symbol conj))] ctx))
           ctx2 items0 ->
  RList_at args 0 st2 = Ok a0 st2 -> RList_at args 1 st2 = Ok a1 st2 ->
  rec (put_items (logical_middle conj (next_label ctx) a0) ctx2) a1 st2 = Ok ctx3 st3 ->
  appended (put_items (logical_middle conj (next_label ctx) a0) ctx2) ctx3 items1 ->
  RList_at args 1 st3 = Ok a1 st3 ->
  exists ctx',
    special_logical rec ctx (logical_symbol conj) args (logical_branch conj)
      (logical_combine conj) st = Ok (true, ctx') st3
    /\ appended ctx ctx' (logical_code conj (next_label ctx) a0 a1 items0 items1)
    /\ function ctx' = function ctx3 /\ preserve ctx' = preserve ctx3.
Proof.
  intros Hne E0 Ea Aa E0' E1 Eb Ab E1'.
  destruct ctx as [[|[[src0 its0 nl0] lps0] rest] fn pres]; [contradiction|]. clear Hne.
  destruct ctx2 as [[|[[src2 its2 nl2] lps2] rest2] fn2 pres2]; [destruct Aa as [[] _]|].
  destruct ctx3 as [[|[[src3 its3 nl3] lps3] rest3] fn3 pres3]; [destruct Ab as [[] _]|].
  destruct Aa as [Ga La]. destruct Ab as [Gb Lb].
  unfold grew, top_loops, label_taken, put_items, next_label, set_code, logical_middle in *.
  cbn in *.
  destruct Ga as (-> & -> & -> & Na). destruct Gb as (-> & -> & -> & Nb). subst lps3 lps2.
  eexists. split; [|split; [|split]].
  - unfold special_logical. simp_ctx.
    rewrite (bind_Ok _ _ _ _ _ E0), (bind_Ok _ _ _ _ _ Ea). simp_ctx.
    rewrite (bind_Ok _ _ _ _ _ E0'). simp_ctx.
    rewrite (bind_Ok _ _ _ _ _ E1).
    rewrite <- ?app_assoc in Eb |- *. cbn [app] in Eb |- *.
    rewrite (bind_Ok _ _ _ _ _ Eb). simp_ctx.
    rewrite (bind_Ok _ _ _ _ _ E1'). simp_ctx. reflexivity.
  - split; [|reflexivity]. cbn.
    split; [reflexivity|]. split; [reflexivity|]. split; [|lia].
    unfold logical_code, logical_middle.
    repeat first [rewrite <- app_assoc | progress cbn [app]]. reflexivity.
  - reflexivity.
  - reflexivity.
Qed.

(** X18: for [a0 && a1] (and [a0 || a1]) the compiler streams into the
    code on top exactly: [isspecial_] on the operator, what it streams for
    [a0], [aslogical_] with the AST of [a0], [dup_], [brfalse_] ([brtrue_]
    for [||]) to a new label, what it streams for [a1], [aslogical_] with
    the AST of [a1], [lgl_and_] ([lgl_or_]) and the label: the second
    operand is skipped when the first decides. *)
Theorem logical_lowering fuel conj ctx ast st args tg a0 args2 t1 a1 t2 ctx2 st2 ctx3 st3 :
  code ctx <> [] -> (2 <= fuel)%nat ->
  has_type st ast LANGSXP -> cell_of st ast = Some (logical_symbol conj, args, tg) ->
  has_type st (logical_symbol conj) SYMSXP ->
  args <> NULL -> args <> R_NilValue -> cell_of st args = Some (a0, args2, t1) ->
  args2 <> NULL -> args2 <> R_NilValue -> cell_of st args2 = Some (a1, R_NilValue, t2) ->
  compileExpr fuel
    (label_taken (put_items [CodeStream.ins (BC.isspecial (logical_symbol conj))] ctx))
    a0 st = Ok ctx2 st2 ->
  RList_at args 0 st2 = Ok a0 st2 -> RList_at args 1 st2 = Ok a1 st2 ->
  compileExpr fuel (put_items (logical_middle conj (next_label ctx) a0) ctx2) a1 st2
  = Ok ctx3 st3 ->
  RList_at args 1 st3 = Ok a1 st3 ->
  exists items0 items1 ctx',
    compileExpr (S fuel) ctx ast st = Ok ctx' st3
    /\ appended ctx ctx' (logical_code conj (next_label ctx) a0 a1 items0 items1)
    /\ appended (label_taken (put_items [CodeStream.ins (BC.isspecial (logical_symbol conj))] ctx))
                ctx2 items0
    /\ appended (put_items (logical_middle conj (next_label ctx) a0) ctx2) ctx3 items1
    /\ function ctx' = function ctx3 /\ preserve ctx' = preserve ctx3.
Proof.
  intros Hne Hf Ta Ca Ts N1 N1' C1 N2 N2' C2 Ea E0' E1 Eb E1'.
  destruct (compileExpr_appends _ _ _ _ _ _ Ea) as [items0 Aa].
  destruct (compileExpr_appends _ _ _ _ _ _ Eb) as [items1 Ab].
  assert (E0 : RList_at args 0 st = Ok a0 st) by (exact (CAR_Ok _ _ _ _ _ N1 C1)).
  destruct (special_logical_run (compileExpr fuel) conj ctx args st a0 a1 ctx2 st2 ctx3 st3
              items0 items1 Hne E0 Ea Aa E0' E1 Eb Ab E1') as (ctx' & Er & A & Fn & Pr).
  exists items0, items1, ctx'. split; [|auto].
  apply (compileExpr_special fuel ctx ast st (logical_symbol conj) args tg ctx' st3 Ta Ca Ts).
  pose proof (has_length_two fuel st args a0 args2 t1 a1 t2 Hf N1 N1' C1 N2 N2' C2) as Hl.
  unfold compileSpecialCall. destruct conj; cbn [logical_symbol] in *.
  - assert (A1 : andM (ret (Nat.eqb symbol.And symbol.And)) (has_length fuel args 2) st
                 = Ok true st) by exact Hl.
    rewrite (bind_Ok _ _ _ _ _ A1). exact Er.
  - assert (A0 : andM (ret (Nat.eqb symbol.Or symbol.And)) (has_length fuel args 2) st
                 = Ok false st) by reflexivity.
    rewrite (bind_Ok _ _ _ _ _ A0).
    assert (A1 : andM (ret (Nat.eqb symbol.Or symbol.Or)) (has_length fuel args 2) st
                 = Ok true st) by exact Hl.
    rewrite (bind_Ok _ _ _ _ _ A1). exact Er.
Qed.

Lemma valid_lhs_symbol fuel st lhs : has_type st lhs SYMSXP -> valid_lhs fuel lhs st = Ok true st.
Proof.
  intros T. destruct fuel; cbn [valid_lhs];
    rewrite (bind_Ok _ _ _ _ _ (TYPEOF_Ok _ _ _ T)); reflexivity.
Qed.

(** X19: for [x <- rhs] with a symbol [x] the compiler streams
    [isspecial_] on [<-], what it streams for [rhs], [dup_], [stvar_] on [x]
    and [invisible_]: the value stays on the stack as the value of the
    assignment, and it is not printed. *)
Theorem assign_symbol_lowering fuel ctx ast st args tg x args2 t1 rhs t2 ctx2 st2 :
  code ctx <> [] -> (2 <= fuel)%nat ->
  has_type st ast LANGSXP -> cell_of st ast = Some (symbol.Assign, args, tg) ->
  has_type st symbol.Assign SYMSXP ->
  args <> NULL -> args <> R_NilValue -> cell_of st args = Some (x, args2, t1) ->
  args2 <> NULL -> args2 <> R_NilValue -> cell_of st args2 = Some (rhs, R_NilValue, t2) ->
  has_type st x SYMSXP ->
  compileExpr fuel (put_items [CodeStream.ins (BC.isspecial symbol.Assign)] ctx) rhs st
  = Ok ctx2 st2 ->
  exists rhs_items,
    compileExpr (S fuel) ctx ast st
    = Ok (put_items [CodeStream.ins BC.dup; CodeStream.ins (BC.stvar x);
                     CodeStream.ins BC.invisible] ctx2) st2
    /\ appended ctx (put_items [CodeStream.ins BC.dup; CodeStream.ins (BC.stvar x);
                                CodeStream.ins BC.invisible] ctx2)
                (assign_code x rhs_items)
    /\ appended (put_items [CodeStream.ins (BC.isspecial symbol.Assign)] ctx) ctx2 rhs_items.
Proof.
  intros Hne Hf Ta Ca Ts N1 N1' C1 N2 N2' C2 Tx Er.
  destruct (compileExpr_appends _ _ _ _ _ _ Er) as [rhs_items Ar].
  exists rhs_items.
  assert (E0 : RList_at args 0 st = Ok x st) by (exact (CAR_Ok _ _ _ _ _ N1 C1)).
  assert (E1 : RList_at args 1 st = Ok rhs st).
  { cbn [RList_at]. rewrite (bind_Ok _ _ _ _ _ (CDR_Ok _ _ _ _ _ N1 C1)).
    exact (CAR_Ok _ _ _ _ _ N2 C2). }
  assert (Ea : assertM (k <- RList_length fuel args ;; ret (k =? 2)) "args.length() == 2" st
               = Ok tt st).
  { apply assertM_true.
    rewrite (bind_Ok _ _ _ _ _ (RList_length_two _ _ _ _ _ _ _ _ Hf N1 N1' C1 N2 N2' C2)).
    reflexivity. }
  destruct ctx as [[|[[src0 its0 nl0] lps0] rest] fn pres]; [contradiction|]. clear Hne.
  destruct ctx2 as [[|[[src2 its2 nl2] lps2] rest2] fn2 pres2]; [destruct Ar as [[] _]|].
  destruct Ar as [Gr Lr].
  unfold grew, top_loops, put_items, set_code in *. cbn in *.
  destruct Gr as (-> & -> & -> & Nr). subst lps2.
  split; [|split].
  - apply (compileExpr_special fuel _ ast st symbol.Assign args tg _ st2 Ta Ca Ts).
    unfold compileSpecialCall.
    assert (A0 : andM (ret (Nat.eqb symbol.Assign symbol.And)) (has_length fuel args 2) st
                 = Ok false st) by reflexivity.
    rewrite (bind_Ok _ _ _ _ _ A0).
    assert (A1 : andM (ret (Nat.eqb symbol.Assign symbol.Or)) (has_length fuel args 2) st
                 = Ok false st) by reflexivity.
    rewrite (bind_Ok _ _ _ _ _ A1).
    assert (A2 : andM (ret (Nat.eqb symbol.Assign symbol.quote)) (has_length fuel args 1) st
                 = Ok false st) by reflexivity.
    rewrite (bind_Ok _ _ _ _ _ A2).
    change (Nat.eqb symbol.Assign symbol.Assign) with true. cbv iota.
    unfold special_Assign.
    rewrite (bind_Ok _ _ _ _ _ Ea), (bind_Ok _ _ _ _ _ E0), (bind_Ok _ _ _ _ _ E1).
    rewrite (bind_Ok _ _ _ _ _ (valid_lhs_symbol fuel st x Tx)). cbn [negb].
    simp_ctx. rewrite (bind_Ok _ _ _ _ _ (TYPEOF_Ok _ _ _ Tx)).
    change (SYMSXP =? SYMSXP) with true. cbv iota.
    rewrite (bind_Ok _ _ _ _ _ Er). simp_ctx.
    repeat first [rewrite <- app_assoc | progress cbn [app]]. reflexivity.
  - split; [|reflexivity]. cbn.
    split; [reflexivity|]. split; [reflexivity|]. split; [|lia].
    unfold assign_code. repeat first [rewrite <- app_assoc | progress cbn [app]]. reflexivity.
  - split; [|reflexivity]. cbn. auto.
Qed.

(** X20: [next] and [break] are inlined only inside a loop of the code being
    compiled, as [isspecial_] and a [br_] to the label of the innermost
    loop (its start for [next], its end for [break]).  Outside a loop, and
    for [for] and [.Internal] always, [compileSpecialCall] declines and
    streams nothing. *)
Theorem loop_jumps_inlined_in_loops fuel (rec : Context -> SEXP -> M Context) ctx ast args s c rest :
  code ctx = c :: rest ->
  (forall l ls, loops c = l :: ls ->
     compileSpecialCall fuel rec ctx ast symbol.Next R_NilValue s
     = Ok (true, put_items [CodeStream.ins (BC.isspecial symbol.Next);
                            CodeStream.ins (BC.br (next_ l))] ctx) s
     /\ compileSpecialCall fuel rec ctx ast symbol.Break R_NilValue s
        = Ok (true, put_items [CodeStream.ins (BC.isspecial symbol.Break);
                               CodeStream.ins (BC.br (break_ l))] ctx) s)
  /\ (loops c = [] ->
      compileSpecialCall fuel rec ctx ast symbol.Next args s = Ok (false, ctx) s
      /\ compileSpecialCall fuel rec ctx ast symbol.Break args s = Ok (false, ctx) s)
  /\ compileSpecialCall fuel rec ctx ast symbol.For args s = Ok (false, ctx) s
  /\ compileSpecialCall fuel rec ctx ast symbol.Internal args s = Ok (false, ctx) s.
Proof.
  intros Ec.
  destruct ctx as [[|c0 rest0] fn pres]; [discriminate|]. cbn in Ec. injection Ec as -> ->.
  destruct c as [cs0 lps]. cbn [loops].
  assert (Z0 : forall k, assertM (n <- RList_length fuel R_NilValue ;; ret (n =? 0)) k s = Ok tt s).
  { intros k. apply assertM_true. unfold RList_length. destruct fuel; reflexivity. }
  split; [|split; [|split]].
  - intros l ls ->. split.
    + unfold compileSpecialCall. skip_cases s.
      rewrite (bind_Ok _ _ _ true s) by reflexivity. cbv beta iota.
      unfold special_jump. rewrite (bind_Ok _ _ _ _ _ (Z0 _)). simp_ctx.
      rewrite <- app_assoc. reflexivity.
    + unfold compileSpecialCall. skip_cases s.
      rewrite (bind_Ok _ _ _ true s) by reflexivity. cbv beta iota.
      unfold special_jump. rewrite (bind_Ok _ _ _ _ _ (Z0 _)). simp_ctx.
      rewrite <- app_assoc. reflexivity.
  - intros ->. split; unfold compileSpecialCall; skip_cases s; reflexivity.
  - unfold compileSpecialCall; skip_cases s; reflexivity.
  - unfold compileSpecialCall; skip_cases s; reflexivity.
Qed.

(** X21: [compilePromise] compiles the expression in a code of its own:
    the code stack comes back as it was, so nothing is streamed into the
    enclosing code, and the function gets one more code at the end, whose
    source is the expression and whose last instruction is [ret_]; the index
    returned is the position of that code. *)
Theorem compilePromise_makes_code fuel ctx e s i ctx' s' :
  compilePromise (compileExpr fuel) ctx e s = Ok (i, ctx') s' ->
  code ctx' = code ctx
  /\ exists fn xs nl,
       function ctx' = fn ++ [CodeStream.mk e (xs ++ [CodeStream.ins BC.ret]) nl]
       /\ i = Z.of_nat (length fn).
Proof.
  intros E. split; [eapply compilePromise_code; [apply compileExpr_appends|exact E]|].
  unfold compilePromise in E.
  apply bind_Ok_inv in E as (c1 & s1 & E1 & E).
  apply bind_Ok_inv in E as (c2 & s2 & E2 & E).
  apply compileExpr_appends in E1 as [xs [G _]].
  apply stream_inv in E2 as (-> & -> & _).
  unfold ctx_pop in E. unfold grew, ctx_push, set_code in G. cbn [code] in G.
  destruct c1 as [[|[[src1 its1 nl1] lps1] rest1] fn1 pres1]; [contradiction|].
  cbn in G. destruct G as (-> & -> & -> & _).
  unfold put_items in E. cbn in E. apply ret_inv in E as [E _]. injection E as <- <-.
  exists fn1, xs, nl1. split; reflexivity.
Qed.

(** X22: whatever expression [compileExpr] compiles, it only appends to the
    code on top: the codes below are untouched, what was streamed before
    stays in place, labels are only handed out, and the loops open on top
    are the same at the end (every loop pushed is popped again). *)
Theorem compileExpr_only_appends fuel ctx e s ctx' s' c rest :
  compileExpr fuel ctx e s = Ok ctx' s' -> code ctx = c :: rest ->
  exists c' xs,
    code ctx' = c' :: rest
    /\ CodeStream.source (cs c') = CodeStream.source (cs c)
    /\ CodeStream.items (cs c') = CodeStream.items (cs c) ++ xs
    /\ (CodeStream.nextLabel (cs c) <= CodeStream.nextLabel (cs c'))%nat
    /\ loops c' = loops c.
Proof.
  intros E Ec. apply compileExpr_appends in E as [xs [G L]].
  unfold grew, top_loops in *. rewrite Ec in *.
  destruct (code ctx') as [|c' rest']; [contradiction|].
  destruct G as (-> & Hs & Hi & Hl). exists c', xs. auto.
Qed.

End Lowering.



Lemma logical_lowering_witness :
  exists items0 items1 ctx',
    compileExpr (H := refHost) 3 ctx_empty_code first_free state_and
    = Ok ctx' (state_of run_and_second state_and)
    /\ appended ctx_empty_code ctx'
         (logical_code true 0%nat R_TrueValue R_valueSym items0 items1)
    /\ appended (label_taken (put_items [CodeStream.ins (BC.isspecial symbol.And)] ctx_empty_code))
                (result_of run_and_first ctx_empty_code) items0
    /\ appended (put_items (logical_middle true 0%nat R_TrueValue)
                   (result_of run_and_first ctx_empty_code))
                (result_of run_and_second ctx_empty_code) items1
    /\ function ctx' = function (result_of run_and_second ctx_empty_code)
    /\ preserve ctx' = preserve (result_of run_and_second ctx_empty_code).
Proof.
  refine (logical_lowering (H := refHost) 2 true ctx_empty_code first_free state_and
            (1 + first_free)%nat R_NilValue R_TrueValue (2 + first_free)%nat R_NilValue
            R_valueSym R_NilValue
            (result_of run_and_first ctx_empty_code) (state_of run_and_first state_and)
            (result_of run_and_second ctx_empty_code) (state_of run_and_second state_and)
            _ _ _ _ _ _ _ _ _ _ _ _ _ _ _ _).
  - discriminate.
  - lia.
  - split; [discriminate|]. eexists. split; reflexivity.
  - reflexivity.
  - split; [discriminate|]. eexists. split; reflexivity.
  - discriminate.
  - discriminate.
  - reflexivity.
  - discriminate.
  - discriminate.
  - reflexivity.
  - vm_compute. reflexivity.
  - vm_compute. reflexivity.
  - vm_compute. reflexivity.
  - vm_compute. reflexivity.
  - vm_compute. reflexivity.
Defined.

Lemma assign_symbol_lowering_witness :
  exists rhs_items,
    compileExpr (H := refHost) 3 ctx_empty_code first_free state_assign
    = Ok (put_items [CodeStream.ins BC.dup; CodeStream.ins (BC.stvar R_valueSym);
                     CodeStream.ins BC.invisible] (result_of run_assign_rhs ctx_empty_code))
         (state_of run_assign_rhs state_assign)
    /\ appended ctx_empty_code
         (put_items [CodeStream.ins BC.dup; CodeStream.ins (BC.stvar R_valueSym);
                     CodeStream.ins BC.invisible] (result_of run_assign_rhs ctx_empty_code))
         (assign_code R_valueSym rhs_items)
    /\ appended (put_items [CodeStream.ins (BC.isspecial symbol.Assign)] ctx_empty_code)
                (result_of run_assign_rhs ctx_empty_code) rhs_items.
Proof.
  refine (assign_symbol_lowering (H := refHost) 2 ctx_empty_code first_free state_assign
            (1 + first_free)%nat R_NilValue R_valueSym (2 + first_free)%nat R_NilValue
            R_TrueValue R_NilValue
            (result_of run_assign_rhs ctx_empty_code) (state_of run_assign_rhs state_assign)
            _ _ _ _ _ _ _ _ _ _ _ _ _).
  - discriminate.
  - lia.
  - split; [discriminate|]. eexists. split; reflexivity.
  - reflexivity.
  - split; [discriminate|]. eexists. split; reflexivity.
  - discriminate.
  - discriminate.
  - reflexivity.
  - discriminate.
  - discriminate.
  - reflexivity.
  - split; [discriminate|]. eexists. split; reflexivity.
  - vm_compute. reflexivity.
Defined.

Lemma loop_jumps_inlined_in_loops_witness :
  compileSpecialCall (H := refHost) 1 (compileExpr (H := refHost) 1) ctx_in_loop first_free
    symbol.Break R_NilValue state_next
  = Ok (true, put_items [CodeStream.ins (BC.isspecial symbol.Break);
                         CodeStream.ins (BC.br 1%nat)] ctx_in_loop) state_next.
Proof.
  exact (proj2 (proj1 (loop_jumps_inlined_in_loops (H := refHost) 1
                         (compileExpr (H := refHost) 1) ctx_in_loop first_free R_NilValue
                         state_next _ [] eq_refl)
                  (mkLoopContext 0%nat 1%nat) [] eq_refl)).
Defined.

Lemma compilePromise_makes_code_witness :
  code (snd (result_of run_promise (0, ctx_in_loop))) = code ctx_in_loop
  /\ exists fn xs nl,
       function (snd (result_of run_promise (0, ctx_in_loop)))
       = fn ++ [CodeStream.mk R_valueSym (xs ++ [CodeStream.ins BC.ret]) nl]
       /\ fst (result_of run_promise (0, ctx_in_loop)) = Z.of_nat (length fn).
Proof.
  refine (compilePromise_makes_code (H := refHost) 2 ctx_in_loop R_valueSym state_next
            (fst (result_of run_promise (0, ctx_in_loop)))
            (snd (result_of run_promise (0, ctx_in_loop)))
            (state_of run_promise state_next) _).
  vm_compute. reflexivity.
Defined.

Lemma compileExpr_only_appends_witness :
  exists c' xs,
    code (result_of run_while ctx_while) = c' :: []
    /\ CodeStream.source (cs c') = the_while
    /\ CodeStream.items (cs c') = [] ++ xs
    /\ (0 <= CodeStream.nextLabel (cs c'))%nat
    /\ loops c' = [].
Proof.
  refine (compileExpr_only_appends (H := refHost) 3 ctx_while the_while state_while
            (result_of run_while ctx_while) (state_of run_while state_while)
            (mkCodeContext (CodeStream.create the_while) []) [] _ eq_refl).
  vm_compute. reflexivity.
Defined.

Section Entry.
Context {H : Host}.

(** X23: [evalRirCode] checks its environment before it runs anything: for
    a C NULL and for an object that is no environment it raises the error of
    the C-level eval, with the state, the value stack included, as it was. *)
Theorem evalRirCode_checks_env fuel cp env numArgs s :
  (env = NULL ->
   evalRirCode (S fuel) cp env numArgs s
   = RError "'rho' cannot be C NULL: detected in C-level eval" s)
  /\ (forall t, has_type s env t -> (t =? ENVSXP) = false ->
        evalRirCode (S fuel) cp env numArgs s = RError (rho_not_env_msg t) s).
Proof.
  split.
  - intros ->. reflexivity.
  - intros t T Ht. cbn [evalRirCode]. unfold evalRirCode_body.
    destruct T as [Hn T']. pose proof (conj Hn T' : has_type s env t) as T.
    apply Nat.eqb_neq in Hn. rewrite Hn. cbn [when].
    rewrite (bind_Ok _ _ _ tt s) by reflexivity.
    assert (E : isEnvironment env s = Ok false s).
    { unfold isEnvironment. rewrite (bind_Ok _ _ _ _ _ (TYPEOF_Ok _ _ _ T)), Ht. reflexivity. }
    rewrite (bind_Ok _ _ _ _ _ E). cbn [negb when].
    apply bind_RError. rewrite (bind_Ok _ _ _ _ _ (TYPEOF_Ok _ _ _ T)). reflexivity.
Qed.

Lemma readJumpOffset_reads_nothing c pc : reads_nothing (readJumpOffset c pc).
Proof.
  unfold readJumpOffset, read_u32.
  repeat (apply reads_nothing_bind; [try apply reads_nothing_byte_at|intros ?]);
    apply reads_nothing_ret.
Qed.

(** X24: [beginloop_] pushes the store of a new loop context that records
    the pc of its jump offset and the height of the stack.  When a [break]
    or a [next] jumps back to this context, the stack is cut back to that
    height, and execution goes on behind the loop for [break] (the pc after
    the offset plus the offset) and at the start of the loop for [next] (the
    pc after the offset). *)
Theorem loop_context_landing c env pc s off pc1 :
  readJumpOffset c pc s = Ok (off, pc1) s -> heap s <> [] ->
  exists s1,
    ins_beginloop_ c env pc s = Ok (pc1, length (heap s)) s1
    /\ ostack s1 = length (heap s) :: ostack s
    /\ forall l mask,
         0 <= (if mask =? CTXT_BREAK then pc1 + off else pc1) < codeSize c ->
         loop_landing c mask (set_ostack (l ++ ostack s1) s1)
         = Ok (if mask =? CTXT_BREAK then pc1 + off else pc1) s1.
Proof.
  intros Er Hh.
  assert (Hne : length (heap s) <> NULL) by (destruct (heap s); [contradiction|discriminate]).
  pose proof (proj2 (readJumpOffset_reads_nothing c pc _ _ _ Er)) as Er'.
  set (x := length (heap s)).
  set (k := mkRirContext 0 (Some pc)).
  set (frame := mkRCNTXT x CTXT_LOOP R_NilValue R_NilValue R_BaseEnv R_NilValue env
                  (S (length (ostack s)))).
  set (s1 := set_R_GlobalContext (frame :: R_GlobalContext s)
               (set_heap (heap s ++ [with_u (u_cntxt k)
                                       (new_sexp RAWSXP (u_cntxt (mkRirContext 0 None)))])
                  (set_ostack (x :: ostack s) s))).
  exists s1. split; [|split; [reflexivity|]].
  - unfold ins_beginloop_, alloc_cntxt_store.
    unfold bind at 1. unfold alloc at 1. fold x.
    set (s2 := set_heap _ s).
    rewrite (bind_Ok _ _ _ tt (set_ostack (x :: ostack s) s2)) by reflexivity.
    set (s3 := set_ostack _ s2).
    assert (S3 : heap s3 = heap s ++ [new_sexp RAWSXP (u_cntxt (mkRirContext 0 None))])
      by reflexivity.
    unfold set_continuation.
    rewrite (bind_Ok _ _ _ _ _ (update_fresh s3 (heap s) _ (with_u (u_cntxt k)) S3 Hne)).
    set (s4 := set_heap _ s3).
    rewrite (bind_Ok _ _ _ tt
               (set_R_GlobalContext
                  (mkRCNTXT x CTXT_LOOP R_NilValue R_NilValue R_BaseEnv R_NilValue env 0
                     :: R_GlobalContext s) s4)) by reflexivity.
    set (s5 := set_R_GlobalContext _ s4).
    unfold ostack_length. rewrite (bind_Ok _ _ _ (S (length (ostack s))) s5) by reflexivity.
    rewrite (bind_Ok _ _ _ (mkRCNTXT x CTXT_LOOP R_NilValue R_NilValue R_BaseEnv R_NilValue env 0)
               s5) by reflexivity.
    rewrite (bind_Ok _ _ _ tt s1) by reflexivity.
    rewrite (bind_Ok _ _ _ _ _ (Er' s1)). reflexivity.
  - intros l mask Hb. set (s2 := set_ostack (l ++ ostack s1) s1).
    unfold loop_landing.
    rewrite (bind_Ok _ _ _ frame s2) by reflexivity. cbn [cenddata frame].
    assert (Ec : rl_setLength (S (length (ostack s))) s2 = Ok tt s1).
    { unfold rl_setLength. cbn [ostack s2 set_ostack].
      replace (ostack s1) with (x :: ostack s) by reflexivity.
      rewrite length_app. cbn [length].
      destruct (decide _) as [_|N]; [|lia].
      replace (length l + S (length (ostack s)) - S (length (ostack s)))%nat with (length l)
        by lia.
      rewrite drop_app_length. reflexivity. }
    rewrite (bind_Ok _ _ _ _ _ Ec).
    rewrite (bind_Ok _ _ _ x s1) by reflexivity.
    assert (L : heap s1 !! x = Some (with_u (u_cntxt k)
                                       (new_sexp RAWSXP (u_cntxt (mkRirContext 0 None)))))
      by apply lookup_fresh.
    assert (T : has_type s1 x RAWSXP) by (split; [exact Hne|]; eexists; split; [exact L|reflexivity]).
    erewrite bind_Ok;
      [|apply assertM_true; rewrite (typeof_test _ _ _ (fun t => t =? RAWSXP) T); reflexivity].
    rewrite (bind_Ok _ _ _ _ _ (assert_true _ _ s1 (Nat.eqb_refl x))).
    assert (G : get_continuation x s1 = Ok k s1).
    { unfold get_continuation. rewrite (bind_Ok _ _ _ _ _ (deref_Ok _ _ _ Hne L)). reflexivity. }
    rewrite (bind_Ok _ _ _ _ _ G). cbn [saved_pc k].
    rewrite (bind_Ok _ _ _ _ _ (Er' s1)). cbn [fst snd].
    rewrite (bind_Ok _ _ _ _ _ (PC_BOUNDSCHECK_Ok c _ s1 Hb)). reflexivity.
Qed.

End Entry.

Lemma evalRirCode_checks_env_witness :
  evalRirCode (H := refHost) 1 first_free R_TrueValue 0 state_four
  = RError (rho_not_env_msg (H := refHost) LGLSXP) state_four.
Proof.
  refine (proj2 (evalRirCode_checks_env (H := refHost) 0 first_free R_TrueValue 0 state_four)
            LGLSXP _ eq_refl).
  split; [discriminate|]. eexists. split; reflexivity.
Defined.

Lemma loop_context_landing_witness :
  exists s1,
    ins_beginloop_ code_loop R_BaseEnv 1 state_four
    = Ok (5, length (heap state_four)) s1
    /\ ostack s1 = length (heap state_four) :: ostack state_four
    /\ loop_landing (H := refHost) code_loop CTXT_BREAK
         (set_ostack ([R_NilValue; R_NilValue] ++ ostack s1) s1) = Ok 12 s1.
Proof.
  destruct (loop_context_landing (H := refHost) code_loop R_BaseEnv 1 state_four 7 5 eq_refl)
    as (s1 & E & Ho & Hl); [discriminate|].
  exists s1. split; [exact E|]. split; [exact Ho|].
  apply (Hl [R_NilValue; R_NilValue] CTXT_BREAK). vm_compute. split; [discriminate|reflexivity].
Defined.

Section FunctionCodes.
Context {H : Host}.

Lemma extends_refl ctx : extends ctx ctx.
Proof. exists []. rewrite app_nil_r. reflexivity. Qed.

Lemma extends_trans a b c : extends a b -> extends b c -> extends a c.
Proof.
  intros [x Hx] [y Hy]. exists (x ++ y). rewrite Hy, Hx, app_assoc. reflexivity.
Qed.

Lemma same_function_extends a b : function b = function a -> extends a b.
Proof. intros E. exists []. rewrite app_nil_r. exact E. Qed.

Lemma put_items_function xs ctx : function (put_items xs ctx) = function ctx.
Proof. unfold put_items. destruct (code ctx); reflexivity. Qed.

Lemma stream_extends ctx x s ctx' s' : stream ctx x s = Ok ctx' s' -> extends ctx ctx'.
Proof.
  intros E. apply stream_inv in E as (_ & -> & _).
  apply same_function_extends, put_items_function.
Qed.

Lemma emit_extends ctx bc s ctx' s' : emit ctx bc s = Ok ctx' s' -> extends ctx ctx'.
Proof. apply stream_extends. Qed.

Lemma bind_label_extends ctx l s ctx' s' : bind_label ctx l s = Ok ctx' s' -> extends ctx ctx'.
Proof. apply stream_extends. Qed.

Lemma addAst_extends ctx a s ctx' s' : addAst ctx a s = Ok ctx' s' -> extends ctx ctx'.
Proof. apply stream_extends. Qed.

Lemma mkLabel_extends ctx s l ctx' s' : mkLabel ctx s = Ok (l, ctx') s' -> extends ctx ctx'.
Proof.
  intros E. apply mkLabel_inv in E as (_ & _ & c & rest & _ & _ & ->).
  apply same_function_extends. reflexivity.
Qed.

Lemma pushLoop_extends ctx n b s ctx' s' : pushLoop ctx n b s = Ok ctx' s' -> extends ctx ctx'.
Proof.
  intros E. apply pushLoop_inv in E as (_ & _ & _ & c & rest & _ & ->).
  apply same_function_extends. reflexivity.
Qed.

Lemma popLoop_extends ctx s ctx' s' : popLoop ctx s = Ok ctx' s' -> extends ctx ctx'.
Proof.
  unfold popLoop. intros E. apply bind_Ok_inv in E as (c & s1 & _ & E).
  destruct (loops c); [discriminate|].
  apply update_top_inv in E as (_ & c1 & rest1 & _ & ->).
  apply same_function_extends. reflexivity.
Qed.

End FunctionCodes.

(** Take a successful run apart into the runs of its steps, for [extends]. *)
Ltac ext_inv :=
  repeat match goal with
  | E : bind _ _ _ = Ok _ _ |- _ => apply bind_Ok_inv in E as (? & ? & ? & E)
  | E : ret _ _ = Ok _ _ |- _ => apply ret_inv in E as [? ?]; subst
  | E : (_, _) = (_, _) |- _ => injection E as ? ?; subst
  | E : out_of_fuel _ = Ok _ _ |- _ => discriminate E
  | E : undefined _ _ = Ok _ _ |- _ => discriminate E
  | E : errorcall _ _ _ = Ok _ _ |- _ => discriminate E
  | E : context [match ?p with pair _ _ => _ end] |- _ => destruct p
  | E : (if ?b then _ else _) _ = Ok _ _ |- _ => destruct b eqn:?
  | E : emit _ _ _ = Ok _ _ |- _ => apply emit_extends in E
  | E : bind_label _ _ _ = Ok _ _ |- _ => apply bind_label_extends in E
  | E : addAst _ _ _ = Ok _ _ |- _ => apply addAst_extends in E
  | E : mkLabel _ _ = Ok _ _ |- _ => apply mkLabel_extends in E
  | E : pushLoop _ _ _ _ = Ok _ _ |- _ => apply pushLoop_extends in E
  | E : popLoop _ _ = Ok _ _ |- _ => apply popLoop_extends in E
  end.

Ltac ext_chain :=
  solve [ apply extends_refl
        | eassumption
        | eapply extends_trans; [eassumption|ext_chain] ].

Section Extends.
Context {H : Host}.
Variable fuel : nat.
Variable compileExpr_rec : Context -> SEXP -> M Context.
Hypothesis rec_extends :
  forall ctx e s ctx' s', compileExpr_rec ctx e s = Ok ctx' s' -> extends ctx ctx'.

Ltac ext_rec :=
  repeat match goal with
  | E : compileExpr_rec _ _ _ = Ok _ _ |- _ => apply rec_extends in E
  end.

(** The code of a promise is added behind the codes that are there. *)
Lemma compilePromise_extends ctx e s p s' :
  compilePromise compileExpr_rec ctx e s = Ok p s' -> extends ctx (snd p).
Proof.
  unfold compilePromise. intros E.
  apply bind_Ok_inv in E as (c1 & s1 & E1 & E).
  apply bind_Ok_inv in E as (c2 & s2 & E2 & E).
  apply rec_extends in E1. apply emit_extends in E2.
  unfold ctx_pop in E. destruct (code c2) as [|c rest]; [discriminate|].
  apply ret_inv in E as [<- _]. cbn [snd].
  destruct E1 as [a1 F1], E2 as [a2 F2]. exists ((a1 ++ a2) ++ [cs c]).
  cbn [function] in *. rewrite F2, F1. cbn [ctx_push set_code function].
  rewrite <- !app_assoc. reflexivity.
Qed.

Ltac ext_promise :=
  repeat match goal with
  | E : compilePromise _ _ _ _ = Ok _ _ |- _ => apply compilePromise_extends in E; cbn [snd] in E
  end.

Lemma compile_call_args_extends n : forall ctx arg cA nm s r s',
  compile_call_args compileExpr_rec n ctx arg cA nm s = Ok r s' -> extends ctx (snd r).
Proof.
  induction n as [|n IHn]; intros ctx arg cA nm s r s' E; cbn [compile_call_args] in E.
  - destruct (Nat.eqb arg R_NilValue); [|discriminate]. ext_inv. apply extends_refl.
  - destruct (Nat.eqb arg R_NilValue); [ext_inv; apply extends_refl|].
    ext_inv; ext_promise;
      repeat match goal with
      | E : compile_call_args _ _ _ _ _ _ _ = Ok _ _ |- _ => apply IHn in E
      end; ext_chain.
Qed.

Ltac ext_call_args :=
  repeat match goal with
  | E : compile_call_args _ _ _ _ _ _ _ = Ok _ _ |- _ =>
      apply compile_call_args_extends in E; cbn [snd] in E
  end.

Lemma compileDispatch_extends ctx selector ast f args s ctx' s' :
  compileDispatch fuel compileExpr_rec ctx selector ast f args s = Ok ctx' s' ->
  extends ctx ctx'.
Proof. unfold compileDispatch. intros E. ext_inv. ext_call_args. ext_chain. Qed.

Lemma special_logical_extends ctx f args br combine s r s' :
  special_logical compileExpr_rec ctx f args br combine s = Ok r s' -> extends ctx (snd r).
Proof. unfold special_logical. intros E. ext_inv. ext_rec. cbn [snd]. ext_chain. Qed.

Lemma special_quote_extends ctx f args s r s' :
  special_quote compileExpr_rec ctx f args s = Ok r s' -> extends ctx (snd r).
Proof. unfold special_quote. intros E. ext_inv. ext_promise. cbn [snd]. ext_chain. Qed.

Lemma special_is_extends ctx f args ty s r s' :
  special_is compileExpr_rec ctx f args ty s = Ok r s' -> extends ctx (snd r).
Proof. unfold special_is. intros E. ext_inv. ext_rec. cbn [snd]. ext_chain. Qed.

Lemma special_jump_extends ctx f args tgt s r s' :
  special_jump fuel ctx f args tgt s = Ok r s' -> extends ctx (snd r).
Proof. unfold special_jump. intros E. ext_inv. cbn [snd]. ext_chain. Qed.

Lemma compile_stack_args_extends n : forall ctx arg nm k s r s',
  compile_stack_args compileExpr_rec n ctx arg nm k s = Ok r s' -> extends ctx (snd r).
Proof.
  induction n as [|n IHn]; intros ctx arg nm k s r s' E; cbn [compile_stack_args] in E.
  - destruct (Nat.eqb arg R_NilValue); [|discriminate]. ext_inv. apply extends_refl.
  - destruct (Nat.eqb arg R_NilValue); [ext_inv; apply extends_refl|].
    ext_inv; ext_promise; ext_rec;
      repeat match goal with
      | E : compile_stack_args _ _ _ _ _ _ _ = Ok _ _ |- _ => apply IHn in E
      end; ext_chain.
Qed.

Ltac ext_stack_args :=
  repeat match goal with
  | E : compile_stack_args _ _ _ _ _ _ _ = Ok _ _ |- _ =>
      apply compile_stack_args_extends in E; cbn [snd] in E
  end.

Lemma compile_getters_extends i : forall parts ctx s ctx' s',
  compile_getters fuel compileExpr_rec i parts ctx s = Ok ctx' s' -> extends ctx ctx'.
Proof.
  induction i as [|i IHi]; intros parts ctx s ctx' s' E; cbn [compile_getters] in E.
  - ext_inv. apply extends_refl.
  - ext_inv; ext_stack_args;
      repeat match goal with
      | E : compile_getters _ _ _ _ _ _ = Ok _ _ |- _ => apply IHi in E
      end; ext_chain.
Qed.

Lemma compile_setters_extends parts : forall ctx s ctx' s',
  compile_setters fuel compileExpr_rec parts ctx s = Ok ctx' s' -> extends ctx ctx'.
Proof.
  induction parts as [|g rest IHp]; intros ctx s ctx' s' E; cbn [compile_setters] in E.
  - ext_inv. apply extends_refl.
  - destruct rest as [|g' rest]; [ext_inv; apply extends_refl|].
    ext_inv; ext_stack_args;
      repeat match goal with
      | E : compile_setters _ _ _ _ _ = Ok _ _ |- _ => apply IHp in E
      end; ext_chain.
Qed.

Lemma special_Assign_extends ctx ast f args s r s' :
  special_Assign fuel compileExpr_rec ctx ast f args s = Ok r s' -> extends ctx (snd r).
Proof.
  unfold special_Assign. intros E. ext_inv; ext_rec; cbn [snd];
    repeat match goal with
    | E : compile_getters _ _ _ _ _ _ = Ok _ _ |- _ => apply compile_getters_extends in E
    | E : compile_setters _ _ _ _ _ = Ok _ _ |- _ => apply compile_setters_extends in E
    end; ext_chain.
Qed.

Lemma special_Bracket_extends ctx ast f args s r s' :
  special_Bracket fuel compileExpr_rec ctx ast f args s = Ok r s' -> extends ctx (snd r).
Proof.
  unfold special_Bracket. intros E. ext_inv; ext_rec; cbn [snd];
    repeat match goal with
    | E : compileDispatch _ _ _ _ _ _ _ _ = Ok _ _ |- _ => apply compileDispatch_extends in E
    end; ext_chain.
Qed.

Lemma special_While_extends ctx f args s r s' :
  special_While fuel compileExpr_rec ctx f args s = Ok r s' -> extends ctx (snd r).
Proof. unfold special_While. intros E. ext_inv. ext_rec. cbn [snd]. ext_chain. Qed.

Lemma special_Repeat_extends ctx f args s r s' :
  special_Repeat fuel compileExpr_rec ctx f args s = Ok r s' -> extends ctx (snd r).
Proof. unfold special_Repeat. intros E. ext_inv. ext_rec. cbn [snd]. ext_chain. Qed.

Lemma compileSpecialCall_extends ctx ast f args s r s' :
  compileSpecialCall fuel compileExpr_rec ctx ast f args s = Ok r s' -> extends ctx (snd r).
Proof.
  unfold compileSpecialCall. intros E.
  repeat match goal with
  | E : bind _ _ _ = Ok _ _ |- _ => apply bind_Ok_inv in E as (? & ? & _ & E)
  | E : (if ?b then _ else _) _ = Ok _ _ |- _ => destruct b
  end;
  eauto using special_logical_extends, special_quote_extends, special_Assign_extends,
    special_is_extends, special_Bracket_extends, special_While_extends,
    special_Repeat_extends, special_jump_extends.
  apply ret_inv in E as [<- _]. apply extends_refl.
  apply ret_inv in E as [<- _]. apply extends_refl.
Qed.

Lemma compileCall_extends ctx ast f args s ctx' s' :
  compileCall fuel compileExpr_rec ctx ast f args s = Ok ctx' s' -> extends ctx ctx'.
Proof.
  unfold compileCall. intros E. ext_inv; ext_rec; ext_call_args;
    repeat match goal with
    | E : compileSpecialCall _ _ _ _ _ _ _ = Ok _ _ |- _ =>
        apply compileSpecialCall_extends in E; cbn [snd fst] in *
    end; try ext_chain.
Qed.

Lemma compileGetvar_extends ctx name s ctx' s' :
  compileGetvar ctx name s = Ok ctx' s' -> extends ctx ctx'.
Proof. unfold compileGetvar. intros E. ext_inv; ext_chain. Qed.

Lemma compileConst_extends ctx c s ctx' s' :
  compileConst ctx c s = Ok ctx' s' -> extends ctx ctx'.
Proof. unfold compileConst. intros E. ext_inv; ext_chain. Qed.

Lemma compileExpr_body_extends ctx e s ctx' s' :
  compileExpr_body fuel compileExpr_rec ctx e s = Ok ctx' s' -> extends ctx ctx'.
Proof.
  unfold compileExpr_body. intros E. ext_inv;
    repeat match goal with
    | E : compileCall _ _ _ _ _ _ _ = Ok _ _ |- _ => apply compileCall_extends in E
    | E : compileGetvar _ _ _ = Ok _ _ |- _ => apply compileGetvar_extends in E
    | E : compileConst _ _ _ = Ok _ _ |- _ => apply compileConst_extends in E
    end; ext_chain.
Qed.

End Extends.

(** The compiler never removes or replaces a code of the function. *)
Lemma compileExpr_extends {H : Host} fuel : forall ctx e s ctx' s',
  compileExpr fuel ctx e s = Ok ctx' s' -> extends ctx ctx'.
Proof.
  induction fuel as [|n IH]; intros ctx e s ctx' s' E; [discriminate|].
  cbn [compileExpr] in E. eapply compileExpr_body_extends; [exact IH|exact E].
Qed.

Section PromiseCode.
Context {H : Host}.

(** What [compilePromise] returns, given the run of [compileExpr] on the
    expression in the fresh code: that code, closed by [ret_], is added to
    the function, its position is returned, and the code stack is the one
    before. *)
Lemma compilePromise_Ok fuel ctx e s cx s' :
  compileExpr fuel (ctx_push ctx e) e s = Ok cx s' ->
  exists xs nl,
    code cx = mkCodeContext (CodeStream.mk e xs nl) [] :: code ctx
    /\ compilePromise (compileExpr fuel) ctx e s
       = Ok (Z.of_nat (length (function cx)),
             mkContext (code ctx)
                       (function cx ++ [CodeStream.mk e (xs ++ [CodeStream.ins BC.ret]) nl])
                       (preserve cx)) s'.
Proof.
  intros E. pose proof (compileExpr_appends _ _ _ _ _ _ E) as [xs [G L]].
  unfold grew, top_loops, ctx_push, set_code in G, L. cbn [code] in G, L.
  destruct cx as [[|[[src its nl] lps] rest] fn pres]; [contradiction|].
  cbn in G, L. destruct G as (-> & -> & -> & _). subst lps.
  exists xs, nl. split; [reflexivity|].
  unfold compilePromise. rewrite (bind_Ok _ _ _ _ _ E).
  unfold emit, stream, update_top, ctx_pop, set_code, CodeStream.insert. cbn. reflexivity.
Qed.

(** The code that [compilePromise] has added: it is the last one of the
    function, behind the codes that were there, it ends with [ret_], and the
    position returned is its own. *)
Lemma compilePromise_adds fuel ctx e s i ctx' s' :
  compilePromise (compileExpr fuel) ctx e s = Ok (i, ctx') s' ->
  code ctx' = code ctx
  /\ exists added xs nl,
       function ctx'
       = (function ctx ++ added) ++ [CodeStream.mk e (xs ++ [CodeStream.ins BC.ret]) nl]
       /\ i = Z.of_nat (length (function ctx ++ added)).
Proof.
  intros E. pose proof E as E0. unfold compilePromise in E0.
  apply bind_Ok_inv in E0 as (cx & s1 & Ex & E0).
  apply bind_Ok_inv in E0 as (c2 & s2 & E2 & E0).
  apply stream_inv in E2 as (-> & _ & _). apply ctx_pop_inv in E0 as (-> & _).
  destruct (compilePromise_Ok fuel ctx e s cx _ Ex) as (xs & nl & _ & Ep).
  rewrite Ep in E. injection E as <- <-. split; [reflexivity|].
  destruct (compileExpr_extends _ _ _ _ _ _ Ex) as [added Ha]. cbn [ctx_push set_code function] in Ha.
  exists added, xs, nl. cbn [function]. rewrite Ha. split; reflexivity.
Qed.

Lemma promise_entries_mono markers fn added entries : forall n m,
  (m <= n)%nat -> promise_entries markers n fn entries ->
  promise_entries markers m (fn ++ added) entries.
Proof.
  induction entries as [|i rest IH]; intros n m Hm P; cbn [promise_entries] in *; [exact I|].
  destruct P as [[Hi P]|(k & src & xs & nl & -> & Hk & L & P)].
  - left. split; [exact Hi|]. eapply IH; eassumption.
  - right. exists k, src, xs, nl. split; [reflexivity|]. split; [lia|].
    split; [apply lookup_app_l_Some, L|]. eapply IH; [|exact P]. lia.
Qed.

End PromiseCode.

Section CallLowering.
Context {H : Host}.

(** The loop over the arguments of a call: each argument that is neither
    [...] nor missing gets a code of its own. *)
Lemma compile_call_args_promises fuel n : forall ctx arg cA nm s cA' nm' ctx' s',
  compile_call_args (compileExpr fuel) n ctx arg cA nm s = Ok (cA', nm', ctx') s' ->
  code ctx' = code ctx
  /\ extends ctx ctx'
  /\ exists entries tags,
       cA' = cA ++ entries /\ nm' = nm ++ tags /\ length entries = length tags
       /\ promise_entries [DOTS_ARG_IDX; MISSING_ARG_IDX] (length (function ctx))
            (function ctx') entries.
Proof.
  induction n as [|n IH]; intros ctx arg cA nm s cA' nm' ctx' s' E;
    cbn [compile_call_args] in E.
  - destruct (Nat.eqb arg R_NilValue); [|discriminate].
    apply ret_inv in E as [E _]. injection E as <- <- <-.
    split; [reflexivity|]. split; [apply extends_refl|].
    exists [], []. rewrite !app_nil_r. repeat split.
  - destruct (Nat.eqb arg R_NilValue).
    { apply ret_inv in E as [E _]. injection E as <- <- <-.
      split; [reflexivity|]. split; [apply extends_refl|].
      exists [], []. rewrite !app_nil_r. repeat split. }
    apply bind_Ok_inv in E as (a & s1 & _ & E).
    destruct (Nat.eqb a R_DotsSymbol).
    { apply bind_Ok_inv in E as (nx & s2 & _ & E).
      apply IH in E as (Ec & Ee & entries & tags & -> & -> & El & P).
      split; [exact Ec|]. split; [exact Ee|].
      exists (DOTS_ARG_IDX :: entries), (R_NilValue :: tags).
      rewrite <- !app_assoc. cbn [app length]. rewrite El.
      repeat split. left. split; [left; reflexivity|exact P]. }
    destruct (Nat.eqb a R_MissingArg).
    { apply bind_Ok_inv in E as (nx & s2 & _ & E).
      apply IH in E as (Ec & Ee & entries & tags & -> & -> & El & P).
      split; [exact Ec|]. split; [exact Ee|].
      exists (MISSING_ARG_IDX :: entries), (R_NilValue :: tags).
      rewrite <- !app_assoc. cbn [app length]. rewrite El.
      repeat split. left. split; [right; left; reflexivity|exact P]. }
    apply bind_Ok_inv in E as ([i c1] & s2 & Ep & E).
    apply bind_Ok_inv in E as (tg & s3 & _ & E).
    apply bind_Ok_inv in E as (nx & s4 & _ & E).
    cbn [fst snd] in E.
    apply IH in E as (Ec & [more Hm] & entries & tags & -> & -> & El & P).
    apply compilePromise_adds in Ep as (Ec1 & added & xs & nl & F1 & ->).
    split; [congruence|]. split.
    { exists ((added ++ [CodeStream.mk a (xs ++ [CodeStream.ins BC.ret]) nl]) ++ more).
      rewrite Hm, F1, <- !app_assoc. reflexivity. }
    exists (Z.of_nat (length (function ctx ++ added)) :: entries), (tg :: tags).
    rewrite <- !app_assoc. cbn [app length]. rewrite El. repeat split.
    right. exists (length (function ctx ++ added)), a, xs, nl.
    split; [reflexivity|]. split; [rewrite length_app; lia|]. split.
    + rewrite Hm, F1. apply lookup_app_l_Some. apply list_lookup_middle. reflexivity.
    + rewrite F1, length_app in P. cbn [length] in P.
      replace (S (length (function ctx ++ added)))
        with (length (function ctx ++ added) + 1)%nat by lia. exact P.
Qed.


(** The loop over the formals: each formal with a default gets a code of
    its own. *)
Lemma compileFormals_loop_promises fuel n : forall ctx arg res s res' ctx' s',
  compileFormals_loop fuel n ctx arg res s = Ok (res', ctx') s' ->
  code ctx' = code ctx
  /\ extends ctx ctx'
  /\ exists entries,
       res' = res ++ entries
       /\ promise_entries [MISSING_ARG_IDX] (length (function ctx)) (function ctx') entries.
Proof.
  induction n as [|n IH]; intros ctx arg res s res' ctx' s' E; cbn [compileFormals_loop] in E.
  - destruct (Nat.eqb arg R_NilValue); [|discriminate].
    apply ret_inv in E as [E _]. injection E as <- <-.
    split; [reflexivity|]. split; [apply extends_refl|].
    exists []. rewrite app_nil_r. repeat split.
  - destruct (Nat.eqb arg R_NilValue).
    { apply ret_inv in E as [E _]. injection E as <- <-.
      split; [reflexivity|]. split; [apply extends_refl|].
      exists []. rewrite app_nil_r. repeat split. }
    apply bind_Ok_inv in E as (a & s1 & _ & E).
    destruct (Nat.eqb a R_MissingArg).
    { apply bind_Ok_inv in E as (nx & s2 & _ & E).
      apply IH in E as (Ec & Ee & entries & -> & P).
      split; [exact Ec|]. split; [exact Ee|].
      exists (MISSING_ARG_IDX :: entries). rewrite <- !app_assoc. cbn [app].
      repeat split. left. split; [left; reflexivity|exact P]. }
    apply bind_Ok_inv in E as ([i c1] & s2 & Ep & E).
    apply bind_Ok_inv in E as (nx & s3 & _ & E).
    cbn [fst snd] in E.
    apply IH in E as (Ec & [more Hm] & entries & -> & P).
    apply compilePromise_adds in Ep as (Ec1 & added & xs & nl & F1 & ->).
    split; [congruence|]. split.
    { exists ((added ++ [CodeStream.mk a (xs ++ [CodeStream.ins BC.ret]) nl]) ++ more).
      rewrite Hm, F1, <- !app_assoc. reflexivity. }
    exists (Z.of_nat (length (function ctx ++ added)) :: entries).
    rewrite <- !app_assoc. cbn [app]. repeat split.
    right. exists (length (function ctx ++ added)), a, xs, nl.
    split; [reflexivity|]. split; [rewrite length_app; lia|]. split.
    + rewrite Hm, F1. apply lookup_app_l_Some. apply list_lookup_middle. reflexivity.
    + rewrite F1, length_app in P. cbn [length] in P.
      replace (S (length (function ctx ++ added)))
        with (length (function ctx ++ added) + 1)%nat by lia. exact P.
Qed.


End CallLowering.



Section MoreLowering.
Context {H : Host}.

Lemma has_length_one fuel st args a0 t1 :
  (1 <= fuel)%nat ->
  args <> NULL -> args <> R_NilValue -> cell_of st args = Some (a0, R_NilValue, t1) ->
  has_length fuel args 1 st = Ok true st.
Proof.
  intros Hf N1 N1' C1.
  assert (E : RList_length fuel args st = Ok 1 st).
  { unfold RList_length. destruct fuel as [|n]; [lia|]. cbn [RList_length_loop].
    destruct (Nat.eqb_spec args R_NilValue); [contradiction|].
    rewrite (bind_Ok _ _ _ _ _ (CDR_Ok _ _ _ _ _ N1 C1)).
    destruct n; reflexivity. }
  unfold has_length. rewrite (bind_Ok _ _ _ _ _ E). reflexivity.
Qed.

(** X27: [is.null(x)], [is.list(x)] and [is.pairlist(x)] are inlined as
    [isspecial_] on the function, the code of [x], and [is_] with NILSXP,
    VECSXP and LISTSXP respectively. *)
Theorem type_test_lowering fuel ctx ast st f ty args tg a0 t1 ctx2 st2 :
  In (f, ty) inlined_type_tests ->
  code ctx <> [] -> (1 <= fuel)%nat ->
  has_type st ast LANGSXP -> cell_of st ast = Some (f, args, tg) -> has_type st f SYMSXP ->
  args <> NULL -> args <> R_NilValue -> cell_of st args = Some (a0, R_NilValue, t1) ->
  compileExpr fuel (put_items [CodeStream.ins (BC.isspecial f)] ctx) a0 st = Ok ctx2 st2 ->
  exists arg_items,
    compileExpr (S fuel) ctx ast st = Ok (put_items [CodeStream.ins (BC.is_ ty)] ctx2) st2
    /\ appended ctx (put_items [CodeStream.ins (BC.is_ ty)] ctx2)
         ([CodeStream.ins (BC.isspecial f)] ++ arg_items ++ [CodeStream.ins (BC.is_ ty)])
    /\ appended (put_items [CodeStream.ins (BC.isspecial f)] ctx) ctx2 arg_items.
Proof.
  intros Hin Hne Hf Ta Ca Tf N1 N1' C1 Er.
  destruct (compileExpr_appends _ _ _ _ _ _ Er) as [arg_items Ar].
  exists arg_items.
  assert (E0 : RList_at args 0 st = Ok a0 st) by (exact (CAR_Ok _ _ _ _ _ N1 C1)).
  pose proof (has_length_one fuel st args a0 t1 Hf N1 N1' C1) as Hl.
  destruct ctx as [[|[[src0 its0 nl0] lps0] rest] fn pres]; [contradiction|]. clear Hne.
  destruct ctx2 as [[|[[src2 its2 nl2] lps2] rest2] fn2 pres2]; [destruct Ar as [[] _]|].
  destruct Ar as [Gr Lr].
  unfold grew, top_loops, put_items, set_code in *. cbn in *.
  destruct Gr as (-> & -> & -> & Nr). subst lps2.
  split; [|split].
  - apply (compileExpr_special fuel _ ast st f args tg _ st2 Ta Ca Tf).
    assert (Run : special_is (compileExpr fuel)
                    {| code := {| cs := {| CodeStream.source := src0; CodeStream.items := its0;
                                           CodeStream.nextLabel := nl0 |};
                                  loops := lps0 |} :: rest;
                       function := fn; preserve := pres |} f args ty st
                  = Ok (true,
                        {| code := {| cs := {| CodeStream.source := src0;
                                               CodeStream.items :=
                                                 ((its0 ++ [CodeStream.ins (BC.isspecial f)])
                                                    ++ arg_items) ++ [CodeStream.ins (BC.is_ ty)];
                                               CodeStream.nextLabel := nl2 |};
                                      loops := lps0 |} :: rest;
                           function := fn2; preserve := pres2 |}) st2).
    { unfold special_is. simp_ctx. rewrite (bind_Ok _ _ _ _ _ E0), (bind_Ok _ _ _ _ _ Er).
      simp_ctx. reflexivity. }
    unfold compileSpecialCall.
    destruct Hin as [E|[E|[E|[]]]]; injection E as <- <-; skip_cases st;
      (rewrite (bind_Ok _ _ _ true st) by exact Hl); cbv beta iota; exact Run.
  - split; [|reflexivity]. cbn.
    split; [reflexivity|]. split; [reflexivity|]. split; [|lia].
    repeat first [rewrite <- app_assoc | progress cbn [app]]. reflexivity.
  - split; [|reflexivity]. cbn. auto.
Qed.

(** X28: [quote(x)] is inlined as [isspecial_] on [quote] followed by
    [push_code_] of a code of its own that the compiler makes of [x] before
    it streams the two: what [compileExpr] streams for [x] goes into a fresh
    code with source [x], which is closed by [ret_] and added to the
    function, and [push_code_] carries its position.  The enclosing code
    gets the two instructions only. *)
Theorem quote_lowering fuel ctx ast st args tg a0 t1 cx st2 :
  code ctx <> [] -> (1 <= fuel)%nat ->
  has_type st ast LANGSXP -> cell_of st ast = Some (symbol.quote, args, tg) ->
  has_type st symbol.quote SYMSXP ->
  args <> NULL -> args <> R_NilValue -> cell_of st args = Some (a0, R_NilValue, t1) ->
  compileExpr fuel (ctx_push ctx a0) a0 st = Ok cx st2 ->
  exists xs nl,
    code cx = mkCodeContext (CodeStream.mk a0 xs nl) [] :: code ctx
    /\ compileExpr (S fuel) ctx ast st
       = Ok (put_items [CodeStream.ins (BC.isspecial symbol.quote);
                        CodeStream.ins (BC.push_code (Z.of_nat (length (function cx))))]
               (mkContext (code ctx)
                  (function cx ++ [CodeStream.mk a0 (xs ++ [CodeStream.ins BC.ret]) nl])
                  (preserve cx))) st2.
Proof.
  intros Hne Hf Ta Ca Tf N1 N1' C1 Ex.
  destruct (compilePromise_Ok fuel ctx a0 st cx st2 Ex) as (xs & nl & Ecx & Ep).
  exists xs, nl. split; [exact Ecx|].
  set (ctx2 := mkContext (code ctx)
                 (function cx ++ [CodeStream.mk a0 (xs ++ [CodeStream.ins BC.ret]) nl])
                 (preserve cx)) in *.
  assert (Ec : code ctx2 = code ctx) by reflexivity.
  assert (E0 : RList_at args 0 st = Ok a0 st) by (exact (CAR_Ok _ _ _ _ _ N1 C1)).
  pose proof (has_length_one fuel st args a0 t1 Hf N1 N1' C1) as Hl.
  apply (compileExpr_special fuel _ ast st symbol.quote args tg _ st2 Ta Ca Tf).
  unfold compileSpecialCall. skip_cases st.
  rewrite (bind_Ok _ _ _ true st) by exact Hl. cbv beta iota.
  unfold special_quote. rewrite (bind_Ok _ _ _ _ _ E0), (bind_Ok _ _ _ _ _ Ep).
  destruct (code ctx) as [|c2 rest2] eqn:E1; [contradiction|]. pose proof Ec as E2.
  rewrite (bind_Ok _ _ _ _ _ (emit_Ok ctx2 _ st2 c2 rest2 E2)).
  erewrite bind_Ok; [|eapply emit_Ok; erewrite put_items_code by exact E2; reflexivity].
  rewrite put_items_app. reflexivity.
Qed.

End MoreLowering.

Section Store.
Context {H : Host}.

(** X29: [stvar_] pops the value, raises its NAMED count by one unless it is
    2 already, and hands it to [defineVar] for the symbol in the current
    environment; nothing is pushed. *)
Theorem stvar_defines_and_names c env pc n s sym pc1 v rest r s3 :
  readConst c pc s = Ok (sym, pc1) s ->
  has_type s sym SYMSXP ->
  ostack s = v :: rest -> v <> NULL -> heap s !! v = Some r ->
  match u r with u_code _ => False | _ => True end ->
  0 <= sx_named (sxpinfo r) <= 2 ->
  defineVar sym v env
    (set_heap (<[v := with_named (Z.min 2 (sx_named (sxpinfo r) + 1)) r]> (heap s))
       (set_ostack rest s)) = Ok tt s3 ->
  ins_stvar_ c env pc n s
  = Ok pc1 (set_hostLog (HC_defineVar sym v env :: hostLog s) s3).
Proof.
  intros Ec Ts Hst Hv L Hc Hn Ed.
  set (s1 := set_ostack rest s).
  assert (L1 : heap s1 !! v = Some r) by exact L.
  assert (T1 : has_type s1 v (sx_type (sxpinfo r))) by (split; [exact Hv|]; exists r; auto).
  unfold ins_stvar_. rewrite (bind_Ok _ _ _ _ _ Ec). cbn [fst snd].
  erewrite bind_Ok;
    [|apply assertM_true; rewrite (typeof_test _ _ _ (fun t => t =? SYMSXP) Ts); reflexivity].
  rewrite (bind_Ok _ _ _ _ _ (pop_Ok _ _ _ Hst)). fold s1.
  assert (Ee : escape v s1 = Ok v s1).
  { apply (escaped_escape v s1 v (sx_type (sxpinfo r))); [|exact T1]. unfold escaped.
    unfold SEXP in *. rewrite L1. destruct (u r); try reflexivity. contradiction. }
  rewrite (bind_Ok _ _ _ _ _ Ee).
  assert (Ei : INCREMENT_NAMED v s1
               = Ok tt (set_heap (<[v := with_named (Z.min 2 (sx_named (sxpinfo r) + 1)) r]>
                                    (heap s)) s1)).
  { unfold INCREMENT_NAMED. rewrite (bind_Ok _ _ _ _ _ (NAMED_Ok _ _ _ Hv L1)).
    unfold NAMEDMAX. destruct (Z.eqb_spec (sx_named (sxpinfo r)) 2) as [E2|N2]; cbn [negb when].
    - unfold ret. f_equal. rewrite E2. change (Z.min 2 (2 + 1)) with 2.
      replace (with_named 2 r) with r by (destruct r as [[? ? ? ?] ? ?]; cbn in *; subst; reflexivity).
      rewrite list_insert_id by exact L. destruct s; reflexivity.
    - rewrite (SET_NAMED_Ok _ _ _ _ Hv L1). rewrite Z.mod_small by lia.
      rewrite Z.min_r by lia. reflexivity. }
  rewrite (bind_Ok _ _ _ _ _ Ei).
  rewrite (bind_Ok _ _ _ _ _ (hostcall_Ok _ _ _ _ _ Ed)). reflexivity.
Qed.

End Store.

Lemma type_test_lowering_witness :
  exists arg_items,
    compileExpr (H := refHost) 3 ctx_empty_code first_free state_islist
    = Ok (put_items [CodeStream.ins (BC.is_ VECSXP)] (result_of run_islist_arg ctx_empty_code))
         (state_of run_islist_arg state_islist)
    /\ appended ctx_empty_code
         (put_items [CodeStream.ins (BC.is_ VECSXP)] (result_of run_islist_arg ctx_empty_code))
         ([CodeStream.ins (BC.isspecial symbol.islist)] ++ arg_items
            ++ [CodeStream.ins (BC.is_ VECSXP)])
    /\ appended (put_items [CodeStream.ins (BC.isspecial symbol.islist)] ctx_empty_code)
                (result_of run_islist_arg ctx_empty_code) arg_items.
Proof.
  refine (type_test_lowering (H := refHost) 2 ctx_empty_code first_free state_islist
            symbol.islist VECSXP (1 + first_free)%nat R_NilValue R_valueSym R_NilValue
            (result_of run_islist_arg ctx_empty_code) (state_of run_islist_arg state_islist)
            _ _ _ _ _ _ _ _ _ _).
  - right. left. reflexivity.
  - discriminate.
  - lia.
  - split; [discriminate|]. eexists. split; reflexivity.
  - reflexivity.
  - split; [discriminate|]. eexists. split; reflexivity.
  - discriminate.
  - discriminate.
  - reflexivity.
  - vm_compute. reflexivity.
Defined.

Lemma quote_lowering_witness :
  compileExpr (H := refHost) 3 ctx_empty_code first_free state_quote
  = Ok (put_items [CodeStream.ins (BC.isspecial symbol.quote);
                   CodeStream.ins (BC.push_code 0)]
          (mkContext (code ctx_empty_code)
             [CodeStream.mk R_valueSym
                [CodeStream.ins (BC.ldvar R_valueSym); CodeStream.ins BC.ret] 0%nat]
             [])) state_quote.
Proof.
  destruct (quote_lowering (H := refHost) 2 ctx_empty_code first_free state_quote
              (1 + first_free)%nat R_NilValue R_valueSym R_NilValue
              (result_of run_quote_arg ctx_empty_code) state_quote)
    as (xs & nl & Ecx & E).
  - discriminate.
  - lia.
  - split; [discriminate|]. eexists. split; reflexivity.
  - reflexivity.
  - split; [discriminate|]. eexists. split; reflexivity.
  - discriminate.
  - discriminate.
  - reflexivity.
  - vm_compute. reflexivity.
  - vm_compute in Ecx. injection Ecx as <- <-. exact E.
Defined.

Lemma stvar_defines_and_names_witness :
  ins_stvar_ (H := refHost) code_stvar (S first_free) 1 0 (state_store 0)
  = Ok 5 (set_hostLog [HC_defineVar symbol.While first_free (S first_free)] state_store_defined).
Proof.
  refine (stvar_defines_and_names (H := refHost) code_stvar (S first_free) 1 0 (state_store 0)
            symbol.While 5 first_free [] (int_scalar 0 41) state_store_defined
            eq_refl _ eq_refl _ eq_refl I _ _).
  - split; [discriminate|]. eexists. split; reflexivity.
  - discriminate.
  - cbn. lia.
  - vm_compute. reflexivity.
Defined.
